(** * Voice-agent pipeline: a shallow embedding of the streaming core

    The development follows the TypeScript sources of the pipeline:

    - [Mulaw]      the G.711 mu-law encoder of [PcmToMulawTransform] and the
                   decode table of [MulawToPcmTransform];
    - [Pcm]        [Buffer] reads and writes and [resamplePCM] of the Hume and
                   OpenAI text-to-speech adapters (the two copies are the same
                   function up to parameter names), in exact arithmetic;
    - [Vad]        the energy VAD of the OpenAI batch speech-to-text adapter;
    - [Agent]      [createAgentTransform] of the voice agent;
    - [Middleware] [combineMiddleware] and [pipeThroughTransforms];
    - [Tts]        the interrupt paths of the Hume and OpenAI adapters;
    - [Telephony]  [MulawToPcmTransform] and [PcmToMulawTransform] in exact
                   arithmetic, with [Decimation] and [LoopBack] for their
                   sample view;
    - [Utterance]  the utterances of the detector;
    - [Delivery]   [streamChunks] of the OpenAI text-to-speech adapter;
    - [Wav]        [createWavHeader];
    - [HumeSession] sessions of the Hume adapter with socket events;
    - [TwilioCall] the Twilio handler, caller of the hang-up and
                   audio-complete callbacks;
    - [Conversation]  sequences of turns through the agent transform;
    - [Binary64]   the rounding of JavaScript numbers;
    - [Doubles]    [resamplePCM], [MulawToPcmTransform] and
                   [PcmToMulawTransform] with every arithmetic operation
                   rounded as the program rounds it.

    The rates of the resamplers are JavaScript numbers.  [Pcm] and
    [Telephony] compute with the exact quotient of the rates, without
    rounding; [Doubles] rounds after every operation, as the program
    does.  The two coincide when the ratio is a whole number (48 kHz
    against 16 kHz, 16 kHz against 8 kHz) and differ when the quotient of
    the rates is not a double (48 kHz against 44.1 kHz); the statements
    whose truth depends on that rounding are made on [Doubles].

    Part I holds the definitions, Part II the theorems on the behaviour
    the documentation describes, Part III further properties of the
    code. *)

From Stdlib Require Import ZArith List Lia Bool String QArith Qround Qminmax.
From Stdlib Require Import Strings.Byte Lqa Qpower Qabs.
Import ListNotations.
Local Open Scope Z_scope.

(* ================================================================== *)
(** * Part I.  Definitions                                             *)
(* ================================================================== *)

(** ** mu-law codec *)

Module Mulaw.

Definition MULAW_BIAS : Z := 0x84.
Definition MULAW_CLIP : Z := 32635.

Definition SEGMENT_TABLE : list Z :=
  [ 0; 1; 2; 2; 3; 3; 3; 3; 4; 4; 4; 4; 4; 4; 4; 4; 5; 5; 5; 5; 5; 5; 5; 5; 5; 5;
    5; 5; 5; 5; 5; 5; 6; 6; 6; 6; 6; 6; 6; 6; 6; 6; 6; 6; 6; 6; 6; 6; 6; 6; 6; 6;
    6; 6; 6; 6; 6; 6; 6; 6; 6; 6; 6; 6; 7; 7; 7; 7; 7; 7; 7; 7; 7; 7; 7; 7; 7; 7;
    7; 7; 7; 7; 7; 7; 7; 7; 7; 7; 7; 7; 7; 7; 7; 7; 7; 7; 7; 7; 7; 7; 7; 7; 7; 7;
    7; 7; 7; 7; 7; 7; 7; 7; 7; 7; 7; 7; 7; 7; 7; 7; 7; 7; 7; 7; 7; 7; 7; 7 ].

(** [absValue] of [linearToMulaw] after the clip and the bias. *)
Definition biasedMagnitude (sample : Z) : Z :=
  let absValue := if sample <? 0 then - sample else sample in
  let absValue := if absValue >? MULAW_CLIP then MULAW_CLIP else absValue in
  absValue + MULAW_BIAS.

(** [segment] of [linearToMulaw]: [SEGMENT_TABLE[(absValue >> 8) & 0x7f]].
    The index is masked to seven bits, so the lookup never leaves the table. *)
Definition segmentOf (sample : Z) : Z :=
  nth (Z.to_nat (Z.land (Z.shiftr (biasedMagnitude sample) 8) 0x7f))
      SEGMENT_TABLE 0.

Definition linearToMulaw (sample : Z) : Z :=
  let sign := if sample <? 0 then 0x80 else 0x00 in
  let absValue := biasedMagnitude sample in
  let segment := segmentOf sample in
  Z.land
    (Z.lnot (Z.lor (Z.lor sign (Z.shiftl segment 4))
                   (Z.land (Z.shiftr absValue (segment + 3)) 0x0f)))
    0xff.

(** Entry [i] of the table [MULAW_TO_LINEAR] that [MulawToPcmTransform]
    fills at load time. *)
Definition MULAW_TO_LINEAR (i : Z) : Z :=
  let mulaw := Z.land (Z.lnot i) 0xff in
  let sign := if Z.land mulaw 0x80 =? 0 then 1 else -1 in
  let exponent := Z.land (Z.shiftr mulaw 4) 0x07 in
  let mantissa := Z.land mulaw 0x0f in
  let linear := Z.shiftl (Z.shiftl mantissa 1 + 33) exponent in
  (linear - 33) * sign.

(** The reference expansion law of G.711 mu-law on the 16-bit scale (bias
    [0x84], the scale of [MULAW_BIAS] and [MULAW_CLIP]): complement the code,
    rebuild [((mantissa << 3) + 0x84) << exponent], remove the bias, restore
    the sign.  This is the law the round-trip property names; it is not a
    function of the repository. *)
Definition g711Expand (code : Z) : Z :=
  let u := Z.land (Z.lnot code) 0xff in
  let exponent := Z.land (Z.shiftr u 4) 0x07 in
  let mantissa := Z.land u 0x0f in
  let t := Z.shiftl (Z.shiftl mantissa 3 + 0x84) exponent in
  if Z.land u 0x80 =? 0 then t - 0x84 else 0x84 - t.

(** A sample with its magnitude clipped at [MULAW_CLIP]. *)
Definition clipped (sample : Z) : Z :=
  Z.max (- MULAW_CLIP) (Z.min MULAW_CLIP sample).

(** Half of the quantization step of a segment: the step is
    [2 ^ (segment + 3)]. *)
Definition halfStep (segment : Z) : Z := 2 ^ (segment + 2).

(** Every table entry brackets the biased magnitudes that select it:
    index [k] serves [256 k .. 256 k + 255], and its segment [e] has
    [2 ^ (e + 7) <= max 132 (256 k)] and [256 k + 255 < 2 ^ (e + 8)]. *)
Definition entryBrackets (k : nat) : bool :=
  let e := nth k SEGMENT_TABLE 0 in
  let lo := Z.max 132 (256 * Z.of_nat k) in
  let hi := 256 * Z.of_nat k + 255 in
  (0 <=? e) && (e <=? 7) && (2 ^ (e + 7) <=? lo) && (hi <? 2 ^ (e + 8)).

(** Packing sign, segment and mantissa into a complemented byte and taking
    the fields out again, over all 2 * 8 * 16 field values. *)
Definition pack (sign segment mantissa : Z) : Z :=
  Z.land (Z.lnot (Z.lor (Z.lor sign (Z.shiftl segment 4)) mantissa)) 0xff.

Definition fieldsSurvive (sem : Z * Z * Z) : bool :=
  let '(sign, e, m) := sem in
  let code := pack sign e m in
  let u := Z.land (Z.lnot code) 0xff in
  (0 <=? code) && (code <=? 255) && (Z.land u 0x80 =? sign)
  && (Z.land (Z.shiftr u 4) 0x07 =? e) && (Z.land u 0x0f =? m).

Definition zrange (n : nat) : list Z := map Z.of_nat (seq 0 n).

Definition allFields : list (Z * Z * Z) :=
  flat_map (fun sign =>
    flat_map (fun e => map (fun m => (sign, e, m)) (zrange 16)) (zrange 8))
    [0; 0x80].

End Mulaw.

(** ** PCM buffers and resampling *)

Module Pcm.

Definition Buffer := list byte.

Definition byteToZ (b : byte) : Z := Z.of_N (Byte.to_N b).

Definition byteOfZ (z : Z) : byte :=
  match Byte.of_N (Z.to_N (z mod 256)) with
  | Some b => b
  | None => x00
  end.

Definition isInteger (q : Q) : bool := Qeq_bool q (inject_Z (Qfloor q)).

(** [buf.readInt16LE(offset)]: a [RangeError] ([None]) unless [offset] is an
    integer with [0 <= offset <= buf.length - 2]. *)
Definition readInt16LE (buf : Buffer) (offset : Q) : option Z :=
  if isInteger offset && (0 <=? Qfloor offset)
     && (Qfloor offset + 2 <=? Z.of_nat (List.length buf))
  then
    let o := Z.to_nat (Qfloor offset) in
    let u := byteToZ (nth o buf x00) + 256 * byteToZ (nth (S o) buf x00) in
    Some (if u <? 32768 then u else u - 65536)
  else None.

(** [buf.writeInt16LE(value, offset)]: a [RangeError] unless the value is a
    16-bit signed integer and the two bytes lie inside the buffer. *)
Definition writeInt16LE (buf : Buffer) (value offset : Z) : option Buffer :=
  if (-32768 <=? value) && (value <=? 32767) && (0 <=? offset)
     && (offset + 2 <=? Z.of_nat (List.length buf))
  then
    let o := Z.to_nat offset in
    Some (firstn o buf ++ [byteOfZ value; byteOfZ (value / 256)]
            ++ skipn (o + 2) buf)
  else None.

(** [Math.round]: nearest integer, ties towards plus infinity. *)
Definition Math_round (x : Q) : Z := Qfloor (x + (1 # 2))%Q.

(** One iteration of the loop of [resamplePCM], up to the clamp.  Numbers are
    exact rationals here: the doubles of the program are exact when the
    ratio is a whole number (48000/16000 = 3 in the Hume adapter).  For
    other ratios see [Doubles.interpolateAt], which rounds as the program
    does. *)
Definition interpolateAt (input : Buffer) (ratio inputSamples : Q) (i : Z)
  : option Z :=
  let srcIndex := (inject_Z i * ratio)%Q in
  let srcIndexFloor := Qfloor srcIndex in
  let srcIndexCeil :=
    Qmin (inject_Z (srcIndexFloor + 1)) (inputSamples - 1)%Q in
  let fraction := (srcIndex - inject_Z srcIndexFloor)%Q in
  match readInt16LE input (inject_Z srcIndexFloor * 2)%Q with
  | None => None
  | Some sample1 =>
    match readInt16LE input (srcIndexCeil * 2)%Q with
    | None => None
    | Some sample2 =>
      let interpolated :=
        Math_round (inject_Z sample1
                    + (inject_Z sample2 - inject_Z sample1) * fraction)%Q in
      Some (Z.max (-32768) (Z.min 32767 interpolated))
    end
  end.

(** [for (let i = ...; i < outputSamples; i++)] with [n] iterations left. *)
Fixpoint resampleLoop (input : Buffer) (ratio inputSamples : Q)
  (n : nat) (i : Z) (output : Buffer) : option Buffer :=
  match n with
  | O => Some output
  | S n' =>
    match interpolateAt input ratio inputSamples i with
    | None => None
    | Some v =>
      match writeInt16LE output v (i * 2) with
      | None => None
      | Some output' => resampleLoop input ratio inputSamples n' (i + 1) output'
      end
    end
  end.

Definition outputSamplesOf (input : Buffer) (fromRate toRate : positive) : Z :=
  let ratio := (inject_Z (Z.pos fromRate) / inject_Z (Z.pos toRate))%Q in
  let inputSamples := (inject_Z (Z.of_nat (List.length input)) / 2)%Q in
  Qfloor (inputSamples / ratio)%Q.

(** [resamplePCM(input, fromRate, toRate)]; rates are positive integers. *)
Definition resamplePCM (input : Buffer) (fromRate toRate : positive)
  : option Buffer :=
  if (fromRate =? toRate)%positive then Some input
  else
    let ratio := (inject_Z (Z.pos fromRate) / inject_Z (Z.pos toRate))%Q in
    let inputSamples := (inject_Z (Z.of_nat (List.length input)) / 2)%Q in
    let outputSamples := Qfloor (inputSamples / ratio)%Q in
    let output := repeat x00 (Z.to_nat (outputSamples * 2)) in
    resampleLoop input ratio inputSamples (Z.to_nat outputSamples) 0 output.

(** The samples of an even-length buffer, for reading results back. *)
Definition sampleAt (buf : Buffer) (i : Z) : option Z :=
  readInt16LE buf (inject_Z (i * 2)).

Definition ratioOf (fromRate toRate : positive) : Q :=
  (inject_Z (Z.pos fromRate) / inject_Z (Z.pos toRate))%Q.

Definition inputSamplesOf (input : Buffer) : Q :=
  (inject_Z (Z.of_nat (List.length input)) / 2)%Q.

(** The value one loop iteration writes, from the two samples it reads. *)
Definition interpolated (F T : positive) (j sample1 sample2 : Z) : Z :=
  let srcIndex := (inject_Z j * ratioOf F T)%Q in
  let fraction := (srcIndex - inject_Z (Qfloor srcIndex))%Q in
  Z.max (-32768)
    (Z.min 32767
       (Math_round (inject_Z sample1
                    + (inject_Z sample2 - inject_Z sample1) * fraction)%Q)).

End Pcm.

(** ** Voice activity detection of the batch speech-to-text adapter *)

Module Vad.

Import Pcm.

(** The options of [OpenAISpeechToText] the detector reads.
    [onSpeechStartGiven] tells whether an [onSpeechStart] callback was
    passed. *)
Record Options := {
  sampleRate : Z;
  minAudioDurationMs : Q;
  vadEnergyThreshold : Q;
  vadSilenceFrames : Z;
  onSpeechStartGiven : bool
}.

Definition frameSizeMs : Z := 32.
Definition samplesPerFrame (o : Options) : Z := (sampleRate o * frameSizeMs) / 1000.
Definition bytesPerFrame (o : Options) : nat := Z.to_nat (samplesPerFrame o * 2).
Definition minSpeechFrames : nat := 4.

(** [calculateEnergy]: the mean absolute sample value, as an exact
    rational.  The loop reads at 0, 2, 4, ... while [i < frame.length - 1],
    so every read is inside the frame; an empty frame gives 0/0, the
    not-a-number ([None]). *)
Definition calculateEnergy (frame : Buffer) : option Q :=
  let sum :=
    fold_left
      (fun sum i =>
         match readInt16LE frame (inject_Z (Z.of_nat i * 2)) with
         | Some sample => sum + Z.abs sample
         | None => sum
         end)
      (seq 0 (List.length frame / 2)) 0 in
  if (List.length frame =? 0)%nat then None
  else Some (inject_Z sum / (inject_Z (Z.of_nat (List.length frame)) / 2))%Q.

(** [energy > vadEnergyThreshold]; a comparison with not-a-number is false. *)
Definition isSpeech (o : Options) (frame : Buffer) : bool :=
  match calculateEnergy frame with
  | Some energy => negb (Qle_bool energy (vadEnergyThreshold o))
  | None => false
  end.

(** The variables of the detector that decide what it emits.  The logging
    counters ([peakEnergy], [totalEnergy], [frameCount], the timestamps) and
    the partial-transcript variables are written but never read by the
    detection logic and are left out. *)
Record State := {
  audioBuffer : list Buffer;
  speechFrameCount : nat;
  silenceFrameCount : nat;
  isSpeaking : bool;
  pendingBytes : Buffer;
  speechStartSignaled : bool
}.

Definition initial : State :=
  {| audioBuffer := []; speechFrameCount := 0; silenceFrameCount := 0;
     isSpeaking := false; pendingBytes := []; speechStartSignaled := false |}.

Inductive Event :=
| SpeechStart                 (* onSpeechStart() *)
| TooShort (audio : Buffer)   (* utterance dropped by the duration check *)
| Transcribe (audio : Buffer) (* utterance sent to the transcription call *).

(** [processFrame]: the new state, whether [onSpeechStart] was called, and
    [audioData] when [speechEnded]. *)
Definition processFrame (o : Options) (st : State) (frame : Buffer)
  : State * list Event * option Buffer :=
  if isSpeech o frame then
    let count := S (speechFrameCount st) in
    let starting := negb (isSpeaking st) && (minSpeechFrames <=? count)%nat in
    let signal :=
      starting && negb (speechStartSignaled st) && onSpeechStartGiven o in
    let speaking := isSpeaking st || starting in
    ({| audioBuffer :=
          if speaking then audioBuffer st ++ [frame] else audioBuffer st;
        speechFrameCount := count;
        silenceFrameCount := 0;
        isSpeaking := speaking;
        pendingBytes := pendingBytes st;
        speechStartSignaled := speechStartSignaled st || signal |},
     if signal then [SpeechStart] else [],
     None)
  else if isSpeaking st then
    let silence := S (silenceFrameCount st) in
    let buffer := audioBuffer st ++ [frame] in
    if vadSilenceFrames o <=? Z.of_nat silence then
      ({| audioBuffer := []; speechFrameCount := 0; silenceFrameCount := 0;
          isSpeaking := false; pendingBytes := pendingBytes st;
          speechStartSignaled := false |},
       [], Some (List.concat buffer))
    else
      ({| audioBuffer := buffer;
          speechFrameCount := speechFrameCount st;
          silenceFrameCount := silence;
          isSpeaking := true;
          pendingBytes := pendingBytes st;
          speechStartSignaled := speechStartSignaled st |},
       [], None)
  else
    ({| audioBuffer := audioBuffer st;
        speechFrameCount := 0;
        silenceFrameCount := silenceFrameCount st;
        isSpeaking := false;
        pendingBytes := pendingBytes st;
        speechStartSignaled := speechStartSignaled st |},
     [], None).

(** [durationMs < minAudioDurationMs] of [transform]. *)
Definition tooShort (o : Options) (audio : Buffer) : bool :=
  let durationMs :=
    (inject_Z (Z.of_nat (List.length audio)) / 2
     / inject_Z (sampleRate o) * 1000)%Q in
  negb (Qle_bool (minAudioDurationMs o) durationMs).

(** What [transform] does with the result of [processFrame]: nothing unless
    speech ended; then the utterance is skipped when too short and otherwise
    goes to the transcription request, the only path to
    [controller.enqueue]. *)
Definition dispatch (o : Options) (result : option Buffer) : list Event :=
  match result with
  | None => []
  | Some audio => if tooShort o audio then [TooShort audio] else [Transcribe audio]
  end.

(** The [while (offset + bytesPerFrame <= combined.length)] loop of
    [transform].  With [bytesPerFrame = 0] the loop of the code never ends;
    [None] is the model running out of [fuel]. *)
Fixpoint frameLoop (o : Options) (fuel : nat) (combined : Buffer)
  (offset : nat) (st : State) (events : list Event)
  : option (State * nat * list Event) :=
  if (offset + bytesPerFrame o <=? List.length combined)%nat then
    match fuel with
    | O => None
    | S fuel' =>
      let frame := firstn (bytesPerFrame o) (skipn offset combined) in
      let '(st', evs, result) := processFrame o st frame in
      frameLoop o fuel' combined (offset + bytesPerFrame o) st'
        (events ++ evs ++ dispatch o result)
    end
  else Some (st, offset, events).

Definition withPending (st : State) (bytes : Buffer) : State :=
  {| audioBuffer := audioBuffer st;
     speechFrameCount := speechFrameCount st;
     silenceFrameCount := silenceFrameCount st;
     isSpeaking := isSpeaking st;
     pendingBytes := bytes;
     speechStartSignaled := speechStartSignaled st |}.

(** [transform(chunk, controller)]. *)
Definition transform (o : Options) (st : State) (chunk : Buffer)
  : option (State * list Event) :=
  let combined := pendingBytes st ++ chunk in
  match frameLoop o (S (List.length combined)) combined 0 st [] with
  | None => None
  | Some (st', offset, events) =>
      Some (withPending st' (skipn offset combined), events)
  end.

(** A stream of chunks through [transform], one chunk after the other. *)
Fixpoint runStream (o : Options) (st : State) (chunks : list Buffer)
  : option (State * list Event) :=
  match chunks with
  | [] => Some (st, [])
  | chunk :: rest =>
    match transform o st chunk with
    | None => None
    | Some (st', events) =>
      match runStream o st' rest with
      | None => None
      | Some (st'', events') => Some (st'', events ++ events')
      end
    end
  end.

(** [processFrame] and the dispatch of its result over a list of frames. *)
Fixpoint runFrames (o : Options) (st : State) (frames : list Buffer)
  : State * list Event :=
  match frames with
  | [] => (st, [])
  | frame :: rest =>
    let '(st', evs, result) := processFrame o st frame in
    let '(st'', events) := runFrames o st' rest in
    (st'', evs ++ dispatch o result ++ events)
  end.

(** The complete frames of a byte sequence, [size] bytes each. *)
Fixpoint chop (size fuel : nat) (bytes : Buffer) : list Buffer :=
  match fuel with
  | O => []
  | S fuel' =>
    if (size <=? List.length bytes)%nat
    then firstn size bytes :: chop size fuel' (skipn size bytes)
    else []
  end.

Definition framesOf (size : nat) (bytes : Buffer) : list Buffer :=
  chop size (List.length bytes) bytes.

(** The lengths of the maximal runs of [true] in a classification, and the
    longest of them. *)
Fixpoint longestRun (current best : nat) (flags : list bool) : nat :=
  match flags with
  | [] => Nat.max current best
  | true :: rest => longestRun (S current) best rest
  | false :: rest => longestRun 0 (Nat.max current best) rest
  end.

Definition longestSpeechBurst (o : Options) (frames : list Buffer) : nat :=
  longestRun 0 0 (map (isSpeech o) frames).

Definition isEnd (e : Event) : bool :=
  match e with SpeechStart => false | _ => true end.

(** No two [SpeechStart] events without an end of speech between them;
    [signaled] tells whether a start is already outstanding. *)
Fixpoint alternates (signaled : bool) (events : list Event) : bool :=
  match events with
  | [] => true
  | SpeechStart :: rest => negb signaled && alternates true rest
  | _ :: rest => alternates false rest
  end.

(** The bytes left over after the complete frames. *)
Definition remainder (size : nat) (bytes : Buffer) : Buffer :=
  skipn (size * List.length (framesOf size bytes)) bytes.

(** The defaults of the constructor, with an [onSpeechStart] callback. *)
Definition defaults : Options :=
  {| sampleRate := 16000; minAudioDurationMs := 500;
     vadEnergyThreshold := 500; vadSilenceFrames := 15;
     onSpeechStartGiven := true |}.

(** A frame of 512 equal samples (1024 bytes at 16 kHz), given the two
    bytes of the sample. *)
Definition tone (lo hi : byte) : Buffer :=
  List.concat (repeat [lo; hi] 512).

Definition loud1 : Buffer := tone xe8 x03.  (* samples of 1000 *)
Definition loud2 : Buffer := tone xd0 x07.  (* samples of 2000 *)
Definition loud3 : Buffer := tone xb8 x0b.  (* samples of 3000 *)
Definition loud4 : Buffer := tone xa0 x0f.  (* samples of 4000 *)
Definition quiet : Buffer := tone x0a x00.  (* samples of 10 *)

End Vad.

(** ** The agent transform *)

Module Agent.

(** The JavaScript values the transform tells apart: [undefined], [null],
    strings, and anything else. *)
Inductive JsValue :=
| JUndefined
| JNull
| JString (s : string)
| JOther (id : nat).

Definition isUndefined (v : JsValue) : bool :=
  match v with JUndefined => true | _ => false end.

Definition isNull (v : JsValue) : bool :=
  match v with JNull => true | _ => false end.

(** The properties of a streamed message the loop looks at: [content] and
    [name] when the property is present, and whether [tool_call_id] is. *)
Record Message := {
  content : option JsValue;
  tool_call_id : bool;
  name : option JsValue
}.

(** The first component of a streamed tuple: an object, or a value for which
    [chunk && typeof chunk === 'object'] is false. *)
Inductive Chunk :=
| NonObject
| Obj (m : Message).

Inductive AgentInput :=
| UserMessage (text : string)      (* { messages: [new HumanMessage(text)] } *)
| ResumeCommand (text : string)    (* new Command({ resume: text }) *).

Inductive Effect :=
| Stream (threadId : string) (input : AgentInput)  (* agent.stream(input, ...) *)
| Enqueue (text : string)                          (* controller.enqueue(text) *)
| HangUp (reason : JsValue)                        (* onHangUp(reason) *)
| GetState (threadId : string)                     (* agent.getState(...) *)
| Interrupted (value : JsValue)                    (* onInterrupt(value) *).

(** A task of the graph state with the values of its interrupts, when it
    has the property. *)
Record Task := { interrupts : option (list JsValue) }.

(** What the agent collaborator does in one turn: the tuples its stream
    yields ([None] when [agent.stream] rejects), each with the value of
    [state.stopped] the loop reads before handling it, and the [tasks] of
    the state it reports afterwards. *)
Record Turn := {
  streamed : option (list (bool * Chunk));
  tasks : option (list Task)
}.

Record Callbacks := {
  onInterruptGiven : bool;
  onHangUpGiven : bool
}.

Record State := {
  threadId : string;
  pendingInterrupt : JsValue;
  stopped : bool
}.

(** The body of [for await (const [chunk] of graphStream)]: whether the loop
    left through [break], the calls of [controller.enqueue], and
    [pendingHangUpReason] at the exit. *)
Fixpoint consume (events : list (bool * Chunk)) (pendingHangUpReason : JsValue)
  : bool * list Effect * JsValue :=
  match events with
  | [] => (false, [], pendingHangUpReason)
  | (stopNow, chunk) :: rest =>
    if stopNow then (true, [], pendingHangUpReason)
    else
      let enqueued :=
        match chunk with
        | Obj m =>
          match content m with
          | Some c =>
            if negb (tool_call_id m) then
              match c with
              | JString text =>
                  if (0 <? String.length text)%nat then [Enqueue text] else []
              | _ => []
              end
            else []
          | None => []
          end
        | NonObject => []
        end in
      let reason :=
        match chunk with
        | Obj m =>
          match name m with
          | Some (JString n) =>
              if String.eqb n "hang_up"%string
              then match content m with Some c => c | None => JUndefined end
              else pendingHangUpReason
          | _ => pendingHangUpReason
          end
        | NonObject => pendingHangUpReason
        end in
      let '(broke, effects, final) := consume rest reason in
      (broke, enqueued ++ effects, final)
  end.

(** The loop over [graphState.tasks]. *)
Fixpoint scanTasks (cb : Callbacks) (ts : list Task) (pending : JsValue)
  : JsValue * list Effect :=
  match ts with
  | [] => (pending, [])
  | task :: rest =>
    match interrupts task with
    | Some (interruptValue :: _) =>
      let '(final, effects) := scanTasks cb rest interruptValue in
      (final,
       (if onInterruptGiven cb then [Interrupted interruptValue] else [])
       ++ match interruptValue with
          | JString text => [Enqueue text]
          | _ => []
          end
       ++ effects)
    | _ => scanTasks cb rest pending
    end
  end.

(** [transform(text, controller)] of [createAgentTransform]: the state
    afterwards, the effects in order, and whether the promise resolved. *)
Definition transform (cb : Callbacks) (turn : Turn) (st : State) (text : string)
  : State * list Effect * bool :=
  if stopped st then (st, [], true)
  else
    let input :=
      if negb (isUndefined (pendingInterrupt st))
      then ResumeCommand text else UserMessage text in
    match streamed turn with
    | None =>
        ({| threadId := threadId st; pendingInterrupt := JUndefined;
            stopped := false |},
         [Stream (threadId st) input], false)
    | Some events =>
      let '(broke, enqueued, pendingHangUpReason) := consume events JNull in
      let hangUp :=
        if negb (isNull pendingHangUpReason) && onHangUpGiven cb
        then [HangUp pendingHangUpReason] else [] in
      let '(pending, interruptEffects) :=
        scanTasks cb (match tasks turn with Some ts => ts | None => [] end)
          JUndefined in
      ({| threadId := threadId st; pendingInterrupt := pending;
          stopped := broke |},
       Stream (threadId st) input :: enqueued ++ hangUp
         ++ GetState (threadId st) :: interruptEffects,
       true)
    end.

(** *** Reading a stream *)

(** The chunks the loop handles: those before the first one at which
    [state.stopped] is seen set. *)
Fixpoint consumed (events : list (bool * Chunk)) : list Chunk :=
  match events with
  | (false, chunk) :: rest => chunk :: consumed rest
  | _ => []
  end.

Definition neverStopped (events : list (bool * Chunk)) : bool :=
  forallb (fun e => negb (fst e)) events.

(** The response text of a chunk: the non-empty string content of an object
    without [tool_call_id]. *)
Definition responseText (chunk : Chunk) : list string :=
  match chunk with
  | Obj {| content := Some (JString text); tool_call_id := false |} =>
      if String.eqb text ""%string then [] else [text]
  | _ => []
  end.

Definition responseTexts (chunks : list Chunk) : list string :=
  flat_map responseText chunks.

(** The reason of a hang-up tool event: the content of a chunk named
    [hang_up]. *)
Definition hangUpEvent (chunk : Chunk) : option JsValue :=
  match chunk with
  | Obj m =>
    match name m with
    | Some (JString n) =>
        if String.eqb n "hang_up"%string
        then Some (match content m with Some c => c | None => JUndefined end)
        else None
    | _ => None
    end
  | NonObject => None
  end.

(** The reason held when the stream is over: that of the last hang-up tool
    event, [null] when there was none. *)
Definition lastHangUp (chunks : list Chunk) : JsValue :=
  fold_left
    (fun reason chunk =>
       match hangUpEvent chunk with Some r => r | None => reason end)
    chunks JNull.

Definition hangUpCall (cb : Callbacks) (reason : JsValue) : list Effect :=
  if isNull reason then []
  else if onHangUpGiven cb then [HangUp reason] else [].

Definition isHangUp (e : Effect) : bool :=
  match e with HangUp _ => true | _ => false end.

(** The first interrupt of every task that has one, in task order. *)
Definition raisedInterrupts (turn : Turn) : list JsValue :=
  flat_map
    (fun task =>
       match interrupts task with
       | Some (v :: _) => [v]
       | _ => []
       end)
    (match tasks turn with Some ts => ts | None => [] end).

Definition isStream (e : Effect) : bool :=
  match e with Stream _ _ => true | _ => false end.

Definition effectsOf (r : State * list Effect * bool) : list Effect :=
  snd (fst r).

Definition stateOf (r : State * list Effect * bool) : State :=
  fst (fst r).

(** A turn that says goodbye: two pieces of response text around the
    result of the [hang_up] tool, and no suspension afterwards. *)
Definition textChunk (text : string) : Chunk :=
  Obj {| content := Some (JString text); tool_call_id := false; name := None |}.

Definition toolResult (tool reason : string) : Chunk :=
  Obj {| content := Some (JString reason); tool_call_id := true;
         name := Some (JString tool) |}.

Definition goodbyeTurn : Turn :=
  {| streamed := Some [(false, textChunk "Thanks, "%string);
                       (false, toolResult "hang_up"%string "user is done"%string);
                       (false, textChunk "goodbye."%string)];
     tasks := Some [] |}.

(** A turn in which the agent asks for confirmation. *)
Definition confirmTurn : Turn :=
  {| streamed := Some [(false, textChunk "Let me save that."%string)];
     tasks := Some [ {| interrupts := Some [JString "Is this correct?"%string] |} ] |}.

Definition allCallbacks : Callbacks :=
  {| onInterruptGiven := true; onHangUpGiven := true |}.

Definition ready : State :=
  {| threadId := "thread-1"%string; pendingInterrupt := JUndefined;
     stopped := false |}.

Definition awaiting : State :=
  {| threadId := "thread-1"%string;
     pendingInterrupt := JString "Is this correct?"%string;
     stopped := false |}.

Definition stoppedAwaiting : State :=
  {| threadId := "thread-1"%string;
     pendingInterrupt := JString "Is this correct?"%string;
     stopped := true |}.

(** A turn whose only interrupt carries the value [undefined]. *)
Definition undefinedInterruptTurn : Turn :=
  {| streamed := Some [];
     tasks := Some [ {| interrupts := Some [JUndefined] |} ] |}.

End Agent.

(** ** Middleware composition *)

Module Middleware.

(** What a call of an event callback does to the world it acts on: it
    returns, or it throws. *)
Inductive Outcome (World : Type) :=
| Returned (w : World)
| Threw (w : World).

Arguments Returned {World} w.
Arguments Threw {World} w.

Section Hooks.

(** [TransformStream<Buffer, Buffer>], [TransformStream<string, string>]
    and the world the callbacks act on. *)
Variables BufferTransform TextTransform World : Type.

Definition Callback : Type := World -> Outcome World.

Record VoiceHooks := {
  beforeSTT : option (list BufferTransform);
  afterSTT : option (list TextTransform);
  beforeTTS : option (list TextTransform);
  afterTTS : option (list BufferTransform);
  onSpeechStart : option Callback;
  onAudioComplete : option Callback
}.

(** A middleware of the list passed to [combineMiddleware]: a standard
    agent middleware, or one that carries the [__voiceMiddleware] marker and
    [voiceHooks]. *)
Inductive AnyMiddleware :=
| AgentOnly (name : string)
| Voice (name : string) (voiceHooks : VoiceHooks).

(** The type guard; the [match] of [collect] below is this test. *)
Definition isVoiceMiddleware (m : AnyMiddleware) : bool :=
  match m with Voice _ _ => true | AgentOnly _ => false end.

(** [combined] together with the two local arrays of callbacks, as the loop
    of [combineMiddleware] builds them. *)
Record Collected := {
  c_beforeSTT : list BufferTransform;
  c_afterSTT : list TextTransform;
  c_beforeTTS : list TextTransform;
  c_afterTTS : list BufferTransform;
  c_agentMiddleware : list AnyMiddleware;
  speechStartCallbacks : list Callback;
  audioCompleteCallbacks : list Callback
}.

Definition nothing : Collected :=
  {| c_beforeSTT := []; c_afterSTT := []; c_beforeTTS := []; c_afterTTS := [];
     c_agentMiddleware := []; speechStartCallbacks := [];
     audioCompleteCallbacks := [] |}.

(** [array.push(...items)] when [items] is defined. *)
Definition pushAll {A : Type} (array : list A) (items : option (list A))
  : list A :=
  match items with Some l => array ++ l | None => array end.

(** [array.push(item)] when [item] is defined. *)
Definition pushOne {A : Type} (array : list A) (item : option A) : list A :=
  match item with Some x => array ++ [x] | None => array end.

(** The body of [for (const middleware of middlewares)]. *)
Definition collect (acc : Collected) (m : AnyMiddleware) : Collected :=
  match m with
  | AgentOnly _ =>
    {| c_beforeSTT := c_beforeSTT acc; c_afterSTT := c_afterSTT acc;
       c_beforeTTS := c_beforeTTS acc; c_afterTTS := c_afterTTS acc;
       c_agentMiddleware := c_agentMiddleware acc ++ [m];
       speechStartCallbacks := speechStartCallbacks acc;
       audioCompleteCallbacks := audioCompleteCallbacks acc |}
  | Voice _ h =>
    {| c_beforeSTT := pushAll (c_beforeSTT acc) (beforeSTT h);
       c_afterSTT := pushAll (c_afterSTT acc) (afterSTT h);
       c_beforeTTS := pushAll (c_beforeTTS acc) (beforeTTS h);
       c_afterTTS := pushAll (c_afterTTS acc) (afterTTS h);
       c_agentMiddleware := c_agentMiddleware acc ++ [m];
       speechStartCallbacks :=
         pushOne (speechStartCallbacks acc) (onSpeechStart h);
       audioCompleteCallbacks :=
         pushOne (audioCompleteCallbacks acc) (onAudioComplete h) |}
  end.

(** [for (const callback of callbacks) callback()]: the callbacks called, in
    the order of the calls, and how the loop ends.  A callback that throws
    ends the loop: there is no handler around the call. *)
Fixpoint fire (callbacks : list Callback) (w : World)
  : list Callback * Outcome World :=
  match callbacks with
  | [] => ([], Returned w)
  | callback :: rest =>
    match callback w with
    | Returned w' =>
        let '(called, outcome) := fire rest w' in (callback :: called, outcome)
    | Threw w' => ([callback], Threw w')
    end
  end.

(** The arrow function stored in [combined.onSpeechStart] and
    [combined.onAudioComplete]. *)
Definition combinedCallback (callbacks : list Callback) : Callback :=
  fun w => snd (fire callbacks w).

Record CombinedVoiceHooks := {
  combinedBeforeSTT : list BufferTransform;
  combinedAfterSTT : list TextTransform;
  combinedBeforeTTS : list TextTransform;
  combinedAfterTTS : list BufferTransform;
  combinedOnSpeechStart : option Callback;
  combinedOnAudioComplete : option Callback;
  agentMiddleware : list AnyMiddleware
}.

Definition merged (callbacks : list Callback) : option Callback :=
  match callbacks with
  | [] => None
  | _ :: _ => Some (combinedCallback callbacks)
  end.

Definition combineMiddleware (middlewares : list AnyMiddleware)
  : CombinedVoiceHooks :=
  let acc := fold_left collect middlewares nothing in
  {| combinedBeforeSTT := c_beforeSTT acc;
     combinedAfterSTT := c_afterSTT acc;
     combinedBeforeTTS := c_beforeTTS acc;
     combinedAfterTTS := c_afterTTS acc;
     combinedOnSpeechStart := merged (speechStartCallbacks acc);
     combinedOnAudioComplete := merged (audioCompleteCallbacks acc);
     agentMiddleware := c_agentMiddleware acc |}.

(** What one middleware contributes to a seam, and the callback it
    registers for an event. *)
Definition contribution {A : Type} (seam : VoiceHooks -> option (list A))
  (m : AnyMiddleware) : list A :=
  match m with
  | Voice _ h => match seam h with Some l => l | None => [] end
  | AgentOnly _ => []
  end.

Definition registration (event : VoiceHooks -> option Callback)
  (m : AnyMiddleware) : list Callback :=
  match m with
  | Voice _ h => match event h with Some c => [c] | None => [] end
  | AgentOnly _ => []
  end.

(** Calling the callbacks one after the other, each returning. *)
Inductive AllReturn : list Callback -> World -> World -> Prop :=
| AllReturn_nil (w : World) : AllReturn [] w w
| AllReturn_cons (callback : Callback) (rest : list Callback)
    (w w1 w2 : World) :
    callback w = Returned w1 -> AllReturn rest w1 w2 ->
    AllReturn (callback :: rest) w w2.

End Hooks.

Section Pipe.

(** [ReadableStream<T>], [TransformStream<T, T>] and [stream.pipeThrough]. *)
Variables Stream Transform : Type.
Variable pipeThrough : Stream -> Transform -> Stream.

Definition pipeThroughTransforms (stream : Stream) (transforms : list Transform)
  : Stream :=
  fold_left pipeThrough transforms stream.

End Pipe.

Arguments beforeSTT {BufferTransform TextTransform World} v.
Arguments afterSTT {BufferTransform TextTransform World} v.
Arguments beforeTTS {BufferTransform TextTransform World} v.
Arguments afterTTS {BufferTransform TextTransform World} v.
Arguments onSpeechStart {BufferTransform TextTransform World} v.
Arguments onAudioComplete {BufferTransform TextTransform World} v.
Arguments AgentOnly {BufferTransform TextTransform World} name.
Arguments Voice {BufferTransform TextTransform World} name voiceHooks.
Arguments collect {BufferTransform TextTransform World} acc m.
Arguments nothing {BufferTransform TextTransform World}.
Arguments c_beforeSTT {BufferTransform TextTransform World} c.
Arguments c_afterSTT {BufferTransform TextTransform World} c.
Arguments c_beforeTTS {BufferTransform TextTransform World} c.
Arguments c_afterTTS {BufferTransform TextTransform World} c.
Arguments c_agentMiddleware {BufferTransform TextTransform World} c.
Arguments speechStartCallbacks {BufferTransform TextTransform World} c.
Arguments audioCompleteCallbacks {BufferTransform TextTransform World} c.
Arguments fire {World} callbacks w.
Arguments combinedCallback {World} callbacks w.
Arguments merged {World} callbacks.
Arguments combineMiddleware {BufferTransform TextTransform World} middlewares.
Arguments combinedBeforeSTT {BufferTransform TextTransform World} c.
Arguments combinedAfterSTT {BufferTransform TextTransform World} c.
Arguments combinedBeforeTTS {BufferTransform TextTransform World} c.
Arguments combinedAfterTTS {BufferTransform TextTransform World} c.
Arguments combinedOnSpeechStart {BufferTransform TextTransform World} c.
Arguments combinedOnAudioComplete {BufferTransform TextTransform World} c.
Arguments agentMiddleware {BufferTransform TextTransform World} c.
Arguments contribution {BufferTransform TextTransform World A} seam m.
Arguments registration {BufferTransform TextTransform World} event m.
Arguments AllReturn {World} _ _ _.
Arguments pipeThroughTransforms {Stream Transform} pipeThrough stream transforms.

(** Callbacks on a log of names: one that writes its name and returns, one
    that writes its name and throws. *)
Definition say (who : string) : Callback (list string) :=
  fun log => Returned (log ++ [who]).

Definition failing (who : string) : Callback (list string) :=
  fun log => Threw (log ++ [who]).

(** Transforms stand for themselves as numbers. *)
Definition voice (who : string) (pre post : list nat)
  (start : option (Callback (list string)))
  : AnyMiddleware nat nat (list string) :=
  Voice who
    {| beforeSTT := None; afterSTT := Some post; beforeTTS := Some pre;
       afterTTS := None; onSpeechStart := start; onAudioComplete := None |}.

(** A voice middleware that only listens to the two events. *)
Definition listener (who : string)
  (start complete : option (Callback (list string)))
  : AnyMiddleware nat nat (list string) :=
  Voice who
    {| beforeSTT := None; afterSTT := None; beforeTTS := None;
       afterTTS := None; onSpeechStart := start;
       onAudioComplete := complete |}.

(** [stream.pipeThrough(transform)] on a stream that records the transforms
    it has been piped through, in the order of the piping. *)
Definition recordPipe {Transform : Type} (piped : list Transform)
  (transform : Transform) : list Transform :=
  piped ++ [transform].

End Middleware.

(** ** Interrupting speech synthesis *)

Module Tts.

(** The delay of the [setTimeout] that clears the interrupt flag. *)
Definition cooldownMs : Z := 100.

(** *** Hume adapter *)

Module Hume.

(** The closure variables of the constructor of [HumeTextToSpeech].  A
    socket is known by the number of the connection that opened it;
    [connectionPromise] is [Some true] for a resolved promise and
    [Some false] for a rejected one; [closeResolve] tells whether a resolver
    is stored; [timers] holds the due times of the pending callbacks that
    clear [isInterrupted]; [connections] counts the sockets created. *)
Record State := {
  ws : option nat;
  connectionPromise : option bool;
  closeResolve : bool;
  isShuttingDown : bool;
  isInterrupted : bool;
  timers : list Z;
  connections : nat
}.

Inductive Effect :=
| WsClose (socket : nat)               (* ws.close() *)
| CloseResolved                        (* closeResolve() *)
| OnInterrupt                          (* onInterrupt() *)
| Connect (socket : nat)               (* new WebSocket(url) *)
| Send (socket : nat) (text : string)  (* the voice message and the flush *)
| Failed (text : string)               (* the error or warning branch *).

Definition initial : State :=
  {| ws := None; connectionPromise := None; closeResolve := false;
     isShuttingDown := false; isInterrupted := false; timers := [];
     connections := 0 |}.

(** [interruptTTS], called at time [now].  The [close] event that the
    closed socket raises later (it calls [onAudioComplete]) is not part of
    this function and is not modelled. *)
Definition interruptTTS (onInterruptGiven : bool) (now : Z) (st : State)
  : State * list Effect :=
  if isInterrupted st then (st, [])
  else
    ({| ws := None; connectionPromise := None; closeResolve := false;
        isShuttingDown := isShuttingDown st; isInterrupted := true;
        timers := timers st ++ [now + cooldownMs];
        connections := connections st |},
     match ws st with Some socket => [WsClose socket] | None => [] end
     ++ (if closeResolve st then [CloseResolved] else [])
     ++ (if onInterruptGiven then [OnInterrupt] else [])).

(** The timer callbacks due by [now] run: each clears [isInterrupted]. *)
Definition elapse (now : Z) (st : State) : State :=
  let due := filter (fun t => t <=? now) (timers st) in
  {| ws := ws st; connectionPromise := connectionPromise st;
     closeResolve := closeResolve st; isShuttingDown := isShuttingDown st;
     isInterrupted :=
       match due with [] => isInterrupted st | _ :: _ => false end;
     timers := filter (fun t => negb (t <=? now)) (timers st);
     connections := connections st |}.

(** [transform(text)] run to its end: [ensureConnection], then the two
    sends.  [opens] tells whether a socket created here reaches the open
    state; an open socket is taken to stay open until the adapter closes
    it. *)
Definition transform (opens : bool) (text : string) (st : State)
  : State * list Effect :=
  if isShuttingDown st || isInterrupted st then (st, [])
  else
    match ws st, connectionPromise st with
    | Some socket, _ => (st, [Send socket text])
    | None, Some false => (st, [Failed text])
    | None, _ =>
      let socket := connections st in
      if opens then
        ({| ws := Some socket; connectionPromise := Some true;
            closeResolve := true; isShuttingDown := false;
            isInterrupted := false; timers := timers st;
            connections := S socket |},
         [Connect socket; Send socket text])
      else
        ({| ws := None; connectionPromise := Some false;
            closeResolve := true; isShuttingDown := false;
            isInterrupted := false; timers := timers st;
            connections := S socket |},
         [Connect socket; Failed text])
    end.

End Hume.

(** *** OpenAI adapter *)

Module OpenAI.

(** [instance.isInterrupted] and the due times of the pending callbacks
    that clear it. *)
Record State := {
  isInterrupted : bool;
  timers : list Z
}.

Inductive Effect :=
| Logged                        (* the console.log of interrupt() *)
| OnInterrupt                   (* onInterrupt() *)
| Synthesized (text : string)   (* the speech request and its chunks *)
| AudioComplete                 (* onAudioComplete() *).

Definition initial : State := {| isInterrupted := false; timers := [] |}.

(** [interrupt()], called at time [now]: no test of the flag, a new timer
    on every call. *)
Definition interrupt (now : Z) (st : State) : State * list Effect :=
  ({| isInterrupted := true; timers := timers st ++ [now + cooldownMs] |},
   [Logged]).

Definition elapse (now : Z) (st : State) : State :=
  let due := filter (fun t => t <=? now) (timers st) in
  {| isInterrupted :=
       match due with [] => isInterrupted st | _ :: _ => false end;
     timers := filter (fun t => negb (t <=? now)) (timers st) |}.

(** [transform(text, controller)] when the request succeeds and no
    interrupt arrives while it is awaited. *)
Definition transform (onInterruptGiven onAudioCompleteGiven : bool)
  (text : string) (st : State) : State * list Effect :=
  if isInterrupted st
  then (st, if onInterruptGiven then [OnInterrupt] else [])
  else (st, Synthesized text
            :: if onAudioCompleteGiven then [AudioComplete] else []).

(** What reaches the adapter, and when. *)
Inductive Action :=
| Interrupt
| Text (text : string).

(** A schedule of timed actions, in order of time; the timers due before
    an action run first. *)
Fixpoint run (schedule : list (Z * Action)) (st : State)
  : State * list Effect :=
  match schedule with
  | [] => (st, [])
  | (now, action) :: rest =>
    let st0 := elapse now st in
    let '(st1, effects) :=
      match action with
      | Interrupt => interrupt now st0
      | Text text => transform true true text st0
      end in
    let '(st2, effects') := run rest st1 in
    (st2, effects ++ effects')
  end.

(** The effects that are not the log line of [interrupt]. *)
Definition observable (effects : list Effect) : list Effect :=
  filter (fun e => match e with Logged => false | _ => true end) effects.

End OpenAI.

End Tts.

(** ** The telephony transforms *)

Module Telephony.

Import Mulaw Pcm.

(** A value as an [Int16Array] stores it. *)
Definition toInt16 (z : Z) : Z := (z + 32768) mod 65536 - 32768.

(** [MULAW_TO_LINEAR[i]] as read back from the [Int16Array]. *)
Definition tableEntry (i : Z) : Z := toInt16 (MULAW_TO_LINEAR i).

(** The loop of [MulawToPcmTransform.transform] with [n] iterations left.
    [chunk[srcIndex]] outside the chunk is [undefined], the table lookup
    with it is [undefined] too, and [writeInt16LE(undefined, ...)] throws
    ([None]). *)
Fixpoint decodeLoop (upsampleRatio : Q) (chunk : Buffer) (n : nat) (i : Z)
  (output : Buffer) : option Buffer :=
  match n with
  | O => Some output
  | S n' =>
    let srcIndex := Qfloor (inject_Z i / upsampleRatio)%Q in
    if srcIndex <? 0 then None
    else
      match nth_error chunk (Z.to_nat srcIndex) with
      | None => None
      | Some mulawByte =>
        let pcmValue := tableEntry (byteToZ mulawByte) in
        match writeInt16LE output pcmValue (i * 2) with
        | None => None
        | Some output' => decodeLoop upsampleRatio chunk n' (i + 1) output'
        end
      end
  end.

Definition upsampleRatioOf (targetSampleRate : positive) : Q :=
  (inject_Z (Z.pos targetSampleRate) / 8000)%Q.

(** [transform(chunk, controller)] of [MulawToPcmTransform]: the buffer it
    enqueues. *)
Definition mulawToPcm (targetSampleRate : positive) (chunk : Buffer)
  : option Buffer :=
  let upsampleRatio := upsampleRatioOf targetSampleRate in
  let mulawSamples := Z.of_nat (List.length chunk) in
  let outputSamples := Qfloor (inject_Z mulawSamples * upsampleRatio)%Q in
  decodeLoop upsampleRatio chunk (Z.to_nat outputSamples) 0
    (repeat x00 (Z.to_nat (outputSamples * 2))).

(** The loop of [PcmToMulawTransform.transform] with [n] iterations left:
    the accumulator and the array of codes at the end. *)
Fixpoint encodeLoop (downsampleRatio : Q) (chunk : Buffer) (n : nat) (i : Z)
  (accumulator : Q) (outputSamples : list Z) : option (Q * list Z) :=
  match n with
  | O => Some (accumulator, outputSamples)
  | S n' =>
    let accumulator := (accumulator + 1)%Q in
    if Qle_bool downsampleRatio accumulator then
      match readInt16LE chunk (inject_Z (i * 2)) with
      | None => None
      | Some pcmValue =>
          encodeLoop downsampleRatio chunk n' (i + 1)
            (accumulator - downsampleRatio)%Q
            (outputSamples ++ [linearToMulaw pcmValue])
      end
    else encodeLoop downsampleRatio chunk n' (i + 1) accumulator outputSamples
  end.

Definition downsampleRatioOf (sourceSampleRate : positive) : Q :=
  (inject_Z (Z.pos sourceSampleRate) / 8000)%Q.

(** [transform(chunk, controller)] of [PcmToMulawTransform] for a given
    value of the closure variable [accumulator]: its new value and the
    buffer enqueued, if any ([Buffer.from] of the codes). *)
Definition pcmToMulaw (sourceSampleRate : positive) (accumulator : Q)
  (chunk : Buffer) : option (Q * option Buffer) :=
  let pcmSamples := (List.length chunk / 2)%nat in
  match encodeLoop (downsampleRatioOf sourceSampleRate) chunk pcmSamples 0
          accumulator [] with
  | None => None
  | Some (accumulator', outputSamples) =>
      Some (accumulator',
            match outputSamples with
            | [] => None
            | _ :: _ => Some (map byteOfZ outputSamples)
            end)
  end.

(** The bytes a transform call puts on its output. *)
Definition enqueuedBytes (r : option Buffer) : Buffer :=
  match r with Some b => b | None => [] end.

(** A stream of chunks through [PcmToMulawTransform]: the bytes enqueued,
    in order, and the accumulator at the end. *)
Fixpoint pcmToMulawStream (sourceSampleRate : positive) (accumulator : Q)
  (chunks : list Buffer) : option (Q * Buffer) :=
  match chunks with
  | [] => Some (accumulator, [])
  | chunk :: rest =>
    match pcmToMulaw sourceSampleRate accumulator chunk with
    | None => None
    | Some (accumulator', out) =>
      match pcmToMulawStream sourceSampleRate accumulator' rest with
      | None => None
      | Some (final, bytes) => Some (final, enqueuedBytes out ++ bytes)
      end
    end
  end.

(** The code of every second sample, starting with the second. *)
Fixpoint everySecond (samples : list Z) : list Z :=
  match samples with
  | _ :: s :: rest => s :: everySecond rest
  | _ => []
  end.

(** The sample values of a buffer; a last odd byte is not a sample. *)
Fixpoint samplesOf (buf : Buffer) : list Z :=
  match buf with
  | lo :: hi :: rest =>
      (let u := byteToZ lo + 256 * byteToZ hi in
       if u <? 32768 then u else u - 65536) :: samplesOf rest
  | _ => []
  end.

(** All sixteen-bit samples and all codes, for exhaustive checks. *)
Definition allCodes : list Z := zrange 256.

Definition codeFacts (code : Z) : bool :=
  (-8031 <=? MULAW_TO_LINEAR code) && (MULAW_TO_LINEAR code <=? 8031)
  && (tableEntry code =? MULAW_TO_LINEAR code)
  && (MULAW_TO_LINEAR (Z.lxor code 0x80) =? - MULAW_TO_LINEAR code)
  && (4 * MULAW_TO_LINEAR code =? g711Expand code).

Definition codeRoundTrip (code : Z) : bool :=
  if code =? 0x7f then linearToMulaw (g711Expand code) =? 0xff
  else (linearToMulaw (g711Expand code) =? code)
       && (linearToMulaw (4 * MULAW_TO_LINEAR code) =? code).

(** The [n] integers from [lo] on. *)
Fixpoint zfrom (lo : Z) (n : nat) : list Z :=
  match n with
  | O => []
  | S n' => lo :: zfrom (lo + 1) n'
  end.

Definition stepMonotone (x : Z) : bool :=
  g711Expand (linearToMulaw x) <=? g711Expand (linearToMulaw (x + 1)).

Definition signSymmetric (x : Z) : bool :=
  (linearToMulaw (- x) =? linearToMulaw x - 128)
  && (128 <=? linearToMulaw x) && (linearToMulaw x <=? 255).

End Telephony.

(** ** The sample view of [PcmToMulawTransform] *)

Module Decimation.

(** What the accumulator of [PcmToMulawTransform] selects from a list of
    samples: one more sample is counted, and it is kept when the count has
    reached the ratio. *)
Fixpoint decimate (downsampleRatio accumulator : Q) (samples : list Z)
  : Q * list Z :=
  match samples with
  | [] => (accumulator, [])
  | sample :: rest =>
    let accumulator := (accumulator + 1)%Q in
    if Qle_bool downsampleRatio accumulator then
      let '(final, kept) :=
        decimate downsampleRatio (accumulator - downsampleRatio)%Q rest in
      (final, sample :: kept)
    else decimate downsampleRatio accumulator rest
  end.

(** Every second sample starting with the first. *)
Definition everySecondFromFirst (samples : list Z) : list Z :=
  match samples with
  | [] => []
  | s :: rest => s :: Telephony.everySecond rest
  end.

(** The bytes [Buffer.from] makes of the codes of a list of samples. *)
Definition encoded (samples : list Z) : Pcm.Buffer :=
  map (fun s => Pcm.byteOfZ (Mulaw.linearToMulaw s)) samples.

End Decimation.

(** ** Telephone audio through both transforms *)

Module LoopBack.

Import Mulaw Telephony.

(** A code decoded by the table of [MulawToPcmTransform] and encoded again
    by [linearToMulaw]. *)
Definition loopBackCode (code : Z) : Z := linearToMulaw (MULAW_TO_LINEAR code).

Definition loopBackFacts (code : Z) : bool :=
  (Z.eqb (loopBackCode code) code || negb (code =? 0xff))
  && (negb (Z.eqb (loopBackCode code) code) || (code =? 0xff))
  && (Z.abs (g711Expand (loopBackCode code)) <=? Z.abs (g711Expand code)).

End LoopBack.

(** ** The utterances of the detector *)

Module Utterance.

Import Pcm Vad.

(** The audio of an event that ends an utterance. *)
Definition utteranceOf (e : Event) : option Buffer :=
  match e with
  | SpeechStart => None
  | TooShort audio => Some audio
  | Transcribe audio => Some audio
  end.

(** The least number of frames of an utterance: the frame that starts it
    and the silent frames that end it. *)
Definition minUtteranceFrames (o : Options) : Z :=
  1 + Z.max 1 (vadSilenceFrames o).

(** While speaking, the buffer holds a frame more than the silent frames
    counted. *)
Definition buffered (o : Options) (st : State) : Prop :=
  isSpeaking st = true ->
  (1 + Z.of_nat (silenceFrameCount st)) * Z.of_nat (bytesPerFrame o)
  <= Z.of_nat (List.length (List.concat (audioBuffer st))).

(** The defaults with a threshold no frame can exceed. *)
Definition deaf : Options :=
  {| sampleRate := 16000; minAudioDurationMs := 500;
     vadEnergyThreshold := 32768; vadSilenceFrames := 15;
     onSpeechStartGiven := true |}.

(** A sample rate below 32 Hz: [samplesPerFrame] is zero. *)
Definition slow : Options :=
  {| sampleRate := 31; minAudioDurationMs := 500;
     vadEnergyThreshold := 500; vadSilenceFrames := 15;
     onSpeechStartGiven := true |}.

End Utterance.

(** ** Delivery of synthesized audio *)

Module Delivery.

Import Pcm.

Definition chunkSize : nat := 4096.

(** [buffer.subarray(start, end)] for [start <= end <= buffer.length]. *)
Definition subarray (buffer : Buffer) (start finish : nat) : Buffer :=
  firstn (finish - start) (skipn start buffer).

(** The loop of [streamChunks] (and of the older [transform], which has it
    inline) from offset [i], for a chunk size [size]: the chunks enqueued
    and the value returned.  [checkInterrupt] is absent or tells, for the
    [k]-th time it is asked, whether the adapter is interrupted.  [None] is
    the model running out of [fuel]. *)
Fixpoint streamChunksFrom (size fuel : nat) (buffer : Buffer)
  (checkInterrupt : option (nat -> bool)) (i k : nat)
  : option (list Buffer * bool) :=
  if (i <? List.length buffer)%nat then
    match fuel with
    | O => None
    | S fuel' =>
      if match checkInterrupt with Some check => check k | None => false end
      then Some ([], false)
      else
        let chunk :=
          subarray buffer i (Nat.min (i + size) (List.length buffer)) in
        match streamChunksFrom size fuel' buffer checkInterrupt (i + size) (S k)
        with
        | None => None
        | Some (chunks, completed) => Some (chunk :: chunks, completed)
        end
    end
  else Some ([], true).

Definition streamChunks (buffer : Buffer)
  (checkInterrupt : option (nat -> bool)) : option (list Buffer * bool) :=
  streamChunksFrom chunkSize (S (List.length buffer)) buffer checkInterrupt 0 0.

End Delivery.

(** ** The WAV header of an utterance *)

Module Wav.

Import Pcm.

(** The [n] low bytes of a value, least significant first. *)
Fixpoint bytesLE (n : nat) (value : Z) : list byte :=
  match n with
  | O => []
  | S n' => byteOfZ value :: bytesLE n' (value / 256)
  end.

(** The unsigned value of bytes, least significant first. *)
Fixpoint valueLE (bytes : list byte) : Z :=
  match bytes with
  | [] => 0
  | b :: rest => byteToZ b + 256 * valueLE rest
  end.

(** Bytes written over a buffer at an offset, inside the buffer. *)
Definition writeAt (buf : Buffer) (offset : nat) (bytes : list byte) : Buffer :=
  firstn offset buf ++ bytes ++ skipn (offset + List.length bytes) buf.

(** [buf.writeUInt32LE(value, offset)] and [buf.writeUInt16LE(value,
    offset)] for integers: a [RangeError] ([None]) when the value does not
    fit or the bytes do not lie inside the buffer. *)
Definition writeUInt32LE (buf : Buffer) (value : Z) (offset : nat)
  : option Buffer :=
  if (0 <=? value) && (value <=? 4294967295)
     && (offset + 4 <=? List.length buf)%nat
  then Some (writeAt buf offset (bytesLE 4 value)) else None.

Definition writeUInt16LE (buf : Buffer) (value : Z) (offset : nat)
  : option Buffer :=
  if (0 <=? value) && (value <=? 65535)
     && (offset + 2 <=? List.length buf)%nat
  then Some (writeAt buf offset (bytesLE 2 value)) else None.

(** [buf.readUInt32LE(offset)] and [buf.readUInt16LE(offset)] inside the
    buffer, as a reader of the header takes the fields. *)
Definition readUInt32LE (buf : Buffer) (offset : nat) : Z :=
  valueLE (firstn 4 (skipn offset buf)).

Definition readUInt16LE (buf : Buffer) (offset : nat) : Z :=
  valueLE (firstn 2 (skipn offset buf)).

(** [buf.write(text, offset)] of a four-letter ASCII tag. *)
Definition writeTag (buf : Buffer) (tag : list byte) (offset : nat) : Buffer :=
  writeAt buf offset tag.

Definition RIFF : list byte := [x52; x49; x46; x46].
Definition WAVE : list byte := [x57; x41; x56; x45].
Definition fmt_ : list byte := [x66; x6d; x74; x20].
Definition data : list byte := [x64; x61; x74; x61].

Definition andThen {A B : Type} (r : option A) (f : A -> option B)
  : option B :=
  match r with Some a => f a | None => None end.

(** [createWavHeader(len, sampleRate)] for integer arguments, statement by
    statement. *)
Definition createWavHeader (len sampleRate : Z) : option Buffer :=
  let buffer := repeat x00 44 in
  let buffer := writeTag buffer RIFF 0 in
  andThen (writeUInt32LE buffer (36 + len) 4) (fun buffer =>
  let buffer := writeTag buffer WAVE 8 in
  let buffer := writeTag buffer fmt_ 12 in
  andThen (writeUInt32LE buffer 16 16) (fun buffer =>
  andThen (writeUInt16LE buffer 1 20) (fun buffer =>
  andThen (writeUInt16LE buffer 1 22) (fun buffer =>
  andThen (writeUInt32LE buffer sampleRate 24) (fun buffer =>
  andThen (writeUInt32LE buffer (sampleRate * 2) 28) (fun buffer =>
  andThen (writeUInt16LE buffer 2 32) (fun buffer =>
  andThen (writeUInt16LE buffer 16 34) (fun buffer =>
  let buffer := writeTag buffer data 36 in
  writeUInt32LE buffer len 40)))))))).

End Wav.

(** ** A session of the Hume adapter *)

Module HumeSession.

Import Tts Tts.Hume.

(** What reaches the adapter: a call of [interrupt()], a text segment (with
    whether a socket opened for it reaches the open state), and the [close]
    event of a socket. *)
Inductive Action :=
| Interrupt
| Text (opens : bool) (text : string)
| SocketClosed (socket : nat).

Inductive Event :=
| Adapter (e : Effect)
| AudioComplete                   (* onAudioComplete() *).

Record Callbacks := {
  onInterruptGiven : bool;
  onAudioCompleteGiven : bool
}.

(** The [close] handler that [createConnection] installs on [newWs]. *)
Definition socketClosed (cb : Callbacks) (newWs : nat) (st : State)
  : State * list Event :=
  let current :=
    match ws st with Some socket => Nat.eqb socket newWs | None => false end in
  ({| ws := if current then None else ws st;
      connectionPromise := if current then None else connectionPromise st;
      closeResolve := false;
      isShuttingDown := isShuttingDown st;
      isInterrupted := isInterrupted st;
      timers := timers st;
      connections := connections st |},
   (if closeResolve st then [Adapter CloseResolved] else [])
   ++ (if onAudioCompleteGiven cb then [AudioComplete] else [])).

(** One action at time [now]; the timers due by then run first. *)
Definition step (cb : Callbacks) (now : Z) (action : Action) (st : State)
  : State * list Event :=
  let st0 := elapse now st in
  match action with
  | Interrupt =>
      let '(st1, effects) := interruptTTS (onInterruptGiven cb) now st0 in
      (st1, map Adapter effects)
  | Text opens text =>
      let '(st1, effects) := transform opens text st0 in
      (st1, map Adapter effects)
  | SocketClosed socket => socketClosed cb socket st0
  end.

Fixpoint run (cb : Callbacks) (schedule : list (Z * Action)) (st : State)
  : State * list Event :=
  match schedule with
  | [] => (st, [])
  | (now, action) :: rest =>
    let '(st1, events) := step cb now action st in
    let '(st2, events') := run cb rest st1 in
    (st2, events ++ events')
  end.

(** The interrupt flag is set exactly while one timer is pending. *)
Definition oneTimer (st : State) : Prop :=
  (isInterrupted st = false /\ timers st = [])
  \/ (isInterrupted st = true /\ exists due, timers st = [due]).

(** A socket in use was created by the adapter. *)
Definition knownSocket (st : State) : Prop :=
  forall socket, ws st = Some socket -> (socket < connections st)%nat.

Definition isText (entry : Z * Action) : bool :=
  match snd entry with Text _ _ => true | _ => false end.

Definition isFailed (e : Event) : bool :=
  match e with Adapter (Failed _) => true | _ => false end.

End HumeSession.

(** ** The Twilio media-stream connection *)

Module TwilioCall.

(** The variables of one connection of the [/media-stream] endpoint.
    [twilioWs] tells whether a socket is stored and [readyState] is the
    state that socket reports; [controllerClosed] is the state of the
    input stream's controller; [readers] counts the loops of
    [startPipelineReader] that wait for output. *)
Record State := {
  streamSid : option string;
  twilioWs : bool;
  readyState : Z;
  pipelineClosed : bool;
  pipelineErrored : bool;
  pendingHangUp : option string;
  controllerClosed : bool;
  readers : nat;
  mediaSequence : nat
}.

Inductive Effect :=
| SendMedia (payload : string)     (* twilioWs.send of a media message *)
| SendMark (name : string)         (* twilioWs.send of a mark message *)
| SendClear                        (* twilioWs.send of a clear message *)
| Enqueue (payload : string)       (* controller.enqueue(audioData) *)
| ControllerClose                  (* controller.close() that closes *).

(** What happens to the connection: the socket callbacks with the message
    types of [onMessage], a change of the socket's [readyState], the
    callbacks the pipeline calls, and what the pipeline reader receives.
    [enqueueFails] tells whether [controller.enqueue] throws for a reason
    outside this code. *)
Inductive Event :=
| Open
| SocketState (state : Z)
| Connected
| Start (sid : string)
| Media (payload : string) (enqueueFails : bool)
| Stop
| MarkReceived
| Unknown
| Close
| AudioCompleted
| TtsInterrupted
| HangUpRequested (reason : string)
| Output (payload : string)
| OutputDone
| OutputFailed.

(** A string in a condition: the empty string counts as false. *)
Definition truthy (s : option string) : bool :=
  match s with
  | Some EmptyString => false
  | Some _ => true
  | None => false
  end.

(** [!twilioWs || twilioWs.readyState !== 1 || !streamSid], negated. *)
Definition canSend (st : State) : bool :=
  twilioWs st && (readyState st =? 1) && truthy (streamSid st).

Definition sendAudioToTwilio (payload : string) (st : State)
  : State * list Effect :=
  if canSend st then
    ({| streamSid := streamSid st; twilioWs := twilioWs st;
        readyState := readyState st; pipelineClosed := pipelineClosed st;
        pipelineErrored := pipelineErrored st;
        pendingHangUp := pendingHangUp st;
        controllerClosed := controllerClosed st; readers := readers st;
        mediaSequence := S (mediaSequence st) |},
     [SendMedia payload])
  else (st, []).

Definition sendMarkToTwilio (name : string) (st : State) : list Effect :=
  if canSend st then [SendMark name] else [].

Definition clearTwilioAudioBuffer (st : State) : list Effect :=
  if canSend st then [SendClear] else [].

(** [pipelineClosed = true] and [controller.close()] inside [try]: closing
    a closed controller throws and is ignored. *)
Definition closePipeline (hangUp : option string) (st : State)
  : State * list Effect :=
  ({| streamSid := streamSid st; twilioWs := twilioWs st;
      readyState := readyState st; pipelineClosed := true;
      pipelineErrored := pipelineErrored st;
      pendingHangUp := hangUp;
      controllerClosed := true; readers := readers st;
      mediaSequence := mediaSequence st |},
   if controllerClosed st then [] else [ControllerClose]).

Definition closeCall (hangUp : option string) (st : State)
  : State * list Effect :=
  let marks := sendMarkToTwilio "call-ended"%string st in
  let '(st', effects) := closePipeline hangUp st in
  (st', marks ++ effects).

Definition withFlags (closed errored : bool) (waiting : nat) (st : State)
  : State :=
  {| streamSid := streamSid st; twilioWs := twilioWs st;
     readyState := readyState st; pipelineClosed := closed;
     pipelineErrored := errored;
     pendingHangUp := pendingHangUp st;
     controllerClosed := controllerClosed st; readers := waiting;
     mediaSequence := mediaSequence st |}.

Definition step (st : State) (event : Event) : State * list Effect :=
  match event with
  | Open =>
      ({| streamSid := streamSid st; twilioWs := true;
          readyState := readyState st; pipelineClosed := pipelineClosed st;
          pipelineErrored := pipelineErrored st;
          pendingHangUp := pendingHangUp st;
          controllerClosed := controllerClosed st; readers := readers st;
          mediaSequence := mediaSequence st |}, [])
  | SocketState state =>
      ({| streamSid := streamSid st; twilioWs := twilioWs st;
          readyState := state; pipelineClosed := pipelineClosed st;
          pipelineErrored := pipelineErrored st;
          pendingHangUp := pendingHangUp st;
          controllerClosed := controllerClosed st; readers := readers st;
          mediaSequence := mediaSequence st |}, [])
  | Connected | MarkReceived | Unknown => (st, [])
  | Start sid =>
      ({| streamSid := Some sid; twilioWs := twilioWs st;
          readyState := readyState st; pipelineClosed := pipelineClosed st;
          pipelineErrored := pipelineErrored st;
          pendingHangUp := pendingHangUp st;
          controllerClosed := controllerClosed st;
          readers := S (readers st);
          mediaSequence := mediaSequence st |}, [])
  | Media payload enqueueFails =>
      if pipelineClosed st || pipelineErrored st then (st, [])
      else if controllerClosed st || enqueueFails
      then (withFlags true (pipelineErrored st) (readers st) st, [])
      else (st, [Enqueue payload])
  | Stop => closePipeline (pendingHangUp st) st
  | Close =>
      let '(st', effects) := closePipeline (pendingHangUp st) st in
      ({| streamSid := streamSid st'; twilioWs := false;
          readyState := readyState st'; pipelineClosed := pipelineClosed st';
          pipelineErrored := pipelineErrored st';
          pendingHangUp := pendingHangUp st';
          controllerClosed := controllerClosed st'; readers := readers st';
          mediaSequence := mediaSequence st' |}, effects)
  | AudioCompleted =>
      let marks := sendMarkToTwilio "audio-complete"%string st in
      if truthy (pendingHangUp st) then
        let '(st', effects) := closeCall None st in (st', marks ++ effects)
      else (st, marks)
  | TtsInterrupted => (st, clearTwilioAudioBuffer st)
  | HangUpRequested reason =>
      ({| streamSid := streamSid st; twilioWs := twilioWs st;
          readyState := readyState st; pipelineClosed := pipelineClosed st;
          pipelineErrored := pipelineErrored st;
          pendingHangUp := Some reason;
          controllerClosed := controllerClosed st; readers := readers st;
          mediaSequence := mediaSequence st |}, [])
  | Output payload =>
      if (0 <? readers st)%nat then
        if pipelineClosed st
        then (withFlags true (pipelineErrored st) (Nat.pred (readers st)) st,
              [])
        else if twilioWs st && (readyState st =? 1)
        then sendAudioToTwilio payload st
        else (st, [])
      else (st, [])
  | OutputDone =>
      (withFlags (pipelineClosed st) (pipelineErrored st) 0 st, [])
  | OutputFailed =>
      if (0 <? readers st)%nat then
        if pipelineErrored st
        then (withFlags (pipelineClosed st) true 0 st, [])
        else (withFlags true true 0 st, [])
      else (st, [])
  end.

Fixpoint run (events : list Event) (st : State) : State * list Effect :=
  match events with
  | [] => (st, [])
  | event :: rest =>
    let '(st1, effects) := step st event in
    let '(st2, effects') := run rest st1 in
    (st2, effects ++ effects')
  end.

Definition initial : State :=
  {| streamSid := None; twilioWs := false; readyState := 0;
     pipelineClosed := false; pipelineErrored := false;
     pendingHangUp := None; controllerClosed := false; readers := 0;
     mediaSequence := 0 |}.

(** Audio in either direction. *)
Definition isAudio (e : Effect) : bool :=
  match e with SendMedia _ | Enqueue _ => true | _ => false end.

(** Events that read or write [pendingHangUp]. *)
Definition touchesHangUp (event : Event) : bool :=
  match event with
  | AudioCompleted | HangUpRequested _ => true
  | _ => false
  end.

Definition withHangUp (hangUp : option string) (st : State) : State :=
  {| streamSid := streamSid st; twilioWs := twilioWs st;
     readyState := readyState st; pipelineClosed := pipelineClosed st;
     pipelineErrored := pipelineErrored st;
     pendingHangUp := hangUp;
     controllerClosed := controllerClosed st; readers := readers st;
     mediaSequence := mediaSequence st |}.

End TwilioCall.

(** ** A conversation through the agent transform *)

Module Conversation.

Import Agent.

(** The text segments of a conversation through [createAgentTransform],
    each with what the agent does for it; a turn whose promise rejects
    ends the stream. *)
Fixpoint converse (cb : Callbacks) (turns : list (Turn * string)) (st : State)
  : State * list Effect :=
  match turns with
  | [] => (st, [])
  | (turn, text) :: rest =>
    let '(st1, effects, resolved) := transform cb turn st text in
    if resolved then
      let '(st2, effects') := converse cb rest st1 in
      (st2, effects ++ effects')
    else (st1, effects)
  end.

(** The calls of the agent name the given thread. *)
Definition onThread (thread : string) (e : Effect) : bool :=
  match e with
  | Stream t _ => String.eqb t thread
  | GetState t => String.eqb t thread
  | _ => true
  end.

Definition callsAgent (e : Effect) : bool :=
  match e with Stream _ _ | GetState _ => true | _ => false end.

End Conversation.

(** ** Double-precision numbers *)

(** JavaScript numbers are IEEE 754 binary64 values.  A finite double is a
    rational number, and an arithmetic operation returns the double
    nearest to the exact result, ties to the even mantissa: [round64] is
    that rounding, with 53 significant bits in the normal range and the
    fixed spacing [2 ^ -1074] below it.  Results of magnitude [2 ^ 1024]
    and more, which a double turns into an infinity, do not occur here:
    the numbers are sample rates, sample counts and byte offsets. *)

Module Binary64.

Definition pow2 (e : Z) : Q := (2 ^ e)%Q.

(** The nearest whole number, ties to the even one. *)
Definition nearestEven (x : Q) : Z :=
  let f := Qfloor x in
  match (x - inject_Z f ?= 1 # 2)%Q with
  | Lt => f
  | Gt => f + 1
  | Eq => if Z.even f then f else f + 1
  end.

(** [floor(log2 x)] for a positive [x]. *)
Definition binade (x : Q) : Z :=
  let d := Z.log2 (Qnum x) - Z.log2 (Z.pos (Qden x)) in
  if Qle_bool (pow2 d) x then d else d - 1.

(** The doubles around [x] are the multiples of [2 ^ ulpExponent x]: 53
    significant bits, and nothing finer than [2 ^ -1074]. *)
Definition ulpExponent (x : Q) : Z := Z.max (binade (Qabs x) - 52) (-1074).

Definition toGrid (e : Z) (x : Q) : Q :=
  (inject_Z (nearestEven (x / pow2 e)) * pow2 e)%Q.

Definition round64 (x : Q) : Q :=
  let x := Qred x in
  if Qeq_bool x 0 then 0%Q else toGrid (ulpExponent x) x.

(** The unit roundoff, [2 ^ -53]. *)
Definition eps : Q := 1 # 9007199254740992.

End Binary64.

(** ** The resamplers in double precision *)

Module Doubles.

Import Mulaw Pcm Telephony Binary64.

(** The arithmetic of JavaScript numbers: the exact result, rounded. *)
Definition div64 (a b : Q) : Q := round64 (a / b).
Definition mul64 (a b : Q) : Q := round64 (a * b).
Definition add64 (a b : Q) : Q := round64 (a + b).
Definition sub64 (a b : Q) : Q := round64 (a - b).

(** [Buffer.alloc(size)]. *)
Definition alloc (size : Q) : Buffer := repeat x00 (Z.to_nat (Qfloor size)).

(** *** [resamplePCM] *)

Definition ratioOf (fromRate toRate : positive) : Q :=
  div64 (inject_Z (Z.pos fromRate)) (inject_Z (Z.pos toRate)).

Definition inputSamplesOf (input : Buffer) : Q :=
  div64 (inject_Z (Z.of_nat (List.length input))) 2.

Definition outputSamplesOf (input : Buffer) (fromRate toRate : positive) : Z :=
  Qfloor (div64 (inputSamplesOf input) (ratioOf fromRate toRate)).

(** The value written for two samples read, before the clamp. *)
Definition blend (sample1 sample2 : Z) (fraction : Q) : Z :=
  Math_round
    (add64 (inject_Z sample1)
       (mul64 (sub64 (inject_Z sample2) (inject_Z sample1)) fraction)).

(** One iteration of the loop of [resamplePCM], up to the clamp. *)
Definition interpolateAt (input : Buffer) (ratio inputSamples : Q) (i : Z)
  : option Z :=
  let srcIndex := mul64 (inject_Z i) ratio in
  let srcIndexFloor := Qfloor srcIndex in
  let srcIndexCeil :=
    Qmin (add64 (inject_Z srcIndexFloor) 1) (sub64 inputSamples 1) in
  let fraction := sub64 srcIndex (inject_Z srcIndexFloor) in
  match readInt16LE input (mul64 (inject_Z srcIndexFloor) 2) with
  | None => None
  | Some sample1 =>
    match readInt16LE input (mul64 srcIndexCeil 2) with
    | None => None
    | Some sample2 =>
      let interpolated := blend sample1 sample2 fraction in
      Some (Z.max (-32768) (Z.min 32767 interpolated))
    end
  end.

(** [for (let i = ...; i < outputSamples; i++)] with [n] iterations left.
    The counter is a whole number below the length of the output, where
    [i++] is exact. *)
Fixpoint resampleLoop (input : Buffer) (ratio inputSamples : Q)
  (n : nat) (i : Z) (output : Buffer) : option Buffer :=
  match n with
  | O => Some output
  | S n' =>
    match interpolateAt input ratio inputSamples i with
    | None => None
    | Some v =>
      match writeInt16LE output v (Qfloor (mul64 (inject_Z i) 2)) with
      | None => None
      | Some output' => resampleLoop input ratio inputSamples n' (i + 1) output'
      end
    end
  end.

(** [resamplePCM(input, fromRate, toRate)]; rates are positive whole
    numbers. *)
Definition resamplePCM (input : Buffer) (fromRate toRate : positive)
  : option Buffer :=
  if (fromRate =? toRate)%positive then Some input
  else
    let ratio := ratioOf fromRate toRate in
    let inputSamples := inputSamplesOf input in
    let outputSamples := Qfloor (div64 inputSamples ratio) in
    let output := alloc (mul64 (inject_Z outputSamples) 2) in
    resampleLoop input ratio inputSamples (Z.to_nat outputSamples) 0 output.

(** The value one loop iteration writes, from the two samples it reads. *)
Definition interpolated (fromRate toRate : positive) (i sample1 sample2 : Z)
  : Z :=
  let srcIndex := mul64 (inject_Z i) (ratioOf fromRate toRate) in
  let fraction := sub64 srcIndex (inject_Z (Qfloor srcIndex)) in
  Z.max (-32768) (Z.min 32767 (blend sample1 sample2 fraction)).

(** The source index of output sample [i]. *)
Definition srcIndexFloorOf (fromRate toRate : positive) (i : Z) : Z :=
  Qfloor (mul64 (inject_Z i) (ratioOf fromRate toRate)).

(** *** [MulawToPcmTransform] *)

Definition upsampleRatioOf (targetSampleRate : positive) : Q :=
  div64 (inject_Z (Z.pos targetSampleRate)) 8000.

(** The loop of [transform] with [n] iterations left.  [chunk[srcIndex]]
    outside the chunk is [undefined], the table lookup with it is
    [undefined] too, and [writeInt16LE(undefined, ...)] throws ([None]). *)
Fixpoint decodeLoop (upsampleRatio : Q) (chunk : Buffer) (n : nat) (i : Z)
  (output : Buffer) : option Buffer :=
  match n with
  | O => Some output
  | S n' =>
    let srcIndex := Qfloor (div64 (inject_Z i) upsampleRatio) in
    if srcIndex <? 0 then None
    else
      match nth_error chunk (Z.to_nat srcIndex) with
      | None => None
      | Some mulawByte =>
        let pcmValue := tableEntry (byteToZ mulawByte) in
        match writeInt16LE output pcmValue (Qfloor (mul64 (inject_Z i) 2)) with
        | None => None
        | Some output' => decodeLoop upsampleRatio chunk n' (i + 1) output'
        end
      end
  end.

Definition decodedSamplesOf (targetSampleRate : positive) (chunk : Buffer)
  : Z :=
  Qfloor (mul64 (inject_Z (Z.of_nat (List.length chunk)))
            (upsampleRatioOf targetSampleRate)).

(** [transform(chunk, controller)] of [MulawToPcmTransform]: the buffer it
    enqueues. *)
Definition mulawToPcm (targetSampleRate : positive) (chunk : Buffer)
  : option Buffer :=
  let upsampleRatio := upsampleRatioOf targetSampleRate in
  let mulawSamples := inject_Z (Z.of_nat (List.length chunk)) in
  let outputSamples := Qfloor (mul64 mulawSamples upsampleRatio) in
  decodeLoop upsampleRatio chunk (Z.to_nat outputSamples) 0
    (alloc (mul64 (inject_Z outputSamples) 2)).

(** *** [PcmToMulawTransform] *)

Definition downsampleRatioOf (sourceSampleRate : positive) : Q :=
  div64 (inject_Z (Z.pos sourceSampleRate)) 8000.

(** The loop of [transform] with [n] iterations left: the accumulator and
    the array of codes at the end. *)
Fixpoint encodeLoop (downsampleRatio : Q) (chunk : Buffer) (n : nat) (i : Z)
  (accumulator : Q) (outputSamples : list Z) : option (Q * list Z) :=
  match n with
  | O => Some (accumulator, outputSamples)
  | S n' =>
    let accumulator := add64 accumulator 1 in
    if Qle_bool downsampleRatio accumulator then
      match readInt16LE chunk (mul64 (inject_Z i) 2) with
      | None => None
      | Some pcmValue =>
          encodeLoop downsampleRatio chunk n' (i + 1)
            (sub64 accumulator downsampleRatio)
            (outputSamples ++ [linearToMulaw pcmValue])
      end
    else encodeLoop downsampleRatio chunk n' (i + 1) accumulator outputSamples
  end.

(** [transform(chunk, controller)] of [PcmToMulawTransform] for a given
    value of the closure variable [accumulator]: its new value and the
    buffer enqueued, if any ([Buffer.from] of the codes). *)
Definition pcmToMulaw (sourceSampleRate : positive) (accumulator : Q)
  (chunk : Buffer) : option (Q * option Buffer) :=
  let pcmSamples :=
    Qfloor (div64 (inject_Z (Z.of_nat (List.length chunk))) 2) in
  match encodeLoop (downsampleRatioOf sourceSampleRate) chunk
          (Z.to_nat pcmSamples) 0 accumulator [] with
  | None => None
  | Some (accumulator', outputSamples) =>
      Some (accumulator',
            match outputSamples with
            | [] => None
            | _ :: _ => Some (map byteOfZ outputSamples)
            end)
  end.

(** A stream of chunks through [PcmToMulawTransform]: the bytes enqueued,
    in order, and the accumulator at the end. *)
Fixpoint pcmToMulawStream (sourceSampleRate : positive) (accumulator : Q)
  (chunks : list Buffer) : option (Q * Buffer) :=
  match chunks with
  | [] => Some (accumulator, [])
  | chunk :: rest =>
    match pcmToMulaw sourceSampleRate accumulator chunk with
    | None => None
    | Some (accumulator', out) =>
      match pcmToMulawStream sourceSampleRate accumulator' rest with
      | None => None
      | Some (final, bytes) => Some (final, enqueuedBytes out ++ bytes)
      end
    end
  end.

End Doubles.

(* ================================================================== *)
(** * Part II.  Theorems                                               *)
(* ================================================================== *)

(** ** mu-law round trip *)

Ltac pows :=
  repeat match goal with
         | |- context [2 ^ ?k] =>
             let v := eval vm_compute in (2 ^ k) in change (2 ^ k) with v
         | H : context [2 ^ ?k] |- _ =>
             let v := eval vm_compute in (2 ^ k) in change (2 ^ k) with v in H
         end.

Section MulawFacts.
Import Mulaw.

Lemma table_brackets : forallb entryBrackets (seq 0 128) = true.
Proof. vm_compute. reflexivity. Qed.

Lemma segment_brackets (a : Z) :
  132 <= a <= 32767 ->
  let e := nth (Z.to_nat (Z.land (Z.shiftr a 8) 0x7f)) SEGMENT_TABLE 0 in
  0 <= e <= 7 /\ 2 ^ (e + 7) <= a < 2 ^ (e + 8).
Proof.
  intros Ha.
  assert (Hidx : Z.land (Z.shiftr a 8) 0x7f = a / 256).
  { change 0x7f with (Z.ones 7). rewrite Z.land_ones by lia.
    rewrite Z.shiftr_div_pow2 by lia. change (2 ^ 8) with 256.
    change (2 ^ 7) with 128. apply Z.mod_small.
    split; [apply Z.div_pos; lia | apply Z.div_lt_upper_bound; lia]. }
  rewrite Hidx.
  assert (Hk : (Z.to_nat (a / 256) < 128)%nat).
  { assert (0 <= a / 256 < 128)
      by (split; [apply Z.div_pos; lia | apply Z.div_lt_upper_bound; lia]).
    lia. }
  pose proof (proj1 (forallb_forall entryBrackets (seq 0 128)) table_brackets
                (Z.to_nat (a / 256))) as Hb.
  assert (Hin : In (Z.to_nat (a / 256)) (seq 0 128)) by (apply in_seq; lia).
  specialize (Hb Hin). unfold entryBrackets in Hb.
  rewrite Z2Nat.id in Hb by (apply Z.div_pos; lia).
  cbv zeta.
  set (e := nth (Z.to_nat (a / 256)) SEGMENT_TABLE 0) in *.
  apply andb_prop in Hb. destruct Hb as [Hb H4].
  apply andb_prop in Hb. destruct Hb as [Hb H3].
  apply andb_prop in Hb. destruct Hb as [H1 H2].
  apply Z.leb_le in H1, H2, H3. apply Z.ltb_lt in H4.
  pose proof (Z.div_mod a 256 ltac:(lia)) as Hdm.
  pose proof (Z.mod_pos_bound a 256 ltac:(lia)) as Hmb.
  lia.
Qed.

Lemma all_fields_survive : forallb fieldsSurvive allFields = true.
Proof. vm_compute. reflexivity. Qed.

Lemma in_zrange (n : nat) (z : Z) : 0 <= z < Z.of_nat n -> In z (zrange n).
Proof.
  intros Hz. unfold zrange. apply in_map_iff. exists (Z.to_nat z).
  split; [lia | apply in_seq; lia].
Qed.

Lemma pack_fields (sign e m : Z) :
  sign = 0 \/ sign = 0x80 -> 0 <= e <= 7 -> 0 <= m <= 15 ->
  let code := pack sign e m in
  let u := Z.land (Z.lnot code) 0xff in
  0 <= code <= 255 /\ Z.land u 0x80 = sign
  /\ Z.land (Z.shiftr u 4) 0x07 = e /\ Z.land u 0x0f = m.
Proof.
  intros Hs He Hm.
  assert (Hin : In (sign, e, m) allFields).
  { unfold allFields. apply in_flat_map. exists sign. split.
    - destruct Hs; subst; simpl; auto.
    - apply in_flat_map. exists e. split; [apply in_zrange; simpl; lia|].
      apply in_map_iff. exists m. split; [reflexivity|].
      apply in_zrange; simpl; lia. }
  pose proof (proj1 (forallb_forall fieldsSurvive allFields)
                all_fields_survive _ Hin) as Hb.
  unfold fieldsSurvive in Hb. cbv zeta.
  repeat (apply andb_prop in Hb; destruct Hb as [Hb ?]).
  repeat match goal with
         | H : (_ =? _) = true |- _ => apply Z.eqb_eq in H
         | H : (_ <=? _) = true |- _ => apply Z.leb_le in H
         end.
  auto.
Qed.

(** The mantissa of a biased magnitude [a] in segment [e] and the value the
    reference law rebuilds from it. *)
Lemma rebuilt_magnitude (a e : Z) :
  0 <= e <= 7 -> 2 ^ (e + 7) <= a < 2 ^ (e + 8) ->
  let m := Z.land (Z.shiftr a (e + 3)) 0x0f in
  0 <= m <= 15
  /\ Z.abs (Z.shiftl (Z.shiftl m 3 + 0x84) e - a) <= 2 ^ (e + 2).
Proof.
  intros He Ha. cbv zeta.
  assert (Hm : Z.land (Z.shiftr a (e + 3)) 0x0f = (a / 2 ^ (e + 3)) mod 16).
  { change 0x0f with (Z.ones 4). rewrite Z.land_ones by lia.
    rewrite Z.shiftr_div_pow2 by lia. reflexivity. }
  rewrite Hm. rewrite !Z.shiftl_mul_pow2 by lia.
  assert (Hcases : e = 0 \/ e = 1 \/ e = 2 \/ e = 3 \/ e = 4 \/ e = 5
                   \/ e = 6 \/ e = 7) by lia.
  repeat (destruct Hcases as [-> | Hcases]); try subst e; pows;
    Z.div_mod_to_equations; lia.
Qed.

Lemma biased_magnitude_range (sample : Z) :
  -32768 <= sample <= 32767 ->
  132 <= biasedMagnitude sample <= 32767
  /\ biasedMagnitude sample = Z.abs (clipped sample) + 132.
Proof.
  intros Hs. unfold biasedMagnitude, clipped, MULAW_CLIP, MULAW_BIAS.
  destruct (Z.ltb_spec sample 0);
    match goal with
    | |- context [?x >? ?y] => rewrite (Z.gtb_ltb x y); destruct (Z.ltb_spec y x)
    end; lia.
Qed.

(** C9. Round trip of the encoder: for every 16-bit sample, the code that
    [linearToMulaw] produces is one byte, its segment is one of the eight,
    and expanding the code with the reference mu-law law gives back the
    sample, clipped at 32635, up to half a quantization step of the
    sample's segment; for a sample inside the clip this is the sample
    itself. *)
Theorem mulaw_roundtrip_within_segment_bound (sample : Z) :
  -32768 <= sample <= 32767 ->
  0 <= linearToMulaw sample <= 255
  /\ 0 <= segmentOf sample <= 7
  /\ Z.abs (g711Expand (linearToMulaw sample) - clipped sample)
     <= halfStep (segmentOf sample)
  /\ (Z.abs sample <= MULAW_CLIP ->
      Z.abs (g711Expand (linearToMulaw sample) - sample)
      <= halfStep (segmentOf sample)).
Proof.
  intros Hs.
  destruct (biased_magnitude_range sample Hs) as [Ha Hclip].
  pose proof (segment_brackets (biasedMagnitude sample) Ha) as Hseg.
  cbv zeta in Hseg. fold (segmentOf sample) in Hseg.
  destruct Hseg as [He Hbr].
  pose proof (rebuilt_magnitude _ _ He Hbr) as Hm. cbv zeta in Hm.
  destruct Hm as [Hm Herr].
  set (sign := if sample <? 0 then 0x80 else 0x00).
  assert (Hsign : sign = 0 \/ sign = 0x80)
    by (unfold sign; destruct (sample <? 0); auto).
  pose proof (pack_fields sign _ _ Hsign He Hm) as Hp. cbv zeta in Hp.
  assert (Hcode : linearToMulaw sample
                  = pack sign (segmentOf sample)
                      (Z.land (Z.shiftr (biasedMagnitude sample)
                                        (segmentOf sample + 3)) 0x0f))
    by reflexivity.
  rewrite <- Hcode in Hp. destruct Hp as (Hbyte & Hf1 & Hf2 & Hf3).
  assert (Hbound : Z.abs (g711Expand (linearToMulaw sample) - clipped sample)
                   <= halfStep (segmentOf sample)).
  { unfold g711Expand, halfStep. cbv zeta. rewrite Hf1, Hf2, Hf3.
    unfold sign. unfold clipped, MULAW_CLIP in *.
    destruct (Z.ltb_spec sample 0); simpl (_ =? _); cbv iota; lia. }
  repeat split; try lia.
  intros Hin. replace sample with (clipped sample) at 2; [exact Hbound|].
  unfold clipped, MULAW_CLIP in *. lia.
Qed.

(** The theorem at the sample 1000: code 206, segment 3, expanded to 988. *)
Lemma mulaw_roundtrip_witness :
  -32768 <= 1000 <= 32767
  /\ Z.abs (g711Expand (linearToMulaw 1000) - 1000) <= halfStep (segmentOf 1000).
Proof.
  split; [lia|].
  apply (mulaw_roundtrip_within_segment_bound 1000); [lia|].
  vm_compute. discriminate.
Defined.

(** The decode table of the repository is the reference law on a quarter
    scale (bias 33 and a one-bit mantissa shift instead of 132 and three
    bits): every entry is a quarter of the reference expansion. *)
Lemma repository_table_quarter_scale (code : Z) :
  0 <= code <= 255 -> 4 * MULAW_TO_LINEAR code = g711Expand code.
Proof.
  intros Hc.
  assert (Hall : forallb (fun c => 4 * MULAW_TO_LINEAR c =? g711Expand c)
                         (zrange 256) = true) by (vm_compute; reflexivity).
  pose proof (proj1 (forallb_forall _ _) Hall code
                (in_zrange 256 code ltac:(lia))) as H.
  apply Z.eqb_eq in H. exact H.
Qed.

End MulawFacts.

(** ** Buffers *)

Section BufferFacts.
Import Pcm.

Lemma byteToZ_range (b : byte) : 0 <= byteToZ b < 256.
Proof.
  unfold byteToZ. pose proof (Byte.to_N_bounded b). lia.
Qed.

Lemma byteToZ_byteOfZ (z : Z) : byteToZ (byteOfZ z) = z mod 256.
Proof.
  unfold byteToZ, byteOfZ.
  pose proof (Z.mod_pos_bound z 256 ltac:(lia)) as Hm.
  destruct (Byte.of_N (Z.to_N (z mod 256))) as [b|] eqn:E.
  - apply Byte.to_of_N in E. rewrite E. lia.
  - apply Byte.of_N_None_iff in E. lia.
Qed.

Lemma isInteger_inject (o : Z) : isInteger (inject_Z o) = true.
Proof.
  unfold isInteger. rewrite Qfloor_Z. apply Qeq_bool_iff. reflexivity.
Qed.

Lemma readInt16LE_Qeq (buf : Buffer) (p q : Q) :
  (p == q)%Q -> readInt16LE buf p = readInt16LE buf q.
Proof.
  intros Hpq. unfold readInt16LE, isInteger.
  rewrite (Qfloor_comp _ _ Hpq).
  replace (Qeq_bool p (inject_Z (Qfloor q)))
    with (Qeq_bool q (inject_Z (Qfloor q))); [reflexivity|].
  destruct (Qeq_bool q (inject_Z (Qfloor q))) eqn:E1;
    destruct (Qeq_bool p (inject_Z (Qfloor q))) eqn:E2; try reflexivity.
  - apply Qeq_bool_iff in E1.
    pose proof (proj2 (Qeq_bool_iff _ _) (Qeq_trans _ _ _ Hpq E1)).
    congruence.
  - apply Qeq_bool_iff in E2.
    pose proof (proj2 (Qeq_bool_iff _ _)
                  (Qeq_trans _ _ _ (Qeq_sym _ _ Hpq) E2)).
    congruence.
Qed.

(** A read at an integer offset, as the two bytes it combines. *)
Lemma readInt16LE_at (buf : Buffer) (o : Z) :
  0 <= o -> o + 2 <= Z.of_nat (List.length buf) ->
  readInt16LE buf (inject_Z o)
  = Some (let u := byteToZ (nth (Z.to_nat o) buf x00)
                   + 256 * byteToZ (nth (S (Z.to_nat o)) buf x00) in
          if u <? 32768 then u else u - 65536).
Proof.
  intros H0 H2. unfold readInt16LE.
  rewrite isInteger_inject, Qfloor_Z.
  destruct (Z.leb_spec 0 o); [|lia].
  destruct (Z.leb_spec (o + 2) (Z.of_nat (List.length buf))); [|lia].
  reflexivity.
Qed.

Lemma readInt16LE_in_bounds (buf : Buffer) (o : Z) :
  0 <= o -> o + 2 <= Z.of_nat (List.length buf) ->
  exists v, readInt16LE buf (inject_Z o) = Some v /\ -32768 <= v <= 32767.
Proof.
  intros H0 H2. rewrite readInt16LE_at by assumption.
  eexists. split; [reflexivity|]. cbv zeta.
  pose proof (byteToZ_range (nth (Z.to_nat o) buf x00)).
  pose proof (byteToZ_range (nth (S (Z.to_nat o)) buf x00)).
  match goal with |- context [if ?c then _ else _] => destruct c eqn:E end;
    [apply Z.ltb_lt in E | apply Z.ltb_ge in E]; lia.
Qed.

Lemma writeInt16LE_length (buf buf' : Buffer) (v o : Z) :
  writeInt16LE buf v o = Some buf' -> List.length buf' = List.length buf.
Proof.
  unfold writeInt16LE.
  destruct (_ && _) eqn:E; [|discriminate].
  intros [= <-].
  repeat (apply andb_prop in E; destruct E as [E ?]).
  repeat match goal with
         | H : (_ <=? _) = true |- _ => apply Z.leb_le in H
         end.
  rewrite length_app, length_firstn. cbn [List.length app].
  rewrite length_skipn. lia.
Qed.

Lemma writeInt16LE_succeeds (buf : Buffer) (v o : Z) :
  -32768 <= v <= 32767 -> 0 <= o -> o + 2 <= Z.of_nat (List.length buf) ->
  exists buf', writeInt16LE buf v o = Some buf'.
Proof.
  intros Hv H0 H2. unfold writeInt16LE.
  destruct (Z.leb_spec (-32768) v); [|lia].
  destruct (Z.leb_spec v 32767); [|lia].
  destruct (Z.leb_spec 0 o); [|lia].
  destruct (Z.leb_spec (o + 2) (Z.of_nat (List.length buf))); [|lia].
  eexists. reflexivity.
Qed.

(** Reading back the sample just written. *)
Lemma read_written (buf buf' : Buffer) (v o : Z) :
  writeInt16LE buf v o = Some buf' ->
  readInt16LE buf' (inject_Z o) = Some v.
Proof.
  intros Hw. pose proof (writeInt16LE_length _ _ _ _ Hw) as Hlen.
  revert Hw. unfold writeInt16LE.
  destruct (_ && _) eqn:E; [|discriminate].
  intros [= <-].
  repeat (apply andb_prop in E; destruct E as [E ?]).
  repeat match goal with
         | H : (_ <=? _) = true |- _ => apply Z.leb_le in H
         end.
  rewrite readInt16LE_at by lia.
  assert (Hfl : List.length (firstn (Z.to_nat o) buf) = Z.to_nat o)
    by (rewrite length_firstn; lia).
  rewrite !app_nth2 by lia. rewrite Hfl.
  replace (Z.to_nat o - Z.to_nat o)%nat with 0%nat by lia.
  replace (S (Z.to_nat o) - Z.to_nat o)%nat with 1%nat by lia.
  cbn [nth app]. rewrite !byteToZ_byteOfZ. f_equal. cbv zeta.
  match goal with |- context [if ?c then _ else _] => destruct c eqn:E' end;
    [apply Z.ltb_lt in E' | apply Z.ltb_ge in E'];
    Z.div_mod_to_equations; lia.
Qed.

(** A write leaves every sample below its offset as it was. *)
Lemma read_below_written (buf buf' : Buffer) (v o o' : Z) :
  writeInt16LE buf v o = Some buf' ->
  0 <= o' -> o' + 2 <= o ->
  readInt16LE buf' (inject_Z o') = readInt16LE buf (inject_Z o').
Proof.
  intros Hw H0 H2. pose proof (writeInt16LE_length _ _ _ _ Hw) as Hlen.
  revert Hw. unfold writeInt16LE.
  destruct (_ && _) eqn:E; [|discriminate].
  intros [= <-].
  repeat (apply andb_prop in E; destruct E as [E ?]).
  repeat match goal with
         | H : (_ <=? _) = true |- _ => apply Z.leb_le in H
         end.
  rewrite !readInt16LE_at by lia.
  assert (Hfl : List.length (firstn (Z.to_nat o) buf) = Z.to_nat o)
    by (rewrite length_firstn; lia).
  rewrite !app_nth1 by lia.
  rewrite !nth_firstn.
  destruct (Nat.ltb_spec (Z.to_nat o') (Z.to_nat o)); [|lia].
  destruct (Nat.ltb_spec (S (Z.to_nat o')) (Z.to_nat o)); [|lia].
  reflexivity.
Qed.

End BufferFacts.

(** ** Double-precision rounding *)

Section Binary64Facts.
Import Binary64.
Local Open Scope Q_scope.

Lemma pow2_pos (e : Z) : 0 < pow2 e.
Proof. unfold pow2. apply Qpower_0_lt. reflexivity. Qed.

Lemma pow2_add (a b : Z) : pow2 (a + b) == pow2 a * pow2 b.
Proof. unfold pow2. apply Qpower_plus. discriminate. Qed.

Lemma pow2_le (a b : Z) : (a <= b)%Z -> pow2 a <= pow2 b.
Proof. intros H. unfold pow2. apply Qpower_le_compat_l; [exact H | discriminate]. Qed.

Lemma pow2_lt (a b : Z) : (a < b)%Z -> pow2 a < pow2 b.
Proof. intros H. unfold pow2. apply Qpower_lt_compat_l; [exact H | reflexivity]. Qed.

Lemma pow2_lt_inv (a b : Z) : pow2 a < pow2 b -> (a < b)%Z.
Proof. intros H. unfold pow2 in H. apply Qpower_lt_compat_l_inv in H; [exact H | reflexivity]. Qed.

Lemma pow2_Z (n : Z) : (0 <= n)%Z -> pow2 n == inject_Z (2 ^ n).
Proof. intros H. unfold pow2. symmetry. apply (Zpower_Qpower 2 n H). Qed.

Lemma pow2_sub (a b : Z) : pow2 (a - b) == pow2 a / pow2 b.
Proof. unfold pow2. apply Qpower_minus. discriminate. Qed.


(** *** The nearest whole number *)

Lemma nearestEven_comp (x y : Q) : x == y -> nearestEven x = nearestEven y.
Proof.
  intros H. unfold nearestEven. rewrite (Qfloor_comp _ _ H).
  assert (Hc : (x - inject_Z (Qfloor y) ?= 1 # 2)
               = (y - inject_Z (Qfloor y) ?= 1 # 2)).
  { apply Qcompare_comp; [rewrite H; reflexivity | reflexivity]. }
  rewrite Hc. reflexivity.
Qed.

Lemma nearestEven_floor (x : Q) :
  (Qfloor x <= nearestEven x <= Qfloor x + 1)%Z.
Proof.
  unfold nearestEven. cbv zeta.
  destruct (x - inject_Z (Qfloor x) ?= 1 # 2);
    try destruct (Z.even (Qfloor x)); lia.
Qed.

Lemma nearestEven_err (x : Q) :
  - (1 # 2) <= inject_Z (nearestEven x) - x <= 1 # 2.
Proof.
  unfold nearestEven. cbv zeta.
  pose proof (Qfloor_le x) as Hl. pose proof (Qlt_floor x) as Hu.
  rewrite inject_Z_plus in Hu. change (inject_Z 1) with 1 in Hu.
  destruct (x - inject_Z (Qfloor x) ?= 1 # 2) eqn:E.
  - apply Qeq_alt in E.
    destruct (Z.even _);
      [|rewrite inject_Z_plus; change (inject_Z 1) with 1]; lra.
  - apply Qlt_alt in E. lra.
  - apply Qgt_alt in E. rewrite inject_Z_plus.
    change (inject_Z 1) with 1. lra.
Qed.

Lemma nearestEven_mono (x y : Q) :
  x <= y -> (nearestEven x <= nearestEven y)%Z.
Proof.
  intros Hxy. pose proof (Qfloor_resp_le _ _ Hxy) as Hf.
  pose proof (nearestEven_floor x) as Hx.
  pose proof (nearestEven_floor y) as Hy.
  destruct (Z.eq_dec (Qfloor x) (Qfloor y)) as [He | Hne]; [|lia].
  unfold nearestEven. cbv zeta. rewrite He.
  destruct (x - inject_Z (Qfloor y) ?= 1 # 2) eqn:Ex;
    destruct (y - inject_Z (Qfloor y) ?= 1 # 2) eqn:Ey;
    try destruct (Z.even (Qfloor y)); try lia; exfalso;
    repeat match goal with
           | H : (_ ?= _) = Eq |- _ => apply Qeq_alt in H
           | H : (_ ?= _) = Lt |- _ => apply Qlt_alt in H
           | H : (_ ?= _) = Gt |- _ => apply Qgt_alt in H
           end; lra.
Qed.

Lemma nearestEven_Z (z : Z) : nearestEven (inject_Z z) = z.
Proof.
  unfold nearestEven. cbv zeta. rewrite Qfloor_Z.
  destruct (inject_Z z - inject_Z z ?= 1 # 2) eqn:E.
  - apply Qeq_alt in E. exfalso. lra.
  - reflexivity.
  - apply Qgt_alt in E. exfalso. lra.
Qed.

Lemma Qfloor_unique (x : Q) (z : Z) :
  inject_Z z <= x -> x < inject_Z (z + 1) -> Qfloor x = z.
Proof.
  intros Hl Hu.
  pose proof (Qfloor_le x) as Hl'. pose proof (Qlt_floor x) as Hu'.
  assert (H1 : inject_Z z < inject_Z (Qfloor x + 1)) by lra.
  assert (H2 : inject_Z (Qfloor x) < inject_Z (z + 1)) by lra.
  rewrite <- Zlt_Qlt in H1, H2. lia.
Qed.

Lemma nearestEven_opp (x : Q) : nearestEven (- x) = (- nearestEven x)%Z.
Proof.
  pose proof (Qfloor_le x) as Hl. pose proof (Qlt_floor x) as Hu.
  destruct (Qeq_dec x (inject_Z (Qfloor x))) as [Hint | Hfrac].
  - rewrite (nearestEven_comp x _ Hint).
    assert (Ho : - x == inject_Z (- Qfloor x))
      by (rewrite inject_Z_opp, <- Hint; reflexivity).
    rewrite (nearestEven_comp _ _ Ho), !nearestEven_Z. reflexivity.
  - assert (Hlt : inject_Z (Qfloor x) < x).
    { apply Qle_lteq in Hl. destruct Hl as [Hl | Hl]; [exact Hl|].
      exfalso. apply Hfrac. symmetry. exact Hl. }
    rewrite inject_Z_plus in Hu. change (inject_Z 1) with 1 in Hu.
    assert (Hi : inject_Z (- Qfloor x - 1) == - inject_Z (Qfloor x) - 1).
    { unfold Qeq, Qminus, Qplus, Qopp, inject_Z. cbn [Qnum Qden]. lia. }
    assert (Hfo : Qfloor (- x) = (- Qfloor x - 1)%Z).
    { apply Qfloor_unique.
      - rewrite Hi. lra.
      - replace (- Qfloor x - 1 + 1)%Z with (- Qfloor x)%Z by lia.
        rewrite inject_Z_opp. lra. }
    unfold nearestEven. cbv zeta. rewrite Hfo.
    assert (Heven : Z.even (- Qfloor x - 1) = negb (Z.even (Qfloor x))).
    { replace (- Qfloor x - 1)%Z with (- (Qfloor x + 1))%Z by lia.
      rewrite Z.even_opp, Z.even_add. cbn.
      destruct (Z.even (Qfloor x)); reflexivity. }
    rewrite Heven.
    destruct (x - inject_Z (Qfloor x) ?= 1 # 2) eqn:Ex;
      destruct (- x - inject_Z (- Qfloor x - 1) ?= 1 # 2) eqn:Ey;
      try destruct (Z.even (Qfloor x)); cbn [negb]; try lia; exfalso;
      repeat match goal with
             | H : (_ ?= _) = Eq |- _ => apply Qeq_alt in H
             | H : (_ ?= _) = Lt |- _ => apply Qlt_alt in H
             | H : (_ ?= _) = Gt |- _ => apply Qgt_alt in H
             end; rewrite Hi in Ey; lra.
Qed.

(** *** Rounding to a grid *)

Lemma div_pow2 (e : Z) (x : Q) : x / pow2 e * pow2 e == x.
Proof.
  pose proof (pow2_pos e). field. intros H0. rewrite H0 in H. lra.
Qed.

Lemma toGrid_comp (e : Z) (x y : Q) : x == y -> toGrid e x = toGrid e y.
Proof.
  intros H. unfold toGrid.
  rewrite (nearestEven_comp (x / pow2 e) (y / pow2 e)); [reflexivity|].
  rewrite H. reflexivity.
Qed.

Lemma toGrid_mono (e : Z) (x y : Q) : x <= y -> toGrid e x <= toGrid e y.
Proof.
  intros Hxy. unfold toGrid. pose proof (pow2_pos e) as Hp.
  apply Qmult_le_compat_r; [|lra].
  rewrite <- Zle_Qle. apply nearestEven_mono.
  unfold Qdiv. apply Qmult_le_compat_r; [exact Hxy|].
  apply Qlt_le_weak, Qinv_lt_0_compat. exact Hp.
Qed.

Lemma toGrid_fix (e k : Z) :
  toGrid e (inject_Z k * pow2 e) == inject_Z k * pow2 e.
Proof.
  unfold toGrid. pose proof (pow2_pos e) as Hp.
  rewrite (nearestEven_comp _ (inject_Z k)).
  - rewrite nearestEven_Z. reflexivity.
  - field. intros H0. rewrite H0 in Hp. lra.
Qed.

Lemma toGrid_err (e : Z) (x : Q) :
  - (pow2 e / 2) <= toGrid e x - x <= pow2 e / 2.
Proof.
  unfold toGrid. pose proof (pow2_pos e) as Hp.
  pose proof (nearestEven_err (x / pow2 e)) as He.
  pose proof (div_pow2 e x) as Hx.
  set (t := x / pow2 e) in *. set (p := pow2 e) in *.
  set (m := inject_Z (nearestEven t)) in *.
  assert (H1 : m * p - x == (m - t) * p) by (rewrite <- Hx; ring).
  rewrite H1. set (d := m - t) in *.
  assert (Ha : 0 <= (d + (1 # 2)) * p) by (apply Qmult_le_0_compat; lra).
  assert (Hb : 0 <= ((1 # 2) - d) * p) by (apply Qmult_le_0_compat; lra).
  assert (Ea : (d + (1 # 2)) * p == d * p + p / 2) by field.
  assert (Eb : ((1 # 2) - d) * p == p / 2 - d * p) by field.
  rewrite Ea in Ha. rewrite Eb in Hb. split; lra.
Qed.

Lemma toGrid_opp (e : Z) (x : Q) : toGrid e (- x) == - toGrid e x.
Proof.
  unfold toGrid.
  rewrite (nearestEven_comp (- x / pow2 e) (- (x / pow2 e))).
  - rewrite nearestEven_opp, inject_Z_opp. ring.
  - unfold Qdiv. ring.
Qed.


(** *** The binade of a positive number *)

Lemma binade_spec (x : Q) :
  0 < x -> pow2 (binade x) <= x /\ x < pow2 (binade x + 1).
Proof.
  intros Hx. destruct x as [a b].
  assert (Ha : (0 < a)%Z).
  { unfold Qlt in Hx. cbn [Qnum Qden] in Hx. lia. }
  pose proof (Z.log2_spec a Ha) as [Hal Hau].
  pose proof (Z.log2_spec (Z.pos b) ltac:(lia)) as [Hbl Hbu].
  pose proof (Z.log2_nonneg a) as Hla.
  pose proof (Z.log2_nonneg (Z.pos b)) as Hlb.
  set (la := Z.log2 a) in *. set (lb := Z.log2 (Z.pos b)) in *.
  assert (Hup : a # b < pow2 (la - lb + 1)).
  { replace (la - lb + 1)%Z with (Z.succ la - lb)%Z by lia.
    rewrite pow2_sub, (pow2_Z (Z.succ la)), (pow2_Z lb) by lia.
    assert (Hp : (0 < 2 ^ lb)%Z) by (apply Z.pow_pos_nonneg; lia).
    apply Qlt_shift_div_l.
    - rewrite <- (Zlt_Qlt 0). exact Hp.
    - unfold Qlt, Qmult, inject_Z. cbn [Qnum Qden]. nia. }
  assert (Hlow : pow2 (la - lb - 1) <= a # b).
  { replace (la - lb - 1)%Z with (la - Z.succ lb)%Z by lia.
    rewrite pow2_sub, (pow2_Z la), (pow2_Z (Z.succ lb)) by lia.
    assert (Hp : (0 < 2 ^ Z.succ lb)%Z) by (apply Z.pow_pos_nonneg; lia).
    apply Qle_shift_div_r.
    - rewrite <- (Zlt_Qlt 0). exact Hp.
    - unfold Qle, Qmult, inject_Z. cbn [Qnum Qden]. nia. }
  unfold binade. cbn [Qnum Qden]. fold la lb.
  destruct (Qle_bool (pow2 (la - lb)) (a # b)) eqn:E.
  - apply Qle_bool_iff in E. split; assumption.
  - assert (Hlt : a # b < pow2 (la - lb)).
    { apply Qnot_le_lt. intros Hle. apply Qle_bool_iff in Hle. congruence. }
    replace (la - lb - 1 + 1)%Z with (la - lb)%Z by lia.
    split; assumption.
Qed.

Lemma binade_unique (x : Q) (b : Z) :
  pow2 b <= x -> x < pow2 (b + 1) -> binade x = b.
Proof.
  intros Hl Hu.
  assert (Hx : 0 < x) by (pose proof (pow2_pos b); lra).
  destruct (binade_spec x Hx) as [Hl' Hu'].
  assert (H1 : pow2 b < pow2 (binade x + 1)) by lra.
  assert (H2 : pow2 (binade x) < pow2 (b + 1)) by lra.
  apply pow2_lt_inv in H1, H2. lia.
Qed.

Lemma binade_comp (x y : Q) : 0 < x -> x == y -> binade x = binade y.
Proof.
  intros Hx Hxy. destruct (binade_spec x Hx) as [Hl Hu].
  symmetry. apply binade_unique; rewrite <- Hxy; assumption.
Qed.

Lemma binade_mono (x y : Q) : 0 < x -> x <= y -> (binade x <= binade y)%Z.
Proof.
  intros Hx Hxy.
  destruct (binade_spec x Hx) as [Hl _].
  destruct (binade_spec y ltac:(lra)) as [_ Hu].
  assert (H : pow2 (binade x) < pow2 (binade y + 1)) by lra.
  apply pow2_lt_inv in H. lia.
Qed.

(** *** Rounding to a double *)

Lemma Qabs_nonzero (x : Q) : ~ x == 0 -> 0 < Qabs x.
Proof.
  intros Hx. apply Qabs_case; intros H.
  - apply Qle_lteq in H. destruct H as [H | H]; [exact H|].
    exfalso. apply Hx. symmetry. exact H.
  - apply Qle_lteq in H. destruct H as [H | H]; [lra|].
    exfalso. apply Hx. exact H.
Qed.

Lemma ulpExponent_comp (x y : Q) :
  ~ x == 0 -> x == y -> ulpExponent x = ulpExponent y.
Proof.
  intros Hx Hxy. unfold ulpExponent.
  rewrite (binade_comp (Qabs x) (Qabs y)); [reflexivity| |].
  - apply Qabs_nonzero. exact Hx.
  - rewrite Hxy. reflexivity.
Qed.

Lemma ulpExponent_opp (x : Q) : ulpExponent (- x) = ulpExponent x.
Proof.
  unfold ulpExponent.
  destruct (Qeq_dec x 0) as [H0 | Hn].
  - assert (Hq : Qabs (- x) = Qabs x).
    { destruct x as [a b]. unfold Qeq in H0. cbn [Qnum Qden] in H0.
      assert (a = 0%Z) by lia. subst a. reflexivity. }
    rewrite Hq. reflexivity.
  - rewrite (binade_comp (Qabs (- x)) (Qabs x)); [reflexivity| |].
    + apply Qabs_nonzero. intros H. apply Hn. lra.
    + apply Qabs_opp.
Qed.

(** [round64] on a number that is not zero, and on zero. *)
Lemma round64_eq (x : Q) :
  ~ x == 0 -> round64 x == toGrid (ulpExponent x) x.
Proof.
  intros Hx. unfold round64. cbv zeta.
  pose proof (Qred_correct x) as Hr.
  destruct (Qeq_bool (Qred x) 0) eqn:E.
  - apply Qeq_bool_iff in E. exfalso. apply Hx. rewrite <- Hr. exact E.
  - rewrite (ulpExponent_comp (Qred x) x); [|rewrite Hr; exact Hx | exact Hr].
    rewrite (toGrid_comp _ (Qred x) x Hr). reflexivity.
Qed.

Lemma round64_0 (x : Q) : x == 0 -> round64 x == 0.
Proof.
  intros Hx. unfold round64. cbv zeta.
  pose proof (Qred_correct x) as Hr.
  destruct (Qeq_bool (Qred x) 0) eqn:E; [reflexivity|].
  apply Qeq_bool_neq in E. exfalso. apply E. rewrite Hr. exact Hx.
Qed.

Lemma round64_comp (x y : Q) : x == y -> round64 x = round64 y.
Proof.
  intros H. unfold round64. rewrite (Qred_complete x y H). reflexivity.
Qed.

Lemma round64_opp (x : Q) : round64 (- x) == - round64 x.
Proof.
  destruct (Qeq_dec x 0) as [H0 | Hn].
  - rewrite (round64_0 x H0), (round64_0 (- x)); lra.
  - rewrite (round64_eq x Hn), (round64_eq (- x)) by (intros H; apply Hn; lra).
    rewrite ulpExponent_opp. apply toGrid_opp.
Qed.

Lemma toGrid_nonneg (e : Z) (x : Q) : 0 <= x -> 0 <= toGrid e x.
Proof.
  intros Hx. pose proof (toGrid_mono e 0 x Hx) as H.
  assert (H0 : toGrid e 0 == 0).
  { rewrite (toGrid_comp e 0 (inject_Z 0 * pow2 e)) by ring.
    rewrite toGrid_fix. ring. }
  lra.
Qed.

Lemma round64_nonneg (x : Q) : 0 <= x -> 0 <= round64 x.
Proof.
  intros Hx. destruct (Qeq_dec x 0) as [H0 | Hn].
  - rewrite (round64_0 x H0). lra.
  - rewrite (round64_eq x Hn). apply toGrid_nonneg. exact Hx.
Qed.

(** A power of two at or above the spacing is on the grid. *)
Lemma pow2_on_grid (e b : Z) :
  (e <= b)%Z -> pow2 b == inject_Z (2 ^ (b - e)) * pow2 e.
Proof.
  intros H. rewrite <- (pow2_Z (b - e)) by lia.
  rewrite <- pow2_add. replace (b - e + e)%Z with b by lia. reflexivity.
Qed.

Lemma round64_mono_pos (x y : Q) :
  0 < x -> x <= y -> round64 x <= round64 y.
Proof.
  intros Hx Hxy.
  rewrite (round64_eq x), (round64_eq y) by lra.
  unfold ulpExponent.
  rewrite (binade_comp (Qabs x) x), (binade_comp (Qabs y) y);
    try (rewrite Qabs_pos; lra); try (apply Qabs_pos; lra).
  pose proof (binade_mono x y Hx Hxy) as Hb.
  destruct (binade_spec x Hx) as [_ Hxu].
  destruct (binade_spec y ltac:(lra)) as [Hyl _].
  set (bx := binade x) in *. set (bY := binade y) in *.
  destruct (Z.eq_dec (Z.max (bx - 52) (-1074)) (Z.max (bY - 52) (-1074)))
    as [He | Hne].
  - rewrite He. apply toGrid_mono. exact Hxy.
  - assert (Hlt : (bx < bY)%Z) by lia.
    assert (HeY : Z.max (bY - 52) (-1074) = (bY - 52)%Z) by lia.
    assert (HxB : x <= pow2 bY).
    { apply Qlt_le_weak. apply Qlt_le_trans with (pow2 (bx + 1)); [exact Hxu|].
      apply pow2_le. lia. }
    apply Qle_trans with (pow2 bY).
    + pose proof (toGrid_mono (Z.max (bx - 52) (-1074)) x (pow2 bY) HxB) as H.
      rewrite (toGrid_comp _ (pow2 bY)
                 (inject_Z (2 ^ (bY - Z.max (bx - 52) (-1074)))
                  * pow2 (Z.max (bx - 52) (-1074)))) in H
        by (apply pow2_on_grid; lia).
      rewrite toGrid_fix in H. rewrite <- pow2_on_grid in H by lia.
      exact H.
    + rewrite HeY.
      pose proof (toGrid_mono (bY - 52) (pow2 bY) y Hyl) as H.
      rewrite (toGrid_comp _ (pow2 bY)
                 (inject_Z (2 ^ (bY - (bY - 52))) * pow2 (bY - 52))) in H
        by (apply pow2_on_grid; lia).
      rewrite toGrid_fix in H. rewrite <- pow2_on_grid in H by lia.
      exact H.
Qed.

(** Rounding keeps the order. *)
Lemma round64_mono (x y : Q) : x <= y -> round64 x <= round64 y.
Proof.
  intros Hxy.
  destruct (Qlt_le_dec 0 x) as [Hx | Hx].
  - apply round64_mono_pos; assumption.
  - destruct (Qlt_le_dec y 0) as [Hy | Hy].
    + assert (H : round64 (- y) <= round64 (- x))
        by (apply round64_mono_pos; lra).
      rewrite !round64_opp in H. lra.
    + pose proof (round64_nonneg y Hy) as H1.
      pose proof (round64_nonneg (- x) ltac:(lra)) as H2.
      rewrite round64_opp in H2. lra.
Qed.


(** A number with at most 53 significant bits, and none below [2 ^ -1074],
    is a double: rounding leaves it alone. *)
Lemma round64_fix_pos (x : Q) (k j : Z) :
  (0 < k < 2 ^ 53)%Z -> (-1074 <= j)%Z ->
  x == inject_Z k * pow2 j -> round64 x == x.
Proof.
  intros Hk Hj Hx. pose proof (pow2_pos j) as Hp.
  assert (Hk0 : 0 < inject_Z k) by (rewrite <- (Zlt_Qlt 0); lia).
  assert (Hpos : 0 < x) by (rewrite Hx; apply Qmult_lt_0_compat; assumption).
  rewrite (round64_eq x) by lra.
  unfold ulpExponent.
  rewrite (binade_comp (Qabs x) x) by (try rewrite Qabs_pos; try apply Qabs_pos; lra).
  destruct (binade_spec x Hpos) as [Hl _].
  assert (Hu : x < pow2 (53 + j)).
  { rewrite Hx, pow2_add, (pow2_Z 53) by lia.
    apply Qmult_lt_compat_r; [exact Hp|]. rewrite <- Zlt_Qlt. lia. }
  assert (Hb : pow2 (binade x) < pow2 (53 + j)) by lra.
  apply pow2_lt_inv in Hb.
  set (e := Z.max (binade x - 52) (-1074)).
  assert (He : (e <= j)%Z) by (unfold e; lia).
  assert (Hg : x == inject_Z (k * 2 ^ (j - e)) * pow2 e).
  { rewrite Hx, (pow2_on_grid e j He), inject_Z_mult. ring. }
  rewrite (toGrid_comp e x _ Hg), toGrid_fix. symmetry. exact Hg.
Qed.

Lemma round64_fix (x : Q) (k j : Z) :
  (- 2 ^ 53 < k < 2 ^ 53)%Z -> (-1074 <= j)%Z ->
  x == inject_Z k * pow2 j -> round64 x == x.
Proof.
  intros Hk Hj Hx.
  destruct (Z.lt_trichotomy k 0) as [Hn | [-> | Hp]].
  - assert (H : round64 (- x) == - x).
    { apply round64_fix_pos with (k := (- k)%Z) (j := j); [lia | lia|].
      rewrite Hx, inject_Z_opp. ring. }
    rewrite round64_opp in H. lra.
  - assert (H0 : x == 0) by (rewrite Hx; ring).
    rewrite (round64_0 x H0). symmetry. exact H0.
  - apply round64_fix_pos with (k := k) (j := j); [lia | lia | exact Hx].
Qed.

Lemma round64_Z (z : Z) :
  (- 2 ^ 53 < z < 2 ^ 53)%Z -> round64 (inject_Z z) == inject_Z z.
Proof.
  intros Hz. apply round64_fix with (k := z) (j := 0%Z); [lia | lia|].
  unfold pow2. rewrite Qpower_0_r. ring.
Qed.

Lemma round64_half (z : Z) :
  (- 2 ^ 53 < z < 2 ^ 53)%Z -> round64 (inject_Z z / 2) == inject_Z z / 2.
Proof.
  intros Hz. apply round64_fix with (k := z) (j := (-1)%Z); [lia | lia|].
  reflexivity.
Qed.

(** The relative error of rounding a number in the normal range. *)
Lemma round64_err (x : Q) :
  pow2 (-1022) <= x ->
  x * (1 - eps) <= round64 x /\ round64 x <= x * (1 + eps).
Proof.
  intros Hx. pose proof (pow2_pos (-1022)) as Hp.
  assert (Hpos : 0 < x) by lra.
  rewrite (round64_eq x) by lra.
  unfold ulpExponent.
  rewrite (binade_comp (Qabs x) x) by (try rewrite Qabs_pos; try apply Qabs_pos; lra).
  destruct (binade_spec x Hpos) as [Hl Hu].
  assert (Hb : pow2 (-1022) < pow2 (binade x + 1)) by lra.
  apply pow2_lt_inv in Hb.
  rewrite Z.max_l by lia.
  pose proof (toGrid_err (binade x - 52) x) as [He1 He2].
  assert (Hh : pow2 (binade x - 52) / 2 == pow2 (binade x) * eps).
  { replace (binade x - 52)%Z with (binade x + -52)%Z by lia.
    rewrite pow2_add. unfold Qdiv. rewrite <- Qmult_assoc.
    apply Qmult_comp; reflexivity. }
  rewrite Hh in He1, He2.
  assert (Hle : pow2 (binade x) * eps <= x * eps).
  { apply Qmult_le_compat_r; [exact Hl | discriminate]. }
  split; lra.
Qed.

End Binary64Facts.

(** ** Resampling *)

(** Comparisons of rationals, reduced to integer arithmetic. *)
Ltac qarith :=
  unfold Qeq, Qle, Qlt, Qminus, Qplus, Qopp, Qdiv, Qmult, Qinv, inject_Z;
  cbn [Qnum Qden]; rewrite ?Pos2Z.inj_mul; lia.

Section ResampleFacts.
Import Pcm.

(** C8. Resampling from a rate to the same rate returns the input bytes. *)
Theorem resample_same_rate_identity (input : Buffer) (rate : positive) :
  resamplePCM input rate rate = Some input.
Proof.
  unfold resamplePCM. rewrite Pos.eqb_refl. reflexivity.
Qed.

Lemma srcIndex_floor (j : Z) (F T : positive) :
  Qfloor (inject_Z j * ratioOf F T)%Q = (j * Z.pos F) / Z.pos T.
Proof.
  unfold ratioOf.
  rewrite (Qfloor_comp _ ((j * Z.pos F) # T)).
  - reflexivity.
  - qarith.
Qed.

Lemma outputSamples_formula (input : Buffer) (F T : positive) :
  outputSamplesOf input F T
  = (Z.of_nat (List.length input) * Z.pos T) / (2 * Z.pos F).
Proof.
  unfold outputSamplesOf.
  rewrite (Qfloor_comp _ ((Z.of_nat (List.length input) * Z.pos T) # (2 * F))).
  - reflexivity.
  - assert (Hr : (inject_Z (Z.pos F) / inject_Z (Z.pos T) == Z.pos F # T)%Q)
      by qarith.
    rewrite Hr. qarith.
Qed.

Lemma floor_offset (f : Z) : (inject_Z f * 2 == inject_Z (2 * f))%Q.
Proof. qarith. Qed.

Lemma ceil_offset (f L : Z) :
  (Qmin (inject_Z (f + 1)) (inject_Z L / 2 - 1) * 2
   == inject_Z (Z.min (2 * f + 2) (L - 2)))%Q.
Proof.
  destruct (Z_le_gt_dec (2 * f + 2) (L - 2)) as [Hle | Hgt].
  - rewrite Q.min_l; [rewrite Z.min_l by lia|]; qarith.
  - rewrite Q.min_r; [rewrite Z.min_r by lia|]; qarith.
Qed.

(** Downsampling keeps both source indices inside the input: for every
    output index below [outputSamples], the floor index and its successor
    are both below the last sample. *)
Lemma source_indices_in_bounds (L F T j : Z) :
  0 < T < F -> 0 <= j < (L * T) / (2 * F) ->
  0 <= (j * F) / T /\ 2 * ((j * F) / T) + 2 < L.
Proof.
  intros HTF Hj.
  assert (Hn : ((L * T) / (2 * F)) * (2 * F) <= L * T)
    by (rewrite Z.mul_comm; apply Z.mul_div_le; lia).
  assert (Hf : ((j * F) / T) * T <= j * F)
    by (rewrite Z.mul_comm; apply Z.mul_div_le; lia).
  split; [apply Z.div_pos; nia|].
  assert (Hj1 : (j + 1) * (2 * F) <= L * T) by nia.
  destruct (Z_lt_ge_dec (2 * ((j * F) / T) + 2) L) as [|Hge]; [assumption|].
  exfalso.
  assert (L * T <= (2 * ((j * F) / T) + 2) * T) by nia.
  nia.
Qed.

(** The loop: [n] iterations from index [i] succeed when every iteration's
    interpolation does, fill the samples [i .. i + n - 1] of the output and
    leave the samples below [i] alone. *)
Lemma resampleLoop_fills (input : Buffer) (ratio inS : Q) (val : Z -> Z) :
  forall (n : nat) (i : Z) (output : Buffer),
    0 <= i ->
    (i + Z.of_nat n) * 2 <= Z.of_nat (List.length output) ->
    (forall j, i <= j < i + Z.of_nat n ->
       interpolateAt input ratio inS j = Some (val j)
       /\ -32768 <= val j <= 32767) ->
    exists out,
      resampleLoop input ratio inS n i output = Some out
      /\ List.length out = List.length output
      /\ (forall j, i <= j < i + Z.of_nat n -> sampleAt out j = Some (val j))
      /\ (forall j, 0 <= j < i -> sampleAt out j = sampleAt output j).
Proof.
  induction n as [|n IH]; intros i output Hi Hlen Hval.
  - exists output. cbn [resampleLoop]. repeat split; intros; try lia.
  - cbn [resampleLoop].
    destruct (Hval i ltac:(lia)) as [Hint Hrange]. rewrite Hint.
    destruct (writeInt16LE_succeeds output (val i) (i * 2) Hrange
                ltac:(lia) ltac:(lia)) as [output' Hw].
    rewrite Hw.
    pose proof (writeInt16LE_length _ _ _ _ Hw) as Hl'.
    destruct (IH (i + 1) output' ltac:(lia) ltac:(lia)) as (out & Hrun & Hl & Hnew & Hold).
    { intros j Hj. apply Hval. lia. }
    exists out. repeat split.
    + exact Hrun.
    + congruence.
    + intros j Hj. destruct (Z.eq_dec j i) as [-> | Hne].
      * rewrite Hold by lia. unfold sampleAt. apply (read_written _ _ _ _ Hw).
      * apply Hnew. lia.
    + intros j Hj. rewrite Hold by lia. unfold sampleAt.
      apply (read_below_written _ _ _ _ _ Hw); lia.
Qed.

End ResampleFacts.

(** ** Resampling in double precision *)

Section DoublesFacts.
Import Pcm Binary64 Doubles.

Lemma pow2_m53 : (pow2 (-53) == eps)%Q.
Proof. reflexivity. Qed.

Lemma pow2_normal_lt_1 : (pow2 (-1022) < 1)%Q.
Proof.
  assert (H : (pow2 (-1022) < pow2 0)%Q) by (apply pow2_lt; lia).
  exact H.
Qed.

Lemma round64_pow2 (j : Z) : -1074 <= j -> (round64 (pow2 j) == pow2 j)%Q.
Proof.
  intros Hj. apply round64_fix with (k := 1) (j := j); [lia | lia|].
  change (inject_Z 1) with 1%Q. ring.
Qed.

Lemma round64_1 : (round64 1 == 1)%Q.
Proof. apply (round64_Z 1). lia. Qed.

Lemma round64_le_Z (x : Q) (z : Z) :
  - 2 ^ 53 < z < 2 ^ 53 -> (x <= inject_Z z)%Q -> (round64 x <= inject_Z z)%Q.
Proof.
  intros Hz Hx. pose proof (round64_mono _ _ Hx) as H.
  rewrite (round64_Z z Hz) in H. exact H.
Qed.

Lemma round64_ge_Z (x : Q) (z : Z) :
  - 2 ^ 53 < z < 2 ^ 53 -> (inject_Z z <= x)%Q -> (inject_Z z <= round64 x)%Q.
Proof.
  intros Hz Hx. pose proof (round64_mono _ _ Hx) as H.
  rewrite (round64_Z z Hz) in H. exact H.
Qed.

(** The ratio of two rates: positive, in the normal range, and within one
    rounding of the exact quotient. *)
Lemma ratio_bounds (F T : positive) :
  Z.pos F < 2 ^ 53 -> Z.pos T < 2 ^ 53 ->
  let rho := (inject_Z (Z.pos F) / inject_Z (Z.pos T))%Q in
  (rho * (1 - eps) <= ratioOf F T)%Q
  /\ (ratioOf F T <= rho * (1 + eps))%Q
  /\ (pow2 (-53) <= ratioOf F T)%Q
  /\ (0 < rho)%Q.
Proof.
  intros HF HT. cbv zeta.
  set (rho := (inject_Z (Z.pos F) / inject_Z (Z.pos T))%Q).
  assert (Hrho : (pow2 (-53) <= rho)%Q).
  { rewrite pow2_m53. unfold rho, eps.
    unfold Qle, Qdiv, Qmult, Qinv, inject_Z. cbn [Qnum Qden].
    change (2 ^ 53) with 9007199254740992 in HT. lia. }
  assert (Hn : (pow2 (-1022) <= rho)%Q).
  { apply Qle_trans with (pow2 (-53)); [apply pow2_le; lia | exact Hrho]. }
  destruct (round64_err rho Hn) as [Hl Hu].
  unfold ratioOf, div64. fold rho.
  split; [exact Hl|]. split; [exact Hu|]. split.
  - rewrite <- (round64_pow2 (-53)) by lia. apply round64_mono. exact Hrho.
  - pose proof (pow2_pos (-53)). lra.
Qed.

Lemma ratio_ge_1 (F T : positive) :
  (T <= F)%positive -> (1 <= ratioOf F T)%Q.
Proof.
  intros H. unfold ratioOf, div64.
  rewrite <- round64_1 at 1. apply round64_mono.
  unfold Qle, Qdiv, Qmult, Qinv, inject_Z. cbn [Qnum Qden]. lia.
Qed.

Lemma inputSamples_exact (input : Buffer) :
  Z.of_nat (List.length input) < 2 ^ 53 ->
  (inputSamplesOf input == inject_Z (Z.of_nat (List.length input)) / 2)%Q.
Proof.
  intros H. unfold inputSamplesOf, div64. apply round64_half. lia.
Qed.

(** The index computed for output sample [i] stays below [K] when the
    count of output samples was computed from an input of [inS] samples
    and [inS] is not too large against the ratio. *)
Lemma srcIndex_below (r inS : Q) (K i : Z) :
  (pow2 (-1022) <= r)%Q ->
  (0 <= inS)%Q ->
  (inS * (1 + 3 * eps) < r + inject_Z K)%Q ->
  0 <= i ->
  (inject_Z (i + 1) <= div64 inS r)%Q ->
  (0 <= mul64 (inject_Z i) r)%Q /\ (mul64 (inject_Z i) r < inject_Z K)%Q.
Proof.
  intros Hr HinS Hcond Hi Hcount.
  pose proof (pow2_pos (-1022)) as Hp.
  pose proof pow2_normal_lt_1 as Hp1.
  assert (Hr0 : (0 < r)%Q) by lra.
  unfold div64 in Hcount. unfold mul64.
  set (q := (inS / r)%Q) in *.
  assert (Hq : (q * r == inS)%Q).
  { unfold q. field. intros H0. rewrite H0 in Hr0. lra. }
  assert (Hi1 : (inject_Z (i + 1) == inject_Z i + 1)%Q).
  { rewrite inject_Z_plus. reflexivity. }
  assert (Hi0 : (0 <= inject_Z i)%Q) by (rewrite <- (Zle_Qle 0); exact Hi).
  assert (Hqn : (pow2 (-1022) <= q)%Q).
  { destruct (Qlt_le_dec q (pow2 (-1022))) as [Hlt | Hge]; [|exact Hge].
    exfalso.
    pose proof (round64_mono q (pow2 (-1022)) (Qlt_le_weak _ _ Hlt)) as Hm.
    rewrite (round64_pow2 (-1022)) in Hm by lia. lra. }
  destruct (round64_err q Hqn) as [_ Herr].
  assert (Hsum : (inject_Z i * r + r <= inS * (1 + eps))%Q).
  { assert (H1 : ((inject_Z i + 1) * r <= q * (1 + eps) * r)%Q).
    { apply Qmult_le_compat_r; lra. }
    assert (H2 : (q * (1 + eps) * r == inS * (1 + eps))%Q)
      by (rewrite <- Hq; ring).
    assert (H3 : ((inject_Z i + 1) * r == inject_Z i * r + r)%Q) by ring.
    lra. }
  set (X := (inject_Z i * r)%Q) in *.
  assert (HX0 : (0 <= X)%Q) by (apply Qmult_le_0_compat; lra).
  assert (Heps : (0 < eps)%Q) by reflexivity.
  assert (Heps1 : (eps < 1)%Q) by reflexivity.
  split; [apply round64_nonneg; exact HX0|].
  destruct (Z.eq_dec i 0) as [-> | Hne].
  - assert (HX : (X == 0)%Q) by (unfold X; ring).
    rewrite (round64_0 X HX).
    assert (0 <= inS * eps)%Q by (apply Qmult_le_0_compat; lra).
    lra.
  - assert (Hi2 : (1 <= inject_Z i)%Q) by (rewrite <- (Zle_Qle 1); lia).
    assert (HXr : (r <= X)%Q).
    { assert (H1 : (0 <= (inject_Z i - 1) * r)%Q)
        by (apply Qmult_le_0_compat; lra).
      assert (H2 : ((inject_Z i - 1) * r == X - r)%Q) by (unfold X; ring).
      lra. }
    destruct (round64_err X ltac:(lra)) as [_ HerrX].
    assert (He1 : (0 <= inS * eps)%Q) by (apply Qmult_le_0_compat; lra).
    assert (He2 : (0 <= r * eps)%Q) by (apply Qmult_le_0_compat; lra).
    assert (He3 : (inS * eps * eps <= inS * eps)%Q).
    { assert (H1 : (0 <= inS * eps * (1 - eps))%Q)
        by (apply Qmult_le_0_compat; lra).
      assert (H2 : (inS * eps * (1 - eps)
                    == inS * eps - inS * eps * eps)%Q) by ring.
      lra. }
    assert (HXe : (X * eps <= (inS * (1 + eps) - r) * eps)%Q).
    { apply Qmult_le_compat_r; lra. }
    assert (Hexp : ((inS * (1 + eps) - r) * eps
                    == inS * eps + inS * eps * eps - r * eps)%Q) by ring.
    assert (HXX : (X * (1 + eps) == X + X * eps)%Q) by ring.
    assert (Hc : (inS * (1 + 3 * eps) == inS + 3 * (inS * eps))%Q) by ring.
    assert (Hs : (inS * (1 + eps) == inS + inS * eps)%Q) by ring.
    lra.
Qed.


(** Offsets and counts are whole numbers far below [2 ^ 53]: doubling
    them and adding one is exact. *)
Lemma mul2_exact (z : Z) :
  - 2 ^ 52 < z < 2 ^ 52 -> (mul64 (inject_Z z) 2 == inject_Z (2 * z))%Q.
Proof.
  intros Hz. unfold mul64.
  rewrite (round64_comp _ (inject_Z (2 * z))).
  - apply round64_Z. lia.
  - rewrite inject_Z_mult. change (inject_Z 2) with 2%Q. ring.
Qed.

Lemma mul2_floor (z : Z) :
  - 2 ^ 52 < z < 2 ^ 52 -> Qfloor (mul64 (inject_Z z) 2) = z * 2.
Proof.
  intros Hz. rewrite (Qfloor_comp _ _ (mul2_exact z Hz)), Qfloor_Z. lia.
Qed.

Lemma add1_exact (z : Z) :
  - 2 ^ 52 < z < 2 ^ 52 -> (add64 (inject_Z z) 1 == inject_Z (z + 1))%Q.
Proof.
  intros Hz. unfold add64.
  rewrite (round64_comp _ (inject_Z (z + 1))).
  - apply round64_Z. lia.
  - rewrite inject_Z_plus. reflexivity.
Qed.

Lemma last_sample_exact (input : Buffer) :
  Z.of_nat (List.length input) < 2 ^ 52 ->
  (sub64 (inputSamplesOf input) 1
   == inject_Z (Z.of_nat (List.length input) - 2) / 2)%Q.
Proof.
  intros HL. unfold sub64.
  rewrite (round64_comp _ (inject_Z (Z.of_nat (List.length input) - 2) / 2)).
  - apply round64_half. lia.
  - rewrite inputSamples_exact by lia.
    unfold Z.sub. rewrite inject_Z_plus.
    change (inject_Z (- (2))) with (- (2))%Q. field.
Qed.

(** The byte offset of the second read. *)
Lemma ceil_offset_exact (input : Buffer) (f : Z) :
  Z.of_nat (List.length input) < 2 ^ 52 ->
  0 <= f < 2 ^ 51 ->
  (mul64 (Qmin (add64 (inject_Z f) 1) (sub64 (inputSamplesOf input) 1)) 2
   == inject_Z (Z.min (2 * f + 2) (Z.of_nat (List.length input) - 2)))%Q.
Proof.
  intros HL Hf.
  set (L := Z.of_nat (List.length input)) in *.
  pose proof (add1_exact f ltac:(lia)) as Ha.
  pose proof (last_sample_exact input HL) as Hb. fold L in Hb.
  unfold mul64.
  destruct (Z_le_gt_dec (2 * f + 2) (L - 2)) as [Hle | Hgt].
  - rewrite Z.min_l by lia.
    rewrite (round64_comp _ (inject_Z (2 * f + 2))).
    + apply round64_Z. lia.
    + rewrite Q.min_l.
      * rewrite Ha, inject_Z_plus, inject_Z_plus, inject_Z_mult.
        change (inject_Z 2) with 2%Q. change (inject_Z 1) with 1%Q. ring.
      * rewrite Ha, Hb. apply Qle_shift_div_l; [reflexivity|].
        rewrite inject_Z_plus. change (inject_Z 1) with 1%Q.
        assert (H : (inject_Z (2 * f + 2) <= inject_Z (L - 2))%Q)
          by (rewrite <- Zle_Qle; exact Hle).
        rewrite inject_Z_plus, inject_Z_mult in H.
        change (inject_Z 2) with 2%Q in H. lra.
  - rewrite Z.min_r by lia.
    rewrite (round64_comp _ (inject_Z (L - 2))).
    + apply round64_Z. lia.
    + rewrite Q.min_r.
      * rewrite Hb. field.
      * rewrite Ha, Hb. apply Qle_shift_div_r; [reflexivity|].
        rewrite inject_Z_plus. change (inject_Z 1) with 1%Q.
        assert (H : (inject_Z (L - 2) <= inject_Z (2 * f + 2))%Q)
          by (rewrite <- Zle_Qle; lia).
        rewrite inject_Z_plus, inject_Z_mult in H.
        change (inject_Z 2) with 2%Q in H. lra.
Qed.

Lemma Qfloor_nonneg (x : Q) : (0 <= x)%Q -> 0 <= Qfloor x.
Proof.
  intros H. pose proof (Qfloor_resp_le _ _ H) as Hf.
  change (Qfloor 0) with 0 in Hf. exact Hf.
Qed.

Lemma Qfloor_below (x : Q) (k : Z) : (x < inject_Z k)%Q -> Qfloor x < k.
Proof.
  intros H. pose proof (Qfloor_le x) as Hl.
  assert (Hlt : (inject_Z (Qfloor x) < inject_Z k)%Q) by lra.
  rewrite <- Zlt_Qlt in Hlt. exact Hlt.
Qed.

Lemma below_count (v : Q) (i : Z) :
  i < Qfloor v -> (inject_Z (i + 1) <= v)%Q.
Proof.
  intros H. pose proof (Qfloor_le v) as Hl.
  assert (Hle : (inject_Z (i + 1) <= inject_Z (Qfloor v))%Q)
    by (rewrite <- Zle_Qle; lia).
  lra.
Qed.

Lemma interpolated64_range (F T : positive) (j s1 s2 : Z) :
  -32768 <= interpolated F T j s1 s2 <= 32767.
Proof. unfold interpolated. cbv zeta. lia. Qed.

(** One iteration: both reads are inside the input. *)
Lemma interpolateAt_reads (input : Buffer) (F T : positive) (i : Z) :
  let L := Z.of_nat (List.length input) in
  let r := ratioOf F T in
  L < 2 ^ 50 ->
  (pow2 (-1022) <= r)%Q ->
  (inputSamplesOf input * (1 + 3 * eps) < r + inject_Z (L / 2))%Q ->
  0 <= i < outputSamplesOf input F T ->
  let f := srcIndexFloorOf F T i in
  0 <= f /\ 2 * f + 2 <= L
  /\ exists sample1 sample2,
       readInt16LE input (inject_Z (2 * f)) = Some sample1
       /\ readInt16LE input (inject_Z (Z.min (2 * f + 2) (L - 2)))
          = Some sample2
       /\ -32768 <= sample1 <= 32767
       /\ -32768 <= sample2 <= 32767
       /\ interpolateAt input r (inputSamplesOf input) i
          = Some (interpolated F T i sample1 sample2).
Proof.
  intros L r HL Hr Hcond Hi. cbv zeta.
  assert (HinS : (inputSamplesOf input == inject_Z L / 2)%Q)
    by (apply inputSamples_exact; fold L; lia).
  assert (HinS0 : (0 <= inputSamplesOf input)%Q).
  { rewrite HinS. apply Qle_shift_div_l; [reflexivity|].
    rewrite Qmult_0_l, <- (Zle_Qle 0). unfold L. lia. }
  destruct (srcIndex_below r (inputSamplesOf input) (L / 2) i Hr HinS0 Hcond
              ltac:(lia)) as [Hs0 HsK].
  { apply below_count. unfold outputSamplesOf in Hi. fold r in Hi. lia. }
  unfold srcIndexFloorOf. fold r.
  set (s := mul64 (inject_Z i) r) in *.
  set (f := Qfloor s).
  assert (Hf0 : 0 <= f) by (apply Qfloor_nonneg; exact Hs0).
  assert (HfK : f < L / 2) by (apply Qfloor_below; exact HsK).
  assert (HLK : 2 * (L / 2) <= L) by (apply Z.mul_div_le; lia).
  assert (Hf2 : 2 * f + 2 <= L) by lia.
  destruct (readInt16LE_in_bounds input (2 * f) ltac:(lia) ltac:(lia))
    as (s1 & Hr1 & Hs1).
  destruct (readInt16LE_in_bounds input (Z.min (2 * f + 2) (L - 2))
              ltac:(lia) ltac:(lia)) as (s2 & Hr2 & Hs2).
  split; [exact Hf0|]. split; [exact Hf2|].
  exists s1, s2.
  split; [exact Hr1|]. split; [exact Hr2|].
  split; [exact Hs1|]. split; [exact Hs2|].
  unfold interpolateAt. cbv zeta. fold s. fold f.
  rewrite (readInt16LE_Qeq input _ _ (mul2_exact f ltac:(lia))), Hr1.
  rewrite (readInt16LE_Qeq input _ _
             (ceil_offset_exact input f ltac:(fold L; lia) ltac:(lia))).
  fold L. rewrite Hr2.
  unfold interpolated. cbv zeta. fold r. fold s. fold f. reflexivity.
Qed.

(** The loop: [n] iterations from index [i] succeed when every iteration's
    interpolation does, fill the samples [i .. i + n - 1] of the output and
    leave the samples below [i] alone. *)
Lemma resampleLoop_fills64 (input : Buffer) (ratio inS : Q) (val : Z -> Z) :
  forall (n : nat) (i : Z) (output : Buffer),
    0 <= i ->
    i + Z.of_nat n < 2 ^ 52 ->
    (i + Z.of_nat n) * 2 <= Z.of_nat (List.length output) ->
    (forall j, i <= j < i + Z.of_nat n ->
       interpolateAt input ratio inS j = Some (val j)
       /\ -32768 <= val j <= 32767) ->
    exists out,
      resampleLoop input ratio inS n i output = Some out
      /\ List.length out = List.length output
      /\ (forall j, i <= j < i + Z.of_nat n -> sampleAt out j = Some (val j))
      /\ (forall j, 0 <= j < i -> sampleAt out j = sampleAt output j).
Proof.
  induction n as [|n IH]; intros i output Hi Hbig Hlen Hval.
  - exists output. cbn [resampleLoop]. repeat split; intros; try lia.
  - cbn [resampleLoop].
    destruct (Hval i ltac:(lia)) as [Hint Hrange]. rewrite Hint.
    rewrite (mul2_floor i) by lia.
    destruct (writeInt16LE_succeeds output (val i) (i * 2) Hrange
                ltac:(lia) ltac:(lia)) as [output' Hw].
    rewrite Hw.
    pose proof (writeInt16LE_length _ _ _ _ Hw) as Hl'.
    destruct (IH (i + 1) output' ltac:(lia) ltac:(lia) ltac:(lia))
      as (out & Hrun & Hl & Hnew & Hold).
    { intros j Hj. apply Hval. lia. }
    exists out. repeat split.
    + exact Hrun.
    + congruence.
    + intros j Hj. destruct (Z.eq_dec j i) as [-> | Hne].
      * rewrite Hold by lia. unfold sampleAt. apply (read_written _ _ _ _ Hw).
      * apply Hnew. lia.
    + intros j Hj. rewrite Hold by lia. unfold sampleAt.
      apply (read_below_written _ _ _ _ _ Hw); lia.
Qed.

(** [resamplePCM] runs to the end when the reads of every iteration are
    inside the input. *)
Lemma resamplePCM_runs (input : Buffer) (F T : positive) :
  let L := Z.of_nat (List.length input) in
  let r := ratioOf F T in
  let n := outputSamplesOf input F T in
  F <> T ->
  L < 2 ^ 50 ->
  (pow2 (-1022) <= r)%Q ->
  (inputSamplesOf input * (1 + 3 * eps) < r + inject_Z (L / 2))%Q ->
  (inputSamplesOf input <= inject_Z (2 ^ 50) * r)%Q ->
  0 <= n
  /\ exists output,
       resamplePCM input F T = Some output
       /\ Z.of_nat (List.length output) = 2 * n
       /\ forall i,
            0 <= i < n ->
            let f := srcIndexFloorOf F T i in
            0 <= f /\ 2 * f + 2 <= L
            /\ exists sample1 sample2,
                 readInt16LE input (inject_Z (2 * f)) = Some sample1
                 /\ readInt16LE input (inject_Z (Z.min (2 * f + 2) (L - 2)))
                    = Some sample2
                 /\ -32768 <= sample1 <= 32767
                 /\ -32768 <= sample2 <= 32767
                 /\ sampleAt output i
                    = Some (interpolated F T i sample1 sample2).
Proof.
  intros L r n Hne HL Hr Hcond Hsize.
  pose proof (pow2_pos (-1022)) as Hp.
  assert (HinS : (inputSamplesOf input == inject_Z L / 2)%Q)
    by (apply inputSamples_exact; fold L; lia).
  assert (HinS0 : (0 <= inputSamplesOf input)%Q).
  { rewrite HinS. apply Qle_shift_div_l; [reflexivity|].
    rewrite Qmult_0_l, <- (Zle_Qle 0). unfold L. lia. }
  assert (Hq0 : (0 <= inputSamplesOf input / r)%Q).
  { apply Qle_shift_div_l; lra. }
  assert (Hn0 : 0 <= n).
  { unfold n, outputSamplesOf, div64. fold r.
    apply Qfloor_nonneg, round64_nonneg. exact Hq0. }
  assert (Hn50 : n <= 2 ^ 50).
  { unfold n, outputSamplesOf, div64. fold r.
    assert (Hq : (inputSamplesOf input / r <= inject_Z (2 ^ 50))%Q).
    { apply Qle_shift_div_r; lra. }
    pose proof (round64_mono _ _ Hq) as Hm.
    rewrite (round64_Z (2 ^ 50)) in Hm by lia.
    pose proof (Qfloor_resp_le _ _ Hm) as Hf. rewrite Qfloor_Z in Hf.
    exact Hf. }
  split; [exact Hn0|].
  set (val := fun j =>
    match interpolateAt input r (inputSamplesOf input) j
    with Some v => v | None => 0 end).
  assert (Hiter : forall j, 0 <= j < n ->
            let f := srcIndexFloorOf F T j in
            0 <= f /\ 2 * f + 2 <= L
            /\ exists sample1 sample2,
                 readInt16LE input (inject_Z (2 * f)) = Some sample1
                 /\ readInt16LE input (inject_Z (Z.min (2 * f + 2) (L - 2)))
                    = Some sample2
                 /\ -32768 <= sample1 <= 32767
                 /\ -32768 <= sample2 <= 32767
                 /\ interpolateAt input r (inputSamplesOf input) j
                    = Some (interpolated F T j sample1 sample2)).
  { intros j Hj. apply interpolateAt_reads; assumption. }
  assert (Hval : forall j, 0 <= j < 0 + Z.of_nat (Z.to_nat n) ->
            interpolateAt input r (inputSamplesOf input) j = Some (val j)
            /\ -32768 <= val j <= 32767).
  { intros j Hj.
    destruct (Hiter j ltac:(lia)) as (_ & _ & s1 & s2 & _ & _ & _ & _ & Hi).
    unfold val. rewrite Hi. split; [reflexivity | apply interpolated64_range]. }
  assert (Halloc : alloc (mul64 (inject_Z n) 2)
                   = repeat x00 (Z.to_nat (n * 2))).
  { unfold alloc. rewrite (mul2_floor n) by lia. reflexivity. }
  destruct (resampleLoop_fills64 input r (inputSamplesOf input) val
              (Z.to_nat n) 0 (repeat x00 (Z.to_nat (n * 2))) ltac:(lia)
              ltac:(lia))
    as (out & Hrun & Hl & Hnew & _).
  { rewrite repeat_length. lia. }
  { exact Hval. }
  exists out. split; [|split].
  - unfold resamplePCM.
    destruct (Pos.eqb_spec F T) as [-> | _]; [congruence|].
    cbv zeta. fold r. change (Qfloor (div64 (inputSamplesOf input) r)) with n.
    rewrite Halloc. exact Hrun.
  - rewrite Hl, repeat_length. lia.
  - intros i Hi. cbv zeta.
    destruct (Hiter i Hi) as (Hf0 & Hf2 & s1 & s2 & H1 & H2 & Hs1 & Hs2 & H3).
    split; [exact Hf0|]. split; [exact Hf2|].
    exists s1, s2. repeat split; try assumption; try lia.
    rewrite Hnew by lia. unfold val. rewrite H3. reflexivity.
Qed.


Lemma inject_pos_nonzero (p : positive) : ~ (inject_Z (Z.pos p) == 0)%Q.
Proof. unfold Qeq, inject_Z. cbn [Qnum Qden]. lia. Qed.

(** The count of output samples against the exact quotient: the rounding
    of the ratio and of the quotient can cost one sample, and cannot add
    one. *)
Lemma outputSamples_near_exact (input : Buffer) (F T : positive) :
  let L := Z.of_nat (List.length input) in
  Z.pos F < 2 ^ 53 -> Z.pos T < 2 ^ 53 ->
  L * Z.pos T + 2 * Z.pos F < 2 ^ 52 ->
  (L * Z.pos T) / (2 * Z.pos F) - 1 <= outputSamplesOf input F T
  /\ outputSamplesOf input F T <= (L * Z.pos T) / (2 * Z.pos F).
Proof.
  intros L HF HT Hsize.
  set (E := (L * Z.pos T) / (2 * Z.pos F)).
  assert (HL0 : 0 <= L) by (unfold L; lia).
  assert (HE : E * (2 * Z.pos F) <= L * Z.pos T
               /\ L * Z.pos T < (E + 1) * (2 * Z.pos F)).
  { unfold E. pose proof (Z.mul_div_le (L * Z.pos T) (2 * Z.pos F) ltac:(lia)).
    pose proof (Z.mul_succ_div_gt (L * Z.pos T) (2 * Z.pos F) ltac:(lia)).
    lia. }
  assert (HE0 : 0 <= E) by (unfold E; apply Z.div_pos; lia).
  destruct (ratio_bounds F T HF HT) as (Hrl & Hru & Hrn & Hrho).
  set (rho := (inject_Z (Z.pos F) / inject_Z (Z.pos T))%Q) in *.
  set (r := ratioOf F T) in *.
  assert (HinS : (inputSamplesOf input == inject_Z L / 2)%Q)
    by (apply inputSamples_exact; fold L; lia).
  assert (Heps : (0 < eps)%Q) by reflexivity.
  assert (Heps1 : (eps < 1)%Q) by reflexivity.
  pose proof (pow2_pos (-53)) as Hp53.
  assert (Hr0 : (0 < r)%Q) by lra.
  set (x := (inject_Z (L * Z.pos T) / inject_Z (2 * Z.pos F))%Q).
  set (q := (inputSamplesOf input / r)%Q).
  assert (Hden : (0 < inject_Z (2 * Z.pos F))%Q)
    by (rewrite <- (Zlt_Qlt 0); lia).
  assert (Hx0 : (0 <= x)%Q).
  { unfold x. apply Qle_shift_div_l; [exact Hden|].
    rewrite Qmult_0_l, <- (Zle_Qle 0). lia. }
  assert (Hxrho : (x * rho == inputSamplesOf input)%Q).
  { rewrite HinS. unfold x, rho.
    rewrite !inject_Z_mult. change (inject_Z 2) with 2%Q. field.
    split; apply inject_pos_nonzero. }
  assert (Hqr : (q * r == inputSamplesOf input)%Q).
  { unfold q. field. intros H0. rewrite H0 in Hr0. lra. }
  assert (Hq0 : (0 <= q)%Q).
  { unfold q. apply Qle_shift_div_l; [exact Hr0|].
    rewrite Qmult_0_l, <- Hxrho. apply Qmult_le_0_compat; lra. }
  (* q (1 - eps) <= x <= q (1 + eps) *)
  assert (Hqx1 : (q * (1 - eps) <= x)%Q).
  { apply (Qmult_le_r _ _ r Hr0).
    assert (H1 : (x * (rho * (1 - eps)) <= x * r)%Q).
    { rewrite !(Qmult_comm x). apply Qmult_le_compat_r; assumption. }
    assert (H2 : (x * (rho * (1 - eps)) == q * (1 - eps) * r)%Q).
    { rewrite Qmult_assoc, Hxrho, <- Hqr. ring. }
    lra. }
  assert (Hqx2 : (x <= q * (1 + eps))%Q).
  { apply (Qmult_le_r _ _ r Hr0).
    assert (H1 : (x * r <= x * (rho * (1 + eps)))%Q).
    { rewrite !(Qmult_comm x). apply Qmult_le_compat_r; assumption. }
    assert (H2 : (x * (rho * (1 + eps)) == q * (1 + eps) * r)%Q).
    { rewrite Qmult_assoc, Hxrho, <- Hqr. ring. }
    lra. }
  (* the exact quotient between E and E + 1, away from E + 1 *)
  set (delta := (1 / inject_Z (2 * Z.pos F))%Q).
  assert (Hd0 : (0 < delta)%Q).
  { unfold delta. apply Qlt_shift_div_l; [exact Hden | lra]. }
  assert (HxE : (inject_Z E <= x)%Q).
  { unfold x. apply Qle_shift_div_l; [exact Hden|].
    rewrite <- inject_Z_mult, <- Zle_Qle. lia. }
  assert (HxE1 : (x + delta <= inject_Z (E + 1))%Q).
  { assert (Hs : (x + delta
                  == inject_Z (L * Z.pos T + 1) / inject_Z (2 * Z.pos F))%Q).
    { unfold x, delta. rewrite (inject_Z_plus (L * Z.pos T) 1).
      change (inject_Z 1) with 1%Q. field.
      intros H0. rewrite H0 in Hden. lra. }
    rewrite Hs. apply Qle_shift_div_r; [exact Hden|].
    rewrite <- inject_Z_mult, <- Zle_Qle. lia. }
  assert (Hsmall : (2 * eps * inject_Z (E + 1) < delta)%Q).
  { unfold delta. apply Qlt_shift_div_l; [exact Hden|].
    assert (H1 : (2 * eps * inject_Z (E + 1) * inject_Z (2 * Z.pos F)
                  == 2 * eps * inject_Z ((E + 1) * (2 * Z.pos F)))%Q)
      by (rewrite (inject_Z_mult (E + 1) (2 * Z.pos F)); ring).
    rewrite H1.
    assert (H2 : (inject_Z ((E + 1) * (2 * Z.pos F)) < inject_Z (2 ^ 52))%Q)
      by (rewrite <- Zlt_Qlt; lia).
    change (inject_Z (2 ^ 52)) with (4503599627370496 # 1)%Q in H2.
    unfold eps. lra. }
  assert (Hxbig : (x < inject_Z (2 ^ 52))%Q).
  { assert (H2 : (inject_Z (E + 1) <= inject_Z (2 ^ 52))%Q)
      by (rewrite <- Zle_Qle; nia).
    lra. }
  change (inject_Z (2 ^ 52)) with (4503599627370496 # 1)%Q in Hxbig.
  assert (HE1 : (inject_Z (E + 1) == inject_Z E + 1)%Q)
    by (rewrite inject_Z_plus; reflexivity).
  unfold outputSamplesOf, div64. fold r. fold q.
  set (v := round64 q).
  assert (Hv0 : (0 <= v)%Q) by (apply round64_nonneg; exact Hq0).
  destruct (Qlt_le_dec q (pow2 (-1022))) as [Hsub | Hnorm].
  - (* a quotient below the normal range: no output, and none expected *)
    pose proof (round64_mono q (pow2 (-1022)) (Qlt_le_weak _ _ Hsub)) as Hm.
    rewrite (round64_pow2 (-1022)) in Hm by lia. fold v in Hm.
    pose proof pow2_normal_lt_1 as Hp1.
    assert (Hn : Qfloor v = 0).
    { apply Qfloor_unique; [exact Hv0 | change (inject_Z (0 + 1)) with 1%Q; lra]. }
    rewrite Hn.
    assert (HxS : (x < 1)%Q).
    { assert (H1 : (q * (1 + eps) <= pow2 (-1022) * (1 + eps))%Q)
        by (apply Qmult_le_compat_r; lra).
      assert (H2 : (pow2 (-1022) * (1 + eps) < 1)%Q).
      { assert (H3 : (pow2 (-1022) <= pow2 (-2))%Q) by (apply pow2_le; lia).
        change (pow2 (-2)) with (/ 4)%Q in H3.
        assert (H4 : (pow2 (-1022) * (1 + eps) <= / 4 * (1 + eps))%Q)
          by (apply Qmult_le_compat_r; lra).
        assert (H5 : (/ 4 * (1 + eps) < 1)%Q) by reflexivity.
        lra. }
      lra. }
    assert (HE' : E = 0).
    { assert (H : (inject_Z E < inject_Z 1)%Q)
        by (change (inject_Z 1) with 1%Q; lra).
      rewrite <- Zlt_Qlt in H. lia. }
    lia.
  - destruct (round64_err q Hnorm) as [Hvl Hvu]. fold v in Hvl, Hvu.
    assert (Hup : (v < inject_Z (E + 1))%Q).
    { apply Qnot_le_lt. intros Hge.
      (* (E + 1)(1 - eps) <= v (1 - eps) <= q (1 + eps)(1 - eps)
         <= x (1 + eps) *)
      assert (H1 : (v * (1 - eps) <= q * (1 + eps) * (1 - eps))%Q)
        by (apply Qmult_le_compat_r; lra).
      assert (H2 : (q * (1 + eps) * (1 - eps) == q * (1 - eps) * (1 + eps))%Q)
        by ring.
      assert (H3 : (q * (1 - eps) * (1 + eps) <= x * (1 + eps))%Q)
        by (apply Qmult_le_compat_r; lra).
      assert (H4 : (inject_Z (E + 1) * (1 - eps) <= v * (1 - eps))%Q)
        by (apply Qmult_le_compat_r; lra).
      assert (H5 : (inject_Z (E + 1) * (1 - eps)
                    == inject_Z (E + 1) - eps * inject_Z (E + 1))%Q) by ring.
      assert (H6 : (x * (1 + eps) == x + eps * x)%Q) by ring.
      assert (H7 : (0 <= eps * delta)%Q) by (apply Qmult_le_0_compat; lra).
      assert (H8 : (eps * x <= eps * (inject_Z (E + 1) - delta))%Q).
      { rewrite !(Qmult_comm eps). apply Qmult_le_compat_r; lra. }
      assert (H9 : (eps * (inject_Z (E + 1) - delta)
                    == eps * inject_Z (E + 1) - eps * delta)%Q) by ring.
      lra. }
    assert (Hlow : (inject_Z (E - 1) <= v)%Q).
    { apply Qnot_lt_le. intros Hlt.
      assert (HEm : (inject_Z (E - 1) == inject_Z E - 1)%Q).
      { unfold Z.sub. rewrite inject_Z_plus. reflexivity. }
      assert (H1 : (q * (1 - eps) * (1 + eps) <= v * (1 + eps))%Q)
        by (apply Qmult_le_compat_r; lra).
      assert (H2 : (q * (1 - eps) * (1 + eps) == q * (1 + eps) * (1 - eps))%Q)
        by ring.
      assert (H3 : (x * (1 - eps) <= q * (1 + eps) * (1 - eps))%Q)
        by (apply Qmult_le_compat_r; lra).
      assert (H4 : (x * (1 - eps) == x - eps * x)%Q) by ring.
      assert (H5 : (v * (1 + eps) == v + eps * v)%Q) by ring.
      assert (H6 : (eps * v <= eps * (x - 1))%Q).
      { rewrite !(Qmult_comm eps). apply Qmult_le_compat_r; lra. }
      assert (H7 : (eps * (x - 1) == eps * x - eps)%Q) by ring.
      assert (H8 : (2 * (eps * x) < 1)%Q).
      { assert (H9 : (eps * x <= eps * (4503599627370496 # 1))%Q).
        { rewrite !(Qmult_comm eps). apply Qmult_le_compat_r; lra. }
        assert (H10 : (eps * (4503599627370496 # 1) == 1 # 2)%Q)
          by reflexivity.
        lra. }
      lra. }
    split.
    + pose proof (Qfloor_resp_le _ _ Hlow) as H. rewrite Qfloor_Z in H.
      exact H.
    + pose proof (Qfloor_below v (E + 1) Hup). lia.
Qed.


Lemma half_le (L : Z) :
  0 <= L ->
  (inject_Z L / 2 <= inject_Z (L / 2) + (1 # 2))%Q
  /\ (inject_Z (L / 2) <= inject_Z L / 2)%Q.
Proof.
  intros HL.
  pose proof (Z.mul_div_le L 2 ltac:(lia)) as H1.
  pose proof (Z.mul_succ_div_gt L 2 ltac:(lia)) as H2.
  split.
  - apply Qle_shift_div_r; [reflexivity|].
    assert (H : (inject_Z L <= inject_Z (2 * (L / 2) + 1))%Q)
      by (rewrite <- Zle_Qle; lia).
    rewrite inject_Z_plus, inject_Z_mult in H.
    change (inject_Z 2) with 2%Q in H. change (inject_Z 1) with 1%Q in H.
    lra.
  - apply Qle_shift_div_l; [reflexivity|].
    assert (H : (inject_Z (2 * (L / 2)) <= inject_Z L)%Q)
      by (rewrite <- Zle_Qle; lia).
    rewrite inject_Z_mult in H. change (inject_Z 2) with 2%Q in H. lra.
Qed.

(** Downsampling: the ratio is at least one, and a buffer of less than
    [2 ^ 50] bytes is short enough for the index computation. *)
Lemma downsample_conditions (input : Buffer) (F T : positive) :
  let L := Z.of_nat (List.length input) in
  (T < F)%positive ->
  L < 2 ^ 50 ->
  (pow2 (-1022) <= ratioOf F T)%Q
  /\ (inputSamplesOf input * (1 + 3 * eps)
      < ratioOf F T + inject_Z (L / 2))%Q
  /\ (inputSamplesOf input <= inject_Z (2 ^ 50) * ratioOf F T)%Q.
Proof.
  intros L HTF HL.
  pose proof (ratio_ge_1 F T ltac:(lia)) as Hr.
  pose proof pow2_normal_lt_1 as Hp.
  assert (HinS : (inputSamplesOf input == inject_Z L / 2)%Q)
    by (apply inputSamples_exact; fold L; lia).
  destruct (half_le L ltac:(unfold L; lia)) as [Hh1 Hh2].
  assert (HA : (inject_Z L / 2 <= 562949953421312 # 1)%Q).
  { apply Qle_shift_div_r; [reflexivity|].
    assert (H : (inject_Z L <= inject_Z (2 ^ 50))%Q)
      by (rewrite <- Zle_Qle; lia).
    change (inject_Z (2 ^ 50)) with (1125899906842624 # 1)%Q in H. lra. }
  assert (HA0 : (0 <= inject_Z L / 2)%Q).
  { apply Qle_shift_div_l; [reflexivity|].
    rewrite Qmult_0_l, <- (Zle_Qle 0). unfold L. lia. }
  rewrite HinS. set (h := (inject_Z L / 2)%Q) in *.
  change (inject_Z (2 ^ 50)) with (1125899906842624 # 1)%Q.
  unfold eps. split; [lra|]. split; lra.
Qed.

(** Whole samples: the input has [K] samples, and the output is short
    enough for the index computation. *)
Lemma whole_samples_conditions (input : Buffer) (F T : positive) :
  let L := Z.of_nat (List.length input) in
  Nat.even (List.length input) = true ->
  Z.pos F < 2 ^ 53 -> Z.pos T < 2 ^ 53 ->
  L < 2 ^ 50 ->
  L * Z.pos T <= 2 ^ 50 * Z.pos F ->
  (pow2 (-1022) <= ratioOf F T)%Q
  /\ (inputSamplesOf input * (1 + 3 * eps)
      < ratioOf F T + inject_Z (L / 2))%Q
  /\ (inputSamplesOf input <= inject_Z (2 ^ 50) * ratioOf F T)%Q
  /\ (inputSamplesOf input == inject_Z (L / 2))%Q.
Proof.
  intros L Heven HF HT HL Hout.
  destruct (ratio_bounds F T HF HT) as (Hrl & _ & Hrn & Hrho).
  set (rho := (inject_Z (Z.pos F) / inject_Z (Z.pos T))%Q) in *.
  set (r := ratioOf F T) in *.
  assert (Hp : (pow2 (-1022) <= pow2 (-53))%Q) by (apply pow2_le; lia).
  assert (HLK : L = 2 * (L / 2)).
  { apply Nat.even_spec in Heven. destruct Heven as [h Hh].
    unfold L. rewrite Hh.
    replace (Z.of_nat (2 * h)) with (Z.of_nat h * 2) by lia.
    rewrite Z.div_mul by lia. lia. }
  set (K := L / 2) in *.
  assert (HinS : (inputSamplesOf input == inject_Z K)%Q).
  { rewrite inputSamples_exact by (fold L; lia). fold L. rewrite HLK.
    rewrite inject_Z_mult. change (inject_Z 2) with 2%Q. field. }
  assert (HK0 : (0 <= inject_Z K)%Q)
    by (rewrite <- (Zle_Qle 0); unfold K, L; apply Z.div_pos; lia).
  assert (HT0 : (0 < inject_Z (Z.pos T))%Q) by (rewrite <- (Zlt_Qlt 0); lia).
  assert (HKrho : (inject_Z K <= (562949953421312 # 1) * rho)%Q).
  { unfold rho.
    assert (H1 : ((562949953421312 # 1)
                  * (inject_Z (Z.pos F) / inject_Z (Z.pos T))
                  == (562949953421312 # 1) * inject_Z (Z.pos F)
                     / inject_Z (Z.pos T))%Q).
    { field. apply inject_pos_nonzero. }
    rewrite H1. apply Qle_shift_div_l; [exact HT0|].
    change (562949953421312 # 1)%Q with (inject_Z (2 ^ 49)).
    rewrite <- !inject_Z_mult, <- Zle_Qle. lia. }
  rewrite HinS.
  change (inject_Z (2 ^ 50)) with (1125899906842624 # 1)%Q.
  unfold eps in *.
  split; [lra|]. split; [lra|]. split; [lra | reflexivity].
Qed.

(** C10. Downsampling is total and in range, in the arithmetic of the
    program.  For rates [fromRate > toRate >= 1] below [2 ^ 53] (whole
    numbers a double holds) and an input buffer of less than [2 ^ 50]
    bytes, [resamplePCM] returns a buffer of [2 * outputSamples] bytes,
    where [outputSamples = Math.floor(inputSamples / ratio)] is computed in
    double precision: when [length * toRate + 2 * fromRate < 2 ^ 52] it is
    the exact [floor(length * toRate / (2 * fromRate))] or one less.
    Output sample [i] is the clamped, rounded interpolation of two
    sixteen-bit values read inside the input, at the byte offsets [2 * f]
    and [min(2 * f + 2, length - 2)] for [f = floor(i * ratio)], and lies
    in [-32768, 32767].  For a buffer of whole samples these are the input
    samples [f] and [min(f + 1, last)]; for an odd length the second read
    can start at the odd offset [length - 2] and take its two bytes from
    two samples. *)
Theorem resample_downsample_total_in_range
  (input : Buffer) (fromRate toRate : positive) :
  (toRate < fromRate)%positive ->
  Z.pos fromRate < 2 ^ 53 ->
  Z.of_nat (List.length input) < 2 ^ 50 ->
  let L := Z.of_nat (List.length input) in
  let n := outputSamplesOf input fromRate toRate in
  let exact := (L * Z.pos toRate) / (2 * Z.pos fromRate) in
  exists output,
    resamplePCM input fromRate toRate = Some output
    /\ Z.of_nat (List.length output) = 2 * n
    /\ (L * Z.pos toRate + 2 * Z.pos fromRate < 2 ^ 52 ->
        exact - 1 <= n <= exact)
    /\ forall i,
         0 <= i < n ->
         let f := srcIndexFloorOf fromRate toRate i in
         0 <= f /\ 2 * f + 2 <= L
         /\ exists sample1 sample2,
              readInt16LE input (inject_Z (2 * f)) = Some sample1
              /\ readInt16LE input (inject_Z (Z.min (2 * f + 2) (L - 2)))
                 = Some sample2
              /\ sampleAt output i
                 = Some (interpolated fromRate toRate i sample1 sample2)
              /\ -32768 <= interpolated fromRate toRate i sample1 sample2
                 <= 32767
              /\ (Nat.even (List.length input) = true ->
                  sampleAt input f = Some sample1
                  /\ sampleAt input (Z.min (f + 1) (L / 2 - 1))
                     = Some sample2).
Proof.
  intros Hlt HF HL L n exact.
  assert (HT : Z.pos toRate < 2 ^ 53) by lia.
  destruct (downsample_conditions input fromRate toRate Hlt HL)
    as (Hr & Hcond & Hsize).
  destruct (resamplePCM_runs input fromRate toRate ltac:(lia) HL Hr Hcond
              Hsize) as (Hn0 & output & Hrun & Hlen & Hsamples).
  exists output. split; [exact Hrun|]. split; [exact Hlen|]. split.
  - intros Hsmall.
    pose proof (outputSamples_near_exact input fromRate toRate HF HT Hsmall).
    unfold n, exact, L. lia.
  - intros i Hi. cbv zeta.
    destruct (Hsamples i Hi)
      as (Hf0 & Hf2 & s1 & s2 & H1 & H2 & _ & _ & Hout).
    split; [exact Hf0|]. split; [exact Hf2|].
    exists s1, s2.
    split; [exact H1|]. split; [exact H2|]. split; [exact Hout|].
    split; [apply interpolated64_range|].
    intros Heven. unfold sampleAt.
    assert (HLK : L = 2 * (L / 2)).
    { apply Nat.even_spec in Heven. destruct Heven as [h Hh].
      unfold L. rewrite Hh.
      replace (Z.of_nat (2 * h)) with (Z.of_nat h * 2) by lia.
      rewrite Z.div_mul by lia. lia. }
    split.
    + rewrite Z.mul_comm. exact H1.
    + replace (Z.min (srcIndexFloorOf fromRate toRate i + 1) (L / 2 - 1) * 2)
        with (Z.min (2 * srcIndexFloorOf fromRate toRate i + 2) (L - 2))
        by lia.
      exact H2.
Qed.


(** The theorem at six samples resampled from 3 Hz to 2 Hz. *)
Lemma resample_downsample_witness :
  (2 < 3)%positive
  /\ exists output,
       resamplePCM [x01; x00; x02; x00; x03; x00; x04; x00; xff; xff; x06; x00]
         3 2 = Some output
       /\ Z.of_nat (List.length output) = 8.
Proof.
  split; [reflexivity|].
  destruct (resample_downsample_total_in_range
              [x01; x00; x02; x00; x03; x00; x04; x00; xff; xff; x06; x00] 3 2
              eq_refl eq_refl eq_refl) as (output & Hrun & Hlen & _).
  exists output. split; [exact Hrun | exact Hlen].
Defined.

(** C10 as stated fails twice.  Nine samples resampled from 9 Hz to 7 Hz
    give six samples, twelve bytes, where the exact quotient
    [9 / (9 / 7) = 7] asks for fourteen: the double [9 / 7] is above the
    rational, and the quotient falls below seven.  And on the five bytes
    below, resampled from 5 Hz to 4 Hz, the second output sample is
    interpolated between the sample 4096 and the value 8208 that the
    second read takes from the high byte of that sample and the odd byte
    at the end: the result 5124 lies between no two samples of the
    input. *)
Lemma downsample_exact_count_and_sample_pairs_fail :
  let nine := [x01; x00; x02; x00; x03; x00; x04; x00; x05; x00;
               x06; x00; x07; x00; x08; x00; x09; x00] in
  let odd := [x00; x00; x00; x10; x20] in
  (exists output,
     resamplePCM nine 9 7 = Some output
     /\ Z.of_nat (List.length output) = 12
     /\ 2 * Qfloor ((inject_Z (Z.of_nat (List.length nine)) / 2)
                    / (inject_Z 9 / inject_Z 7))%Q = 14)
  /\ (exists output,
        resamplePCM odd 5 4 = Some output
        /\ Telephony.samplesOf odd = [0; 4096]
        /\ readInt16LE odd (inject_Z (Z.of_nat (List.length odd) - 2))
           = Some 8208
        /\ sampleAt output 1 = Some 5124).
Proof.
  cbv zeta. split.
  - eexists. split; [vm_compute; reflexivity|]. split; reflexivity.
  - eexists. split; [vm_compute; reflexivity|].
    split; [reflexivity|]. split; reflexivity.
Defined.

End DoublesFacts.

(** ** Voice activity detection *)

Section VadFacts.
Import Pcm Vad.

Variable o : Options.

(** *** Frames of a byte stream *)

Lemma chop_fuel (size : nat) :
  (0 < size)%nat ->
  forall fuel bytes,
    (List.length bytes <= fuel)%nat ->
    chop size fuel bytes = chop size (List.length bytes) bytes.
Proof.
  intros Hsize.
  assert (Hgen : forall fuel1 fuel2 bytes,
             (List.length bytes <= fuel1)%nat ->
             (List.length bytes <= fuel2)%nat ->
             chop size fuel1 bytes = chop size fuel2 bytes).
  { induction fuel1 as [|f1 IH]; intros fuel2 bytes H1 H2.
    - destruct bytes; [|simpl in H1; lia].
      destruct fuel2; [reflexivity|]. cbn [chop].
      destruct (Nat.leb_spec size (List.length (@nil byte))); [simpl in *; lia|].
      reflexivity.
    - destruct fuel2 as [|f2].
      + destruct bytes; [|simpl in H2; lia]. cbn [chop].
        destruct (Nat.leb_spec size (List.length (@nil byte)));
          [simpl in *; lia | reflexivity].
      + cbn [chop].
        destruct (Nat.leb_spec size (List.length bytes)); [|reflexivity].
        f_equal. apply IH; rewrite length_skipn; lia. }
  intros fuel bytes H. apply Hgen; lia.
Qed.

Lemma framesOf_step (size : nat) (bytes : Buffer) :
  (0 < size)%nat -> (size <= List.length bytes)%nat ->
  framesOf size bytes = firstn size bytes :: framesOf size (skipn size bytes).
Proof.
  intros Hsize Hlen. unfold framesOf.
  destruct (List.length bytes) as [|n] eqn:E; [lia|].
  cbn [chop]. rewrite E.
  destruct (Nat.leb_spec size (S n)); [|lia].
  f_equal. apply chop_fuel; [assumption|]. rewrite length_skipn. lia.
Qed.

Lemma framesOf_short (size : nat) (bytes : Buffer) :
  (List.length bytes < size)%nat -> framesOf size bytes = [].
Proof.
  intros Hlen. unfold framesOf.
  destruct (List.length bytes) as [|n] eqn:E; [reflexivity|].
  cbn [chop]. rewrite E.
  destruct (Nat.leb_spec size (S n)); [lia | reflexivity].
Qed.

(** Cutting frames commutes with appending more bytes: the frames of
    [a ++ b] are those of [a] followed by those of what [a] left over,
    completed by [b]. *)
Lemma framesOf_app (size : nat) :
  (0 < size)%nat ->
  forall (n : nat) (a b : Buffer),
    (List.length a <= n)%nat ->
    framesOf size (a ++ b)
    = framesOf size a ++ framesOf size (remainder size a ++ b)
    /\ remainder size (a ++ b) = remainder size (remainder size a ++ b).
Proof.
  intros Hsize. induction n as [|n IH]; intros a b Hlen.
  - destruct a; [|simpl in Hlen; lia].
    unfold remainder. rewrite (framesOf_short size []) by (simpl; lia).
    rewrite Nat.mul_0_r. simpl. split; reflexivity.
  - destruct (Nat.le_gt_cases size (List.length a)) as [Hge | Hlt].
    + assert (Hs : (List.length (skipn size a) <= n)%nat)
        by (rewrite length_skipn; lia).
      destruct (IH (skipn size a) b Hs) as [IHf IHr].
      assert (Hfa : framesOf size a
                    = firstn size a :: framesOf size (skipn size a))
        by (apply framesOf_step; assumption).
      assert (Hfab : framesOf size (a ++ b)
                     = firstn size a :: framesOf size (skipn size a ++ b)).
      { rewrite framesOf_step by (rewrite ?length_app; lia).
        rewrite firstn_app, skipn_app.
        replace (size - List.length a)%nat with 0%nat by lia.
        simpl. rewrite app_nil_r. reflexivity. }
      assert (Hra : remainder size a = remainder size (skipn size a)).
      { unfold remainder. rewrite Hfa. cbn [List.length].
        rewrite skipn_skipn. f_equal. lia. }
      assert (Hrab : remainder size (a ++ b)
                     = remainder size (skipn size a ++ b)).
      { unfold remainder. rewrite Hfab. cbn [List.length].
        set (k := List.length (framesOf size (skipn size a ++ b))).
        assert (Hsk : skipn size a ++ b = skipn size (a ++ b)).
        { rewrite skipn_app.
          replace (size - List.length a)%nat with 0%nat by lia.
          reflexivity. }
        rewrite Hsk, skipn_skipn. f_equal. lia. }
      rewrite Hfab, Hfa, Hra, Hrab, IHf, IHr. split; reflexivity.
    + assert (Hr : remainder size a = a).
      { unfold remainder. rewrite (framesOf_short size a) by assumption.
        rewrite Nat.mul_0_r. reflexivity. }
      rewrite Hr, (framesOf_short size a) by assumption.
      split; reflexivity.
Qed.

(** *** The frame loop *)

Lemma processFrame_pending (st : State) (frame : Buffer) :
  forall st' evs r, processFrame o st frame = (st', evs, r) ->
  pendingBytes st' = pendingBytes st.
Proof.
  intros st' evs r. unfold processFrame.
  destruct (isSpeech o frame); [intros [= <- _ _]; reflexivity|].
  destruct (isSpeaking st); [|intros [= <- _ _]; reflexivity].
  destruct (_ <=? _); intros [= <- _ _]; reflexivity.
Qed.

Lemma frameLoop_runFrames :
  (0 < bytesPerFrame o)%nat ->
  forall fuel combined offset st events,
    (offset <= List.length combined)%nat ->
    (List.length combined - offset < fuel)%nat ->
    frameLoop o fuel combined offset st events
    = let frames := framesOf (bytesPerFrame o) (skipn offset combined) in
      Some (fst (runFrames o st frames),
            (offset + bytesPerFrame o * List.length frames)%nat,
            events ++ snd (runFrames o st frames)).
Proof.
  intros Hsize. induction fuel as [|fuel IH];
    intros combined offset st events Hoff Hfuel; [lia|].
  cbn [frameLoop]. cbv zeta.
  destruct (Nat.leb_spec (offset + bytesPerFrame o) (List.length combined))
    as [Hfit | Hshort].
  - rewrite (framesOf_step (bytesPerFrame o) (skipn offset combined))
      by (rewrite ?length_skipn; lia).
    cbn [runFrames List.length].
    destruct (processFrame o st _) as [[st1 evs] r] eqn:Hp.
    rewrite IH by lia. cbv zeta.
    rewrite skipn_skipn.
    replace (bytesPerFrame o + offset)%nat
      with (offset + bytesPerFrame o)%nat by lia.
    destruct (runFrames o st1 _) as [st2 evs2] eqn:Hr.
    cbn [fst snd]. f_equal. f_equal; [f_equal; lia|].
    rewrite <- !app_assoc. reflexivity.
  - rewrite framesOf_short by (rewrite length_skipn; lia).
    cbn [runFrames List.length fst snd].
    rewrite app_nil_r. do 3 f_equal. lia.
Qed.

Lemma transform_runFrames (st : State) (chunk : Buffer) :
  (0 < bytesPerFrame o)%nat ->
  let combined := pendingBytes st ++ chunk in
  transform o st chunk
  = Some (withPending
            (fst (runFrames o st (framesOf (bytesPerFrame o) combined)))
            (remainder (bytesPerFrame o) combined),
          snd (runFrames o st (framesOf (bytesPerFrame o) combined))).
Proof.
  intros Hsize. cbv zeta. unfold transform.
  rewrite frameLoop_runFrames by (simpl; lia).
  cbv zeta. cbn [skipn]. reflexivity.
Qed.

Lemma remainder_short (size : nat) :
  (0 < size)%nat ->
  forall (n : nat) (bytes : Buffer),
    (List.length bytes <= n)%nat ->
    (List.length (remainder size bytes) < size)%nat.
Proof.
  intros Hsize. induction n as [|n IH]; intros bytes Hlen.
  - destruct bytes; [|simpl in Hlen; lia].
    unfold remainder. rewrite skipn_nil. simpl. lia.
  - destruct (Nat.le_gt_cases size (List.length bytes)) as [Hge | Hlt].
    + assert (Hr : remainder size bytes = remainder size (skipn size bytes)).
      { unfold remainder. rewrite (framesOf_step size bytes) by assumption.
        cbn [List.length]. rewrite skipn_skipn. f_equal. lia. }
      rewrite Hr. apply IH. rewrite length_skipn. lia.
    + unfold remainder. rewrite framesOf_short by assumption.
      rewrite Nat.mul_0_r. simpl. lia.
Qed.

Lemma processFrame_withPending (st : State) (p frame : Buffer) :
  processFrame o (withPending st p) frame
  = (withPending (fst (fst (processFrame o st frame))) p,
     snd (fst (processFrame o st frame)),
     snd (processFrame o st frame)).
Proof.
  unfold processFrame, withPending. cbn [isSpeaking audioBuffer
    speechFrameCount silenceFrameCount speechStartSignaled pendingBytes].
  destruct (isSpeech o frame); [reflexivity|].
  destruct (isSpeaking st); [|reflexivity].
  destruct (_ <=? _); reflexivity.
Qed.

Lemma runFrames_withPending (p : Buffer) :
  forall frames st,
    runFrames o (withPending st p) frames
    = (withPending (fst (runFrames o st frames)) p,
       snd (runFrames o st frames)).
Proof.
  induction frames as [|frame rest IH]; intros st; [reflexivity|].
  cbn [runFrames]. rewrite processFrame_withPending.
  destruct (processFrame o st frame) as [[st1 evs] r]. cbn [fst snd].
  rewrite IH. destruct (runFrames o st1 rest) as [st2 evs2].
  reflexivity.
Qed.

Lemma runFrames_app :
  forall frames1 frames2 st,
    runFrames o st (frames1 ++ frames2)
    = (fst (runFrames o (fst (runFrames o st frames1)) frames2),
       snd (runFrames o st frames1)
       ++ snd (runFrames o (fst (runFrames o st frames1)) frames2)).
Proof.
  induction frames1 as [|frame rest IH]; intros frames2 st.
  - cbn [app runFrames fst snd]. destruct (runFrames o st frames2).
    reflexivity.
  - cbn [app runFrames].
    destruct (processFrame o st frame) as [[st1 evs] r].
    rewrite IH. destruct (runFrames o st1 rest) as [st2 evs2].
    cbn [fst snd]. rewrite <- !app_assoc. reflexivity.
Qed.

(** A stream of chunks is processed as the frames of its concatenation:
    cutting into chunks does not change what the detector sees. *)
Lemma runStream_runFrames :
  (0 < bytesPerFrame o)%nat ->
  forall chunks st,
    (List.length (pendingBytes st) < bytesPerFrame o)%nat ->
    let all := pendingBytes st ++ List.concat chunks in
    let frames := framesOf (bytesPerFrame o) all in
    runStream o st chunks
    = Some (withPending (fst (runFrames o st frames))
              (remainder (bytesPerFrame o) all),
            snd (runFrames o st frames)).
Proof.
  intros Hsize. induction chunks as [|chunk rest IH]; intros st Hp; cbv zeta.
  - cbn [runStream List.concat]. rewrite app_nil_r.
    unfold remainder. rewrite framesOf_short by assumption.
    rewrite Nat.mul_0_r. cbn [runFrames fst snd skipn].
    destruct st; reflexivity.
  - cbn [runStream List.concat].
    rewrite transform_runFrames by assumption. cbv zeta.
    set (st1 := fst (runFrames o st
                       (framesOf (bytesPerFrame o) (pendingBytes st ++ chunk)))).
    set (r1 := remainder (bytesPerFrame o) (pendingBytes st ++ chunk)).
    assert (Hr1 : (List.length r1 < bytesPerFrame o)%nat)
      by (eapply remainder_short; [assumption | apply Nat.le_refl]).
    rewrite (IH (withPending st1 r1)) by exact Hr1.
    cbv zeta. cbn [pendingBytes withPending].
    rewrite runFrames_withPending. cbn [fst snd].
    destruct (framesOf_app (bytesPerFrame o) Hsize
                (List.length (pendingBytes st ++ chunk))
                (pendingBytes st ++ chunk) (List.concat rest)
                (Nat.le_refl _)) as [Hf Hr].
    rewrite <- app_assoc in Hf, Hr.
    rewrite Hf, Hr. fold r1. rewrite runFrames_app. fold st1.
    reflexivity.
Qed.

(** *** Debounce *)

Lemma longestRun_ge (flags : list bool) :
  forall current best,
    (Nat.max current best <= longestRun current best flags)%nat.
Proof.
  induction flags as [|[|] rest IH]; intros current best; cbn [longestRun].
  - lia.
  - specialize (IH (S current) best). lia.
  - specialize (IH 0%nat (Nat.max current best)). lia.
Qed.

(** While idle, frames whose speech runs all stay below the threshold
    cause no event and leave the detector idle with its buffer untouched. *)
Lemma short_bursts_quiet :
  forall frames st best,
    isSpeaking st = false ->
    (longestRun (speechFrameCount st) best (map (isSpeech o) frames)
     < minSpeechFrames)%nat ->
    snd (runFrames o st frames) = []
    /\ isSpeaking (fst (runFrames o st frames)) = false
    /\ audioBuffer (fst (runFrames o st frames)) = audioBuffer st.
Proof.
  induction frames as [|frame rest IH]; intros st best Hidle Hrun.
  - cbn. auto.
  - cbn [runFrames map longestRun] in *. unfold processFrame.
    rewrite Hidle.
    destruct (isSpeech o frame) eqn:Hs.
    + pose proof (longestRun_ge (map (isSpeech o) rest)
                    (S (speechFrameCount st)) best) as Hge.
      assert (Hlow : (minSpeechFrames <=? S (speechFrameCount st))%nat = false)
        by (apply Nat.leb_gt; lia).
      rewrite Hlow. cbn [negb andb orb].
      match goal with
      | |- context [runFrames o ?s rest] =>
          destruct (IH s best eq_refl Hrun) as (He & Hi & Hb);
          destruct (runFrames o s rest) as [st2 evs2]
      end.
      cbn [fst snd] in *. subst evs2. auto.
    + match goal with
      | |- context [runFrames o ?s rest] =>
          destruct (IH s (Nat.max (speechFrameCount st) best) eq_refl Hrun)
            as (He & Hi & Hb);
          destruct (runFrames o s rest) as [st2 evs2]
      end.
      cbn [fst snd] in *. subst evs2. auto.
Qed.

(** *** One speech start per utterance *)

Lemma runFrames_alternates :
  forall frames st,
    alternates (speechStartSignaled st) (snd (runFrames o st frames)) = true.
Proof.
  induction frames as [|frame rest IH]; intros st; [reflexivity|].
  cbn [runFrames]. unfold processFrame.
  destruct (isSpeech o frame).
  - match goal with
    | |- context [runFrames o ?s rest] =>
        specialize (IH s); destruct (runFrames o s rest) as [st2 evs2]
    end.
    cbn [fst snd speechStartSignaled] in *.
    destruct (negb (isSpeaking st) && (minSpeechFrames <=? S (speechFrameCount st))%nat
              && negb (speechStartSignaled st) && onSpeechStartGiven o) eqn:Hsig.
    + repeat (apply andb_prop in Hsig; destruct Hsig as [Hsig ?]).
      destruct (speechStartSignaled st); [discriminate|].
      cbn [app alternates negb andb orb] in *. exact IH.
    + rewrite orb_false_r in IH. exact IH.
  - destruct (isSpeaking st).
    + destruct (vadSilenceFrames o <=? _).
      * match goal with
        | |- context [runFrames o ?s rest] =>
            specialize (IH s); destruct (runFrames o s rest) as [st2 evs2]
        end.
        cbn [fst snd speechStartSignaled dispatch app] in *.
        destruct (tooShort o _); cbn [app alternates]; exact IH.
      * match goal with
        | |- context [runFrames o ?s rest] =>
            specialize (IH s); destruct (runFrames o s rest) as [st2 evs2]
        end.
        cbn [fst snd speechStartSignaled dispatch app] in *. exact IH.
    + match goal with
      | |- context [runFrames o ?s rest] =>
          specialize (IH s); destruct (runFrames o s rest) as [st2 evs2]
      end.
      cbn [fst snd speechStartSignaled dispatch app] in *. exact IH.
Qed.

Lemma alternates_open_needs_end :
  forall mid post,
    alternates true (mid ++ SpeechStart :: post) = true ->
    exists e, In e mid /\ isEnd e = true.
Proof.
  induction mid as [|e mid IH]; intros post H.
  - cbn in H. discriminate.
  - destruct e; cbn [app alternates] in H.
    + cbn in H. discriminate.
    + exists (TooShort audio). split; [left; reflexivity | reflexivity].
    + exists (Transcribe audio). split; [left; reflexivity | reflexivity].
Qed.

Lemma alternates_between_starts :
  forall pre signaled mid post,
    alternates signaled (pre ++ SpeechStart :: mid ++ SpeechStart :: post)
    = true ->
    exists e, In e mid /\ isEnd e = true.
Proof.
  induction pre as [|e pre IH]; intros signaled mid post H.
  - cbn [app alternates] in H. apply andb_prop in H. destruct H as [_ H].
    eapply alternates_open_needs_end. exact H.
  - destruct e; cbn [app alternates] in H.
    + apply andb_prop in H. destruct H as [_ H]. eapply IH. exact H.
    + eapply IH. exact H.
    + eapply IH. exact H.
Qed.

(** C3. Debounce and single speech start.  A stream of chunks is always
    processed to the end; when every run of consecutive speech-level frames
    in it is shorter than [minSpeechFrames], nothing is emitted (no
    utterance reaches the duration check or the transcription request, and
    [onSpeechStart] is not called) and the detector stays idle; and in every
    stream two calls of [onSpeechStart] are separated by an end of speech,
    so the callback fires at most once per utterance. *)
Theorem vad_debounce_and_single_speech_start (chunks : list Buffer) :
  (0 < bytesPerFrame o)%nat ->
  exists st events,
    runStream o initial chunks = Some (st, events)
    /\ ((longestSpeechBurst o (framesOf (bytesPerFrame o) (List.concat chunks))
         < minSpeechFrames)%nat ->
        events = [] /\ isSpeaking st = false /\ audioBuffer st = [])
    /\ (forall pre mid post,
          events = pre ++ SpeechStart :: mid ++ SpeechStart :: post ->
          exists e, In e mid /\ isEnd e = true).
Proof.
  intros Hsize.
  pose proof (runStream_runFrames Hsize chunks initial) as Hrun.
  cbn [pendingBytes initial] in Hrun. specialize (Hrun Hsize).
  cbv zeta in Hrun. cbn [app] in Hrun.
  eexists. eexists. split; [exact Hrun|]. split.
  - intros Hshort.
    destruct (short_bursts_quiet
                (framesOf (bytesPerFrame o) (List.concat chunks)) initial 0%nat
                eq_refl Hshort) as (He & Hi & Hb).
    repeat split; assumption.
  - intros pre mid post Hev.
    pose proof (runFrames_alternates
                  (framesOf (bytesPerFrame o) (List.concat chunks)) initial)
      as Halt.
    rewrite Hev in Halt.
    eapply alternates_between_starts. exact Halt.
Qed.

(** While idle the buffer is empty. *)
Lemma idle_buffer_empty :
  forall frames st,
    (isSpeaking st = false -> audioBuffer st = []) ->
    isSpeaking (fst (runFrames o st frames)) = false ->
    audioBuffer (fst (runFrames o st frames)) = [].
Proof.
  induction frames as [|frame rest IH]; intros st Hinv Hidle.
  - cbn in *. auto.
  - cbn [runFrames] in *.
    destruct (processFrame o st frame) as [[st1 evs] r] eqn:Hp.
    specialize (IH st1).
    destruct (runFrames o st1 rest) as [st2 evs2]. cbn [fst] in *.
    apply IH; [|exact Hidle].
    revert Hp. unfold processFrame.
    destruct (isSpeech o frame).
    + intros [= <- _ _]. cbn [isSpeaking audioBuffer].
      destruct (isSpeaking st); cbn [negb andb orb]; [discriminate|].
      intros Hlow. rewrite Hlow. auto.
    + destruct (isSpeaking st).
      * destruct (_ <=? _); intros [= <- _ _]; cbn; [reflexivity|discriminate].
      * intros [= <- _ _]. cbn. auto.
Qed.


End VadFacts.

Section VadExamples.
Import Pcm Vad.

(** The debounce theorem at a stream with a burst of three loud frames
    between quiet ones, cut into two chunks in the middle of a frame. *)
Lemma vad_debounce_witness :
  (0 < bytesPerFrame defaults)%nat
  /\ exists st,
       runStream defaults initial
         [quiet ++ loud1 ++ firstn 100 loud2;
          skipn 100 loud2 ++ loud3 ++ quiet] = Some (st, [])
       /\ isSpeaking st = false.
Proof.
  split; [vm_compute; lia|].
  destruct (vad_debounce_and_single_speech_start defaults
              [quiet ++ loud1 ++ firstn 100 loud2;
               skipn 100 loud2 ++ loud3 ++ quiet])
    as (st & events & Hrun & Hquiet & _); [vm_compute; lia|].
  destruct Hquiet as (He & Hi & _); [vm_compute; lia|].
  exists st. subst events. split; assumption.
Defined.



End VadExamples.


(** ** The agent transform *)

Section AgentFacts.
Import Agent.

Lemma consume_spec :
  forall events reason,
    consume events reason
    = (negb (neverStopped events),
       map Enqueue (responseTexts (consumed events)),
       fold_left
         (fun reason chunk =>
            match hangUpEvent chunk with Some r => r | None => reason end)
         (consumed events) reason).
Proof.
  induction events as [|[stopNow chunk] rest IH]; intros reason.
  - reflexivity.
  - cbn [consume consumed neverStopped forallb fst].
    destruct stopNow; [reflexivity|].
    rewrite IH. cbn [negb andb fold_left].
    fold (neverStopped rest).
    unfold responseTexts. cbn [flat_map]. rewrite map_app.
    f_equal; [f_equal|].
    + f_equal. destruct chunk as [|[c t n]]; [reflexivity|].
      cbn [content tool_call_id responseText].
      destruct c as [[| |text|]|]; destruct t; try reflexivity.
      destruct text; reflexivity.
    + f_equal. destruct chunk as [|[c t n]]; [reflexivity|].
      cbn [hangUpEvent name content].
      destruct n as [[| |n|]|]; try reflexivity.
      destruct (String.eqb n "hang_up"); reflexivity.
Qed.

Lemma scanTasks_no_hang_up (cb : Callbacks) :
  forall ts pending,
    forallb (fun e => negb (isHangUp e)) (snd (scanTasks cb ts pending)) = true.
Proof.
  induction ts as [|task rest IH]; intros pending; [reflexivity|].
  cbn [scanTasks].
  destruct (interrupts task) as [[|v vs]|]; try apply IH.
  specialize (IH v). destruct (scanTasks cb rest v) as [final effects].
  cbn [snd] in *. rewrite !forallb_app, IH.
  destruct (onInterruptGiven cb); destruct v; reflexivity.
Qed.

Lemma enqueues_no_hang_up (texts : list string) :
  forallb (fun e => negb (isHangUp e)) (map Enqueue texts) = true.
Proof. induction texts; [reflexivity | assumption]. Qed.

(** A list with a single hang-up call splits around it in one way only. *)
Lemma hang_up_split_unique :
  forall (A B pre post : list Effect) (x y : JsValue),
    forallb (fun e => negb (isHangUp e)) A = true ->
    A ++ HangUp x :: B = pre ++ HangUp y :: post ->
    forallb (fun e => negb (isHangUp e)) B = true ->
    pre = A /\ y = x /\ post = B.
Proof.
  induction A as [|a A IH]; intros B pre post x y HA Heq HB.
  - destruct pre as [|p pre]; cbn [app] in Heq.
    + injection Heq as -> ->. auto.
    + injection Heq as <- Heq. exfalso.
      assert (Hin : In (HangUp y) B) by (rewrite Heq; apply in_elt).
      pose proof (proj1 (forallb_forall _ _) HB _ Hin) as Hn.
      discriminate.
  - cbn [forallb] in HA. apply andb_prop in HA. destruct HA as [Ha HA].
    destruct pre as [|p pre]; cbn [app] in Heq.
    + injection Heq as -> _. discriminate.
    + injection Heq as <- Heq.
      destruct (IH B pre post x y HA Heq HB) as (-> & -> & ->). auto.
Qed.

Lemma consumed_all (events : list (bool * Chunk)) :
  neverStopped events = true -> consumed events = map snd events.
Proof.
  induction events as [|[stopNow chunk] rest IH]; [reflexivity|].
  cbn [neverStopped forallb fst]. destruct stopNow; [discriminate|].
  cbn [negb andb consumed map snd]. intros H. f_equal. apply IH. exact H.
Qed.

(** The effects of a turn the agent is not stopped for and whose stream is
    delivered: the call of the agent, then one [enqueue] for every
    response-text chunk the loop handled, in stream order, then the call of
    [onHangUp] if a hang-up was recorded, then the state query and what
    follows from it. *)
Lemma turn_effects_in_order
  (cb : Callbacks) (turn : Turn) (st : State) (text : string)
  (events : list (bool * Chunk)) :
  stopped st = false ->
  streamed turn = Some events ->
  let effects := effectsOf (transform cb turn st text) in
  let texts := responseTexts (consumed events) in
  (exists input tail,
     effects
     = Stream (threadId st) input :: map Enqueue texts
         ++ hangUpCall cb (lastHangUp (consumed events))
         ++ GetState (threadId st) :: tail
     /\ forallb (fun e => negb (isHangUp e)) tail = true)
  /\ (forall pre reason post,
        effects = pre ++ HangUp reason :: post ->
        (exists input, pre = Stream (threadId st) input :: map Enqueue texts)
        /\ reason = lastHangUp (consumed events)
        /\ exists tail, post = GetState (threadId st) :: tail).
Proof.
  intros Hrun Hstream. cbv zeta.
  set (input := if negb (isUndefined (pendingInterrupt st))
                then ResumeCommand text else UserMessage text).
  set (ts := match tasks turn with Some ts => ts | None => [] end).
  assert (Heff : effectsOf (transform cb turn st text)
                 = Stream (threadId st) input
                     :: map Enqueue (responseTexts (consumed events))
                     ++ hangUpCall cb (lastHangUp (consumed events))
                     ++ GetState (threadId st)
                          :: snd (scanTasks cb ts JUndefined)).
  { unfold transform, effectsOf. rewrite Hrun, Hstream, consume_spec.
    fold ts. destruct (scanTasks cb ts JUndefined) as [pending effs].
    cbn [fst snd]. fold input. fold (lastHangUp (consumed events)).
    unfold hangUpCall.
    destruct (isNull (lastHangUp (consumed events)));
      destruct (onHangUpGiven cb); reflexivity. }
  pose proof (scanTasks_no_hang_up cb ts JUndefined) as Htail.
  split.
  - exists input, (snd (scanTasks cb ts JUndefined)). split; assumption.
  - intros pre reason post Hsplit. rewrite Heff in Hsplit.
    unfold hangUpCall in Hsplit.
    destruct (isNull (lastHangUp (consumed events))) eqn:Hnull;
      [|destruct (onHangUpGiven cb) eqn:Hcb].
    + exfalso. cbn [app] in Hsplit.
      assert (Hin : In (HangUp reason)
                (Stream (threadId st) input
                 :: map Enqueue (responseTexts (consumed events))
                 ++ GetState (threadId st) :: snd (scanTasks cb ts JUndefined)))
        by (rewrite Hsplit; apply in_elt).
      assert (Hno : forallb (fun e => negb (isHangUp e))
                (Stream (threadId st) input
                 :: map Enqueue (responseTexts (consumed events))
                 ++ GetState (threadId st) :: snd (scanTasks cb ts JUndefined))
              = true).
      { cbn [forallb isHangUp negb andb]. rewrite forallb_app.
        rewrite enqueues_no_hang_up. cbn [forallb isHangUp negb andb].
        exact Htail. }
      pose proof (proj1 (forallb_forall _ _) Hno _ Hin). discriminate.
    + cbn [app] in Hsplit. rewrite app_comm_cons in Hsplit.
      apply hang_up_split_unique in Hsplit.
      * destruct Hsplit as (-> & -> & ->).
        split; [exists input; reflexivity|].
        split; [reflexivity|]. eexists. reflexivity.
      * cbn [forallb isHangUp negb andb]. apply enqueues_no_hang_up.
      * cbn [forallb isHangUp negb andb]. exact Htail.
    + exfalso. cbn [app] in Hsplit.
      assert (Hin : In (HangUp reason)
                (Stream (threadId st) input
                 :: map Enqueue (responseTexts (consumed events))
                 ++ GetState (threadId st) :: snd (scanTasks cb ts JUndefined)))
        by (rewrite Hsplit; apply in_elt).
      assert (Hno : forallb (fun e => negb (isHangUp e))
                (Stream (threadId st) input
                 :: map Enqueue (responseTexts (consumed events))
                 ++ GetState (threadId st) :: snd (scanTasks cb ts JUndefined))
              = true).
      { cbn [forallb isHangUp negb andb]. rewrite forallb_app.
        rewrite enqueues_no_hang_up. cbn [forallb isHangUp negb andb].
        exact Htail. }
      pose proof (proj1 (forallb_forall _ _) Hno _ Hin). discriminate.
Qed.


(** The loop handles the chunks before the first one at which the stop flag
    is seen set. *)
Lemma consumed_until_stop :
  forall (before after : list (bool * Chunk)) (chunk : Chunk),
    neverStopped before = true ->
    consumed (before ++ (true, chunk) :: after) = map snd before
    /\ neverStopped (before ++ (true, chunk) :: after) = false.
Proof.
  induction before as [|[stopNow c] rest IH]; intros after chunk Hb.
  - split; reflexivity.
  - cbn [neverStopped forallb fst] in Hb. destruct stopNow; [discriminate|].
    cbn [negb andb] in Hb. destruct (IH after chunk Hb) as [Hc Hn].
    split.
    + cbn [app consumed map snd]. rewrite Hc. reflexivity.
    + cbn [app neverStopped forallb fst negb andb]. exact Hn.
Qed.

Lemma transform_stopped_flag
  (cb : Callbacks) (turn : Turn) (st : State) (text : string)
  (events : list (bool * Chunk)) :
  stopped st = false ->
  streamed turn = Some events ->
  stopped (stateOf (transform cb turn st text)) = negb (neverStopped events).
Proof.
  intros Hrun Hstream. unfold transform, stateOf.
  rewrite Hrun, Hstream, consume_spec.
  destruct (scanTasks cb _ JUndefined) as [pending effs]. reflexivity.
Qed.

(** C1. Turn ordering.  In a turn the agent is not stopped for and whose
    stream is delivered, [onHangUp] is called after the loop, never inside
    it: wherever it is called, everything before it is the agent call and
    the [enqueue] of the response text the loop handled, its reason is the
    one recorded in the loop, and the state query follows.  When the stop
    flag is never seen set while the stream is read, the loop handles the
    whole stream: every response-text chunk of the stream is enqueued, in
    stream order, before [onHangUp].  When the flag is seen set at some
    chunk, the loop breaks there: only the response text before that chunk
    is enqueued, that chunk and those after it are dropped, and a hang-up
    recorded before the break is still signalled. *)
Theorem hang_up_follows_all_response_text
  (cb : Callbacks) (turn : Turn) (st : State) (text : string)
  (events : list (bool * Chunk)) :
  stopped st = false ->
  streamed turn = Some events ->
  let result := transform cb turn st text in
  let effects := effectsOf result in
  (forall pre reason post,
     effects = pre ++ HangUp reason :: post ->
     (exists input,
        pre = Stream (threadId st) input
                :: map Enqueue (responseTexts (consumed events)))
     /\ reason = lastHangUp (consumed events)
     /\ exists tail, post = GetState (threadId st) :: tail)
  /\ (neverStopped events = true ->
      stopped (stateOf result) = false
      /\ exists input tail,
           effects
           = Stream (threadId st) input
               :: map Enqueue (responseTexts (map snd events))
               ++ hangUpCall cb (lastHangUp (map snd events))
               ++ GetState (threadId st) :: tail
           /\ forallb (fun e => negb (isHangUp e)) tail = true)
  /\ (forall before chunk after,
        events = before ++ (true, chunk) :: after ->
        neverStopped before = true ->
        stopped (stateOf result) = true
        /\ exists input tail,
             effects
             = Stream (threadId st) input
                 :: map Enqueue (responseTexts (map snd before))
                 ++ hangUpCall cb (lastHangUp (map snd before))
                 ++ GetState (threadId st) :: tail
             /\ forallb (fun e => negb (isHangUp e)) tail = true).
Proof.
  intros Hrun Hstream. cbv zeta.
  destruct (turn_effects_in_order cb turn st text events Hrun Hstream)
    as [Heff Horder].
  pose proof (transform_stopped_flag cb turn st text events Hrun Hstream)
    as Hflag.
  split; [exact Horder|]. split.
  - intros Hnever. rewrite Hflag, Hnever. split; [reflexivity|].
    rewrite <- (consumed_all events Hnever). exact Heff.
  - intros before chunk after Hevents Hbefore.
    destruct (consumed_until_stop before after chunk Hbefore) as [Hc Hn].
    rewrite <- Hevents in Hc, Hn.
    rewrite Hflag, Hn. split; [reflexivity|].
    rewrite <- Hc. exact Heff.
Qed.

Lemma last_cons_default (A : Type) (v d : A) (l : list A) :
  last (v :: l) d = last l v.
Proof.
  revert v d. induction l as [|w l IH]; intros v d; [reflexivity|].
  change (last (v :: w :: l) d) with (last (w :: l) d).
  rewrite !IH. reflexivity.
Qed.

Lemma scanTasks_pending (cb : Callbacks) :
  forall ts pending,
    fst (scanTasks cb ts pending)
    = last (flat_map
              (fun task =>
                 match interrupts task with
                 | Some (v :: _) => [v]
                 | _ => []
                 end) ts) pending.
Proof.
  induction ts as [|task rest IH]; intros pending; [reflexivity|].
  cbn [scanTasks flat_map].
  destruct (interrupts task) as [[|v vs]|]; cbn [app]; try apply IH.
  specialize (IH v). destruct (scanTasks cb rest v) as [final effects].
  cbn [fst] in *. rewrite IH. symmetry. apply last_cons_default.
Qed.

Lemma scanTasks_no_stream (cb : Callbacks) :
  forall ts pending,
    forallb (fun e => negb (isStream e)) (snd (scanTasks cb ts pending)) = true.
Proof.
  induction ts as [|task rest IH]; intros pending; [reflexivity|].
  cbn [scanTasks].
  destruct (interrupts task) as [[|v vs]|]; try apply IH.
  specialize (IH v). destruct (scanTasks cb rest v) as [final effects].
  cbn [snd] in *. rewrite !forallb_app, IH.
  destruct (onInterruptGiven cb); destruct v; reflexivity.
Qed.

Lemma last_defined (l : list JsValue) :
  Forall (fun v => v <> JUndefined) l ->
  (last l JUndefined <> JUndefined <-> l <> []).
Proof.
  intros Hall. destruct l as [|v l].
  - cbn. split; intros H; congruence.
  - split; [discriminate|]. intros _.
    assert (Hin : In (last (v :: l) JUndefined) (v :: l)).
    { destruct (exists_last (l := v :: l) ltac:(discriminate))
        as (l' & a & Heq).
      rewrite Heq, last_last. apply in_elt. }
    exact (proj1 (Forall_forall _ _) Hall _ Hin).
Qed.


End AgentFacts.

Section AgentExamples.
Import Agent.
Local Open Scope string_scope.

(** The ordering theorem at the goodbye turn, whose stream is read to the
    end: both pieces of text are enqueued, then [onHangUp] is called, then
    the state is queried. *)
Lemma hang_up_ordering_witness :
  stopped ready = false
  /\ neverStopped [(false, textChunk "Thanks, ");
                   (false, toolResult "hang_up" "user is done");
                   (false, textChunk "goodbye.")] = true
  /\ effectsOf (transform allCallbacks goodbyeTurn ready "bye")
     = [Stream "thread-1" (UserMessage "bye");
        Enqueue "Thanks, "; Enqueue "goodbye.";
        HangUp (JString "user is done");
        GetState "thread-1"]
  /\ exists input tail,
       effectsOf (transform allCallbacks goodbyeTurn ready "bye")
       = Stream (threadId ready) input
           :: map Enqueue
                (responseTexts
                   (map snd [(false, textChunk "Thanks, ");
                             (false, toolResult "hang_up" "user is done");
                             (false, textChunk "goodbye.")]))
           ++ hangUpCall allCallbacks
                (lastHangUp
                   (map snd [(false, textChunk "Thanks, ");
                             (false, toolResult "hang_up" "user is done");
                             (false, textChunk "goodbye.")]))
           ++ GetState (threadId ready) :: tail.
Proof.
  split; [reflexivity|]. split; [reflexivity|]. split; [reflexivity|].
  destruct (hang_up_follows_all_response_text allCallbacks goodbyeTurn ready
              "bye" _ eq_refl eq_refl) as (_ & Hall & _).
  destruct (Hall eq_refl) as (_ & input & tail & Heff & _).
  exists input, tail. exact Heff.
Defined.

(** C1 as stated fails when [stop()] is observed in the middle of a stream.
    The stream below holds a [hang_up] tool event and then a response-text
    chunk; the stop flag is seen set when the loop comes to the text, so
    the loop breaks, the text is never enqueued, and [onHangUp] is called
    all the same. *)
Lemma stop_mid_stream_hangs_up_without_the_text :
  let events := [(false, toolResult "hang_up" "user is done");
                 (true, textChunk "goodbye.")] in
  let turn := {| streamed := Some events; tasks := None |} in
  stopped ready = false
  /\ responseTexts (map snd events) = ["goodbye."]
  /\ hangUpEvent (toolResult "hang_up" "user is done")
     = Some (JString "user is done")
  /\ effectsOf (transform allCallbacks turn ready "bye")
     = [Stream "thread-1" (UserMessage "bye");
        HangUp (JString "user is done"); GetState "thread-1"]
  /\ In (HangUp (JString "user is done"))
       (effectsOf (transform allCallbacks turn ready "bye"))
  /\ ~ In (Enqueue "goodbye.")
         (effectsOf (transform allCallbacks turn ready "bye")).
Proof.
  cbv zeta. split; [reflexivity|]. split; [reflexivity|].
  split; [reflexivity|]. split; [reflexivity|]. split.
  - right. left. reflexivity.
  - intros [H | [H | [H | []]]]; discriminate H.
Defined.



(** The scenario of the specification: the first turn raises a suspension,
    whose prompt is spoken; the next text resumes it; the one after starts a
    fresh turn. *)
Example suspend_then_resume_then_fresh :
  let r1 := transform allCallbacks confirmTurn ready "save my profile" in
  let r2 := transform allCallbacks goodbyeTurn (stateOf r1) "yes" in
  let r3 := transform allCallbacks goodbyeTurn (stateOf r2) "thanks" in
  effectsOf r1
  = [Stream "thread-1" (UserMessage "save my profile");
     Enqueue "Let me save that."; GetState "thread-1";
     Interrupted (JString "Is this correct?"); Enqueue "Is this correct?"]
  /\ pendingInterrupt (stateOf r1) = JString "Is this correct?"
  /\ hd_error (effectsOf r2) = Some (Stream "thread-1" (ResumeCommand "yes"))
  /\ pendingInterrupt (stateOf r2) = JUndefined
  /\ hd_error (effectsOf r3) = Some (Stream "thread-1" (UserMessage "thanks")).
Proof. cbv zeta. repeat split. Qed.

(** An interrupt whose value is [undefined] is announced to [onInterrupt]
    but cannot be held: [undefined] is what the state uses for "none". *)
Example undefined_interrupt_is_not_held :
  effectsOf (transform allCallbacks undefinedInterruptTurn ready "hello")
  = [Stream "thread-1" (UserMessage "hello"); GetState "thread-1";
     Interrupted JUndefined]
  /\ pendingInterrupt
       (stateOf (transform allCallbacks undefinedInterruptTurn ready "hello"))
     = JUndefined.
Proof. split; reflexivity. Qed.

End AgentExamples.


(** ** Middleware composition *)

Section MiddlewareFacts.
Import Middleware.

Variables BufferTransform TextTransform World : Type.

Let middleware := AnyMiddleware BufferTransform TextTransform World.

Lemma collect_all (ms : list middleware) :
  forall acc,
    fold_left collect ms acc
    = {| c_beforeSTT := c_beforeSTT acc ++ flat_map (contribution beforeSTT) ms;
         c_afterSTT := c_afterSTT acc ++ flat_map (contribution afterSTT) ms;
         c_beforeTTS := c_beforeTTS acc ++ flat_map (contribution beforeTTS) ms;
         c_afterTTS := c_afterTTS acc ++ flat_map (contribution afterTTS) ms;
         c_agentMiddleware := c_agentMiddleware acc ++ ms;
         speechStartCallbacks :=
           speechStartCallbacks acc
           ++ flat_map (registration onSpeechStart) ms;
         audioCompleteCallbacks :=
           audioCompleteCallbacks acc
           ++ flat_map (registration onAudioComplete) ms |}.
Proof.
  induction ms as [|m ms IH]; intros acc.
  - cbn [fold_left flat_map]. rewrite !app_nil_r. destruct acc; reflexivity.
  - cbn [fold_left flat_map]. rewrite IH.
    destruct m as [n | n [b1 a1 b2 a2 s c]];
      cbn [collect c_beforeSTT c_afterSTT c_beforeTTS c_afterTTS
           c_agentMiddleware speechStartCallbacks audioCompleteCallbacks
           contribution registration beforeSTT afterSTT beforeTTS afterTTS
           onSpeechStart onAudioComplete pushAll pushOne app].
    + rewrite <- app_assoc. reflexivity.
    + destruct b1, a1, b2, a2, s, c;
        cbn [pushAll pushOne]; rewrite <- ?app_assoc; reflexivity.
Qed.

Lemma fire_all_return (callbacks : list (Callback World)) :
  forall w w',
    AllReturn callbacks w w' -> fire callbacks w = (callbacks, Returned w').
Proof.
  intros w w' H. induction H as [w | c rest w w1 w2 Hc _ IH].
  - reflexivity.
  - cbn [fire]. rewrite Hc, IH. reflexivity.
Qed.

Section PipeOrder.

Variables Stream Transform : Type.
Variable pipeThrough : Stream -> Transform -> Stream.

Lemma pipe_first_sees_data_first (stream : Stream) (t : Transform)
  (ts : list Transform) :
  pipeThroughTransforms pipeThrough stream (t :: ts)
  = pipeThroughTransforms pipeThrough (pipeThrough stream t) ts.
Proof. reflexivity. Qed.

End PipeOrder.

(** What [combineMiddleware] returns, field by field. *)
Lemma combineMiddleware_fields (ms : list middleware) :
  combineMiddleware ms
  = {| combinedBeforeSTT := flat_map (contribution beforeSTT) ms;
       combinedAfterSTT := flat_map (contribution afterSTT) ms;
       combinedBeforeTTS := flat_map (contribution beforeTTS) ms;
       combinedAfterTTS := flat_map (contribution afterTTS) ms;
       combinedOnSpeechStart :=
         merged (flat_map (registration onSpeechStart) ms);
       combinedOnAudioComplete :=
         merged (flat_map (registration onAudioComplete) ms);
       agentMiddleware := ms |}.
Proof. unfold combineMiddleware. rewrite collect_all. reflexivity. Qed.

(** Piping a recording stream through a chain records the chain. *)
Lemma pipe_records (Transform : Type) (ts : list Transform) :
  forall piped,
    pipeThroughTransforms recordPipe piped ts = (piped ++ ts)%list.
Proof.
  induction ts as [|t ts IH]; intros piped.
  - cbn. rewrite app_nil_r. reflexivity.
  - rewrite pipe_first_sees_data_first, IH. unfold recordPipe.
    rewrite <- app_assoc. reflexivity.
Qed.

(** The callback stored for an event whose registered callbacks all
    return: it is stored when there is a callback, and calling it returns
    with the world the callbacks leave, one after the other. *)
Lemma merged_all_return (callbacks : list (Callback World)) (w w' : World) :
  callbacks <> [] ->
  AllReturn callbacks w w' ->
  exists stored, merged callbacks = Some stored /\ stored w = Returned w'.
Proof.
  intros Hne Hall. destruct callbacks as [|c rest]; [congruence|].
  exists (combinedCallback (c :: rest)). split; [reflexivity|].
  unfold combinedCallback. rewrite (fire_all_return _ _ _ Hall). reflexivity.
Qed.

(** The loop over callbacks of which one throws after those before it have
    returned. *)
Lemma fire_throw
  (before : list (Callback World)) (thrower : Callback World)
  (after : list (Callback World)) (w w1 w2 : World) :
  AllReturn before w w1 ->
  thrower w1 = Threw w2 ->
  fire (before ++ thrower :: after) w = (before ++ [thrower], Threw w2).
Proof.
  intros Hall Hthrow. induction Hall as [w | c rest w wa wb Hc _ IH].
  - cbn [app fire]. rewrite Hthrow. reflexivity.
  - cbn [app fire]. rewrite Hc, (IH Hthrow). reflexivity.
Qed.

(** The callback stored for an event of which a registered callback
    throws. *)
Lemma merged_throw
  (callbacks before : list (Callback World)) (thrower : Callback World)
  (after : list (Callback World)) (w w1 w2 : World) :
  callbacks = (before ++ thrower :: after)%list ->
  AllReturn before w w1 ->
  thrower w1 = Threw w2 ->
  exists stored, merged callbacks = Some stored /\ stored w = Threw w2.
Proof.
  intros -> Hall Hthrow.
  exists (combinedCallback (before ++ thrower :: after)). split.
  - destruct before; reflexivity.
  - unfold combinedCallback.
    rewrite (fire_throw before thrower after w w1 w2 Hall Hthrow).
    reflexivity.
Qed.


(** C6.  The callback stored for an event stops at the first registered
    callback that throws.  When the callbacks registered before [thrower]
    return one after the other and [thrower] throws, the stored callback
    ends with that exception and with the world as [thrower] left it: the
    loop has called the callbacks before [thrower] and [thrower], and none
    of those registered after it.  This holds for [onSpeechStart] and for
    [onAudioComplete] alike. *)
Theorem firing_stops_at_first_throw
  (ms : list middleware)
  (before : list (Callback World)) (thrower : Callback World)
  (after : list (Callback World)) (w w1 w2 : World) :
  AllReturn before w w1 ->
  thrower w1 = Threw w2 ->
  (flat_map (registration onSpeechStart) ms
   = (before ++ thrower :: after)%list ->
   fire (flat_map (registration onSpeechStart) ms) w
   = (before ++ [thrower], Threw w2)
   /\ exists stored,
        combinedOnSpeechStart (combineMiddleware ms) = Some stored
        /\ stored w = Threw w2)
  /\ (flat_map (registration onAudioComplete) ms
      = (before ++ thrower :: after)%list ->
      fire (flat_map (registration onAudioComplete) ms) w
      = (before ++ [thrower], Threw w2)
      /\ exists stored,
           combinedOnAudioComplete (combineMiddleware ms) = Some stored
           /\ stored w = Threw w2).
Proof.
  intros Hall Hthrow. rewrite combineMiddleware_fields.
  cbn [combinedOnSpeechStart combinedOnAudioComplete].
  split; intros Hreg.
  - split.
    + rewrite Hreg. apply fire_throw with (w1 := w1); assumption.
    + apply merged_throw with (before := before) (thrower := thrower)
        (after := after) (w1 := w1); assumption.
  - split.
    + rewrite Hreg. apply fire_throw with (w1 := w1); assumption.
    + apply merged_throw with (before := before) (thrower := thrower)
        (after := after) (w1 := w1); assumption.
Qed.


End MiddlewareFacts.

Section MiddlewareExamples.
Import Middleware.
Local Open Scope string_scope.



(** The documented behaviour, "all will be called", fails at a speech
    start: the first registered callback throws, the stored callback ends
    with its exception, and the barge-in callback registered after it is
    not called. *)
Lemma firing_stops_witness :
  let ms := [voice "metrics" [] [] (Some (failing "metrics"));
             voice "barge-in" [] [] (Some (say "barge-in"))] in
  AllReturn (World := list string) [] [] []
  /\ failing "metrics" [] = Threw ["metrics"]
  /\ flat_map (registration onSpeechStart) ms
     = ([] ++ failing "metrics" :: [say "barge-in"])%list
  /\ fire (flat_map (registration onSpeechStart) ms) []
     = ([failing "metrics"], Threw ["metrics"])
  /\ exists stored,
       combinedOnSpeechStart (combineMiddleware ms) = Some stored
       /\ stored [] = Threw ["metrics"].
Proof.
  cbv zeta.
  split; [apply AllReturn_nil|]. split; [reflexivity|].
  split; [reflexivity|].
  exact (proj1 (firing_stops_at_first_throw nat nat (list string)
                  [voice "metrics" [] [] (Some (failing "metrics"));
                   voice "barge-in" [] [] (Some (say "barge-in"))]
                  [] (failing "metrics") [say "barge-in"] [] [] ["metrics"]
                  (AllReturn_nil _ []) eq_refl) eq_refl).
Defined.


End MiddlewareExamples.

(** ** Interrupting speech synthesis *)

Section HumeInterruptFacts.
Import Tts Tts.Hume.

(** While the flag is set, [interruptTTS] does nothing at all. *)
Lemma hume_interrupt_while_interrupted
  (onInterruptGiven : bool) (now : Z) (st : State) :
  isInterrupted st = true ->
  interruptTTS onInterruptGiven now st = (st, []).
Proof. intros H. unfold interruptTTS. rewrite H. reflexivity. Qed.

Lemma hume_interrupt_sets_flag (onInterruptGiven : bool) (now : Z) (st : State) :
  isInterrupted (fst (interruptTTS onInterruptGiven now st)) = true.
Proof.
  unfold interruptTTS. destruct (isInterrupted st) eqn:H; [exact H|reflexivity].
Qed.

(** Two calls in a row leave the state of one call and add no effect: the
    second fires no [onInterrupt], closes nothing and starts no timer. *)
Lemma hume_interrupt_idempotent
  (onInterruptGiven : bool) (now1 now2 : Z) (st : State) :
  interruptTTS onInterruptGiven now2
    (fst (interruptTTS onInterruptGiven now1 st))
  = (fst (interruptTTS onInterruptGiven now1 st), []).
Proof.
  apply hume_interrupt_while_interrupted, hume_interrupt_sets_flag.
Qed.

Lemma filter_none_due (now : Z) (ts : list Z) :
  Forall (fun t => now < t) ts ->
  filter (fun t => t <=? now) ts = []
  /\ filter (fun t => negb (t <=? now)) ts = ts.
Proof.
  induction 1 as [|t ts Ht _ [IH1 IH2]]; [split; reflexivity|].
  cbn [filter]. destruct (Z.leb_spec t now); [lia|].
  cbn [negb]. rewrite IH1, IH2. split; reflexivity.
Qed.

(** The same with time passing between the calls, as long as the second
    call comes inside the cooldown window of the first. *)
Lemma hume_interrupt_twice_within_cooldown
  (onInterruptGiven : bool) (now1 now2 : Z) (st : State) :
  Forall (fun t => now2 < t) (timers st) ->
  now2 < now1 + cooldownMs ->
  interruptTTS onInterruptGiven now2
    (elapse now2 (fst (interruptTTS onInterruptGiven now1 st)))
  = (fst (interruptTTS onInterruptGiven now1 st), []).
Proof.
  intros Hold Hin.
  assert (Hsame : elapse now2 (fst (interruptTTS onInterruptGiven now1 st))
                  = fst (interruptTTS onInterruptGiven now1 st)).
  { unfold interruptTTS.
    destruct (isInterrupted st) eqn:Hi; cbn [fst]; unfold elapse.
    - destruct (filter_none_due now2 (timers st) Hold) as [H1 H2].
      rewrite H1, H2. destruct st; reflexivity.
    - cbn [timers ws connectionPromise closeResolve isShuttingDown
           isInterrupted connections].
      assert (Hall : Forall (fun t => now2 < t)
                       (timers st ++ [now1 + cooldownMs]))
        by (apply Forall_app; split; [assumption | repeat constructor; lia]).
      destruct (filter_none_due now2 _ Hall) as [H1 H2].
      rewrite H1, H2. reflexivity. }
  rewrite Hsame. apply hume_interrupt_idempotent.
Qed.

(** After the cooldown a text segment opens a socket of its own and is sent
    on it. *)
Lemma hume_clean_synthesis_after_cooldown
  (onInterruptGiven : bool) (now later : Z) (text : string) (st : State) :
  isInterrupted st = false -> isShuttingDown st = false -> timers st = [] ->
  now + cooldownMs <= later ->
  snd (transform true text
         (elapse later (fst (interruptTTS onInterruptGiven now st))))
  = [Connect (connections st); Send (connections st) text].
Proof.
  intros Hi Hs Ht Hlater. unfold interruptTTS. rewrite Hi. cbn [fst].
  unfold elapse. cbn [timers ws connectionPromise closeResolve isShuttingDown
                      isInterrupted connections]. rewrite Ht. cbn [app filter].
  destruct (Z.leb_spec (now + cooldownMs) later); [|lia].
  cbn [negb]. unfold transform.
  cbn [timers ws connectionPromise closeResolve isShuttingDown
       isInterrupted connections]. rewrite Hs. reflexivity.
Qed.

End HumeInterruptFacts.

Section OpenAIInterruptFacts.
Import Tts Tts.OpenAI.
Local Open Scope string_scope.

(** A second call of [interrupt] always changes the state: it adds a
    timer. *)
Lemma openai_second_interrupt_adds_a_timer (now1 now2 : Z) (st : State) :
  timers (fst (interrupt now2 (fst (interrupt now1 st))))
  = (timers (fst (interrupt now1 st)) ++ [now2 + cooldownMs])%list
  /\ fst (interrupt now2 (fst (interrupt now1 st)))
     <> fst (interrupt now1 st).
Proof.
  split; [reflexivity|]. intros H.
  apply (f_equal (fun s => List.length (timers s))) in H.
  cbn [interrupt fst timers] in H. rewrite !length_app in H.
  cbn [List.length] in H. lia.
Qed.

(** C7 on the OpenAI adapter.  A second call of [interrupt] inside the
    cooldown window is not a no-op: it starts a second timer.  That timer
    clears the flag of a later interrupt too early: after interrupts at 0,
    60 and 120 ms a text segment at 170 ms is synthesized, 50 ms after the
    last interrupt, while after interrupts at 0 and 120 ms the same segment
    is dropped with [onInterrupt].  And [onInterrupt] is not limited to one
    call per window: it is called for every text segment that arrives in
    the window. *)
Theorem openai_double_interrupt_differs_from_single :
  timers (fst (run [(0, Interrupt); (60, Interrupt)] initial)) = [100; 160]
  /\ timers (fst (run [(0, Interrupt)] initial)) = [100]
  /\ observable
       (snd (run [(0, Interrupt); (60, Interrupt); (120, Interrupt);
                  (170, Text "hello")] initial))
     = [Synthesized "hello"; AudioComplete]
  /\ observable
       (snd (run [(0, Interrupt); (120, Interrupt); (170, Text "hello")]
               initial))
     = [OnInterrupt]
  /\ observable
       (snd (run [(0, Interrupt); (10, Interrupt); (20, Text "a");
                  (30, Text "b")] initial))
     = [OnInterrupt; OnInterrupt].
Proof. repeat split. Qed.

End OpenAIInterruptFacts.

(* ================================================================== *)
(** * Part III.  Further properties of the code                        *)
(* ================================================================== *)

(** ** The mu-law tables *)

Section CodecFacts.
Import Mulaw Pcm Telephony.

Lemma in_zfrom (n : nat) :
  forall lo z, lo <= z < lo + Z.of_nat n -> In z (zfrom lo n).
Proof.
  induction n as [|n IH]; intros lo z Hz; [lia|].
  cbn [zfrom]. destruct (Z.eq_dec z lo) as [-> | Hne]; [left; reflexivity|].
  right. apply IH. lia.
Qed.

Lemma all_codes_facts : forallb codeFacts allCodes = true.
Proof. vm_compute. reflexivity. Qed.

Lemma code_facts (code : Z) : 0 <= code <= 255 -> codeFacts code = true.
Proof.
  intros H. apply (proj1 (forallb_forall codeFacts allCodes) all_codes_facts).
  apply in_zrange. simpl. lia.
Qed.

Lemma table_entry_range (code : Z) :
  0 <= code <= 255 ->
  tableEntry code = MULAW_TO_LINEAR code /\ -8031 <= tableEntry code <= 8031.
Proof.
  intros H. pose proof (code_facts code H) as Hb. unfold codeFacts in Hb.
  repeat (apply andb_prop in Hb; destruct Hb as [Hb ?]).
  repeat match goal with
         | H : (_ =? _) = true |- _ => apply Z.eqb_eq in H
         | H : (_ <=? _) = true |- _ => apply Z.leb_le in H
         end.
  split; [assumption | lia].
Qed.

(** X1. Every entry of the decode table lies within -8031 .. 8031, so the
    [Int16Array] stores it unchanged, and setting or clearing the top bit
    of a code negates its entry. *)
Theorem decode_table_in_range_and_odd (code : Z) :
  0 <= code <= 255 ->
  -8031 <= MULAW_TO_LINEAR code <= 8031
  /\ tableEntry code = MULAW_TO_LINEAR code
  /\ MULAW_TO_LINEAR (Z.lxor code 0x80) = - MULAW_TO_LINEAR code.
Proof.
  intros H. pose proof (code_facts code H) as Hb. unfold codeFacts in Hb.
  repeat (apply andb_prop in Hb; destruct Hb as [Hb ?]).
  repeat match goal with
         | H : (_ =? _) = true |- _ => apply Z.eqb_eq in H
         | H : (_ <=? _) = true |- _ => apply Z.leb_le in H
         end.
  repeat split; assumption.
Qed.

Lemma decode_table_witness :
  0 <= 0x80 <= 255 /\ MULAW_TO_LINEAR (Z.lxor 0x80 0x80) = - MULAW_TO_LINEAR 0x80.
Proof.
  split; [lia|].
  exact (proj2 (proj2 (decode_table_in_range_and_odd 0x80 ltac:(lia)))).
Defined.

Lemma all_codes_round_trip : forallb codeRoundTrip allCodes = true.
Proof. vm_compute. reflexivity. Qed.

(** X2. The encoder undoes the expansion of every code but one: encoding
    the reference expansion of a code, or four times its table entry,
    gives the code back, except for 0x7f (minus zero), whose expansion 0
    encodes as 0xff. *)
Theorem encoder_inverts_expansion (code : Z) :
  0 <= code <= 255 ->
  (code <> 0x7f ->
   linearToMulaw (g711Expand code) = code
   /\ linearToMulaw (4 * MULAW_TO_LINEAR code) = code)
  /\ (code = 0x7f -> linearToMulaw (g711Expand code) = 0xff).
Proof.
  intros H.
  pose proof (proj1 (forallb_forall codeRoundTrip allCodes)
                all_codes_round_trip code
                (in_zrange 256 code ltac:(simpl; lia))) as Hb.
  unfold codeRoundTrip in Hb.
  destruct (Z.eqb_spec code 0x7f) as [-> | Hne].
  - apply Z.eqb_eq in Hb. split; [intros Hc; congruence | intros _; exact Hb].
  - apply andb_prop in Hb. destruct Hb as [H1 H2].
    apply Z.eqb_eq in H1, H2. split; [intros _; auto | intros Hc; congruence].
Qed.

Lemma encoder_inverts_witness :
  0 <= 0xce <= 255 /\ 0xce <> 0x7f /\ linearToMulaw (g711Expand 0xce) = 0xce.
Proof.
  split; [lia|]. split; [discriminate|].
  exact (proj1 (proj1 (encoder_inverts_expansion 0xce ltac:(lia))
                  ltac:(discriminate))).
Defined.

Lemma all_steps_monotone :
  forallb stepMonotone (zfrom (-32768) (Z.to_nat 65535)) = true.
Proof. vm_compute. reflexivity. Qed.

(** X3. Encoding followed by the reference expansion is monotone: a larger
    sample never comes back as a smaller value. *)
Theorem quantizer_monotone (x y : Z) :
  -32768 <= x -> x <= y -> y <= 32767 ->
  g711Expand (linearToMulaw x) <= g711Expand (linearToMulaw y).
Proof.
  intros Hx Hxy Hy.
  assert (Hstep : forall z, -32768 <= z < 32767 ->
            g711Expand (linearToMulaw z) <= g711Expand (linearToMulaw (z + 1))).
  { intros z Hz.
    pose proof (proj1 (forallb_forall stepMonotone _) all_steps_monotone z
                  (in_zfrom (Z.to_nat 65535) (-32768) z ltac:(lia))) as Hb.
    apply Z.leb_le in Hb. exact Hb. }
  assert (Hgen : forall n : nat, y - Z.of_nat n >= -32768 ->
            g711Expand (linearToMulaw (y - Z.of_nat n))
            <= g711Expand (linearToMulaw y)).
  { induction n as [|n IH]; intros Hn.
    - replace (y - Z.of_nat 0) with y by lia. lia.
    - specialize (IH ltac:(lia)).
      pose proof (Hstep (y - Z.of_nat (S n)) ltac:(lia)) as Hs.
      replace (y - Z.of_nat (S n) + 1) with (y - Z.of_nat n) in Hs by lia.
      lia. }
  specialize (Hgen (Z.to_nat (y - x)) ltac:(lia)).
  replace (y - Z.of_nat (Z.to_nat (y - x))) with x in Hgen by lia.
  exact Hgen.
Qed.

Lemma quantizer_monotone_witness :
  g711Expand (linearToMulaw (-5)) <= g711Expand (linearToMulaw 1000).
Proof. apply quantizer_monotone; lia. Defined.

Lemma all_signs_symmetric : forallb signSymmetric (zfrom 1 (Z.to_nat 32767)) = true.
Proof. vm_compute. reflexivity. Qed.

(** X4. The top bit of a code is the sign and nothing else: a positive
    sample has a code of 128 or more, and the sample of opposite sign has
    the same code without the top bit. *)
Theorem encoder_sign_symmetry (x : Z) :
  1 <= x <= 32767 ->
  128 <= linearToMulaw x <= 255
  /\ linearToMulaw (- x) = linearToMulaw x - 128.
Proof.
  intros Hx.
  pose proof (proj1 (forallb_forall signSymmetric _) all_signs_symmetric x
                (in_zfrom (Z.to_nat 32767) 1 x ltac:(lia))) as Hb.
  unfold signSymmetric in Hb.
  apply andb_prop in Hb. destruct Hb as [Hb H3].
  apply andb_prop in Hb. destruct Hb as [H1 H2].
  apply Z.eqb_eq in H1. apply Z.leb_le in H2, H3.
  repeat split; assumption.
Qed.

Lemma encoder_sign_witness :
  1 <= 1000 <= 32767 /\ linearToMulaw (- 1000) = linearToMulaw 1000 - 128.
Proof.
  split; [lia|]. exact (proj2 (encoder_sign_symmetry 1000 ltac:(lia))).
Defined.

End CodecFacts.

(** ** Decoding telephone audio *)

Section MulawToPcmFacts.
Import Mulaw Pcm Telephony.

Lemma upsampled_count (n : Z) (T : positive) :
  Qfloor (inject_Z n * upsampleRatioOf T)%Q = (n * Z.pos T) / 8000.
Proof.
  unfold upsampleRatioOf.
  rewrite (Qfloor_comp _ ((n * Z.pos T) # 8000)); [reflexivity | qarith].
Qed.

Lemma source_index (i : Z) (T : positive) :
  Qfloor (inject_Z i / upsampleRatioOf T)%Q = (i * 8000) / Z.pos T.
Proof.
  unfold upsampleRatioOf.
  assert (Hr : (inject_Z (Z.pos T) / 8000 == Z.pos T # 8000)%Q) by qarith.
  rewrite (Qfloor_comp _ ((i * 8000) # T)); [reflexivity|].
  rewrite Hr. qarith.
Qed.

Lemma source_index_in_chunk (n i T : Z) :
  0 < T -> 0 <= i < (n * T) / 8000 ->
  0 <= (i * 8000) / T < n.
Proof.
  intros HT Hi.
  assert (H1 : ((n * T) / 8000) * 8000 <= n * T)
    by (rewrite Z.mul_comm; apply Z.mul_div_le; lia).
  split; [apply Z.div_pos; lia|].
  apply Z.div_lt_upper_bound; [lia|]. nia.
Qed.

Lemma decodeLoop_fills (ratio : Q) (chunk : Buffer) (val : Z -> Z) :
  forall (n : nat) (i : Z) (output : Buffer),
    0 <= i ->
    (i + Z.of_nat n) * 2 <= Z.of_nat (List.length output) ->
    (forall j, i <= j < i + Z.of_nat n ->
       0 <= Qfloor (inject_Z j / ratio)%Q
       /\ exists b,
            nth_error chunk (Z.to_nat (Qfloor (inject_Z j / ratio)%Q)) = Some b
            /\ tableEntry (byteToZ b) = val j
            /\ -32768 <= val j <= 32767) ->
    exists out,
      decodeLoop ratio chunk n i output = Some out
      /\ List.length out = List.length output
      /\ (forall j, i <= j < i + Z.of_nat n -> sampleAt out j = Some (val j))
      /\ (forall j, 0 <= j < i -> sampleAt out j = sampleAt output j).
Proof.
  induction n as [|n IH]; intros i output Hi Hlen Hval.
  - exists output. cbn [decodeLoop]. repeat split; intros; try lia.
  - cbn [decodeLoop]. cbv zeta.
    destruct (Hval i ltac:(lia)) as (Hnn & b & Hb & Hv & Hrange).
    destruct (Z.ltb_spec (Qfloor (inject_Z i / ratio)%Q) 0); [lia|].
    rewrite Hb, Hv.
    destruct (writeInt16LE_succeeds output (val i) (i * 2) Hrange
                ltac:(lia) ltac:(lia)) as [output' Hw].
    rewrite Hw.
    pose proof (writeInt16LE_length _ _ _ _ Hw) as Hl'.
    destruct (IH (i + 1) output' ltac:(lia) ltac:(lia))
      as (out & Hrun & Hl & Hnew & Hold).
    { intros j Hj. apply Hval. lia. }
    exists out. repeat split.
    + exact Hrun.
    + congruence.
    + intros j Hj. destruct (Z.eq_dec j i) as [-> | Hne].
      * rewrite Hold by lia. unfold sampleAt. apply (read_written _ _ _ _ Hw).
      * apply Hnew. lia.
    + intros j Hj. rewrite Hold by lia. unfold sampleAt.
      apply (read_below_written _ _ _ _ _ Hw); lia.
Qed.

Lemma mulawToPcm_samples (targetSampleRate : positive) (chunk : Buffer) :
  let n := Z.of_nat (List.length chunk) in
  let T := Z.pos targetSampleRate in
  exists output,
    mulawToPcm targetSampleRate chunk = Some output
    /\ Z.of_nat (List.length output) = 2 * ((n * T) / 8000)
    /\ forall i,
         0 <= i < (n * T) / 8000 ->
         exists mulawByte,
           nth_error chunk (Z.to_nat ((i * 8000) / T)) = Some mulawByte
           /\ sampleAt output i = Some (MULAW_TO_LINEAR (byteToZ mulawByte)).
Proof.
  cbv zeta.
  set (n := Z.of_nat (List.length chunk)).
  set (T := Z.pos targetSampleRate).
  set (count := (n * T) / 8000).
  assert (Hcount : 0 <= count) by (apply Z.div_pos; lia).
  assert (Hbyte : forall i, 0 <= i < count ->
            exists b, nth_error chunk (Z.to_nat ((i * 8000) / T)) = Some b).
  { intros i Hi.
    destruct (source_index_in_chunk n i T ltac:(lia) Hi) as [H0 Hn].
    destruct (nth_error chunk (Z.to_nat ((i * 8000) / T))) as [b|] eqn:E;
      [eexists; reflexivity|].
    apply nth_error_None in E. lia. }
  set (val := fun i =>
         match nth_error chunk (Z.to_nat ((i * 8000) / T)) with
         | Some b => MULAW_TO_LINEAR (byteToZ b)
         | None => 0
         end).
  destruct (decodeLoop_fills (upsampleRatioOf targetSampleRate) chunk val
              (Z.to_nat count) 0 (repeat x00 (Z.to_nat (count * 2)))
              ltac:(lia)) as (out & Hrun & Hl & Hnew & _).
  { rewrite repeat_length. lia. }
  { intros j Hj. rewrite source_index. fold T.
    destruct (source_index_in_chunk n j T ltac:(lia) ltac:(lia)) as [H0 Hn].
    split; [exact H0|].
    destruct (Hbyte j ltac:(lia)) as [b Hb]. exists b.
    pose proof (byteToZ_range b) as Hr.
    destruct (table_entry_range (byteToZ b) ltac:(lia)) as [He Hrange].
    unfold val. rewrite Hb. rewrite <- He.
    repeat split; try assumption; try reflexivity; lia. }
  exists out. repeat split.
  - unfold mulawToPcm. cbv zeta. rewrite upsampled_count.
    fold n. fold T. fold count. exact Hrun.
  - rewrite Hl, repeat_length. lia.
  - intros i Hi. destruct (Hbyte i Hi) as [b Hb]. exists b.
    split; [exact Hb|]. rewrite Hnew by lia. unfold val. rewrite Hb.
    reflexivity.
Qed.

End MulawToPcmFacts.

(** ** Encoding telephone audio *)

Section PcmToMulawFacts.
Import Mulaw Pcm Telephony Decimation.

Lemma pair_induction {A : Type} (P : list A -> Prop) :
  P [] -> (forall x, P [x]) ->
  (forall x y l, P l -> P (x :: y :: l)) ->
  forall l, P l.
Proof.
  intros H0 H1 H2.
  assert (H : forall l, P l /\ forall x, P (x :: l)).
  { induction l as [|y l [IH1 IH2]]; split; auto. }
  intros l. apply H.
Qed.

Lemma half_succ_succ (n : nat) : (S (S n) / 2 = S (n / 2))%nat.
Proof.
  replace (S (S n)) with (n + 1 * 2)%nat by lia.
  rewrite Nat.div_add by lia. lia.
Qed.

Lemma samplesOf_length (buf : Buffer) :
  List.length (samplesOf buf) = (List.length buf / 2)%nat.
Proof.
  induction buf as [| x | lo hi rest IH] using pair_induction;
    [reflexivity | reflexivity |].
  cbn [samplesOf List.length]. rewrite half_succ_succ, IH. reflexivity.
Qed.

Lemma samplesOf_app (a b : Buffer) :
  Nat.even (List.length a) = true ->
  samplesOf (a ++ b) = samplesOf a ++ samplesOf b.
Proof.
  induction a as [| x | lo hi rest IH] using pair_induction; intros He.
  - reflexivity.
  - discriminate He.
  - cbn [List.length Nat.even] in He. cbn [app samplesOf].
    rewrite (IH He). reflexivity.
Qed.

Lemma samplesOf_odd_byte (a : Buffer) (extra : byte) :
  Nat.even (List.length a) = true -> samplesOf (a ++ [extra]) = samplesOf a.
Proof.
  intros He. rewrite (samplesOf_app _ _ He). cbn [samplesOf].
  apply app_nil_r.
Qed.

Lemma read_shift (lo hi : byte) (rest : Buffer) (j : Z) :
  0 <= j ->
  readInt16LE (lo :: hi :: rest) (inject_Z ((1 + j) * 2))
  = readInt16LE rest (inject_Z (j * 2)).
Proof.
  intros Hj. unfold readInt16LE. rewrite !isInteger_inject, !Qfloor_Z.
  cbn [List.length andb].
  destruct (Z.leb_spec 0 ((1 + j) * 2)); [|lia].
  destruct (Z.leb_spec 0 (j * 2)); [|lia].
  destruct (Z.leb_spec ((1 + j) * 2 + 2) (Z.of_nat (S (S (List.length rest)))));
    destruct (Z.leb_spec (j * 2 + 2) (Z.of_nat (List.length rest)));
    try lia; [|reflexivity].
  replace (Z.to_nat ((1 + j) * 2)) with (S (S (Z.to_nat (j * 2)))) by lia.
  reflexivity.
Qed.

Lemma sampleAt_samplesOf :
  forall (k : nat) (buf : Buffer),
    (2 * k + 2 <= List.length buf)%nat ->
    sampleAt buf (Z.of_nat k) = nth_error (samplesOf buf) k.
Proof.
  induction k as [|k IH]; intros buf Hlen;
    destruct buf as [|lo [|hi rest]]; cbn [List.length] in Hlen; try lia.
  - unfold sampleAt. rewrite readInt16LE_at by (cbn [List.length]; lia).
    reflexivity.
  - unfold sampleAt.
    replace (Z.of_nat (S k)) with (1 + Z.of_nat k) by lia.
    rewrite read_shift by lia. cbn [samplesOf nth_error].
    apply (IH rest). lia.
Qed.

Lemma encodeLoop_shift (r : Q) (lo hi : byte) (rest : Buffer) :
  forall (n : nat) (j : Z) (acc : Q) (out : list Z),
    0 <= j ->
    encodeLoop r (lo :: hi :: rest) n (1 + j) acc out
    = encodeLoop r rest n j acc out.
Proof.
  induction n as [|n IH]; intros j acc out Hj; [reflexivity|].
  cbn [encodeLoop]. cbv zeta. rewrite read_shift by lia.
  replace (1 + j + 1) with (1 + (j + 1)) by lia.
  destruct (Qle_bool r (acc + 1)).
  - destruct (readInt16LE rest (inject_Z (j * 2))); [|reflexivity].
    apply IH. lia.
  - apply IH. lia.
Qed.

(** The loop over byte offsets is the recursion over the samples. *)
Lemma encodeLoop_samples (r : Q) :
  forall (chunk : Buffer) (acc : Q) (out : list Z),
    encodeLoop r chunk (List.length chunk / 2) 0 acc out
    = Some (fst (decimate r acc (samplesOf chunk)),
            out ++ map linearToMulaw (snd (decimate r acc (samplesOf chunk)))).
Proof.
  induction chunk as [| x | lo hi rest IH] using pair_induction;
    intros acc out.
  - cbn. rewrite app_nil_r. reflexivity.
  - cbn. rewrite app_nil_r. reflexivity.
  - cbn [List.length]. rewrite half_succ_succ.
    cbn [encodeLoop samplesOf decimate]. cbv zeta.
    rewrite readInt16LE_at by (cbn [List.length]; lia).
    change (0 + 1) with (1 + 0).
    rewrite !encodeLoop_shift by lia.
    destruct (Qle_bool r (acc + 1)).
    + rewrite IH.
      destruct (decimate r (acc + 1 - r) (samplesOf rest)) as [final kept].
      cbn [fst snd map nth]. rewrite <- app_assoc. reflexivity.
    + apply IH.
Qed.

Lemma pcmToMulaw_view (rate : positive) (acc : Q) (chunk : Buffer) :
  exists out,
    pcmToMulaw rate acc chunk
    = Some (fst (decimate (downsampleRatioOf rate) acc (samplesOf chunk)), out)
    /\ enqueuedBytes out
       = encoded (snd (decimate (downsampleRatioOf rate) acc
                         (samplesOf chunk))).
Proof.
  unfold pcmToMulaw. cbv zeta. rewrite encodeLoop_samples. cbn [app].
  eexists. split; [reflexivity|]. unfold encoded.
  destruct (snd (decimate (downsampleRatioOf rate) acc (samplesOf chunk)));
    cbn [map enqueuedBytes]; [reflexivity|].
  rewrite map_map. reflexivity.
Qed.

Lemma decimate_app (r : Q) :
  forall (a b : list Z) (acc : Q),
    decimate r acc (a ++ b)
    = (fst (decimate r (fst (decimate r acc a)) b),
       snd (decimate r acc a) ++ snd (decimate r (fst (decimate r acc a)) b)).
Proof.
  induction a as [|s a IH]; intros b acc.
  - cbn. destruct (decimate r acc b); reflexivity.
  - cbn [app decimate]. cbv zeta. destruct (Qle_bool r (acc + 1)).
    + rewrite IH.
      destruct (decimate r (acc + 1 - r) a) as [acc1 k1]. reflexivity.
    + apply IH.
Qed.

Lemma pcmToMulawStream_view (rate : positive) :
  forall (chunks : list Buffer) (acc : Q),
    Forall (fun chunk => Nat.even (List.length chunk) = true) chunks ->
    pcmToMulawStream rate acc chunks
    = Some (fst (decimate (downsampleRatioOf rate) acc
                   (samplesOf (List.concat chunks))),
            encoded (snd (decimate (downsampleRatioOf rate) acc
                            (samplesOf (List.concat chunks))))).
Proof.
  induction chunks as [|chunk rest IH]; intros acc Heven; [reflexivity|].
  inversion Heven as [|? ? He Hrest]; subst.
  cbn [pcmToMulawStream List.concat].
  destruct (pcmToMulaw_view rate acc chunk) as (out & -> & Hout).
  rewrite (IH _ Hrest), Hout, (samplesOf_app _ _ He), decimate_app.
  cbn [fst snd]. unfold encoded. rewrite map_app. reflexivity.
Qed.

(** X6. [PcmToMulawTransform] never throws, and the accumulator it keeps
    between calls makes the output independent of the chunking: a stream of
    chunks that each hold whole samples puts out the same bytes, and leaves
    the same accumulator, as one call on their concatenation. *)
Theorem pcm_to_mulaw_chunking_invariant (sourceSampleRate : positive)
  (accumulator : Q) (chunks : list Buffer) :
  Forall (fun chunk => Nat.even (List.length chunk) = true) chunks ->
  exists final bytes out,
    pcmToMulawStream sourceSampleRate accumulator chunks = Some (final, bytes)
    /\ pcmToMulaw sourceSampleRate accumulator (List.concat chunks)
       = Some (final, out)
    /\ enqueuedBytes out = bytes.
Proof.
  intros Heven.
  destruct (pcmToMulaw_view sourceSampleRate accumulator (List.concat chunks))
    as (out & Hone & Hout).
  do 2 eexists. exists out.
  split; [apply (pcmToMulawStream_view _ _ _ Heven)|].
  split; [exact Hone | exact Hout].
Qed.

Lemma pcm_to_mulaw_chunking_witness :
  exists final bytes out,
    pcmToMulawStream 16000 0 [[x01; x02; x03; x04]; [x05; x06]; []]
    = Some (final, bytes)
    /\ pcmToMulaw 16000 0 [x01; x02; x03; x04; x05; x06] = Some (final, out)
    /\ enqueuedBytes out = bytes.
Proof.
  apply (pcm_to_mulaw_chunking_invariant 16000 0
           [[x01; x02; x03; x04]; [x05; x06]; []]).
  repeat constructor.
Defined.

(** X7. A last odd byte of a chunk is not a sample: [PcmToMulawTransform]
    ignores it, and does not carry it over to the next chunk. *)
Theorem pcm_to_mulaw_drops_odd_byte (sourceSampleRate : positive)
  (accumulator : Q) (chunk : Buffer) (extra : byte) :
  Nat.even (List.length chunk) = true ->
  pcmToMulaw sourceSampleRate accumulator (chunk ++ [extra])
  = pcmToMulaw sourceSampleRate accumulator chunk.
Proof.
  intros He. unfold pcmToMulaw. cbv zeta.
  rewrite !encodeLoop_samples, (samplesOf_odd_byte _ _ He). reflexivity.
Qed.

Lemma pcm_to_mulaw_odd_byte_witness :
  pcmToMulaw 16000 0 ([x01; x02; x03; x04] ++ [x05])
  = pcmToMulaw 16000 0 [x01; x02; x03; x04].
Proof.
  apply (pcm_to_mulaw_drops_odd_byte 16000 0 [x01; x02; x03; x04] x05).
  reflexivity.
Defined.

End PcmToMulawFacts.

Section DecimationFacts.
Import Mulaw Pcm Telephony Decimation LoopBack.

Lemma inject_Z_succ_nat (n : nat) :
  (inject_Z (Z.of_nat (S n)) == inject_Z (Z.of_nat n) + 1)%Q.
Proof.
  rewrite Nat2Z.inj_succ. unfold Z.succ. rewrite inject_Z_plus. reflexivity.
Qed.

Lemma Qle_bool_false (x y : Q) : Qle_bool x y = false -> (y < x)%Q.
Proof.
  intros E. apply Qnot_le_lt. intros H. apply Qle_bool_iff in H. congruence.
Qed.

Lemma decimate_all (r : Q) :
  (r <= 1)%Q ->
  forall (samples : list Z) (acc : Q),
    (0 <= acc)%Q ->
    snd (decimate r acc samples) = samples
    /\ (fst (decimate r acc samples)
        == acc + inject_Z (Z.of_nat (List.length samples)) * (1 - r))%Q.
Proof.
  intros Hr. induction samples as [|s rest IH]; intros acc H0.
  - cbn [decimate fst snd List.length Z.of_nat].
    change (inject_Z 0) with 0%Q. split; [reflexivity | lra].
  - cbn [decimate]. cbv zeta. destruct (Qle_bool r (acc + 1)) eqn:E.
    + apply Qle_bool_iff in E.
      destruct (IH (acc + 1 - r)%Q) as [Hs He]; [lra|].
      destruct (decimate r (acc + 1 - r) rest) as [f k].
      cbn [fst snd] in *. cbn [List.length].
      rewrite inject_Z_succ_nat. split; [congruence | lra].
    + apply Qle_bool_false in E. lra.
Qed.

Lemma everySecond_cons (s : Z) (rest : list Z) :
  everySecond (s :: rest) = everySecondFromFirst rest.
Proof. destruct rest; reflexivity. Qed.

Lemma decimate_half (r : Q) :
  (r == 2)%Q ->
  forall (samples : list Z) (acc : Q),
    ((acc == 0)%Q ->
     snd (decimate r acc samples) = everySecond samples
     /\ (fst (decimate r acc samples)
         == if Nat.even (List.length samples) then 0 else 1)%Q)
    /\ ((acc == 1)%Q ->
        snd (decimate r acc samples) = everySecondFromFirst samples
        /\ (fst (decimate r acc samples)
            == if Nat.even (List.length samples) then 1 else 0)%Q).
Proof.
  intros Hr. induction samples as [|s rest IH]; intros acc.
  - split; intros Ha; (split; [reflexivity | exact Ha]).
  - assert (Hpar : Nat.even (List.length (s :: rest))
                   = negb (Nat.even (List.length rest))).
    { cbn [List.length]. rewrite Nat.even_succ, <- Nat.negb_even.
      reflexivity. }
    rewrite Hpar. split; intros Ha; cbn [decimate]; cbv zeta;
      destruct (Qle_bool r (acc + 1)) eqn:E.
    + apply Qle_bool_iff in E. lra.
    + rewrite everySecond_cons.
      destruct (IH (acc + 1)%Q) as [_ H1].
      destruct H1 as [Hs Hf]; [lra|]. split; [exact Hs|].
      destruct (Nat.even (List.length rest)); exact Hf.
    + destruct (IH (acc + 1 - r)%Q) as [H0 _].
      destruct H0 as [Hs Hf]; [lra|].
      destruct (decimate r (acc + 1 - r) rest) as [f k].
      cbn [fst snd] in *. cbn [everySecondFromFirst]. split; [congruence|].
      destruct (Nat.even (List.length rest)); exact Hf.
    + apply Qle_bool_false in E. lra.
Qed.

Lemma downsampleRatio_fraction (rate : positive) :
  (downsampleRatioOf rate == Z.pos rate # 8000)%Q.
Proof. unfold downsampleRatioOf. qarith. Qed.

(** X9. At the default source rate of 16 kHz the converter, called with a
    zero accumulator, encodes every second sample of the chunk starting
    with the second one (no averaging of neighbours), and leaves the
    accumulator at zero after an even number of samples and at one after
    an odd number. *)
Theorem pcm_to_mulaw_16k_takes_every_second_sample (accumulator : Q)
  (chunk : Buffer) :
  (accumulator == 0)%Q ->
  exists final out,
    pcmToMulaw 16000 accumulator chunk = Some (final, out)
    /\ enqueuedBytes out = encoded (everySecond (samplesOf chunk))
    /\ (final == if Nat.even (List.length chunk / 2) then 0 else 1)%Q.
Proof.
  intros Ha.
  destruct (pcmToMulaw_view 16000 accumulator chunk) as (out & Hrun & Hout).
  assert (Hr : (downsampleRatioOf 16000 == 2)%Q) by reflexivity.
  destruct (decimate_half _ Hr (samplesOf chunk) accumulator) as [H0 _].
  destruct (H0 Ha) as [Hs Hf].
  do 2 eexists. split; [exact Hrun|]. split.
  - rewrite Hout, Hs. reflexivity.
  - rewrite <- samplesOf_length. exact Hf.
Qed.

Lemma pcm_to_mulaw_16k_witness :
  exists final out,
    pcmToMulaw 16000 0 [x01; x00; x02; x00; x03; x00] = Some (final, out)
    /\ enqueuedBytes out
       = encoded (everySecond (samplesOf [x01; x00; x02; x00; x03; x00]))
    /\ (final
        == if Nat.even (List.length [x01; x00; x02; x00; x03; x00] / 2)
           then 0 else 1)%Q.
Proof.
  apply (pcm_to_mulaw_16k_takes_every_second_sample 0
           [x01; x00; x02; x00; x03; x00]).
  reflexivity.
Defined.



End DecimationFacts.

(** ** The telephone transforms in double precision *)

Section DoublesTelephonyFacts.
Import Mulaw Pcm Telephony Binary64 Doubles.

Lemma Qfloor_half (L : Z) : Qfloor (inject_Z L / 2)%Q = L / 2.
Proof.
  rewrite (Qfloor_comp _ (L # 2)); [reflexivity|].
  unfold Qeq, Qdiv, Qmult, Qinv, inject_Z. cbn [Qnum Qden]. lia.
Qed.

Lemma pcmSamples_exact (chunk : Buffer) :
  Z.of_nat (List.length chunk) < 2 ^ 53 ->
  Qfloor (div64 (inject_Z (Z.of_nat (List.length chunk))) 2)
  = Z.of_nat (List.length chunk) / 2.
Proof.
  intros H. unfold div64.
  rewrite (Qfloor_comp _ _
             (round64_half (Z.of_nat (List.length chunk)) ltac:(lia))).
  apply Qfloor_half.
Qed.

(** At a whole multiple of 8 kHz the ratio is that whole number. *)
Lemma downsampleRatio_integer (factor : positive) :
  Z.pos factor < 2 ^ 53 ->
  (Doubles.downsampleRatioOf (factor * 8000) == inject_Z (Z.pos factor))%Q.
Proof.
  intros H. unfold Doubles.downsampleRatioOf, div64.
  rewrite (round64_comp _ (inject_Z (Z.pos factor))).
  - apply round64_Z. lia.
  - unfold Qeq, Qdiv, Qmult, Qinv, inject_Z. cbn [Qnum Qden]. lia.
Qed.

(** With a whole ratio [k] the accumulator is a counter modulo [k]: it
    takes whole values below [k], and every [k]-th sample is encoded. *)
Lemma encodeLoop_counts (r : Q) (k : Z) (chunk : Buffer) :
  (r == inject_Z k)%Q ->
  0 < k < 2 ^ 52 ->
  forall (n : nat) (i : Z) (accumulator : Q) (a : Z) (outputSamples : list Z),
    (accumulator == inject_Z a)%Q ->
    0 <= a < k ->
    0 <= i ->
    (i + Z.of_nat n) * 2 <= Z.of_nat (List.length chunk) ->
    i + Z.of_nat n < 2 ^ 52 ->
    exists final new,
      Doubles.encodeLoop r chunk n i accumulator outputSamples
      = Some (final, (outputSamples ++ new)%list)
      /\ (final == inject_Z ((a + Z.of_nat n) mod k))%Q
      /\ Z.of_nat (List.length new) = (a + Z.of_nat n) / k.
Proof.
  intros Hr Hk. induction n as [|n IH];
    intros i accumulator a outputSamples Hacc Ha Hi Hlen Hbig.
  - exists accumulator, []. cbn [Doubles.encodeLoop List.length Z.of_nat].
    rewrite app_nil_r, Z.add_0_r, Z.mod_small, Z.div_small by lia.
    split; [reflexivity|]. split; [exact Hacc | reflexivity].
  - cbn [Doubles.encodeLoop]. cbv zeta.
    assert (H1 : (add64 accumulator 1 == inject_Z (a + 1))%Q).
    { unfold add64. rewrite (round64_comp _ (inject_Z (a + 1))).
      - apply round64_Z. lia.
      - rewrite Hacc, inject_Z_plus. reflexivity. }
    destruct (Qle_bool r (add64 accumulator 1)) eqn:E.
    + apply Qle_bool_iff in E. rewrite Hr, H1, <- Zle_Qle in E.
      assert (Hak : a + 1 = k) by lia.
      rewrite (readInt16LE_Qeq chunk _ _ (mul2_exact i ltac:(lia))).
      destruct (readInt16LE_in_bounds chunk (2 * i) ltac:(lia) ltac:(lia))
        as (v & Hv & _).
      rewrite Hv.
      assert (H2 : (sub64 (add64 accumulator 1) r == inject_Z 0)%Q).
      { unfold sub64. apply round64_0. rewrite H1, Hr, Hak.
        change (inject_Z 0) with 0%Q. ring. }
      destruct (IH (i + 1) (sub64 (add64 accumulator 1) r) 0
                  (outputSamples ++ [linearToMulaw v])%list H2 ltac:(lia)
                  ltac:(lia) ltac:(lia) ltac:(lia))
        as (final & new & Hrun & Hfin & Hcount).
      exists final, (linearToMulaw v :: new). split; [|split].
      * rewrite Hrun, <- app_assoc. reflexivity.
      * rewrite Hfin.
        replace (a + Z.of_nat (S n)) with (0 + Z.of_nat n + 1 * k) by lia.
        rewrite Z.mod_add by lia. reflexivity.
      * replace (a + Z.of_nat (S n)) with (0 + Z.of_nat n + 1 * k) by lia.
        rewrite Z.div_add by lia. rewrite <- Hcount.
        cbn [List.length]. lia.
    + assert (Hlt : (add64 accumulator 1 < r)%Q).
      { apply Qnot_le_lt. intros H. apply Qle_bool_iff in H. congruence. }
      rewrite Hr, H1, <- Zlt_Qlt in Hlt.
      destruct (IH (i + 1) (add64 accumulator 1) (a + 1) outputSamples H1
                  ltac:(lia) ltac:(lia) ltac:(lia) ltac:(lia))
        as (final & new & Hrun & Hfin & Hcount).
      exists final, new. split; [exact Hrun|]. split.
      * rewrite Hfin. replace (a + Z.of_nat (S n)) with (a + 1 + Z.of_nat n)
          by lia. reflexivity.
      * rewrite Hcount. f_equal. lia.
Qed.

(** One chunk at a whole multiple of 8 kHz. *)
Lemma pcmToMulaw_counts (factor : positive) (accumulator : Q) (a : Z)
  (chunk : Buffer) :
  Z.pos factor < 2 ^ 52 ->
  Z.of_nat (List.length chunk) < 2 ^ 52 ->
  (accumulator == inject_Z a)%Q ->
  0 <= a < Z.pos factor ->
  let samples := Z.of_nat (List.length chunk / 2) in
  exists final out,
    Doubles.pcmToMulaw (factor * 8000) accumulator chunk = Some (final, out)
    /\ (final == inject_Z ((a + samples) mod Z.pos factor))%Q
    /\ Z.of_nat (List.length (enqueuedBytes out))
       = (a + samples) / Z.pos factor.
Proof.
  intros Hk HL Hacc Ha samples.
  assert (Hs : Z.of_nat (List.length chunk) / 2 = samples).
  { unfold samples. rewrite Nat2Z.inj_div. reflexivity. }
  assert (Hs2 : samples * 2 <= Z.of_nat (List.length chunk)).
  { rewrite <- Hs. rewrite Z.mul_comm. apply Z.mul_div_le. lia. }
  unfold Doubles.pcmToMulaw. cbv zeta.
  rewrite pcmSamples_exact by lia. rewrite Hs.
  destruct (encodeLoop_counts (Doubles.downsampleRatioOf (factor * 8000))
              (Z.pos factor) chunk
              (downsampleRatio_integer factor ltac:(lia)) ltac:(lia)
              (Z.to_nat samples) 0 accumulator a [] Hacc Ha ltac:(lia)
              ltac:(unfold samples in *; lia) ltac:(unfold samples in *; lia))
    as (final & new & Hrun & Hfin & Hcount).
  rewrite Hrun. cbn [app].
  assert (Hn : Z.of_nat (Z.to_nat samples) = samples)
    by (unfold samples; lia).
  rewrite Hn in Hfin, Hcount.
  exists final. eexists. split; [reflexivity|]. split; [exact Hfin|].
  rewrite <- Hcount. destruct new; [reflexivity|].
  cbn [enqueuedBytes]. rewrite length_map. reflexivity.
Qed.

Lemma concat_samples (chunk : Buffer) (rest : list Buffer) :
  Nat.even (List.length chunk) = true ->
  Z.of_nat (List.length (List.concat (chunk :: rest)) / 2)
  = Z.of_nat (List.length chunk / 2)
    + Z.of_nat (List.length (List.concat rest) / 2).
Proof.
  intros He. apply Nat.even_spec in He. destruct He as [h Hh].
  cbn [List.concat]. rewrite length_app, Hh.
  rewrite (Nat.mul_comm 2 h), Nat.div_add_l, Nat.div_mul by lia. lia.
Qed.

Lemma pcmToMulawStream_counts (factor : positive) :
  Z.pos factor < 2 ^ 52 ->
  forall (chunks : list Buffer) (accumulator : Q) (a : Z),
    Forall (fun chunk => Nat.even (List.length chunk) = true) chunks ->
    Forall (fun chunk => Z.of_nat (List.length chunk) < 2 ^ 52) chunks ->
    (accumulator == inject_Z a)%Q ->
    0 <= a < Z.pos factor ->
    let m := Z.of_nat (List.length (List.concat chunks) / 2) in
    exists final bytes,
      Doubles.pcmToMulawStream (factor * 8000) accumulator chunks
      = Some (final, bytes)
      /\ (final == inject_Z ((a + m) mod Z.pos factor))%Q
      /\ Z.of_nat (List.length bytes) = (a + m) / Z.pos factor.
Proof.
  intros Hk. induction chunks as [|chunk rest IH];
    intros accumulator a Heven Hshort Hacc Ha; cbv zeta.
  - exists accumulator, []. cbn [Doubles.pcmToMulawStream List.concat
                                 List.length Nat.div Z.of_nat].
    change (Z.of_nat (0 / 2)) with 0.
    rewrite Z.add_0_r, Z.mod_small, Z.div_small by lia.
    split; [reflexivity|]. split; [exact Hacc | reflexivity].
  - inversion Heven as [|? ? He Hes]; subst.
    inversion Hshort as [|? ? Hs Hss]; subst.
    cbn [Doubles.pcmToMulawStream].
    destruct (pcmToMulaw_counts factor accumulator a chunk Hk Hs Hacc Ha)
      as (acc1 & out & Hrun & Hfin & Hcount).
    rewrite Hrun.
    set (n := Z.of_nat (List.length chunk / 2)) in *.
    assert (Hmod : 0 <= (a + n) mod Z.pos factor < Z.pos factor)
      by (apply Z.mod_pos_bound; lia).
    destruct (IH acc1 ((a + n) mod Z.pos factor) Hes Hss Hfin Hmod)
      as (final & bytes & Hrun' & Hfin' & Hcount').
    rewrite Hrun'. exists final, (enqueuedBytes out ++ bytes)%list.
    split; [reflexivity|].
    rewrite (concat_samples chunk rest He). fold n.
    set (m := Z.of_nat (List.length (List.concat rest) / 2)) in *.
    assert (Hdm : a + n = Z.pos factor * ((a + n) / Z.pos factor)
                          + (a + n) mod Z.pos factor)
      by (apply Z.div_mod; lia).
    set (q := (a + n) / Z.pos factor) in *.
    set (t := (a + n) mod Z.pos factor) in *.
    replace (a + (n + m)) with (t + m + q * Z.pos factor) by lia.
    rewrite Z.mod_add, Z.div_add by lia.
    split; [exact Hfin'|].
    rewrite length_app, Nat2Z.inj_add, Hcount, Hcount'. lia.
Qed.

(** X8. At a source rate that is a whole multiple of 8 kHz (8, 16, 24, 48
    kHz) the converter keeps the rate exactly, whatever the chunking: from
    a zero accumulator, a stream of chunks of whole samples with [m]
    samples in total puts out [floor(m / factor)] bytes and leaves the
    remainder in the accumulator.  The ratio and the accumulator are then
    whole numbers, on which the double arithmetic is exact. *)
Theorem pcm_to_mulaw_stream_byte_count (factor : positive)
  (chunks : list Buffer) :
  Z.pos factor * 8000 < 2 ^ 53 ->
  Forall (fun chunk => Nat.even (List.length chunk) = true) chunks ->
  Forall (fun chunk => Z.of_nat (List.length chunk) < 2 ^ 52) chunks ->
  let m := Z.of_nat (List.length (List.concat chunks) / 2) in
  exists final bytes,
    Doubles.pcmToMulawStream (factor * 8000) 0 chunks = Some (final, bytes)
    /\ Z.of_nat (List.length bytes) = m / Z.pos factor
    /\ (final == inject_Z (m mod Z.pos factor))%Q.
Proof.
  intros Hrate Heven Hshort m.
  destruct (pcmToMulawStream_counts factor ltac:(lia) chunks 0%Q 0 Heven
              Hshort ltac:(reflexivity) ltac:(lia))
    as (final & bytes & Hrun & Hfin & Hcount).
  exists final, bytes. fold m in Hfin, Hcount.
  rewrite Z.add_0_l in Hfin, Hcount.
  split; [exact Hrun|]. split; [exact Hcount | exact Hfin].
Qed.

(** The theorem at 24 kHz, three samples in two chunks. *)
Lemma pcm_to_mulaw_stream_count_witness :
  exists final bytes,
    Doubles.pcmToMulawStream (3 * 8000) 0 [[x01; x02; x03; x04]; [x05; x06]]
    = Some (final, bytes)
    /\ Z.of_nat (List.length bytes) = 1.
Proof.
  destruct (pcm_to_mulaw_stream_byte_count 3
              [[x01; x02; x03; x04]; [x05; x06]] eq_refl
              ltac:(repeat constructor) ltac:(repeat constructor))
    as (final & bytes & Hrun & Hcount & _).
  exists final, bytes. split; [exact Hrun | exact Hcount].
Defined.

End DoublesTelephonyFacts.

Section DoublesMulawToPcmFacts.
Import Mulaw Pcm Telephony Binary64 Doubles.

(** The ratio of [MulawToPcmTransform]: within one rounding of the exact
    quotient, and neither tiny nor huge. *)
Lemma upsampleRatio_bounds (T : positive) :
  Z.pos T < 2 ^ 53 ->
  let tau := (inject_Z (Z.pos T) / 8000)%Q in
  let r := Doubles.upsampleRatioOf T in
  (tau * (1 - eps) <= r)%Q /\ (r <= tau * (1 + eps))%Q
  /\ (pow2 (-13) <= r)%Q /\ (r <= inject_Z (2 ^ 52))%Q /\ (0 < tau)%Q.
Proof.
  intros HT tau r.
  assert (Htau : (pow2 (-13) <= tau)%Q).
  { change (pow2 (-13)) with (/ 8192)%Q. unfold tau.
    unfold Qle, Qdiv, Qmult, Qinv, inject_Z. cbn [Qnum Qden]. lia. }
  assert (Hn : (pow2 (-1022) <= tau)%Q).
  { apply Qle_trans with (pow2 (-13)); [apply pow2_le; lia | exact Htau]. }
  destruct (round64_err tau Hn) as [Hl Hu].
  pose proof (pow2_pos (-13)) as Hp.
  unfold r, Doubles.upsampleRatioOf, div64. fold tau.
  split; [exact Hl|]. split; [exact Hu|]. split; [|split].
  - rewrite <- (round64_pow2 (-13)) by lia. apply round64_mono. exact Htau.
  - apply round64_le_Z; [lia|]. unfold tau.
    unfold Qle, Qdiv, Qmult, Qinv, inject_Z. cbn [Qnum Qden]. lia.
  - lra.
Qed.

(** The chunk index computed for output sample [i] stays inside the
    chunk. *)
Lemma decodeIndex_below (r : Q) (L i : Z) :
  (pow2 (-13) <= r)%Q -> (r <= inject_Z (2 ^ 52))%Q ->
  0 <= L ->
  (3 * eps * (inject_Z L * r) < 1)%Q ->
  0 <= i ->
  (inject_Z (i + 1) <= mul64 (inject_Z L) r)%Q ->
  (0 <= div64 (inject_Z i) r)%Q /\ (div64 (inject_Z i) r < inject_Z L)%Q.
Proof.
  intros Hr Hr53 HL Hcond Hi Hcount.
  pose proof (pow2_pos (-13)) as Hp13.
  pose proof pow2_normal_lt_1 as Hp1.
  assert (Hr0 : (0 < r)%Q) by lra.
  assert (Heps : (0 < eps)%Q) by reflexivity.
  assert (Heps1 : (eps < 1)%Q) by reflexivity.
  assert (HL0 : (0 <= inject_Z L)%Q) by (rewrite <- (Zle_Qle 0); exact HL).
  assert (Hi0 : (0 <= inject_Z i)%Q) by (rewrite <- (Zle_Qle 0); exact Hi).
  assert (Hi1 : (inject_Z (i + 1) == inject_Z i + 1)%Q)
    by (rewrite inject_Z_plus; reflexivity).
  unfold mul64 in Hcount. unfold div64.
  set (X := (inject_Z L * r)%Q) in *.
  assert (HX0 : (0 <= X)%Q) by (apply Qmult_le_0_compat; lra).
  assert (HXn : (pow2 (-1022) <= X)%Q).
  { destruct (Qlt_le_dec X (pow2 (-1022))) as [Hlt | Hge]; [|exact Hge].
    exfalso.
    pose proof (round64_mono X (pow2 (-1022)) (Qlt_le_weak _ _ Hlt)) as Hm.
    rewrite (round64_pow2 (-1022)) in Hm by lia. lra. }
  destruct (round64_err X HXn) as [_ Herr].
  set (y := (inject_Z i / r)%Q).
  set (w := (1 / r)%Q).
  assert (Hy : (y * r == inject_Z i)%Q).
  { unfold y. field. intros H0. rewrite H0 in Hr0. lra. }
  assert (Hw : (w * r == 1)%Q).
  { unfold w. field. intros H0. rewrite H0 in Hr0. lra. }
  assert (Hw0 : (0 < w)%Q).
  { unfold w. apply Qlt_shift_div_l; [exact Hr0 | lra]. }
  assert (Hy0 : (0 <= y)%Q).
  { unfold y. apply Qle_shift_div_l; [exact Hr0 | lra]. }
  assert (Hsum : (y + w <= inject_Z L * (1 + eps))%Q).
  { apply (Qmult_le_r _ _ r Hr0).
    assert (E1 : ((y + w) * r == inject_Z i + 1)%Q)
      by (rewrite Qmult_plus_distr_l, Hy, Hw; reflexivity).
    assert (E2 : (inject_Z L * (1 + eps) * r == X * (1 + eps))%Q)
      by (unfold X; ring).
    lra. }
  assert (Hgap : (3 * eps * inject_Z L < w)%Q).
  { apply (Qmult_lt_r _ _ r Hr0).
    assert (E1 : (3 * eps * inject_Z L * r == 3 * eps * X)%Q)
      by (unfold X; ring).
    lra. }
  split; [apply round64_nonneg; exact Hy0|].
  destruct (Z.eq_dec i 0) as [-> | Hne].
  - assert (Hy00 : (y == 0)%Q).
    { unfold y. change (inject_Z 0) with 0%Q. field.
      intros H0. rewrite H0 in Hr0. lra. }
    rewrite (round64_0 y Hy00).
    assert (0 <= eps * inject_Z L)%Q by (apply Qmult_le_0_compat; lra).
    lra.
  - assert (Hi2 : (1 <= inject_Z i)%Q) by (rewrite <- (Zle_Qle 1); lia).
    assert (Hyw : (w <= y)%Q).
    { apply (Qmult_le_r _ _ r Hr0). lra. }
    assert (Hwn : (pow2 (-1022) <= w)%Q).
    { apply Qle_trans with (pow2 (-53)); [apply pow2_le; lia|].
      rewrite pow2_m53. unfold w, eps.
      apply Qle_shift_div_l; [exact Hr0|].
      change (inject_Z (2 ^ 52)) with (4503599627370496 # 1)%Q in Hr53.
      lra. }
    destruct (round64_err y ltac:(lra)) as [_ Herry].
    assert (He1 : (0 <= inject_Z L * eps)%Q)
      by (apply Qmult_le_0_compat; lra).
    assert (He2 : (inject_Z L * eps * eps <= inject_Z L * eps)%Q).
    { assert (H1 : (0 <= inject_Z L * eps * (1 - eps))%Q)
        by (apply Qmult_le_0_compat; lra).
      assert (H2 : (inject_Z L * eps * (1 - eps)
                    == inject_Z L * eps - inject_Z L * eps * eps)%Q) by ring.
      lra. }
    assert (He3 : (0 <= w * eps)%Q) by (apply Qmult_le_0_compat; lra).
    assert (Hye : (y * eps <= (inject_Z L * (1 + eps) - w) * eps)%Q)
      by (apply Qmult_le_compat_r; lra).
    assert (Hexp : ((inject_Z L * (1 + eps) - w) * eps
                    == inject_Z L * eps + inject_Z L * eps * eps - w * eps)%Q)
      by ring.
    assert (Hyy : (y * (1 + eps) == y + y * eps)%Q) by ring.
    assert (Hs : (inject_Z L * (1 + eps) == inject_Z L + inject_Z L * eps)%Q)
      by ring.
    assert (Hg : (3 * eps * inject_Z L == 3 * (inject_Z L * eps))%Q) by ring.
    lra.
Qed.

Lemma decodeLoop_fills64 (ratio : Q) (chunk : Buffer) (val : Z -> Z) :
  forall (n : nat) (i : Z) (output : Buffer),
    0 <= i ->
    i + Z.of_nat n < 2 ^ 52 ->
    (i + Z.of_nat n) * 2 <= Z.of_nat (List.length output) ->
    (forall j, i <= j < i + Z.of_nat n ->
       0 <= Qfloor (div64 (inject_Z j) ratio)
       /\ exists b,
            nth_error chunk (Z.to_nat (Qfloor (div64 (inject_Z j) ratio)))
            = Some b
            /\ tableEntry (byteToZ b) = val j
            /\ -32768 <= val j <= 32767) ->
    exists out,
      Doubles.decodeLoop ratio chunk n i output = Some out
      /\ List.length out = List.length output
      /\ (forall j, i <= j < i + Z.of_nat n -> sampleAt out j = Some (val j))
      /\ (forall j, 0 <= j < i -> sampleAt out j = sampleAt output j).
Proof.
  induction n as [|n IH]; intros i output Hi Hbig Hlen Hval.
  - exists output. cbn [Doubles.decodeLoop]. repeat split; intros; try lia.
  - cbn [Doubles.decodeLoop]. cbv zeta.
    destruct (Hval i ltac:(lia)) as (Hnn & b & Hb & Hv & Hrange).
    destruct (Z.ltb_spec (Qfloor (div64 (inject_Z i) ratio)) 0); [lia|].
    rewrite Hb, Hv. rewrite (mul2_floor i) by lia.
    destruct (writeInt16LE_succeeds output (val i) (i * 2) Hrange
                ltac:(lia) ltac:(lia)) as [output' Hw].
    rewrite Hw.
    pose proof (writeInt16LE_length _ _ _ _ Hw) as Hl'.
    destruct (IH (i + 1) output' ltac:(lia) ltac:(lia) ltac:(lia))
      as (out & Hrun & Hl & Hnew & Hold).
    { intros j Hj. apply Hval. lia. }
    exists out. repeat split.
    + exact Hrun.
    + congruence.
    + intros j Hj. destruct (Z.eq_dec j i) as [-> | Hne].
      * rewrite Hold by lia. unfold sampleAt. apply (read_written _ _ _ _ Hw).
      * apply Hnew. lia.
    + intros j Hj. rewrite Hold by lia. unfold sampleAt.
      apply (read_below_written _ _ _ _ _ Hw); lia.
Qed.


(** The product of the chunk length and the ratio, against the exact
    quotient. *)
Lemma upsampled_product (T : positive) (L : Z) :
  Z.pos T < 2 ^ 53 -> 0 <= L ->
  let x := (inject_Z (L * Z.pos T) / 8000)%Q in
  let X := (inject_Z L * Doubles.upsampleRatioOf T)%Q in
  (x * (1 - eps) <= X)%Q /\ (X <= x * (1 + eps))%Q /\ (0 <= x)%Q
  /\ (0 <= X)%Q
  /\ (0 < L -> (pow2 (-13) <= X)%Q).
Proof.
  intros HT HL x X.
  destruct (upsampleRatio_bounds T HT) as (Hl & Hu & Hr13 & _ & Htau).
  set (tau := (inject_Z (Z.pos T) / 8000)%Q) in *.
  set (r := Doubles.upsampleRatioOf T) in *.
  assert (HL0 : (0 <= inject_Z L)%Q) by (rewrite <- (Zle_Qle 0); exact HL).
  assert (Hx : (x == inject_Z L * tau)%Q).
  { unfold x, tau. rewrite inject_Z_mult. field. }
  assert (H1 : (inject_Z L * (tau * (1 - eps)) <= X)%Q).
  { unfold X. rewrite !(Qmult_comm (inject_Z L)).
    apply Qmult_le_compat_r; assumption. }
  assert (H2 : (X <= inject_Z L * (tau * (1 + eps)))%Q).
  { unfold X. rewrite !(Qmult_comm (inject_Z L)).
    apply Qmult_le_compat_r; assumption. }
  assert (E1 : (inject_Z L * (tau * (1 - eps)) == x * (1 - eps))%Q)
    by (rewrite Hx; ring).
  assert (E2 : (inject_Z L * (tau * (1 + eps)) == x * (1 + eps))%Q)
    by (rewrite Hx; ring).
  assert (Hx0 : (0 <= x)%Q)
    by (rewrite Hx; apply Qmult_le_0_compat; lra).
  pose proof (pow2_pos (-13)) as Hp13.
  split; [lra|]. split; [lra|]. split; [exact Hx0|].
  split; [unfold X; apply Qmult_le_0_compat; lra|].
  intros Hpos.
  assert (Hone : (1 <= inject_Z L)%Q) by (rewrite <- (Zle_Qle 1); lia).
  pose proof (pow2_pos (-13)) as Hp.
  assert (H3 : (0 <= (inject_Z L - 1) * r)%Q)
    by (apply Qmult_le_0_compat; lra).
  assert (E3 : ((inject_Z L - 1) * r == X - r)%Q) by (unfold X; ring).
  lra.
Qed.

Lemma decodedSamples_near_exact (T : positive) (chunk : Buffer) :
  let L := Z.of_nat (List.length chunk) in
  Z.pos T < 2 ^ 53 ->
  3 * (L * Z.pos T) < 2 ^ 53 ->
  (L * Z.pos T) / 8000 - 1 <= decodedSamplesOf T chunk
  /\ decodedSamplesOf T chunk <= (L * Z.pos T) / 8000.
Proof.
  intros L HT Hsize.
  assert (HL : 0 <= L) by (unfold L; lia).
  set (E := (L * Z.pos T) / 8000).
  assert (HE : E * 8000 <= L * Z.pos T /\ L * Z.pos T < (E + 1) * 8000).
  { unfold E. pose proof (Z.mul_div_le (L * Z.pos T) 8000 ltac:(lia)).
    pose proof (Z.mul_succ_div_gt (L * Z.pos T) 8000 ltac:(lia)). lia. }
  assert (HE0 : 0 <= E) by (unfold E; apply Z.div_pos; lia).
  destruct (upsampled_product T L HT HL) as (Hxl & Hxu & Hx0 & HX0 & Hnorm).
  set (x := (inject_Z (L * Z.pos T) / 8000)%Q) in *.
  unfold decodedSamplesOf, mul64. fold L.
  set (X := (inject_Z L * Doubles.upsampleRatioOf T)%Q) in *.
  set (v := round64 X).
  assert (Heps : (0 < eps)%Q) by reflexivity.
  assert (Heps1 : (eps < 1)%Q) by reflexivity.
  assert (HxE : (inject_Z E <= x)%Q).
  { unfold x. apply Qle_shift_div_l; [reflexivity|].
    change 8000%Q with (inject_Z 8000).
    rewrite <- inject_Z_mult, <- Zle_Qle. lia. }
  assert (HxE1 : (x + (1 # 8000) <= inject_Z (E + 1))%Q).
  { assert (Hs : (x + (1 # 8000) == inject_Z (L * Z.pos T + 1) / 8000)%Q).
    { unfold x. rewrite (inject_Z_plus (L * Z.pos T) 1).
      change (inject_Z 1) with 1%Q. field. }
    rewrite Hs. apply Qle_shift_div_r; [reflexivity|].
    change 8000%Q with (inject_Z 8000).
    rewrite <- inject_Z_mult, <- Zle_Qle. lia. }
  assert (Hxs : (3 * eps * x < 1 # 8000)%Q).
  { assert (H1 : (x * 8000 == inject_Z (L * Z.pos T))%Q)
      by (unfold x; field).
    assert (H2 : (inject_Z (3 * (L * Z.pos T)) < inject_Z (2 ^ 53))%Q)
      by (rewrite <- Zlt_Qlt; lia).
    rewrite inject_Z_mult in H2.
    change (inject_Z 3) with 3%Q in H2.
    change (inject_Z (2 ^ 53)) with (9007199254740992 # 1)%Q in H2.
    unfold eps. lra. }
  assert (HE1 : (inject_Z (E + 1) == inject_Z E + 1)%Q)
    by (rewrite inject_Z_plus; reflexivity).
  assert (HEm : (inject_Z (E - 1) == inject_Z E - 1)%Q).
  { unfold Z.sub. rewrite inject_Z_plus. reflexivity. }
  assert (Hv0 : (0 <= v)%Q) by (apply round64_nonneg; exact HX0).
  destruct (Z.eq_dec L 0) as [HL0 | HLne].
  - assert (HX : (X == 0)%Q).
    { unfold X. rewrite HL0. change (inject_Z 0) with 0%Q. ring. }
    assert (Hv : (v == 0)%Q) by (apply round64_0; exact HX).
    rewrite (Qfloor_comp _ _ Hv). change (Qfloor 0) with 0.
    assert (HE' : E = 0) by (unfold E; rewrite HL0; reflexivity).
    lia.
  - assert (HXn : (pow2 (-1022) <= X)%Q).
    { apply Qle_trans with (pow2 (-13)); [apply pow2_le; lia|].
      apply Hnorm. lia. }
    destruct (round64_err X HXn) as [Hvl Hvu]. fold v in Hvl, Hvu.
    assert (Hxe : (0 <= x * eps)%Q) by (apply Qmult_le_0_compat; lra).
    assert (Hxee : (x * eps * eps <= x * eps)%Q).
    { assert (H1 : (0 <= x * eps * (1 - eps))%Q)
        by (apply Qmult_le_0_compat; lra).
      assert (H2 : (x * eps * (1 - eps) == x * eps - x * eps * eps)%Q)
        by ring.
      lra. }
    assert (Hg : (3 * eps * x == 3 * (x * eps))%Q) by ring.
    assert (Hup : (v < inject_Z (E + 1))%Q).
    { assert (H1 : (X * eps <= x * (1 + eps) * eps)%Q)
        by (apply Qmult_le_compat_r; lra).
      assert (H2 : (x * (1 + eps) * eps == x * eps + x * eps * eps)%Q)
        by ring.
      assert (H3 : (X * (1 + eps) == X + X * eps)%Q) by ring.
      assert (H4 : (x * (1 + eps) == x + x * eps)%Q) by ring.
      lra. }
    assert (Hlow : (inject_Z (E - 1) <= v)%Q).
    { assert (H1 : (X * eps <= x * (1 + eps) * eps)%Q)
        by (apply Qmult_le_compat_r; lra).
      assert (H2 : (x * (1 + eps) * eps == x * eps + x * eps * eps)%Q)
        by ring.
      assert (H3 : (X * (1 - eps) == X - X * eps)%Q) by ring.
      assert (H4 : (x * (1 - eps) == x - x * eps)%Q) by ring.
      assert (H5 : (3 * (x * eps) < 1)%Q) by lra.
      lra. }
    split.
    + pose proof (Qfloor_resp_le _ _ Hlow) as H. rewrite Qfloor_Z in H.
      exact H.
    + pose proof (Qfloor_below v (E + 1) Hup). lia.
Qed.

(** X5. [MulawToPcmTransform] in the arithmetic of the program: for a
    target rate below [2 ^ 53] and a chunk whose output has at most
    [2 ^ 50] samples it never reads outside its chunk and never throws.
    It enqueues a buffer of [2 * outputSamples] bytes, where
    [outputSamples = Math.floor(n * ratio)] is computed in double
    precision: when [3 * n * rate < 2 ^ 53] it is the exact
    [floor(n * rate / 8000)] or one less.  Output sample [i] is the table
    entry of the chunk byte at [Math.floor(i / ratio)], so input bytes are
    repeated without interpolation, and no output sample exceeds 8031 in
    magnitude, a quarter of the sixteen-bit range. *)
Theorem mulaw_to_pcm_total (targetSampleRate : positive) (chunk : Buffer) :
  Z.pos targetSampleRate < 2 ^ 53 ->
  Z.of_nat (List.length chunk) * Z.pos targetSampleRate <= 2 ^ 50 * 8000 ->
  let L := Z.of_nat (List.length chunk) in
  let T := Z.pos targetSampleRate in
  let n := decodedSamplesOf targetSampleRate chunk in
  exists output,
    Doubles.mulawToPcm targetSampleRate chunk = Some output
    /\ Z.of_nat (List.length output) = 2 * n
    /\ (3 * (L * T) < 2 ^ 53 -> (L * T) / 8000 - 1 <= n <= (L * T) / 8000)
    /\ forall i,
         0 <= i < n ->
         let srcIndex :=
           Qfloor (div64 (inject_Z i)
                     (Doubles.upsampleRatioOf targetSampleRate)) in
         0 <= srcIndex < L
         /\ exists mulawByte,
              nth_error chunk (Z.to_nat srcIndex) = Some mulawByte
              /\ sampleAt output i
                 = Some (MULAW_TO_LINEAR (byteToZ mulawByte))
              /\ -8031 <= MULAW_TO_LINEAR (byteToZ mulawByte) <= 8031.
Proof.
  intros HT Hout L T n. fold L in Hout.
  assert (HL : 0 <= L) by (unfold L; lia).
  destruct (upsampleRatio_bounds targetSampleRate HT)
    as (_ & _ & Hr13 & Hr52 & _).
  destruct (upsampled_product targetSampleRate L HT HL)
    as (_ & Hxu & Hx0 & HX0 & _).
  set (r := Doubles.upsampleRatioOf targetSampleRate) in *.
  set (x := (inject_Z (L * Z.pos targetSampleRate) / 8000)%Q) in *.
  set (X := (inject_Z L * r)%Q) in *.
  assert (Hx50 : (x <= 1125899906842624 # 1)%Q).
  { unfold x. apply Qle_shift_div_r; [reflexivity|].
    change ((1125899906842624 # 1) * 8000)%Q with (inject_Z (2 ^ 50 * 8000)).
    rewrite <- Zle_Qle. exact Hout. }
  assert (HX : (X <= x * (1 + eps))%Q) by exact Hxu.
  assert (Hcond : (3 * eps * X < 1)%Q) by (unfold eps in *; lra).
  assert (Hn0 : 0 <= n).
  { unfold n, decodedSamplesOf, mul64. fold L r X.
    apply Qfloor_nonneg, round64_nonneg. exact HX0. }
  assert (Hn51 : n <= 2 ^ 51).
  { unfold n, decodedSamplesOf, mul64. fold L r X.
    assert (HX51 : (X <= inject_Z (2 ^ 51))%Q).
    { change (inject_Z (2 ^ 51)) with (2251799813685248 # 1)%Q.
      unfold eps in *. lra. }
    pose proof (round64_le_Z X (2 ^ 51) ltac:(lia) HX51) as Hm.
    pose proof (Qfloor_resp_le _ _ Hm) as Hf. rewrite Qfloor_Z in Hf.
    exact Hf. }
  assert (Hidx : forall i, 0 <= i < n ->
            0 <= Qfloor (div64 (inject_Z i) r) < L).
  { intros i Hi.
    destruct (decodeIndex_below r L i Hr13 Hr52 HL Hcond ltac:(lia))
      as [H0 H1].
    { apply below_count. unfold n, decodedSamplesOf in Hi. fold L r in Hi.
      lia. }
    split; [apply Qfloor_nonneg; exact H0 | apply Qfloor_below; exact H1]. }
  assert (Hbyte : forall i, 0 <= i < n ->
            exists b, nth_error chunk
                        (Z.to_nat (Qfloor (div64 (inject_Z i) r))) = Some b).
  { intros i Hi. destruct (Hidx i Hi) as [H0 H1].
    destruct (nth_error chunk (Z.to_nat (Qfloor (div64 (inject_Z i) r))))
      as [b|] eqn:E; [eexists; reflexivity|].
    apply nth_error_None in E. unfold L in H1. lia. }
  set (val := fun i =>
         match nth_error chunk (Z.to_nat (Qfloor (div64 (inject_Z i) r))) with
         | Some b => MULAW_TO_LINEAR (byteToZ b)
         | None => 0
         end).
  destruct (decodeLoop_fills64 r chunk val (Z.to_nat n) 0
              (repeat x00 (Z.to_nat (n * 2))) ltac:(lia) ltac:(lia))
    as (out & Hrun & Hl & Hnew & _).
  { rewrite repeat_length. lia. }
  { intros j Hj. destruct (Hidx j ltac:(lia)) as [H0 _].
    split; [exact H0|].
    destruct (Hbyte j ltac:(lia)) as [b Hb]. exists b.
    pose proof (byteToZ_range b) as Hr.
    destruct (table_entry_range (byteToZ b) ltac:(lia)) as [He Hrange].
    unfold val. rewrite Hb. rewrite <- He.
    repeat split; try assumption; try reflexivity; lia. }
  exists out. split; [|split; [|split]].
  - unfold Doubles.mulawToPcm. cbv zeta. fold r.
    change (Qfloor (mul64 (inject_Z (Z.of_nat (List.length chunk))) r))
      with n.
    unfold alloc. rewrite (mul2_floor n) by lia. exact Hrun.
  - rewrite Hl, repeat_length. lia.
  - intros Hsmall.
    pose proof (decodedSamples_near_exact targetSampleRate chunk HT Hsmall).
    unfold n, L, T. lia.
  - intros i Hi. cbv zeta. fold r.
    split; [apply Hidx; exact Hi|].
    destruct (Hbyte i Hi) as [b Hb]. exists b.
    split; [exact Hb|]. split.
    + rewrite Hnew by lia. unfold val. rewrite Hb. reflexivity.
    + pose proof (byteToZ_range b) as Hr.
      destruct (table_entry_range (byteToZ b) ltac:(lia)) as [He Hrange].
      rewrite <- He. exact Hrange.
Qed.

(** The theorem at three bytes decoded for 12 kHz. *)
Lemma mulaw_to_pcm_witness :
  exists output,
    Doubles.mulawToPcm 12000 [xff; x00; x80] = Some output
    /\ Z.of_nat (List.length output) = 8.
Proof.
  destruct (mulaw_to_pcm_total 12000 [xff; x00; x80] eq_refl
              ltac:(vm_compute; discriminate))
    as (output & Hrun & Hlen & _).
  exists output. split; [exact Hrun | exact Hlen].
Defined.

End DoublesMulawToPcmFacts.

(** ** Decoding and encoding again *)

Section LoopBackFacts.
Import Mulaw Pcm Telephony Decimation LoopBack.

Lemma nth_error_doubled {A B : Type} (f : A -> B) :
  forall (l : list A) (i : nat),
    nth_error (flat_map (fun b => [f b; f b]) l) i
    = option_map f (nth_error l (i / 2)).
Proof.
  induction l as [|a l IH]; intros i.
  - cbn [flat_map]. rewrite !nth_error_nil. reflexivity.
  - destruct i as [|[|i]]; [reflexivity | reflexivity |].
    rewrite half_succ_succ. cbn [flat_map app nth_error]. apply IH.
Qed.

Lemma everySecond_doubled {A : Type} (f : A -> Z) (l : list A) :
  everySecond (flat_map (fun b => [f b; f b]) l) = map f l.
Proof.
  induction l as [|a l IH]; [reflexivity|].
  cbn [flat_map app everySecond map]. rewrite IH. reflexivity.
Qed.

(** At 16 kHz every byte of the chunk becomes two equal samples. *)
Lemma mulawToPcm_16k_doubles (chunk : Buffer) :
  exists pcm,
    mulawToPcm 16000 chunk = Some pcm
    /\ samplesOf pcm
       = flat_map (fun b => [MULAW_TO_LINEAR (byteToZ b);
                             MULAW_TO_LINEAR (byteToZ b)]) chunk.
Proof.
  destruct (mulawToPcm_samples 16000 chunk) as (pcm & Hrun & Hlen & Hs).
  cbv zeta in Hlen, Hs.
  set (n := Z.of_nat (List.length chunk)) in *.
  assert (Hcount : (n * 16000) / 8000 = 2 * n).
  { replace (n * 16000) with ((2 * n) * 8000) by lia.
    apply Z.div_mul. lia. }
  rewrite Hcount in Hlen, Hs.
  exists pcm. split; [exact Hrun|].
  apply nth_error_ext. intros k.
  rewrite (nth_error_doubled (fun b => MULAW_TO_LINEAR (byteToZ b))).
  assert (Hk : Z.to_nat ((Z.of_nat k * 8000) / 16000) = (k / 2)%nat).
  { replace 16000 with (2 * 8000) by reflexivity.
    rewrite Z.div_mul_cancel_r by lia.
    rewrite <- (Nat2Z.id (k / 2)). f_equal.
    rewrite Nat2Z.inj_div. reflexivity. }
  destruct (Z.lt_ge_cases (Z.of_nat k) (2 * n)) as [Hin | Hout].
  - destruct (Hs (Z.of_nat k) ltac:(lia)) as (b & Hb & Hv).
    rewrite Hk in Hb. rewrite Hb. cbn [option_map].
    rewrite <- sampleAt_samplesOf by lia. exact Hv.
  - assert (H1 : nth_error (samplesOf pcm) k = None).
    { apply nth_error_None. rewrite samplesOf_length.
      apply Nat.Div0.div_le_upper_bound. lia. }
    assert (H2 : nth_error chunk (k / 2) = None).
    { apply nth_error_None. apply Nat.div_le_lower_bound; lia. }
    rewrite H1, H2. reflexivity.
Qed.

Lemma all_loop_back_facts : forallb loopBackFacts allCodes = true.
Proof. vm_compute. reflexivity. Qed.

(** X11. Telephone audio decoded by [MulawToPcmTransform] at 16 kHz and
    encoded again by [PcmToMulawTransform] at 16 kHz comes back with one
    byte per input byte, each the code of the table entry of that byte:
    neither transform throws, and the two rate conversions cancel. *)
Theorem loop_back_is_bytewise (chunk : Buffer) :
  exists pcm final out,
    mulawToPcm 16000 chunk = Some pcm
    /\ pcmToMulaw 16000 0 pcm = Some (final, out)
    /\ enqueuedBytes out
       = map (fun b => byteOfZ (loopBackCode (byteToZ b))) chunk.
Proof.
  destruct (mulawToPcm_16k_doubles chunk) as (pcm & Hdec & Hsamples).
  destruct (pcmToMulaw_view 16000 0 pcm) as (out & Hrun & Hout).
  assert (Hr : (downsampleRatioOf 16000 == 2)%Q) by reflexivity.
  destruct (decimate_half _ Hr (samplesOf pcm) 0%Q) as [H0 _].
  destruct H0 as [Hs _]; [reflexivity|].
  exists pcm. do 2 eexists. split; [exact Hdec|]. split; [exact Hrun|].
  rewrite Hout, Hs, Hsamples.
  rewrite (everySecond_doubled (fun b => MULAW_TO_LINEAR (byteToZ b))).
  unfold encoded. rewrite map_map. reflexivity.
Qed.

(** X12. The loop through the decode table and the encoder is not the
    identity on codes: the table holds a quarter of the sixteen-bit
    amplitude, so every code but the silence code [0xff] comes back as a
    different code, and never as a louder one. *)
Theorem loop_back_changes_every_code_but_silence (code : Z) :
  0 <= code <= 255 ->
  (loopBackCode code = code <-> code = 0xff)
  /\ Z.abs (g711Expand (loopBackCode code)) <= Z.abs (g711Expand code).
Proof.
  intros H.
  assert (Hin : In code allCodes).
  { unfold allCodes. apply in_zrange. lia. }
  pose proof (proj1 (forallb_forall _ _) all_loop_back_facts code Hin) as Hb.
  unfold loopBackFacts in Hb.
  apply andb_prop in Hb. destruct Hb as [Hb Hle].
  apply andb_prop in Hb. destruct Hb as [Hfwd Hbwd].
  apply Z.leb_le in Hle. split; [|exact Hle].
  split; intros E.
  - destruct (Z.eqb_spec (loopBackCode code) code) as [_ | Hne];
      [|contradiction].
    cbn [negb orb] in Hbwd. apply Z.eqb_eq in Hbwd. exact Hbwd.
  - subst code. reflexivity.
Qed.

Lemma loop_back_changes_witness :
  (loopBackCode 0x80 = 0x80 <-> 0x80 = 0xff)
  /\ Z.abs (g711Expand (loopBackCode 0x80)) <= Z.abs (g711Expand 0x80).
Proof.
  apply (loop_back_changes_every_code_but_silence 0x80). lia.
Defined.

End LoopBackFacts.

(** ** Resampling beyond downsampling *)

Section ResampleMoreFacts.
Import Pcm.

Lemma round_between (a b : Z) (x : Q) :
  (inject_Z a <= x)%Q -> (x <= inject_Z b)%Q -> a <= Math_round x <= b.
Proof.
  intros Ha Hb. unfold Math_round. split.
  - rewrite <- (Qfloor_Z a). apply Qfloor_resp_le. lra.
  - assert (H1 : Qfloor (x + (1 # 2)) <= Qfloor (inject_Z b + (1 # 2)))
      by (apply Qfloor_resp_le; lra).
    assert (H2 : Qfloor (inject_Z b + (1 # 2)) = b).
    { rewrite (Qfloor_comp _ ((2 * b + 1) # 2)) by qarith.
      unfold Qfloor. symmetry.
      apply Z.div_unique_pos with (r := 1); lia. }
    lia.
Qed.

Lemma fraction_range (x : Q) :
  (0 <= x - inject_Z (Qfloor x))%Q /\ (x - inject_Z (Qfloor x) < 1)%Q.
Proof.
  pose proof (Qfloor_le x) as H1. pose proof (Qlt_floor x) as H2.
  rewrite inject_Z_plus in H2. change (inject_Z 1) with 1%Q in H2.
  split; lra.
Qed.

Lemma readInt16LE_beyond (buf : Buffer) (o : Z) :
  Z.of_nat (List.length buf) < o + 2 -> readInt16LE buf (inject_Z o) = None.
Proof.
  intros H. unfold readInt16LE. rewrite isInteger_inject, Qfloor_Z.
  destruct (Z.leb_spec (o + 2) (Z.of_nat (List.length buf))); [lia|].
  rewrite andb_false_r. reflexivity.
Qed.

(** One iteration whose floor index lies inside the input reads two samples
    and interpolates them. *)
Lemma interpolateAt_in_bounds (input : Buffer) (F T : positive) (j : Z) :
  let L := Z.of_nat (List.length input) in
  let f := (j * Z.pos F) / Z.pos T in
  0 <= f -> 2 * f + 2 <= L ->
  exists sample1 sample2,
    readInt16LE input (inject_Z (2 * f)) = Some sample1
    /\ readInt16LE input (inject_Z (Z.min (2 * f + 2) (L - 2))) = Some sample2
    /\ -32768 <= sample1 <= 32767
    /\ -32768 <= sample2 <= 32767
    /\ interpolateAt input (ratioOf F T) (inputSamplesOf input) j
       = Some (interpolated F T j sample1 sample2).
Proof.
  cbv zeta. set (L := Z.of_nat (List.length input)).
  set (f := (j * Z.pos F) / Z.pos T). intros Hf0 Hf2.
  destruct (readInt16LE_in_bounds input (2 * f) ltac:(lia) ltac:(lia))
    as (s1 & Hr1 & Hs1).
  destruct (readInt16LE_in_bounds input (Z.min (2 * f + 2) (L - 2))
              ltac:(lia) ltac:(lia)) as (s2 & Hr2 & Hs2).
  exists s1, s2. repeat split; try assumption; try lia.
  unfold interpolateAt. cbv zeta. rewrite srcIndex_floor. fold f.
  rewrite (readInt16LE_Qeq _ _ _ (floor_offset f)), Hr1.
  unfold inputSamplesOf. fold L.
  rewrite (readInt16LE_Qeq _ _ _ (ceil_offset f L)), Hr2.
  unfold interpolated. cbv zeta. rewrite srcIndex_floor. fold f. reflexivity.
Qed.

(** [resamplePCM] between different rates succeeds when every iteration
    does, and then holds the interpolated values. *)
Lemma resamplePCM_fills (input : Buffer) (F T : positive) (val : Z -> Z) :
  F <> T ->
  (forall j, 0 <= j < outputSamplesOf input F T ->
     interpolateAt input (ratioOf F T) (inputSamplesOf input) j
     = Some (val j)
     /\ -32768 <= val j <= 32767) ->
  exists output,
    resamplePCM input F T = Some output
    /\ Z.of_nat (List.length output) = 2 * outputSamplesOf input F T
    /\ forall j, 0 <= j < outputSamplesOf input F T ->
         sampleAt output j = Some (val j).
Proof.
  intros Hne Hval.
  set (n := outputSamplesOf input F T) in *.
  assert (Hn0 : 0 <= n).
  { unfold n. rewrite outputSamples_formula. apply Z.div_pos; lia. }
  destruct (resampleLoop_fills input (ratioOf F T) (inputSamplesOf input) val
              (Z.to_nat n) 0 (repeat x00 (Z.to_nat (n * 2))) ltac:(lia))
    as (out & Hrun & Hl & Hnew & _).
  { rewrite repeat_length. lia. }
  { intros j Hj. apply Hval. lia. }
  exists out. repeat split.
  - unfold resamplePCM.
    destruct (Pos.eqb_spec F T) as [E | _]; [contradiction|]. exact Hrun.
  - rewrite Hl, repeat_length. lia.
  - intros j Hj. apply Hnew. lia.
Qed.

Lemma resampleLoop_fails (input : Buffer) (ratio inS : Q) :
  forall (n : nat) (i : Z) (output : Buffer) (j : Z),
    i <= j < i + Z.of_nat n ->
    interpolateAt input ratio inS j = None ->
    resampleLoop input ratio inS n i output = None.
Proof.
  induction n as [|n IH]; intros i output j Hj Hnone; [lia|].
  cbn [resampleLoop].
  destruct (interpolateAt input ratio inS i) as [v|] eqn:Ei; [|reflexivity].
  destruct (writeInt16LE output v (i * 2)) as [output'|]; [|reflexivity].
  destruct (Z.eq_dec j i) as [-> | Hne]; [congruence|].
  apply (IH (i + 1) output' j); [lia | exact Hnone].
Qed.

Lemma whole_samples (input : Buffer) :
  Nat.even (List.length input) = true ->
  Z.of_nat (List.length input) = 2 * Z.of_nat (List.length input / 2).
Proof.
  intros He. apply Nat.even_spec in He. destruct He as [h Hh].
  rewrite Hh. rewrite (Nat.mul_comm 2 h), Nat.div_mul by lia. lia.
Qed.

Lemma integer_ratio (k T : positive) :
  (ratioOf (k * T) T == inject_Z (Z.pos k))%Q.
Proof. unfold ratioOf. qarith. Qed.

(** With a whole-number ratio the source index is an integer, the fraction
    is zero and the interpolation returns the first sample. *)
Lemma interpolated_integer_ratio (k T : positive) (j s1 s2 : Z) :
  -32768 <= s1 <= 32767 -> interpolated (k * T) T j s1 s2 = s1.
Proof.
  intros Hs. unfold interpolated. cbv zeta.
  assert (Hx : (inject_Z j * ratioOf (k * T) T == inject_Z (j * Z.pos k))%Q).
  { rewrite integer_ratio, inject_Z_mult. reflexivity. }
  rewrite (Qfloor_comp _ _ Hx), Qfloor_Z.
  assert (Hr : s1 <= Math_round
                      (inject_Z s1
                       + (inject_Z s2 - inject_Z s1)
                         * (inject_Z j * ratioOf (k * T) T
                            - inject_Z (j * Z.pos k)))%Q <= s1).
  { apply round_between; rewrite Hx; lra. }
  lia.
Qed.

(** X14. Resampling down by a whole-number factor [k] (48 kHz to 16 kHz in
    the Hume adapter: [k = 3]) is plain decimation: it never throws, the
    output holds [floor(bytes / (2 * k))] samples, and output sample [i] is
    input sample [i * k] unchanged; the samples in between are dropped
    without any averaging. *)
Theorem resample_integer_ratio_decimates
  (input : Buffer) (k toRate : positive) :
  (1 < k)%positive ->
  let count := Z.of_nat (List.length input) / (2 * Z.pos k) in
  exists output,
    resamplePCM input (k * toRate) toRate = Some output
    /\ Z.of_nat (List.length output) = 2 * count
    /\ forall i,
         0 <= i < count ->
         exists sample,
           sampleAt input (i * Z.pos k) = Some sample
           /\ sampleAt output i = Some sample.
Proof.
  intros Hk. cbv zeta.
  set (L := Z.of_nat (List.length input)).
  assert (Hlt : (toRate < k * toRate)%positive) by nia.
  assert (Hcount : outputSamplesOf input (k * toRate) toRate
                   = L / (2 * Z.pos k)).
  { rewrite outputSamples_formula. fold L.
    rewrite Pos2Z.inj_mul.
    replace (2 * (Z.pos k * Z.pos toRate))
      with ((2 * Z.pos k) * Z.pos toRate) by lia.
    apply Z.div_mul_cancel_r; lia. }
  assert (Hfloor : forall i, (i * Z.pos (k * toRate)) / Z.pos toRate
                             = i * Z.pos k).
  { intros i. rewrite Pos2Z.inj_mul, Z.mul_assoc. apply Z.div_mul. lia. }
  assert (Hiter : forall i, 0 <= i < L / (2 * Z.pos k) ->
            exists s,
              sampleAt input (i * Z.pos k) = Some s
              /\ -32768 <= s <= 32767
              /\ interpolateAt input (ratioOf (k * toRate) toRate)
                   (inputSamplesOf input) i = Some s).
  { intros i Hi.
    destruct (source_indices_in_bounds L (Z.pos (k * toRate)) (Z.pos toRate) i
                ltac:(lia)) as [Hf0 Hf2].
    { rewrite <- Hcount, outputSamples_formula in Hi. exact Hi. }
    destruct (interpolateAt_in_bounds input (k * toRate) toRate i)
      as (s1 & s2 & H1 & _ & Hs1 & _ & Hint).
    { exact Hf0. }
    { fold L. lia. }
    rewrite Hfloor in H1.
    exists s1. split; [|split; [exact Hs1|]].
    - unfold sampleAt. rewrite <- H1. f_equal. f_equal. lia.
    - rewrite Hint. f_equal. apply interpolated_integer_ratio. exact Hs1. }
  set (val := fun j =>
    match interpolateAt input (ratioOf (k * toRate) toRate)
            (inputSamplesOf input) j
    with Some v => v | None => 0 end).
  destruct (resamplePCM_fills input (k * toRate) toRate val ltac:(lia))
    as (out & Hrun & Hlen & Hnew).
  { intros j Hj. rewrite Hcount in Hj.
    destruct (Hiter j Hj) as (s & _ & Hs & Hint).
    unfold val. rewrite Hint. split; [reflexivity | exact Hs]. }
  exists out. split; [exact Hrun|].
  split; [rewrite Hlen, Hcount; reflexivity|].
  intros i Hi. destruct (Hiter i Hi) as (s & Hin & _ & Hint).
  exists s. split; [exact Hin|].
  rewrite Hnew by (rewrite Hcount; exact Hi).
  unfold val. rewrite Hint. reflexivity.
Qed.

Lemma resample_integer_ratio_witness :
  exists output,
    resamplePCM [x01; x00; x02; x00; x03; x00; x04; x00; x05; x00; x06; x00]
      48000 16000 = Some output
    /\ sampleAt output 1 = Some 4.
Proof.
  destruct (resample_integer_ratio_decimates
              [x01; x00; x02; x00; x03; x00; x04; x00; x05; x00; x06; x00]
              3 16000 eq_refl) as (output & Hrun & _ & Hs).
  exists output. split; [exact Hrun|].
  destruct (Hs 1 ltac:(cbv; split; [discriminate | reflexivity]))
    as (s & Hin & Hout).
  rewrite Hout, <- Hin. reflexivity.
Defined.

(** X15. Resampling up by a whole-number factor of two or more throws on
    every buffer of odd length: the half sample at the end is counted in
    [outputSamples], and the read for it lies outside the input. *)
Theorem resample_integer_upsampling_rejects_odd_length
  (input : Buffer) (fromRate factor : positive) :
  (1 < factor)%positive ->
  Nat.odd (List.length input) = true ->
  resamplePCM input fromRate (factor * fromRate) = None.
Proof.
  intros Hc Hodd.
  apply Nat.odd_spec in Hodd. destruct Hodd as [h Hh].
  set (L := Z.of_nat (List.length input)).
  assert (HL : L = 2 * Z.of_nat h + 1) by (unfold L; lia).
  set (F := Z.pos fromRate). set (c := Z.pos factor).
  set (j := Z.of_nat h * c).
  assert (Hfloor : (j * F) / Z.pos (factor * fromRate) = Z.of_nat h).
  { rewrite Pos2Z.inj_mul. fold F. fold c. unfold j.
    rewrite <- Z.mul_assoc. apply Z.div_mul. unfold F, c. lia. }
  assert (Hj : 0 <= j < outputSamplesOf input fromRate (factor * fromRate)).
  { rewrite outputSamples_formula, Pos2Z.inj_mul. fold L F c.
    split; [unfold j, c; lia|].
    apply Z.lt_le_trans with (j + 1); [lia|].
    apply Z.div_le_lower_bound; [unfold F; lia|].
    assert (2 <= c) by (unfold c; lia).
    assert (0 < F) by (unfold F; lia).
    unfold j. rewrite HL. nia. }
  assert (Hnone : interpolateAt input (ratioOf fromRate (factor * fromRate))
                    (inputSamplesOf input) j = None).
  { unfold interpolateAt. cbv zeta. rewrite srcIndex_floor. fold F.
    rewrite Hfloor.
    rewrite (readInt16LE_Qeq _ _ _ (floor_offset (Z.of_nat h))).
    rewrite readInt16LE_beyond by (fold L; lia). reflexivity. }
  unfold resamplePCM.
  destruct (Pos.eqb_spec fromRate (factor * fromRate)) as [E | _]; [nia|].
  apply (resampleLoop_fails _ _ _ _ _ _ j); [|exact Hnone].
  fold (outputSamplesOf input fromRate (factor * fromRate)). lia.
Qed.

Lemma resample_upsampling_odd_witness :
  resamplePCM [x01; x00; x02] 24000 48000 = None.
Proof.
  apply (resample_integer_upsampling_rejects_odd_length [x01; x00; x02]
           24000 2); reflexivity.
Defined.

End ResampleMoreFacts.

Section DoublesResampleFacts.
Import Pcm Binary64 Doubles.

Lemma fraction64_range (s : Q) :
  (0 <= sub64 s (inject_Z (Qfloor s)) <= 1)%Q.
Proof.
  destruct (fraction_range s) as [H0 H1]. unfold sub64. split.
  - apply round64_nonneg. exact H0.
  - apply (round64_le_Z _ 1); [lia|]. change (inject_Z 1) with 1%Q. lra.
Qed.

(** Linear interpolation of two sixteen-bit samples in double precision
    does not overshoot. *)
Lemma blend_between (s1 s2 : Z) (fraction : Q) :
  -32768 <= s1 <= 32767 -> -32768 <= s2 <= 32767 ->
  (0 <= fraction <= 1)%Q ->
  Z.min s1 s2 <= blend s1 s2 fraction <= Z.max s1 s2.
Proof.
  intros H1 H2 [Hf0 Hf1]. unfold blend.
  assert (HD : (inject_Z (s2 - s1) == inject_Z s2 - inject_Z s1)%Q).
  { unfold Z.sub. rewrite inject_Z_plus, inject_Z_opp. reflexivity. }
  assert (Hd : (sub64 (inject_Z s2) (inject_Z s1) == inject_Z (s2 - s1))%Q).
  { unfold sub64.
    rewrite (round64_comp _ (inject_Z (s2 - s1))).
    - apply round64_Z. lia.
    - symmetry. exact HD. }
  set (p := mul64 (sub64 (inject_Z s2) (inject_Z s1)) fraction).
  assert (Hp : p = round64 (inject_Z (s2 - s1) * fraction)).
  { unfold p, mul64. apply round64_comp. rewrite Hd. reflexivity. }
  set (D := inject_Z (s2 - s1)) in *.
  destruct (Z.le_ge_cases s1 s2) as [Hle | Hge].
  - rewrite Z.min_l, Z.max_r by lia.
    assert (HD0 : (0 <= D)%Q) by (unfold D; rewrite <- (Zle_Qle 0); lia).
    assert (Hx0 : (0 <= D * fraction)%Q) by (apply Qmult_le_0_compat; lra).
    assert (Hx1 : (D * fraction <= D)%Q).
    { assert (H : (0 <= D * (1 - fraction))%Q)
        by (apply Qmult_le_0_compat; lra).
      assert (E : (D * (1 - fraction) == D - D * fraction)%Q) by ring.
      lra. }
    assert (Hp0 : (0 <= p)%Q) by (rewrite Hp; apply round64_nonneg; exact Hx0).
    assert (Hp1 : (p <= D)%Q).
    { rewrite Hp. apply round64_le_Z; [lia | exact Hx1]. }
    apply round_between; unfold add64.
    + apply round64_ge_Z; [lia|]. fold p. lra.
    + apply round64_le_Z; [lia|]. fold p. lra.
  - rewrite Z.min_r, Z.max_l by lia.
    assert (HD0 : (D <= 0)%Q) by (unfold D; rewrite <- (Zle_Qle _ 0); lia).
    assert (Hx0 : (D * fraction <= 0)%Q).
    { assert (H : (0 <= (- D) * fraction)%Q)
        by (apply Qmult_le_0_compat; lra).
      assert (E : ((- D) * fraction == - (D * fraction))%Q) by ring.
      lra. }
    assert (Hx1 : (D <= D * fraction)%Q).
    { assert (H : (0 <= (- D) * (1 - fraction))%Q)
        by (apply Qmult_le_0_compat; lra).
      assert (E : ((- D) * (1 - fraction) == D * fraction - D)%Q) by ring.
      lra. }
    assert (Hp0 : (p <= 0)%Q).
    { rewrite Hp. apply (round64_le_Z _ 0); [lia | exact Hx0]. }
    assert (Hp1 : (D <= p)%Q).
    { rewrite Hp. apply round64_ge_Z; [lia | exact Hx1]. }
    apply round_between; unfold add64.
    + apply round64_ge_Z; [lia|]. fold p. lra.
    + apply round64_le_Z; [lia|]. fold p. lra.
Qed.

Lemma interpolated64_between (F T : positive) (j s1 s2 : Z) :
  -32768 <= s1 <= 32767 -> -32768 <= s2 <= 32767 ->
  Z.min s1 s2 <= interpolated F T j s1 s2 <= Z.max s1 s2.
Proof.
  intros H1 H2. unfold interpolated. cbv zeta.
  pose proof (blend_between s1 s2 _ H1 H2
                (fraction64_range (mul64 (inject_Z j) (ratioOf F T)))).
  lia.
Qed.

(** X13. On a buffer of whole samples [resamplePCM] does not throw, whether
    it resamples down or up: for two different rates below [2 ^ 53], a
    buffer of less than [2 ^ 50] bytes and an output of at most [2 ^ 49]
    samples, the output holds [outputSamples] samples (the exact
    [floor(samples * to / from)] or one less when
    [length * to + 2 * from < 2 ^ 52]), and each of them lies between the
    input sample at the floor index and the one after it (the last sample
    at the end), so the interpolation never overshoots and the clamp never
    acts. *)
Theorem resample_whole_samples_total_no_overshoot
  (input : Buffer) (fromRate toRate : positive) :
  Nat.even (List.length input) = true ->
  fromRate <> toRate ->
  Z.pos fromRate < 2 ^ 53 -> Z.pos toRate < 2 ^ 53 ->
  Z.of_nat (List.length input) < 2 ^ 50 ->
  Z.of_nat (List.length input) * Z.pos toRate <= 2 ^ 50 * Z.pos fromRate ->
  let samples := Z.of_nat (List.length input / 2) in
  let n := outputSamplesOf input fromRate toRate in
  let exact := (samples * Z.pos toRate) / Z.pos fromRate in
  exists output,
    resamplePCM input fromRate toRate = Some output
    /\ Z.of_nat (List.length output) = 2 * n
    /\ (Z.of_nat (List.length input) * Z.pos toRate + 2 * Z.pos fromRate
        < 2 ^ 52 ->
        exact - 1 <= n <= exact)
    /\ forall i,
         0 <= i < n ->
         let f := srcIndexFloorOf fromRate toRate i in
         exists sample1 sample2 value,
           sampleAt input f = Some sample1
           /\ sampleAt input (Z.min (f + 1) (samples - 1)) = Some sample2
           /\ sampleAt output i = Some value
           /\ Z.min sample1 sample2 <= value <= Z.max sample1 sample2.
Proof.
  intros Heven Hne HF HT HL Hout samples n exact.
  set (L := Z.of_nat (List.length input)) in *.
  pose proof (whole_samples input Heven) as HLs. fold L samples in HLs.
  destruct (whole_samples_conditions input fromRate toRate Heven HF HT HL Hout)
    as (Hr & Hcond & Hsize & _).
  destruct (resamplePCM_runs input fromRate toRate Hne HL Hr Hcond Hsize)
    as (Hn0 & output & Hrun & Hlen & Hsamples).
  exists output. split; [exact Hrun|]. split; [exact Hlen|]. split.
  - intros Hsmall.
    pose proof (outputSamples_near_exact input fromRate toRate HF HT Hsmall)
      as Hnear.
    fold L in Hnear.
    assert (He : (L * Z.pos toRate) / (2 * Z.pos fromRate) = exact).
    { unfold exact. rewrite HLs.
      replace (2 * samples * Z.pos toRate)
        with (2 * (samples * Z.pos toRate)) by lia.
      apply Z.div_mul_cancel_l; lia. }
    rewrite He in Hnear. unfold n. lia.
  - intros i Hi. cbv zeta.
    destruct (Hsamples i Hi)
      as (Hf0 & Hf2 & s1 & s2 & H1 & H2 & Hs1 & Hs2 & Hout').
    exists s1, s2, (interpolated fromRate toRate i s1 s2).
    unfold sampleAt. split; [rewrite Z.mul_comm; exact H1|]. split.
    + replace (Z.min (srcIndexFloorOf fromRate toRate i + 1) (samples - 1) * 2)
        with (Z.min (2 * srcIndexFloorOf fromRate toRate i + 2) (L - 2))
        by lia.
      exact H2.
    + split; [exact Hout'|]. apply interpolated64_between; assumption.
Qed.

(** The theorem at three samples resampled up from 2 Hz to 3 Hz. *)
Lemma resample_whole_samples_witness :
  Nat.even (List.length [x00; x00; x0a; x00; x14; x00]) = true
  /\ exists output,
       resamplePCM [x00; x00; x0a; x00; x14; x00] 2 3 = Some output
       /\ Z.of_nat (List.length output) = 8.
Proof.
  split; [reflexivity|].
  destruct (resample_whole_samples_total_no_overshoot
              [x00; x00; x0a; x00; x14; x00] 2 3 eq_refl
              ltac:(discriminate) eq_refl eq_refl eq_refl
              ltac:(vm_compute; discriminate))
    as (output & Hrun & Hlen & _).
  exists output. split; [exact Hrun | exact Hlen].
Defined.

End DoublesResampleFacts.

(** ** Whole-number ratios in double precision *)

Section WholeRatioFacts.
Import Pcm Binary64.

(** The quotient of two whole numbers, rounded: its floor is the whole
    quotient, as long as the numbers are below [2 ^ 53]. *)
Lemma round64_quotient_floor (a b : Z) :
  0 <= a -> 0 < b -> a + b < 2 ^ 53 ->
  Qfloor (round64 (inject_Z a / inject_Z b)) = a / b.
Proof.
  intros Ha Hb Hsum.
  set (m := a / b).
  assert (Hm : m * b <= a /\ a < (m + 1) * b).
  { unfold m. pose proof (Z.mul_div_le a b Hb).
    pose proof (Z.mul_succ_div_gt a b Hb). lia. }
  assert (Hm0 : 0 <= m) by (unfold m; apply Z.div_pos; lia).
  assert (Hb0 : (0 < inject_Z b)%Q) by (rewrite <- (Zlt_Qlt 0); exact Hb).
  set (x := (inject_Z a / inject_Z b)%Q).
  assert (Hxb : (x * inject_Z b == inject_Z a)%Q).
  { unfold x. field. intros H0. rewrite H0 in Hb0. lra. }
  assert (Hlow : (inject_Z m <= x)%Q).
  { unfold x. apply Qle_shift_div_l; [exact Hb0|].
    rewrite <- inject_Z_mult, <- Zle_Qle. lia. }
  apply Qfloor_unique.
  - apply round64_ge_Z; [nia | exact Hlow].
  - destruct (Z.eq_dec a 0) as [Ha0 | Hane].
    + assert (Hx0 : (x == 0)%Q).
      { unfold x. rewrite Ha0. change (inject_Z 0) with 0%Q. field.
        intros H0. rewrite H0 in Hb0. lra. }
      rewrite (round64_0 x Hx0).
      rewrite <- (Zlt_Qlt 0). lia.
    + assert (Ha1 : (1 <= inject_Z a)%Q) by (rewrite <- (Zle_Qle 1); lia).
      assert (Hb53 : (inject_Z b <= 9007199254740992 # 1)%Q).
      { change (9007199254740992 # 1)%Q with (inject_Z (2 ^ 53)).
        rewrite <- Zle_Qle. lia. }
      assert (Ha53 : (inject_Z a < 9007199254740992 # 1)%Q).
      { change (9007199254740992 # 1)%Q with (inject_Z (2 ^ 53)).
        rewrite <- Zlt_Qlt. lia. }
      assert (Hxn : (pow2 (-1022) <= x)%Q).
      { apply Qle_trans with (pow2 (-53)); [apply pow2_le; lia|].
        rewrite pow2_m53. unfold x, eps.
        apply Qle_shift_div_l; [exact Hb0 | lra]. }
      destruct (round64_err x Hxn) as [_ Herr].
      set (delta := (1 / inject_Z b)%Q).
      assert (Hdb : (delta * inject_Z b == 1)%Q).
      { unfold delta. field. intros H0. rewrite H0 in Hb0. lra. }
      assert (Hup : (x + delta <= inject_Z (m + 1))%Q).
      { apply (Qmult_le_r _ _ (inject_Z b) Hb0).
        assert (E : ((x + delta) * inject_Z b == inject_Z a + 1)%Q)
          by (rewrite Qmult_plus_distr_l, Hxb, Hdb; reflexivity).
        rewrite E, <- inject_Z_mult.
        assert (H : (inject_Z (a + 1) <= inject_Z ((m + 1) * b))%Q)
          by (rewrite <- Zle_Qle; lia).
        rewrite inject_Z_plus in H. exact H. }
      assert (Hsmall : (x * eps < delta)%Q).
      { apply (Qmult_lt_r _ _ (inject_Z b) Hb0).
        assert (E : (x * eps * inject_Z b == inject_Z a * eps)%Q)
          by (rewrite <- Hxb; ring).
        rewrite E, Hdb. unfold eps. lra. }
      assert (E2 : (x * (1 + eps) == x + x * eps)%Q) by ring.
      lra.
Qed.


(** The two loops do the same when every iteration does. *)
Lemma resampleLoop_agrees (input : Buffer) (r r' inS inS' : Q) :
  forall (n : nat) (i : Z) (output : Buffer),
    0 <= i ->
    i + Z.of_nat n < 2 ^ 52 ->
    (forall j, i <= j < i + Z.of_nat n ->
       Doubles.interpolateAt input r inS j
       = Pcm.interpolateAt input r' inS' j) ->
    Doubles.resampleLoop input r inS n i output
    = Pcm.resampleLoop input r' inS' n i output.
Proof.
  induction n as [|n IH]; intros i output Hi Hbig Hsame; [reflexivity|].
  cbn [Doubles.resampleLoop Pcm.resampleLoop].
  rewrite (Hsame i) by lia.
  destruct (Pcm.interpolateAt input r' inS' i) as [v|]; [|reflexivity].
  rewrite (mul2_floor i) by lia.
  destruct (writeInt16LE output v (i * 2)) as [output'|]; [|reflexivity].
  apply IH; [lia | lia|]. intros j Hj. apply Hsame. lia.
Qed.

Lemma ratio_whole (k T : positive) :
  Z.pos k < 2 ^ 53 ->
  (Doubles.ratioOf (k * T) T == inject_Z (Z.pos k))%Q.
Proof.
  intros Hk. unfold Doubles.ratioOf, Doubles.div64.
  rewrite (round64_comp _ (inject_Z (Z.pos k))).
  - apply round64_Z. lia.
  - unfold Qeq, Qdiv, Qmult, Qinv, inject_Z. cbn [Qnum Qden].
    rewrite Pos2Z.inj_mul. lia.
Qed.

Lemma srcIndex_whole (k T : positive) (i : Z) :
  0 <= i -> i * Z.pos k < 2 ^ 53 -> Z.pos k < 2 ^ 53 ->
  (Doubles.mul64 (inject_Z i) (Doubles.ratioOf (k * T) T)
   == inject_Z (i * Z.pos k))%Q.
Proof.
  intros Hi Hik Hk. unfold Doubles.mul64.
  rewrite (round64_comp _ (inject_Z (i * Z.pos k))).
  - apply round64_Z. nia.
  - rewrite (ratio_whole k T Hk), inject_Z_mult. reflexivity.
Qed.

(** With a whole-number ratio the fraction is zero and the interpolation
    returns the first sample, in double precision too. *)
Lemma interpolated_whole_ratio (k T : positive) (i s1 s2 : Z) :
  0 <= i -> i * Z.pos k < 2 ^ 53 -> Z.pos k < 2 ^ 53 ->
  -32768 <= s1 <= 32767 -> -32768 <= s2 <= 32767 ->
  Doubles.interpolated (k * T) T i s1 s2 = s1.
Proof.
  intros Hi Hik Hk Hs1 Hs2. unfold Doubles.interpolated. cbv zeta.
  pose proof (srcIndex_whole k T i Hi Hik Hk) as Hs.
  set (s := Doubles.mul64 (inject_Z i) (Doubles.ratioOf (k * T) T)) in *.
  assert (Hfr : (Doubles.sub64 s (inject_Z (Qfloor s)) == 0)%Q).
  { unfold Doubles.sub64. apply round64_0.
    rewrite (Qfloor_comp _ _ Hs), Qfloor_Z, Hs. ring. }
  pose proof (blend_between s1 s2 _ Hs1 Hs2 (fraction64_range s)) as Hb.
  assert (Hv : Doubles.blend s1 s2 (Doubles.sub64 s (inject_Z (Qfloor s)))
               = s1).
  { unfold Doubles.blend.
    set (d := Doubles.sub64 (inject_Z s2) (inject_Z s1)).
    assert (Hp : (Doubles.mul64 d (Doubles.sub64 s (inject_Z (Qfloor s)))
                  == 0)%Q).
    { unfold Doubles.mul64. apply round64_0. rewrite Hfr. ring. }
    assert (Ha : (Doubles.add64 (inject_Z s1)
                    (Doubles.mul64 d (Doubles.sub64 s (inject_Z (Qfloor s))))
                  == inject_Z s1)%Q).
    { unfold Doubles.add64.
      rewrite (round64_comp _ (inject_Z s1)).
      - apply round64_Z. lia.
      - rewrite Hp. ring. }
    unfold Math_round.
    rewrite (Qfloor_comp _ (inject_Z s1 + (1 # 2))%Q)
      by (rewrite Ha; reflexivity).
    apply Qfloor_unique.
    - lra.
    - rewrite inject_Z_plus. change (inject_Z 1) with 1%Q. lra. }
  rewrite Hv. lia.
Qed.

(** X31. Resampling down by a whole-number factor in the arithmetic of the
    program (48 kHz to 16 kHz in the Hume adapter: factor 3).  The ratio,
    the source indices and the fractions are whole numbers, on which the
    doubles are exact: for a buffer of less than [2 ^ 50] bytes the
    program returns what exact arithmetic gives, [floor(bytes / (2 * k))]
    samples of which number [i] is input sample [i * k] unchanged. *)
Theorem resample_whole_ratio_exact_in_doubles
  (input : Buffer) (k toRate : positive) :
  (1 < k)%positive ->
  Z.pos (k * toRate) < 2 ^ 51 ->
  Z.of_nat (List.length input) < 2 ^ 50 ->
  let count := Z.of_nat (List.length input) / (2 * Z.pos k) in
  Doubles.resamplePCM input (k * toRate) toRate
  = Pcm.resamplePCM input (k * toRate) toRate
  /\ exists output,
       Doubles.resamplePCM input (k * toRate) toRate = Some output
       /\ Z.of_nat (List.length output) = 2 * count
       /\ forall i,
            0 <= i < count ->
            exists sample,
              sampleAt input (i * Z.pos k) = Some sample
              /\ sampleAt output i = Some sample.
Proof.
  intros Hk HF HL count.
  set (L := Z.of_nat (List.length input)) in *.
  assert (Hlt : (toRate < k * toRate)%positive) by nia.
  assert (Hk51 : Z.pos k < 2 ^ 51) by nia.
  assert (Hk53 : Z.pos k < 2 ^ 53) by lia.
  assert (HL0 : 0 <= L) by (unfold L; lia).
  (* the two counts *)
  assert (Hn64 : Doubles.outputSamplesOf input (k * toRate) toRate = count).
  { unfold Doubles.outputSamplesOf, Doubles.div64.
    rewrite (round64_comp _ (inject_Z L / inject_Z (2 * Z.pos k))%Q).
    - apply round64_quotient_floor; lia.
    - rewrite (inputSamples_exact input) by (fold L; lia). fold L.
      rewrite (ratio_whole k toRate Hk53), inject_Z_mult.
      change (inject_Z 2) with 2%Q. field. apply inject_pos_nonzero. }
  assert (Hn : Pcm.outputSamplesOf input (k * toRate) toRate = count).
  { rewrite outputSamples_formula. fold L. unfold count.
    rewrite Pos2Z.inj_mul.
    replace (2 * (Z.pos k * Z.pos toRate))
      with ((2 * Z.pos k) * Z.pos toRate) by lia.
    apply Z.div_mul_cancel_r; lia. }
  assert (Hcount : count * (2 * Z.pos k) <= L).
  { unfold count. rewrite Z.mul_comm. apply Z.mul_div_le. lia. }
  assert (Hc0 : 0 <= count) by (unfold count; apply Z.div_pos; lia).
  destruct (downsample_conditions input (k * toRate) toRate Hlt HL)
    as (Hr & Hcond & Hsize).
  destruct (resamplePCM_runs input (k * toRate) toRate ltac:(lia) HL Hr Hcond
              Hsize) as (_ & output & Hrun & Hlen & Hsamples).
  rewrite Hn64 in Hlen, Hsamples.
  assert (Hfloor : forall i, 0 <= i < count ->
            Doubles.srcIndexFloorOf (k * toRate) toRate i = i * Z.pos k).
  { intros i Hi. unfold Doubles.srcIndexFloorOf.
    rewrite (Qfloor_comp _ _ (srcIndex_whole k toRate i ltac:(lia)
                                ltac:(nia) Hk53)).
    apply Qfloor_Z. }
  assert (Hfloor' : forall i, (i * Z.pos (k * toRate)) / Z.pos toRate
                              = i * Z.pos k).
  { intros i. rewrite Pos2Z.inj_mul, Z.mul_assoc. apply Z.div_mul. lia. }
  split.
  - (* the same result as in exact arithmetic *)
    unfold Doubles.resamplePCM, Pcm.resamplePCM.
    destruct (Pos.eqb_spec (k * toRate) toRate) as [E | _]; [lia|].
    cbv zeta.
    change (Qfloor (Doubles.div64 (Doubles.inputSamplesOf input)
                      (Doubles.ratioOf (k * toRate) toRate)))
      with (Doubles.outputSamplesOf input (k * toRate) toRate).
    change (Qfloor (inject_Z (Z.of_nat (List.length input)) / 2
                    / (inject_Z (Z.pos (k * toRate))
                       / inject_Z (Z.pos toRate)))%Q)
      with (Pcm.outputSamplesOf input (k * toRate) toRate).
    rewrite Hn64, Hn.
    unfold Doubles.alloc. rewrite (mul2_floor count) by lia.
    apply resampleLoop_agrees; [lia | lia|].
    intros j Hj.
    destruct (Hsamples j ltac:(lia))
      as (Hf0 & Hf2 & s1 & s2 & H1 & H2 & Hs1 & Hs2 & _).
    rewrite (Hfloor j ltac:(lia)) in *.
    destruct (interpolateAt_reads input (k * toRate) toRate j HL Hr Hcond)
      as (_ & _ & t1 & t2 & G1 & G2 & _ & _ & Hint64).
    { rewrite Hn64. lia. }
    rewrite (Hfloor j ltac:(lia)) in *.
    assert (t1 = s1) by congruence. assert (t2 = s2) by congruence.
    subst t1 t2.
    destruct (interpolateAt_in_bounds input (k * toRate) toRate j)
      as (u1 & u2 & K1 & K2 & _ & _ & Hint).
    { rewrite Hfloor'. lia. }
    { rewrite Hfloor'. fold L. lia. }
    rewrite Hfloor' in K1, K2. fold L in K2, H2.
    assert (u1 = s1) by congruence. assert (u2 = s2) by congruence.
    subst u1 u2.
    change (inject_Z (Z.pos (k * toRate)) / inject_Z (Z.pos toRate))%Q
      with (Pcm.ratioOf (k * toRate) toRate).
    change (inject_Z (Z.of_nat (List.length input)) / 2)%Q
      with (Pcm.inputSamplesOf input).
    rewrite Hint64, Hint.
    rewrite (interpolated_whole_ratio k toRate j s1 s2) by (try lia; nia).
    rewrite (interpolated_integer_ratio k toRate j s1 s2) by lia.
    reflexivity.
  - exists output. split; [exact Hrun|]. split; [exact Hlen|].
    intros i Hi.
    destruct (Hsamples i Hi)
      as (_ & _ & s1 & s2 & H1 & _ & Hs1 & Hs2 & Hout).
    rewrite (Hfloor i Hi) in H1.
    exists s1. split.
    + unfold sampleAt. rewrite <- H1. f_equal. f_equal. lia.
    + rewrite Hout.
      rewrite (interpolated_whole_ratio k toRate i s1 s2) by (try lia; nia).
      reflexivity.
Qed.

(** The theorem at twelve bytes resampled from 48 kHz to 16 kHz. *)
Lemma resample_whole_ratio_doubles_witness :
  Doubles.resamplePCM
    [x01; x00; x02; x00; x03; x00; x04; x00; x05; x00; x06; x00] 48000 16000
  = Pcm.resamplePCM
      [x01; x00; x02; x00; x03; x00; x04; x00; x05; x00; x06; x00] 48000 16000.
Proof.
  exact (proj1 (resample_whole_ratio_exact_in_doubles
                  [x01; x00; x02; x00; x03; x00; x04; x00; x05; x00; x06; x00]
                  3 16000 eq_refl eq_refl eq_refl)).
Defined.

End WholeRatioFacts.

Section WholeMultipleFacts.
Import Mulaw Pcm Telephony Binary64.

Lemma upsampleRatio_integer (factor : positive) :
  Z.pos factor < 2 ^ 53 ->
  (Doubles.upsampleRatioOf (factor * 8000) == inject_Z (Z.pos factor))%Q.
Proof.
  intros H. unfold Doubles.upsampleRatioOf, Doubles.div64.
  rewrite (round64_comp _ (inject_Z (Z.pos factor))).
  - apply round64_Z. lia.
  - unfold Qeq, Qdiv, Qmult, Qinv, inject_Z. cbn [Qnum Qden]. lia.
Qed.

(** The two decoding loops do the same when they compute the same chunk
    index in every iteration. *)
Lemma decodeLoop_agrees (r r' : Q) (chunk : Buffer) :
  forall (n : nat) (i : Z) (output : Buffer),
    0 <= i ->
    i + Z.of_nat n < 2 ^ 52 ->
    (forall j, i <= j < i + Z.of_nat n ->
       Qfloor (Doubles.div64 (inject_Z j) r) = Qfloor (inject_Z j / r')%Q) ->
    Doubles.decodeLoop r chunk n i output
    = Telephony.decodeLoop r' chunk n i output.
Proof.
  induction n as [|n IH]; intros i output Hi Hbig Hsame; [reflexivity|].
  cbn [Doubles.decodeLoop Telephony.decodeLoop]. cbv zeta.
  rewrite (Hsame i) by lia.
  destruct (Qfloor (inject_Z i / r')%Q <? 0); [reflexivity|].
  destruct (nth_error chunk (Z.to_nat (Qfloor (inject_Z i / r')%Q)))
    as [b|]; [|reflexivity].
  rewrite (mul2_floor i) by lia.
  destruct (writeInt16LE output (tableEntry (byteToZ b)) (i * 2))
    as [output'|]; [|reflexivity].
  apply IH; [lia | lia|]. intros j Hj. apply Hsame. lia.
Qed.

(** The two encoding loops at a whole ratio [k], from the same whole
    accumulator. *)
Lemma encodeLoop_agrees (r r' : Q) (k : Z) (chunk : Buffer) :
  (r == inject_Z k)%Q -> (r' == inject_Z k)%Q ->
  0 < k < 2 ^ 52 ->
  forall (n : nat) (i : Z) (acc acc' : Q) (a : Z) (outputSamples : list Z),
    (acc == inject_Z a)%Q -> (acc' == inject_Z a)%Q ->
    0 <= a < k ->
    0 <= i ->
    (i + Z.of_nat n) * 2 <= Z.of_nat (List.length chunk) ->
    i + Z.of_nat n < 2 ^ 52 ->
    exists final final' codes,
      Doubles.encodeLoop r chunk n i acc outputSamples = Some (final, codes)
      /\ Telephony.encodeLoop r' chunk n i acc' outputSamples
         = Some (final', codes)
      /\ (final == final')%Q.
Proof.
  intros Hr Hr' Hk. induction n as [|n IH];
    intros i acc acc' a outputSamples Hacc Hacc' Ha Hi Hlen Hbig.
  - exists acc, acc', outputSamples.
    cbn [Doubles.encodeLoop Telephony.encodeLoop].
    split; [reflexivity|]. split; [reflexivity|]. rewrite Hacc, Hacc'.
    reflexivity.
  - cbn [Doubles.encodeLoop Telephony.encodeLoop]. cbv zeta.
    assert (H1 : (Doubles.add64 acc 1 == inject_Z (a + 1))%Q).
    { unfold Doubles.add64. rewrite (round64_comp _ (inject_Z (a + 1))).
      - apply round64_Z. lia.
      - rewrite Hacc, inject_Z_plus. reflexivity. }
    assert (H1' : (acc' + 1 == inject_Z (a + 1))%Q).
    { rewrite Hacc', inject_Z_plus. reflexivity. }
    assert (Hsame : Qle_bool r (Doubles.add64 acc 1)
                    = Qle_bool r' (acc' + 1)%Q).
    { destruct (Qle_bool r (Doubles.add64 acc 1)) eqn:E;
        destruct (Qle_bool r' (acc' + 1)%Q) eqn:E'; try reflexivity; exfalso.
      - apply Qle_bool_iff in E. rewrite Hr, H1 in E.
        apply Qle_bool_false in E'. rewrite Hr', H1' in E'. lra.
      - apply Qle_bool_iff in E'. rewrite Hr', H1' in E'.
        apply Qle_bool_false in E. rewrite Hr, H1 in E. lra. }
    rewrite Hsame.
    destruct (Qle_bool r' (acc' + 1)%Q) eqn:E.
    + apply Qle_bool_iff in E. rewrite Hr', H1', <- Zle_Qle in E.
      assert (Hak : a + 1 = k) by lia.
      rewrite (readInt16LE_Qeq chunk _ _ (mul2_exact i ltac:(lia))).
      replace (i * 2) with (2 * i) by lia.
      destruct (readInt16LE_in_bounds chunk (2 * i) ltac:(lia) ltac:(lia))
        as (v & Hv & _).
      rewrite Hv.
      apply (IH (i + 1) _ _ 0); try lia.
      * unfold Doubles.sub64. apply round64_0. rewrite H1, Hr, Hak.
        change (inject_Z 0) with 0%Q. ring.
      * rewrite H1', Hr', Hak. change (inject_Z 0) with 0%Q. ring.
    + apply Qle_bool_false in E. rewrite Hr', H1', <- Zlt_Qlt in E.
      apply (IH (i + 1) _ _ (a + 1)); try lia; assumption.
Qed.

(** At a whole multiple of 8 kHz both transforms do in double precision
    what they do in exact arithmetic. *)
Lemma transforms_agree_at_whole_multiples
  (factor : positive) (accumulator : Z) (chunk : Buffer) :
  Z.pos factor * 8000 < 2 ^ 53 ->
  Z.of_nat (List.length chunk) * Z.pos factor < 2 ^ 51 ->
  0 <= accumulator < Z.pos factor ->
  Doubles.mulawToPcm (factor * 8000) chunk
  = Telephony.mulawToPcm (factor * 8000) chunk
  /\ exists final final' out,
       Doubles.pcmToMulaw (factor * 8000) (inject_Z accumulator) chunk
       = Some (final, out)
       /\ Telephony.pcmToMulaw (factor * 8000) (inject_Z accumulator) chunk
          = Some (final', out)
       /\ (final == final')%Q.
Proof.
  intros Hrate Hsize Hacc.
  set (L := Z.of_nat (List.length chunk)) in *.
  set (k := Z.pos factor) in *.
  assert (Hk : 0 < k < 2 ^ 52) by (unfold k; lia).
  assert (HL0 : 0 <= L) by (unfold L; lia).
  assert (HL : L < 2 ^ 51) by nia.
  pose proof (upsampleRatio_integer factor ltac:(lia)) as Hup.
  pose proof (downsampleRatio_integer factor ltac:(lia)) as Hdown.
  assert (Hup' : (Telephony.upsampleRatioOf (factor * 8000)
                  == inject_Z k)%Q).
  { unfold Telephony.upsampleRatioOf, k.
    unfold Qeq, Qdiv, Qmult, Qinv, inject_Z. cbn [Qnum Qden]. lia. }
  assert (Hdown' : (Telephony.downsampleRatioOf (factor * 8000)
                    == inject_Z k)%Q).
  { unfold Telephony.downsampleRatioOf, k.
    unfold Qeq, Qdiv, Qmult, Qinv, inject_Z. cbn [Qnum Qden]. lia. }
  split.
  - unfold Doubles.mulawToPcm, Telephony.mulawToPcm. cbv zeta. fold L.
    assert (Hn64 : Qfloor (Doubles.mul64 (inject_Z L)
                             (Doubles.upsampleRatioOf (factor * 8000)))
                   = L * k).
    { unfold Doubles.mul64.
      rewrite (round64_comp _ (inject_Z (L * k))).
      - rewrite (Qfloor_comp _ _ (round64_Z (L * k) ltac:(nia))).
        apply Qfloor_Z.
      - rewrite Hup, inject_Z_mult. reflexivity. }
    assert (Hn : Qfloor (inject_Z L
                         * Telephony.upsampleRatioOf (factor * 8000))%Q
                 = L * k).
    { rewrite (Qfloor_comp _ (inject_Z (L * k))).
      - apply Qfloor_Z.
      - rewrite Hup', inject_Z_mult. reflexivity. }
    rewrite Hn64, Hn. unfold Doubles.alloc.
    rewrite (mul2_floor (L * k)) by nia.
    apply decodeLoop_agrees; [lia | nia|].
    intros j Hj. unfold Doubles.div64.
    rewrite (round64_comp _ (inject_Z j / inject_Z k)%Q)
      by (rewrite Hup; reflexivity).
    rewrite (round64_quotient_floor j k) by nia.
    rewrite (Qfloor_comp _ (inject_Z j / inject_Z k)%Q)
      by (rewrite Hup'; reflexivity).
    rewrite (Qfloor_comp _ (j # factor)%Q).
    + reflexivity.
    + unfold k, Qeq, Qdiv, Qmult, Qinv, inject_Z. cbn [Qnum Qden]. lia.
  - unfold Doubles.pcmToMulaw, Telephony.pcmToMulaw. cbv zeta.
    rewrite pcmSamples_exact by (fold L; lia). fold L.
    assert (Hs : Z.to_nat (L / 2) = (List.length chunk / 2)%nat).
    { unfold L. rewrite <- (Nat2Z.inj_div _ 2). apply Nat2Z.id. }
    rewrite Hs.
    destruct (encodeLoop_agrees
                (Doubles.downsampleRatioOf (factor * 8000))
                (Telephony.downsampleRatioOf (factor * 8000)) k chunk
                Hdown Hdown' Hk (List.length chunk / 2)%nat 0
                (inject_Z accumulator) (inject_Z accumulator) accumulator []
                ltac:(reflexivity) ltac:(reflexivity) Hacc ltac:(lia))
      as (final & final' & codes & Hrun & Hrun' & Hfin).
    { rewrite Nat2Z.inj_div. change (Z.of_nat 2) with 2. fold L.
      pose proof (Z.mul_div_le L 2 ltac:(lia)). lia. }
    { rewrite Nat2Z.inj_div. change (Z.of_nat 2) with 2. fold L.
      pose proof (Z.mul_div_le L 2 ltac:(lia)). lia. }
    rewrite Hrun, Hrun'.
    exists final, final'. eexists. split; [reflexivity|].
    split; [reflexivity | exact Hfin].
Qed.


(** X32. At a telephone rate that is a whole multiple of 8 kHz (16, 24,
    48 kHz) the arithmetic of both transforms is exact in double
    precision: the ratio is a whole number, the chunk index of the
    decoder is a whole quotient and the accumulator of the encoder a whole
    counter.  On chunks of practical size the decoder puts out every byte
    of the chunk [factor] times, as its table entry, and the program
    decodes to the same buffer and, from a whole accumulator, encodes to
    the same bytes as in exact arithmetic. *)
Theorem telephone_transforms_exact_at_whole_multiples
  (factor : positive) (accumulator : Z) (chunk : Buffer) :
  Z.pos factor * 8000 < 2 ^ 53 ->
  Z.of_nat (List.length chunk) * Z.pos factor < 2 ^ 51 ->
  0 <= accumulator < Z.pos factor ->
  Doubles.mulawToPcm (factor * 8000) chunk
  = Telephony.mulawToPcm (factor * 8000) chunk
  /\ (exists output,
        Doubles.mulawToPcm (factor * 8000) chunk = Some output
        /\ Z.of_nat (List.length output)
           = 2 * (Z.of_nat (List.length chunk) * Z.pos factor)
        /\ forall i,
             0 <= i < Z.of_nat (List.length chunk) * Z.pos factor ->
             exists mulawByte,
               nth_error chunk (Z.to_nat (i / Z.pos factor)) = Some mulawByte
               /\ sampleAt output i
                  = Some (MULAW_TO_LINEAR (byteToZ mulawByte)))
  /\ exists final final' out,
       Doubles.pcmToMulaw (factor * 8000) (inject_Z accumulator) chunk
       = Some (final, out)
       /\ Telephony.pcmToMulaw (factor * 8000) (inject_Z accumulator) chunk
          = Some (final', out)
       /\ (final == final')%Q.
Proof.
  intros Hrate Hsize Hacc.
  destruct (transforms_agree_at_whole_multiples factor accumulator chunk
              Hrate Hsize Hacc) as [Hsame Hencode].
  split; [exact Hsame|]. split; [|exact Hencode].
  destruct (mulawToPcm_samples (factor * 8000) chunk)
    as (output & Hrun & Hlen & Hs).
  assert (Hq : forall z, (z * Z.pos (factor * 8000)) / 8000
                         = z * Z.pos factor).
  { intros z. rewrite Pos2Z.inj_mul, Z.mul_assoc. apply Z.div_mul. lia. }
  assert (Hq' : forall z, (z * 8000) / Z.pos (factor * 8000)
                          = z / Z.pos factor).
  { intros z. rewrite Pos2Z.inj_mul. apply Z.div_mul_cancel_r; lia. }
  rewrite Hq in Hlen.
  exists output. split; [rewrite Hsame; exact Hrun|].
  split; [exact Hlen|].
  intros i Hi. destruct (Hs i) as (b & Hb & Hv).
  - rewrite Hq. exact Hi.
  - rewrite Hq' in Hb. exists b. split; assumption.
Qed.

(** The theorem at 16 kHz. *)
Lemma telephone_transforms_16k_witness :
  Doubles.mulawToPcm (2 * 8000) [xff; x00; x80]
  = Telephony.mulawToPcm (2 * 8000) [xff; x00; x80].
Proof.
  exact (proj1 (telephone_transforms_exact_at_whole_multiples 2 0
                  [xff; x00; x80] eq_refl eq_refl
                  ltac:(split; [discriminate | reflexivity]))).
Defined.

End WholeMultipleFacts.

(** ** The detector on whole streams *)

Section ReadFacts.
Import Pcm.

Lemma read_range (buf : Buffer) (q : Q) (v : Z) :
  readInt16LE buf q = Some v -> -32768 <= v <= 32767.
Proof.
  unfold readInt16LE.
  destruct (isInteger q && (0 <=? Qfloor q)
            && (Qfloor q + 2 <=? Z.of_nat (List.length buf))); [|discriminate].
  intros E.
  apply (f_equal (fun r => match r with Some y => y | None => v end)) in E.
  cbv beta iota zeta in E. rewrite <- E.
  pose proof (byteToZ_range (nth (Z.to_nat (Qfloor q)) buf x00)).
  pose proof (byteToZ_range (nth (S (Z.to_nat (Qfloor q))) buf x00)).
  match goal with |- context [if ?c then _ else _] => destruct c eqn:Ec end;
    [apply Z.ltb_lt in Ec | apply Z.ltb_ge in Ec]; lia.
Qed.

End ReadFacts.

Section VadStreamFacts.
Import Pcm Vad Utterance.

Variable o : Options.
Hypothesis frame_size : (0 < bytesPerFrame o)%nat.

(** X16. What the detector emits, and the state it ends in, depend on the
    bytes of the stream only and not on how they are cut into chunks: two
    chunkings of the same bytes give the same events, the same detector
    state and the same pending bytes, and [transform] always returns. *)
Theorem vad_chunking_invariant (chunks1 chunks2 : list Buffer) :
  List.concat chunks1 = List.concat chunks2 ->
  exists st events,
    runStream o initial chunks1 = Some (st, events)
    /\ runStream o initial chunks2 = Some (st, events)
    /\ (List.length (pendingBytes st) < bytesPerFrame o)%nat.
Proof.
  intros Hsame.
  pose proof (runStream_runFrames o frame_size chunks1 initial frame_size)
    as H1.
  pose proof (runStream_runFrames o frame_size chunks2 initial frame_size)
    as H2.
  cbv zeta in H1, H2. cbn [pendingBytes initial app] in H1, H2.
  rewrite <- Hsame in H2.
  do 2 eexists. split; [exact H1|]. split; [exact H2|].
  cbn [pendingBytes withPending].
  eapply remainder_short; [exact frame_size | apply Nat.le_refl].
Qed.

(** *** Quiet audio *)

Lemma energy_sum_bound (frame : Buffer) (t : Z) :
  0 <= t ->
  (forall i s, sampleAt frame i = Some s -> Z.abs s <= t) ->
  forall (indices : list nat) (sum : Z),
    sum
    <= fold_left
         (fun sum i =>
            match readInt16LE frame (inject_Z (Z.of_nat i * 2)) with
            | Some sample => sum + Z.abs sample
            | None => sum
            end) indices sum
    <= sum + t * Z.of_nat (List.length indices).
Proof.
  intros Ht Hq. induction indices as [|i rest IH]; intros sum.
  - cbn. lia.
  - cbn [fold_left List.length].
    destruct (readInt16LE frame (inject_Z (Z.of_nat i * 2))) as [s|] eqn:E.
    + pose proof (Hq (Z.of_nat i) s E) as Hs.
      specialize (IH (sum + Z.abs s)). lia.
    + specialize (IH sum). lia.
Qed.

Lemma quiet_frame_not_speech (frame : Buffer) (t : Z) :
  0 <= t ->
  (inject_Z t <= vadEnergyThreshold o)%Q ->
  (forall i s, sampleAt frame i = Some s -> Z.abs s <= t) ->
  isSpeech o frame = false.
Proof.
  intros Ht Hthr Hq. unfold isSpeech, calculateEnergy. cbv zeta.
  destruct (List.length frame) as [|n] eqn:El; [reflexivity|].
  cbn [Nat.eqb].
  pose proof (energy_sum_bound frame t Ht Hq (seq 0 (S n / 2)) 0) as Hsum.
  rewrite length_seq in Hsum.
  set (sum := fold_left _ (seq 0 (S n / 2)) 0) in *.
  assert (Hhalf : 2 * Z.of_nat (S n / 2) <= Z.of_nat (S n)).
  { pose proof (Nat.Div0.mul_div_le (S n) 2). lia. }
  assert (Hle : (inject_Z sum / (inject_Z (Z.of_nat (S n)) / 2)
                 <= inject_Z t)%Q).
  { rewrite Nat2Z.inj_succ in *. unfold Z.succ in *.
    set (m := Z.of_nat n) in *.
    assert (Hm : 0 <= m) by (unfold m; lia).
    assert (Hd : (inject_Z (m + 1) / 2 == (m + 1) # 2)%Q) by qarith.
    rewrite Hd.
    destruct (m + 1) as [|p|p] eqn:Ep; try lia.
    assert (2 * sum <= t * Z.pos p) by nia.
    unfold Qdiv, Qinv, Qle, Qmult, inject_Z. cbn [Qnum Qden].
    rewrite ?Pos2Z.inj_mul. nia. }
  apply negb_false_iff. apply Qle_bool_iff. lra.
Qed.

Lemma longestRun_quiet :
  forall (flags : list bool) (current best : nat),
    Forall (fun flag => flag = false) flags ->
    longestRun current best flags = Nat.max current best.
Proof.
  induction flags as [|flag rest IH]; intros current best Hall;
    [reflexivity|].
  inversion Hall as [|? ? Hf Hrest]; subst. cbn [longestRun].
  rewrite (IH _ _ Hrest). lia.
Qed.

(** X17. Audio that stays at or below the threshold is never speech: when
    every sample of every complete frame of the stream has a magnitude of
    at most [t] and [t] does not exceed [vadEnergyThreshold], the stream
    causes no event at all and the detector stays idle with an empty
    buffer.  Every sample has a magnitude of at most 32768, so a threshold
    from that value on disables the detector. *)
Theorem quiet_audio_is_never_speech (t : Z) (chunks : list Buffer) :
  0 <= t ->
  (inject_Z t <= vadEnergyThreshold o)%Q ->
  (forall frame,
     In frame (framesOf (bytesPerFrame o) (List.concat chunks)) ->
     forall i sample, sampleAt frame i = Some sample -> Z.abs sample <= t) ->
  exists st,
    runStream o initial chunks = Some (st, [])
    /\ isSpeaking st = false
    /\ audioBuffer st = [].
Proof.
  intros Ht Hthr Hquiet.
  pose proof (runStream_runFrames o frame_size chunks initial frame_size)
    as Hrun.
  cbv zeta in Hrun. cbn [pendingBytes initial app] in Hrun.
  set (frames := framesOf (bytesPerFrame o) (List.concat chunks)) in *.
  assert (Hflags : Forall (fun flag => flag = false) (map (isSpeech o) frames)).
  { apply Forall_map. apply Forall_forall. intros frame Hin.
    apply (quiet_frame_not_speech frame t Ht Hthr). apply Hquiet. exact Hin. }
  destruct (short_bursts_quiet o frames initial 0%nat eq_refl)
    as (He & Hi & Hb).
  { cbn [speechFrameCount initial].
    rewrite (longestRun_quiet _ _ _ Hflags). unfold minSpeechFrames. lia. }
  eexists. split; [rewrite Hrun, He; reflexivity|].
  cbn [isSpeaking audioBuffer withPending]. split; [exact Hi | exact Hb].
Qed.

(** *** The length of an utterance *)

Lemma framesOf_lengths (size : nat) :
  (0 < size)%nat ->
  forall (n : nat) (bytes : Buffer),
    (List.length bytes <= n)%nat ->
    Forall (fun frame => List.length frame = size) (framesOf size bytes).
Proof.
  intros Hsize. induction n as [|n IH]; intros bytes Hlen.
  - rewrite framesOf_short by lia. constructor.
  - destruct (Nat.le_gt_cases size (List.length bytes)) as [Hfit | Hshort].
    + rewrite framesOf_step by assumption. constructor.
      * apply firstn_length_le. exact Hfit.
      * apply IH. rewrite length_skipn. lia.
    + rewrite framesOf_short by assumption. constructor.
Qed.

Lemma concat_snoc_length (frames : list Buffer) (frame : Buffer) :
  List.length (List.concat (frames ++ [frame]))
  = (List.length (List.concat frames) + List.length frame)%nat.
Proof.
  rewrite concat_app, length_app. cbn [List.concat].
  rewrite app_nil_r. reflexivity.
Qed.

Lemma processFrame_buffered (st : State) (frame : Buffer) :
  List.length frame = bytesPerFrame o ->
  buffered o st ->
  buffered o (fst (fst (processFrame o st frame)))
  /\ (forall audio,
        snd (processFrame o st frame) = Some audio ->
        minUtteranceFrames o * Z.of_nat (bytesPerFrame o)
        <= Z.of_nat (List.length audio)).
Proof.
  intros Hlen Hinv. unfold processFrame.
  destruct (isSpeech o frame).
  - cbn [fst snd]. split; [|discriminate].
    unfold buffered.
    cbn [isSpeaking silenceFrameCount audioBuffer Z.of_nat].
    intros Hsp. rewrite Hsp. rewrite concat_snoc_length, Hlen. lia.
  - destruct (isSpeaking st) eqn:Hsp.
    + specialize (Hinv Hsp).
      destruct (Z.leb_spec (vadSilenceFrames o)
                  (Z.of_nat (S (silenceFrameCount st)))) as [Hend | Hmore];
        cbn [fst snd]; split.
      * unfold buffered. cbn [isSpeaking]. discriminate.
      * intros audio E.
        apply (f_equal (fun r => match r with
                                 | Some a => List.length a
                                 | None => 0%nat
                                 end)) in E.
        cbv beta iota in E. rewrite <- E.
        rewrite concat_snoc_length, Hlen. unfold minUtteranceFrames. nia.
      * unfold buffered. cbn [isSpeaking silenceFrameCount audioBuffer].
        intros _. rewrite concat_snoc_length, Hlen. nia.
      * discriminate.
    + cbn [fst snd]. split; [|discriminate].
      unfold buffered. cbn [isSpeaking]. discriminate.
Qed.

Lemma processFrame_starts (st : State) (frame : Buffer) :
  forall e, In e (snd (fst (processFrame o st frame))) -> e = SpeechStart.
Proof.
  intros e. unfold processFrame.
  destruct (isSpeech o frame).
  - cbn [fst snd].
    destruct (negb (isSpeaking st)
              && (minSpeechFrames <=? S (speechFrameCount st))%nat
              && negb (speechStartSignaled st) && onSpeechStartGiven o);
      cbn [In]; intuition congruence.
  - destruct (isSpeaking st);
      [destruct (vadSilenceFrames o <=? _)|]; cbn [fst snd In]; tauto.
Qed.

Lemma runFrames_utterances :
  forall (frames : list Buffer) (st : State),
    Forall (fun frame => List.length frame = bytesPerFrame o) frames ->
    buffered o st ->
    forall e audio,
      In e (snd (runFrames o st frames)) ->
      utteranceOf e = Some audio ->
      minUtteranceFrames o * Z.of_nat (bytesPerFrame o)
      <= Z.of_nat (List.length audio).
Proof.
  induction frames as [|frame rest IH]; intros st Hall Hinv e audio Hin Hu.
  - destruct Hin.
  - inversion Hall as [|? ? Hlen Hrest]; subst.
    destruct (processFrame_buffered st frame Hlen Hinv) as (Hinv' & Hr).
    pose proof (processFrame_starts st frame) as Hevs.
    cbn [runFrames] in Hin.
    destruct (processFrame o st frame) as [[st1 evs] r].
    cbn [fst snd] in *.
    specialize (IH st1 Hrest Hinv' e audio).
    destruct (runFrames o st1 rest) as [st2 events]. cbn [fst snd] in *.
    apply in_app_or in Hin. destruct Hin as [Hin | Hin].
    + rewrite (Hevs e Hin) in Hu. discriminate.
    + apply in_app_or in Hin. destruct Hin as [Hin | Hin]; [|auto].
      destruct r as [a|]; [|destruct Hin]. cbn [dispatch] in Hin.
      destruct (tooShort o a); destruct Hin as [<- | []];
        cbn [utteranceOf] in Hu; injection Hu as <-; apply Hr; reflexivity.
Qed.

(** X18. Every utterance that ends, whether it is then skipped as too short
    or sent to transcription, holds at least the frame that started it and
    the silent frames that ended it:
    [1 + max(1, vadSilenceFrames)] frames of [bytesPerFrame] bytes. *)
Theorem utterance_spans_the_silence_window (chunks : list Buffer) :
  exists st events,
    runStream o initial chunks = Some (st, events)
    /\ forall e audio,
         In e events -> utteranceOf e = Some audio ->
         minUtteranceFrames o * Z.of_nat (bytesPerFrame o)
         <= Z.of_nat (List.length audio).
Proof.
  pose proof (runStream_runFrames o frame_size chunks initial frame_size)
    as Hrun.
  cbv zeta in Hrun. cbn [pendingBytes initial app] in Hrun.
  do 2 eexists. split; [exact Hrun|].
  intros e audio Hin Hu.
  eapply (runFrames_utterances _ initial); try eassumption.
  - eapply framesOf_lengths; [exact frame_size | apply Nat.le_refl].
  - unfold buffered. cbn [isSpeaking initial]. discriminate.
Qed.

(** Only an utterance that fails the duration check is reported as
    skipped. *)
Lemma runFrames_skipped (audio : Buffer) :
  forall (frames : list Buffer) (st : State),
    In (TooShort audio) (snd (runFrames o st frames)) ->
    tooShort o audio = true.
Proof.
  induction frames as [|frame rest IH]; intros st Hin; [destruct Hin|].
  cbn [runFrames] in Hin.
  pose proof (processFrame_starts st frame) as Hevs.
  destruct (processFrame o st frame) as [[st1 evs] r].
  specialize (IH st1). destruct (runFrames o st1 rest) as [st2 events].
  cbn [fst snd] in *.
  apply in_app_or in Hin. destruct Hin as [Hin | Hin];
    [specialize (Hevs _ Hin); discriminate|].
  apply in_app_or in Hin. destruct Hin as [Hin | Hin]; [|auto].
  destruct r as [a|]; [|destruct Hin]. cbn [dispatch] in Hin.
  destruct (tooShort o a) eqn:Ea; destruct Hin as [E | []];
    [injection E as <-; exact Ea | discriminate].
Qed.

Lemma sampleRate_positive : 0 < sampleRate o.
Proof.
  destruct (Z.lt_ge_cases 0 (sampleRate o)) as [H | H]; [exact H|].
  exfalso. pose proof frame_size as Hs.
  unfold bytesPerFrame, samplesPerFrame, frameSizeMs in Hs.
  assert ((sampleRate o * 32) / 1000 <= 0)
    by (apply Z.div_le_upper_bound; lia).
  lia.
Qed.

Lemma tooShort_monotone (a b : Buffer) :
  (List.length a <= List.length b)%nat ->
  tooShort o a = false -> tooShort o b = false.
Proof.
  intros Hlen Ha. unfold tooShort in *. cbv zeta in *.
  apply negb_false_iff in Ha. apply Qle_bool_iff in Ha.
  apply negb_false_iff. apply Qle_bool_iff.
  eapply Qle_trans; [exact Ha|].
  pose proof sampleRate_positive as Hsr.
  assert (Hinv : (0 <= / inject_Z (sampleRate o))%Q).
  { apply Qinv_le_0_compat. change 0%Q with (inject_Z 0).
    rewrite <- Zle_Qle. lia. }
  assert (Hab : (inject_Z (Z.of_nat (List.length a))
                 <= inject_Z (Z.of_nat (List.length b)))%Q)
    by (rewrite <- Zle_Qle; lia).
  unfold Qdiv.
  repeat apply Qmult_le_compat_r; try assumption; discriminate.
Qed.


End VadStreamFacts.

Section VadFrameSizeFacts.
Import Pcm Vad Utterance.

Lemma frameLoop_spins (o : Options) :
  bytesPerFrame o = 0%nat ->
  forall (fuel : nat) (combined : Buffer) (offset : nat) (st : State)
         (events : list Event),
    (offset <= List.length combined)%nat ->
    frameLoop o fuel combined offset st events = None.
Proof.
  intros Hzero. induction fuel as [|fuel IH];
    intros combined offset st events Hoff.
  - cbn [frameLoop]. rewrite Hzero.
    destruct (Nat.leb_spec (offset + 0) (List.length combined)); [|lia].
    reflexivity.
  - cbn [frameLoop]. rewrite Hzero.
    destruct (Nat.leb_spec (offset + 0) (List.length combined)); [|lia].
    destruct (processFrame o st _) as [[st' evs] result].
    apply IH. lia.
Qed.

(** With a sample rate below 32 Hz a frame has no samples, the frame
    loop of [transform] does not advance and never ends: whatever the
    number of iterations allowed, the loop has not returned, for every
    detector state and every chunk. *)
Theorem zero_frame_size_never_returns (o : Options) (st : State)
  (chunk : Buffer) :
  0 <= sampleRate o <= 31 ->
  bytesPerFrame o = 0%nat
  /\ (forall fuel,
        frameLoop o fuel (pendingBytes st ++ chunk) 0 st [] = None)
  /\ transform o st chunk = None.
Proof.
  intros Hrate.
  assert (Hzero : bytesPerFrame o = 0%nat).
  { unfold bytesPerFrame, samplesPerFrame, frameSizeMs.
    rewrite Z.div_small by lia. reflexivity. }
  split; [exact Hzero|]. split.
  - intros fuel. apply (frameLoop_spins o Hzero). lia.
  - unfold transform. cbv zeta.
    rewrite (frameLoop_spins o Hzero) by lia. reflexivity.
Qed.

Lemma zero_frame_size_witness :
  bytesPerFrame slow = 0%nat
  /\ (forall fuel,
        frameLoop slow fuel (pendingBytes initial ++ [x01; x02]) 0 initial []
        = None)
  /\ transform slow initial [x01; x02] = None.
Proof.
  apply (zero_frame_size_never_returns slow initial [x01; x02]).
  cbn [sampleRate slow]. lia.
Defined.

End VadFrameSizeFacts.

Section VadStreamExamples.
Import Pcm Vad Utterance.

Lemma vad_chunking_witness :
  exists st events,
    runStream defaults initial [loud1 ++ quiet; loud2]
    = Some (st, events)
    /\ runStream defaults initial [loud1; quiet ++ loud2]
       = Some (st, events)
    /\ (List.length (pendingBytes st) < bytesPerFrame defaults)%nat.
Proof.
  apply (vad_chunking_invariant defaults ltac:(apply Nat.ltb_lt; vm_compute; reflexivity)
           [loud1 ++ quiet; loud2] [loud1; quiet ++ loud2]).
  cbn [List.concat]. rewrite !app_nil_r, app_assoc. reflexivity.
Defined.

Lemma quiet_audio_witness :
  exists st,
    runStream deaf initial [loud4; loud4; loud4; loud4; loud4]
    = Some (st, [])
    /\ isSpeaking st = false
    /\ audioBuffer st = [].
Proof.
  apply (quiet_audio_is_never_speech deaf ltac:(apply Nat.ltb_lt; vm_compute; reflexivity) 32768
           [loud4; loud4; loud4; loud4; loud4]).
  - lia.
  - discriminate.
  - intros frame _ i sample Hread.
    pose proof (read_range _ _ _ Hread). lia.
Defined.

Lemma utterance_window_witness :
  exists st events,
    runStream defaults initial ([loud1; loud2; loud3; loud4] ++ repeat quiet 15)
    = Some (st, events)
    /\ forall e audio,
         In e events -> utteranceOf e = Some audio ->
         minUtteranceFrames defaults * Z.of_nat (bytesPerFrame defaults)
         <= Z.of_nat (List.length audio).
Proof.
  apply (utterance_spans_the_silence_window defaults
           ltac:(apply Nat.ltb_lt; vm_compute; reflexivity)
           ([loud1; loud2; loud3; loud4] ++ repeat quiet 15)).
Defined.


End VadStreamExamples.

(** ** Delivery in chunks *)

Section DeliveryFacts.
Import Pcm Delivery.

Variable size : nat.
Hypothesis size_positive : (0 < size)%nat.

Lemma subarray_step (buffer : Buffer) (i : nat) :
  (i < List.length buffer)%nat ->
  let chunk := subarray buffer i (Nat.min (i + size) (List.length buffer)) in
  skipn i buffer = chunk ++ skipn (i + size) buffer
  /\ (0 < List.length chunk <= size)%nat.
Proof.
  intros Hi. cbv zeta. unfold subarray.
  set (n := (Nat.min (i + size) (List.length buffer) - i)%nat).
  assert (Hn : (0 < n <= size)%nat) by (unfold n; lia).
  split.
  - rewrite <- (firstn_skipn n (skipn i buffer)) at 1. f_equal.
    rewrite skipn_skipn.
    destruct (Nat.le_gt_cases (i + size) (List.length buffer)) as [Hfit | Hend].
    + f_equal. unfold n. lia.
    + rewrite !skipn_all2 by (unfold n; lia). reflexivity.
  - rewrite firstn_length_le; [exact Hn|].
    rewrite length_skipn. unfold n. lia.
Qed.

Lemma streamChunksFrom_spec :
  forall (fuel : nat) (buffer : Buffer) (checkInterrupt : option (nat -> bool))
         (i k : nat),
    (List.length buffer - i < fuel)%nat ->
    exists chunks completed rest,
      streamChunksFrom size fuel buffer checkInterrupt i k
      = Some (chunks, completed)
      /\ skipn i buffer = List.concat chunks ++ rest
      /\ (completed = true -> rest = [])
      /\ Forall (fun chunk => (0 < List.length chunk <= size)%nat) chunks
      /\ (checkInterrupt = None -> completed = true)
      /\ (forall check, checkInterrupt = Some check ->
            (forall j, (j < List.length chunks)%nat -> check (k + j)%nat = false)
            /\ (completed = false -> check (k + List.length chunks)%nat = true)).
Proof.
  induction fuel as [|fuel IH]; intros buffer checkInterrupt i k Hfuel; [lia|].
  cbn [streamChunksFrom].
  destruct (Nat.ltb_spec i (List.length buffer)) as [Hi | Hi].
  - destruct (subarray_step buffer i Hi) as [Hsplit Hlen].
    destruct (match checkInterrupt with
              | Some check => check k
              | None => false
              end) eqn:Hcheck.
    + exists [], false, (skipn i buffer). cbn [List.concat app List.length].
      repeat split; try discriminate; try constructor.
      * intros ->. discriminate.
      * intros j Hj. lia.
      * intros _. subst checkInterrupt. rewrite Nat.add_0_r. exact Hcheck.
    + destruct (IH buffer checkInterrupt (i + size)%nat (S k) ltac:(lia))
        as (chunks & completed & rest & Hrun & Hrest & Hdone & Hall & Hnone
            & Hsome).
      rewrite Hrun. eexists (_ :: chunks), completed, rest.
      split; [reflexivity|]. cbn [List.concat List.length].
      split; [rewrite Hsplit, Hrest, app_assoc; reflexivity|].
      split; [exact Hdone|].
      split; [constructor; [exact Hlen | exact Hall]|].
      split; [exact Hnone|].
      intros check Hc. destruct (Hsome check Hc) as [Hbefore Hat].
      subst checkInterrupt. split.
      * intros [|j] Hj; [rewrite Nat.add_0_r; exact Hcheck|].
        replace (k + S j)%nat with (S k + j)%nat by lia.
        apply Hbefore. lia.
      * intros Hf. replace (k + S (List.length chunks))%nat
          with (S k + List.length chunks)%nat by lia.
        apply Hat. exact Hf.
  - exists [], true, []. cbn [List.concat app List.length].
    repeat split; try constructor; try discriminate.
    + apply skipn_all2. lia.
    + intros j Hj. lia.
Qed.

End DeliveryFacts.

Section StreamChunksFacts.
Import Pcm Delivery.

(** X20. [streamChunks] always returns, and what it enqueues is the buffer
    from its start, cut into non-empty chunks of at most 4096 bytes:
    nothing is reordered, repeated or skipped.  When it returns [true] the
    chunks are the whole buffer; without [checkInterrupt], as in [speak],
    it always does, so an interrupt never cuts a one-off utterance.  When
    it returns [false] the check that stopped it is the first that
    answered yes, and one chunk was enqueued for every check before
    it. *)
Theorem stream_chunks_deliver_a_prefix (buffer : Buffer)
  (checkInterrupt : option (nat -> bool)) :
  exists chunks completed rest,
    streamChunks buffer checkInterrupt = Some (chunks, completed)
    /\ buffer = List.concat chunks ++ rest
    /\ (completed = true -> List.concat chunks = buffer)
    /\ Forall (fun chunk => (0 < List.length chunk <= chunkSize)%nat) chunks
    /\ (checkInterrupt = None -> completed = true)
    /\ (forall check, checkInterrupt = Some check ->
          (forall j, (j < List.length chunks)%nat -> check j = false)
          /\ (completed = false -> check (List.length chunks) = true)).
Proof.
  assert (Hsize : (0 < chunkSize)%nat) by (unfold chunkSize; lia).
  destruct (streamChunksFrom_spec chunkSize Hsize (S (List.length buffer))
              buffer checkInterrupt 0 0 ltac:(lia))
    as (chunks & completed & rest & Hrun & Hrest & Hdone & Hall & Hnone
        & Hsome).
  exists chunks, completed, rest. cbn [skipn] in Hrest.
  split; [exact Hrun|]. split; [exact Hrest|].
  split; [intros Hc; rewrite Hrest, (Hdone Hc), app_nil_r; reflexivity|].
  split; [exact Hall|]. split; [exact Hnone|].
  intros check Hc. apply (Hsome check Hc).
Qed.

End StreamChunksFacts.

(** ** The WAV header *)

Section WavFacts.
Import Pcm Wav.

Lemma valueLE_bytesLE4 (value : Z) :
  0 <= value <= 4294967295 -> valueLE (bytesLE 4 value) = value.
Proof.
  intros H. cbn [bytesLE valueLE]. rewrite !byteToZ_byteOfZ.
  pose proof (Z.div_mod value 256 ltac:(lia)).
  pose proof (Z.div_mod (value / 256) 256 ltac:(lia)).
  pose proof (Z.div_mod (value / 256 / 256) 256 ltac:(lia)).
  pose proof (Z.mod_pos_bound value 256 ltac:(lia)).
  pose proof (Z.mod_pos_bound (value / 256) 256 ltac:(lia)).
  pose proof (Z.mod_pos_bound (value / 256 / 256) 256 ltac:(lia)).
  assert (0 <= value / 256 / 256 / 256 < 256).
  { split; [repeat apply Z.div_pos; lia|].
    repeat (apply Z.div_lt_upper_bound; [lia|]). lia. }
  rewrite (Z.mod_small (value / 256 / 256 / 256) 256) by lia.
  lia.
Qed.

Lemma valueLE_bytesLE2 (value : Z) :
  0 <= value <= 65535 -> valueLE (bytesLE 2 value) = value.
Proof.
  intros H. cbn [bytesLE valueLE]. rewrite !byteToZ_byteOfZ.
  pose proof (Z.div_mod value 256 ltac:(lia)).
  pose proof (Z.mod_pos_bound value 256 ltac:(lia)).
  assert (0 <= value / 256 < 256).
  { split; [apply Z.div_pos; lia|].
    apply Z.div_lt_upper_bound; lia. }
  rewrite (Z.mod_small (value / 256) 256) by lia.
  lia.
Qed.

(** The header as the sequence of writes leaves it. *)
Lemma createWavHeader_bytes (len sampleRate : Z) :
  0 <= len <= 4294967259 ->
  0 <= sampleRate <= 2147483647 ->
  createWavHeader len sampleRate
  = Some (RIFF ++ bytesLE 4 (36 + len) ++ WAVE ++ fmt_
          ++ bytesLE 4 16 ++ bytesLE 2 1 ++ bytesLE 2 1
          ++ bytesLE 4 sampleRate ++ bytesLE 4 (sampleRate * 2)
          ++ bytesLE 2 2 ++ bytesLE 2 16 ++ data ++ bytesLE 4 len).
Proof.
  intros Hlen Hrate. unfold createWavHeader, writeUInt32LE, writeUInt16LE.
  cbv zeta.
  repeat match goal with
  | |- context [(?a <=? ?b) && (?c <=? ?d)] =>
      replace ((a <=? b) && (c <=? d)) with true
        by (symmetry; apply andb_true_intro; split; apply Z.leb_le; lia)
  end.
  reflexivity.
Qed.

(** X21. For an audio length of at most [2^32 - 37] bytes and a sample rate
    below [2^31], [createWavHeader] returns 44 bytes that a reader decodes
    to the values written: the tags [RIFF], [WAVE], [fmt ] and [data], a
    RIFF size of [36 + len], PCM format, one channel, the sample rate, a
    byte rate of twice the sample rate, a block of two bytes, sixteen bits
    and a data size of [len]; so byte rate, block size and bits agree with
    each other, and both sizes with the audio that follows the header. *)
Theorem wav_header_fields_read_back (len sampleRate : Z) :
  0 <= len <= 4294967259 ->
  0 <= sampleRate <= 2147483647 ->
  exists header,
    createWavHeader len sampleRate = Some header
    /\ List.length header = 44%nat
    /\ firstn 4 header = RIFF
    /\ readUInt32LE header 4 = 36 + len
    /\ firstn 8 (skipn 8 header) = WAVE ++ fmt_
    /\ readUInt32LE header 16 = 16
    /\ readUInt16LE header 20 = 1
    /\ readUInt16LE header 22 = 1
    /\ readUInt32LE header 24 = sampleRate
    /\ readUInt32LE header 28 = sampleRate * 2
    /\ readUInt16LE header 32 = 2
    /\ readUInt16LE header 34 = 16
    /\ firstn 4 (skipn 36 header) = data
    /\ readUInt32LE header 40 = len.
Proof.
  intros Hlen Hrate. eexists.
  split; [apply createWavHeader_bytes; assumption|].
  unfold readUInt32LE, readUInt16LE.
  cbn [RIFF WAVE fmt_ data bytesLE app List.length firstn skipn].
  repeat split; try reflexivity;
    try (apply (valueLE_bytesLE4 _); lia);
    try (apply (valueLE_bytesLE2 _); lia).
Qed.

Lemma wav_header_witness :
  exists header,
    createWavHeader 16384 16000 = Some header
    /\ List.length header = 44%nat
    /\ readUInt32LE header 40 = 16384.
Proof.
  destruct (wav_header_fields_read_back 16384 16000 ltac:(lia) ltac:(lia))
    as (header & Hrun & Hlen & H).
  exists header. split; [exact Hrun|]. split; [exact Hlen|].
  apply H.
Defined.

End WavFacts.

(** ** Sessions of the Hume adapter *)

Section HumeSessionFacts.
Import Tts Tts.Hume HumeSession.

Variable cb : Callbacks.

Lemma elapse_oneTimer (now : Z) (st : State) :
  oneTimer st ->
  oneTimer (elapse now st)
  /\ Forall (fun due => now < due) (timers (elapse now st))
  /\ ws (elapse now st) = ws st
  /\ connectionPromise (elapse now st) = connectionPromise st
  /\ connections (elapse now st) = connections st.
Proof.
  intros [[Hflag Htimers] | [Hflag [due Htimers]]];
    unfold elapse, oneTimer; cbn [isInterrupted timers ws connectionPromise
                                  connections];
    rewrite Htimers, Hflag; cbn [filter].
  - repeat split; auto.
  - destruct (Z.leb_spec due now); cbn [negb].
    + repeat split; auto.
    + repeat split; eauto.
Qed.

Lemma step_invariant (now : Z) (action : Action) (st : State) :
  oneTimer st -> knownSocket st ->
  oneTimer (fst (step cb now action st))
  /\ Forall (fun due => now < due) (timers (fst (step cb now action st)))
  /\ knownSocket (fst (step cb now action st)).
Proof.
  intros Hone Hknown. unfold step. cbv zeta.
  destruct (elapse_oneTimer now st Hone) as (Hone0 & Hdue0 & Hws & _ & Hn).
  assert (Hknown0 : knownSocket (elapse now st)).
  { intros socket. rewrite Hws, Hn. apply Hknown. }
  set (st0 := elapse now st) in *. clearbody st0.
  destruct action as [| opens text | socket].
  - unfold interruptTTS.
    destruct (isInterrupted st0) eqn:Hflag; cbn [fst].
    + repeat split; assumption.
    + destruct Hone0 as [[_ Htimers] | [Hcontra _]]; [|congruence].
      unfold oneTimer, knownSocket. cbn [isInterrupted timers ws connections].
      rewrite Htimers. cbn [app]. split; [right; eauto|].
      split; [constructor; [unfold cooldownMs; lia | constructor]|].
      discriminate.
  - unfold transform.
    destruct (isShuttingDown st0 || isInterrupted st0) eqn:Hgate; cbn [fst];
      [repeat split; assumption|].
    apply orb_false_elim in Hgate. destruct Hgate as [_ Hflag].
    assert (Htimers : timers st0 = []).
    { destruct Hone0 as [[_ Ht] | [Hcontra _]]; [exact Ht | congruence]. }
    destruct (ws st0) as [socket|] eqn:Hsock; cbn [fst];
      [repeat split; assumption|].
    assert (Hopen : forall promise,
              oneTimer
                {| ws := Some (connections st0); connectionPromise := promise;
                   closeResolve := true; isShuttingDown := false;
                   isInterrupted := false; timers := timers st0;
                   connections := S (connections st0) |}
              /\ Forall (fun due => now < due) (timers st0)
              /\ knownSocket
                   {| ws := Some (connections st0);
                      connectionPromise := promise;
                      closeResolve := true; isShuttingDown := false;
                      isInterrupted := false; timers := timers st0;
                      connections := S (connections st0) |}).
    { intros promise. split; [left; split; [reflexivity | exact Htimers]|].
      split; [exact Hdue0|].
      intros s E. cbn [ws connections] in *. injection E as <-. lia. }
    assert (Hfail : forall promise,
              oneTimer
                {| ws := None; connectionPromise := promise;
                   closeResolve := true; isShuttingDown := false;
                   isInterrupted := false; timers := timers st0;
                   connections := S (connections st0) |}
              /\ Forall (fun due => now < due) (timers st0)
              /\ knownSocket
                   {| ws := None; connectionPromise := promise;
                      closeResolve := true; isShuttingDown := false;
                      isInterrupted := false; timers := timers st0;
                      connections := S (connections st0) |}).
    { intros promise. split; [left; split; [reflexivity | exact Htimers]|].
      split; [exact Hdue0|]. intros s E. discriminate E. }
    destruct (connectionPromise st0) as [[|]|]; try destruct opens; cbn [fst];
      first [apply Hopen | apply Hfail | repeat split; assumption].
  - unfold socketClosed. cbn [fst]. unfold oneTimer, knownSocket.
    cbn [isInterrupted timers ws connections].
    split; [exact Hone0|]. split; [exact Hdue0|].
    intros s. destruct (ws st0) as [current|] eqn:Hsock; [|discriminate].
    destruct (Nat.eqb current socket); [discriminate|].
    intros E. apply Hknown0. rewrite Hsock. exact E.
Qed.

Lemma run_invariant :
  forall (schedule : list (Z * Action)) (st : State),
    oneTimer st -> knownSocket st ->
    oneTimer (fst (run cb schedule st))
    /\ knownSocket (fst (run cb schedule st)).
Proof.
  induction schedule as [|[now action] rest IH]; intros st Hone Hknown.
  - split; assumption.
  - cbn [run].
    destruct (step_invariant now action st Hone Hknown) as (H1 & _ & H2).
    destruct (step cb now action st) as [st1 events]. cbn [fst] in *.
    specialize (IH st1 H1 H2).
    destruct (run cb rest st1) as [st2 events']. exact IH.
Qed.

Lemma run_snoc (schedule : list (Z * Action)) (now : Z) (action : Action) :
  forall st,
    fst (run cb (schedule ++ [(now, action)]) st)
    = fst (step cb now action (fst (run cb schedule st))).
Proof.
  induction schedule as [|[t a] rest IH]; intros st.
  - cbn [app run fst]. destruct (step cb now action st). reflexivity.
  - cbn [app run]. destruct (step cb t a st) as [st1 events].
    specialize (IH st1).
    destruct (run cb (rest ++ [(now, action)]) st1) as [st2 e2].
    destruct (run cb rest st1) as [st3 e3]. exact IH.
Qed.

(** X22. In every session of the Hume adapter, whatever the order and the
    times of interrupts, text segments and socket close events, at most
    one timer is pending; the interrupt flag is set exactly while one is,
    and after an action at time [now] that timer is due later than [now].
    So the flag is cleared once, by the timer of the interrupt that set
    it, and the socket in use is always one the adapter created. *)
Theorem hume_at_most_one_cooldown_timer
  (schedule : list (Z * Action)) (now : Z) (action : Action) :
  let st := fst (run cb (schedule ++ [(now, action)]) initial) in
  oneTimer st
  /\ Forall (fun due => now < due) (timers st)
  /\ knownSocket st.
Proof.
  cbv zeta. rewrite run_snoc.
  assert (H0 : oneTimer initial) by (left; split; reflexivity).
  assert (K0 : knownSocket initial) by (intros s; discriminate).
  destruct (run_invariant schedule initial H0 K0) as [H1 K1].
  apply step_invariant; assumption.
Qed.

Lemma texts_after_failure :
  forall (schedule : list (Z * Action)) (st : State),
    forallb isText schedule = true ->
    ws st = None -> connectionPromise st = Some false ->
    forallb isFailed (snd (run cb schedule st)) = true
    /\ ws (fst (run cb schedule st)) = None
    /\ connectionPromise (fst (run cb schedule st)) = Some false
    /\ connections (fst (run cb schedule st)) = connections st.
Proof.
  induction schedule as [|[now action] rest IH]; intros st Htexts Hws Hpromise.
  - cbn [run fst snd forallb]. auto.
  - cbn [forallb] in Htexts. apply andb_prop in Htexts.
    destruct Htexts as [Hone Hrest].
    destruct action as [| opens text | socket]; try discriminate Hone.
    cbn [run]. unfold step. cbv zeta. unfold transform.
    assert (Hws0 : ws (elapse now st) = None) by exact Hws.
    assert (Hp0 : connectionPromise (elapse now st) = Some false)
      by exact Hpromise.
    assert (Hn0 : connections (elapse now st) = connections st)
      by reflexivity.
    set (st0 := elapse now st) in *. clearbody st0.
    destruct (isShuttingDown st0 || isInterrupted st0);
      rewrite ?Hws0, ?Hp0; cbn [map];
      destruct (IH st0 Hrest Hws0 Hp0) as (He & Hw & Hp & Hn);
      destruct (run cb rest st0) as [st2 events'];
      cbn [fst snd app forallb isFailed andb] in *;
      rewrite <- Hn0; auto.
Qed.

(** X23. A connection attempt that fails is never retried: when a text
    segment finds no socket and the socket opened for it does not reach
    the open state, the rejected promise stays in [connectionPromise], and
    every later text segment, whatever its time, is dropped on the error
    path without a new connection, until [interrupt()] clears the promise. *)
Theorem hume_failed_connection_is_not_retried
  (st : State) (text : string) (schedule : list (Z * Action)) :
  isShuttingDown st = false -> isInterrupted st = false ->
  ws st = None -> connectionPromise st <> Some false ->
  forallb isText schedule = true ->
  let failed := fst (transform false text st) in
  snd (transform false text st)
  = [Connect (connections st); Failed text]
  /\ forallb isFailed (snd (run cb schedule failed)) = true
  /\ connections (fst (run cb schedule failed)) = S (connections st)
  /\ (forall now,
        isInterrupted (elapse now (fst (run cb schedule failed))) = false ->
        connectionPromise
          (fst (step cb now Interrupt (fst (run cb schedule failed))))
        = None).
Proof.
  intros Hdown Hflag Hws Hpromise Htexts. cbv zeta.
  set (failed := {| ws := None; connectionPromise := Some false;
                    closeResolve := true; isShuttingDown := false;
                    isInterrupted := false; timers := timers st;
                    connections := S (connections st) |}).
  assert (Ht : transform false text st
               = (failed, [Connect (connections st); Failed text])).
  { unfold transform. rewrite Hdown, Hflag, Hws. cbn [orb].
    destruct (connectionPromise st) as [[|]|]; try reflexivity.
    congruence. }
  rewrite Ht. cbn [fst snd].
  destruct (texts_after_failure schedule failed Htexts eq_refl eq_refl)
    as (He & Hw & Hp & Hn).
  split; [reflexivity|]. split; [exact He|]. split; [exact Hn|].
  intros now Hclear. unfold step. cbv zeta. unfold interruptTTS.
  rewrite Hclear. reflexivity.
Qed.

End HumeSessionFacts.

Section HumeSessionExamples.
Import Tts Tts.Hume HumeSession.
Local Open Scope string_scope.

Lemma hume_failed_connection_witness :
  let cb := {| onInterruptGiven := true; onAudioCompleteGiven := true |} in
  let failed := fst (transform false "Hello." initial) in
  snd (transform false "Hello." initial) = [Connect 0; Failed "Hello."]
  /\ forallb isFailed
       (snd (run cb [(10, Text true "How are you?"); (500, Text true "Bye.")]
               failed)) = true.
Proof.
  cbv zeta.
  destruct (hume_failed_connection_is_not_retried
              {| onInterruptGiven := true; onAudioCompleteGiven := true |}
              initial "Hello."
              [(10, Text true "How are you?"); (500, Text true "Bye.")]
              eq_refl eq_refl eq_refl ltac:(discriminate) eq_refl)
    as (H1 & H2 & _).
  split; [exact H1 | exact H2].
Defined.

End HumeSessionExamples.

(** ** The Twilio connection *)

Section TwilioFacts.
Import TwilioCall.

Lemma step_closed (st : State) (event : Event) :
  pipelineClosed st = true ->
  pipelineClosed (fst (step st event)) = true
  /\ forallb (fun e => negb (isAudio e)) (snd (step st event)) = true.
Proof.
  intros Hclosed.
  destruct event; cbn [step]; unfold closeCall, closePipeline,
    sendAudioToTwilio, sendMarkToTwilio, clearTwilioAudioBuffer, withFlags;
    rewrite ?Hclosed; cbn [orb];
    repeat match goal with
    | |- context [if ?c then _ else _] => destruct c
    end;
    cbn [fst snd pipelineClosed forallb app isAudio negb andb];
    split; first [reflexivity | assumption].
Qed.

(** X24. A closed pipeline stays closed and silent: once [pipelineClosed]
    is set (by a stop message, by the socket closing, by an executed
    hang-up or by a failure), no sequence of later events clears it, no
    audio from Twilio is enqueued into the pipeline and no audio is sent
    back to Twilio; marks and clear messages are all that can still go
    out. *)
Theorem closed_pipeline_stays_silent (events : list Event) (st : State) :
  pipelineClosed st = true ->
  pipelineClosed (fst (run events st)) = true
  /\ forallb (fun e => negb (isAudio e)) (snd (run events st)) = true.
Proof.
  revert st. induction events as [|event rest IH]; intros st Hclosed.
  - split; [exact Hclosed | reflexivity].
  - cbn [run]. destruct (step_closed st event Hclosed) as [H1 H2].
    destruct (step st event) as [st1 effects]. cbn [fst snd] in *.
    destruct (IH st1 H1) as [H3 H4].
    destruct (run rest st1) as [st2 effects']. cbn [fst snd] in *.
    split; [exact H3|]. rewrite forallb_app, H2, H4. reflexivity.
Qed.

Lemma step_withHangUp (hangUp : option string) (st : State) (event : Event) :
  touchesHangUp event = false ->
  step (withHangUp hangUp st) event
  = (withHangUp hangUp (fst (step st event)), snd (step st event)).
Proof.
  intros Hquiet.
  destruct st as [sid socket state closed errored pending cclosed waiting seq].
  destruct event; try discriminate Hquiet; cbn [step];
    unfold closePipeline, sendAudioToTwilio, clearTwilioAudioBuffer,
      withFlags, withHangUp, canSend;
    cbn [streamSid twilioWs readyState pipelineClosed pipelineErrored
         pendingHangUp controllerClosed readers mediaSequence];
    repeat match goal with
    | |- context [if ?c then _ else _] => destruct c
    end;
    reflexivity.
Qed.

Lemma run_withHangUp (hangUp : option string) :
  forall (events : list Event) (st : State),
    forallb (fun event => negb (touchesHangUp event)) events = true ->
    run events (withHangUp hangUp st)
    = (withHangUp hangUp (fst (run events st)), snd (run events st)).
Proof.
  induction events as [|event rest IH]; intros st Hquiet; [reflexivity|].
  cbn [forallb] in Hquiet. apply andb_prop in Hquiet.
  destruct Hquiet as [Hone Hrest]. apply negb_true_iff in Hone.
  cbn [run]. rewrite (step_withHangUp hangUp st event Hone).
  destruct (step st event) as [st1 effects]. cbn [fst snd].
  rewrite (IH st1 Hrest).
  destruct (run rest st1) as [st2 effects']. reflexivity.
Qed.

(** X25. A hang-up is deferred to the end of the audio.  [onHangUp] only
    records the reason: until the next audio-complete callback the
    connection behaves as if no hang-up had been asked for.  That callback
    then sends the [audio-complete] mark, the [call-ended] mark and closes
    the input stream, once, and forgets the reason; with an empty reason
    it closes nothing and keeps the reason. *)
Theorem hang_up_waits_for_audio_complete
  (st : State) (reason : string) (events : list Event) :
  forallb (fun event => negb (touchesHangUp event)) events = true ->
  let requested := run (HangUpRequested reason :: events) st in
  let plain := run events st in
  snd requested = snd plain
  /\ fst requested = withHangUp (Some reason) (fst plain)
  /\ (reason <> EmptyString ->
      snd (step (fst requested) AudioCompleted)
      = sendMarkToTwilio "audio-complete" (fst plain)
        ++ sendMarkToTwilio "call-ended" (fst plain)
        ++ (if controllerClosed (fst plain) then [] else [ControllerClose])
      /\ pipelineClosed (fst (step (fst requested) AudioCompleted)) = true
      /\ pendingHangUp (fst (step (fst requested) AudioCompleted)) = None
      /\ snd (step (fst (step (fst requested) AudioCompleted)) AudioCompleted)
         = sendMarkToTwilio "audio-complete" (fst plain))
  /\ (reason = EmptyString ->
      step (fst requested) AudioCompleted
      = (fst requested, sendMarkToTwilio "audio-complete" (fst plain))).
Proof.
  intros Hquiet. cbv zeta.
  assert (Hreq : run (HangUpRequested reason :: events) st
                 = (withHangUp (Some reason) (fst (run events st)),
                    snd (run events st))).
  { cbn [run step].
    change {| streamSid := streamSid st; twilioWs := twilioWs st;
              readyState := readyState st;
              pipelineClosed := pipelineClosed st;
              pipelineErrored := pipelineErrored st;
              pendingHangUp := Some reason;
              controllerClosed := controllerClosed st;
              readers := readers st;
              mediaSequence := mediaSequence st |}
      with (withHangUp (Some reason) st).
    rewrite (run_withHangUp (Some reason) events st Hquiet). reflexivity. }
  rewrite Hreq. cbn [fst snd].
  set (final := fst (run events st)).
  split; [reflexivity|]. split; [reflexivity|]. split.
  - intros Hne. destruct reason as [|c r]; [congruence|].
    cbn [step withHangUp pendingHangUp truthy].
    unfold closeCall, closePipeline, sendMarkToTwilio, canSend.
    cbn [streamSid twilioWs readyState pipelineClosed pipelineErrored
         pendingHangUp controllerClosed readers mediaSequence fst snd truthy].
    repeat split; reflexivity.
  - intros ->. cbn [step withHangUp pendingHangUp truthy].
    unfold sendMarkToTwilio, canSend.
    cbn [streamSid twilioWs readyState]. reflexivity.
Qed.

End TwilioFacts.

Section TwilioExamples.
Import TwilioCall.
Local Open Scope string_scope.

Lemma closed_pipeline_witness :
  let st := fst (run [Open; SocketState 1; Start "MZ1"; Stop] initial) in
  pipelineClosed
    (fst (run [Media "AAAA" false; Output "BBBB"; AudioCompleted] st)) = true
  /\ forallb (fun e => negb (isAudio e))
       (snd (run [Media "AAAA" false; Output "BBBB"; AudioCompleted] st))
     = true.
Proof.
  cbv zeta.
  apply (closed_pipeline_stays_silent
           [Media "AAAA" false; Output "BBBB"; AudioCompleted]).
  reflexivity.
Defined.

Lemma hang_up_waits_witness :
  let st := fst (run [Open; SocketState 1; Start "MZ1"] initial) in
  let events := [Media "AAAA" false; Output "BBBB"] in
  snd (run (HangUpRequested "user is done" :: events) st)
  = snd (run events st)
  /\ snd (step (fst (run (HangUpRequested "user is done" :: events) st))
            AudioCompleted)
     = [SendMark "audio-complete"; SendMark "call-ended"; ControllerClose].
Proof.
  cbv zeta.
  destruct (hang_up_waits_for_audio_complete
              (fst (run [Open; SocketState 1; Start "MZ1"] initial))
              "user is done" [Media "AAAA" false; Output "BBBB"] eq_refl)
    as (H1 & _ & H3 & _).
  split; [exact H1|].
  destruct (H3 ltac:(discriminate)) as [H _]. exact H.
Defined.

End TwilioExamples.

(** ** Conversations *)

Section ConversationFacts.
Import Agent Conversation.

Lemma scanTasks_no_agent_call (cb : Callbacks) :
  forall ts pending,
    forallb (fun e => negb (callsAgent e)) (snd (scanTasks cb ts pending))
    = true.
Proof.
  induction ts as [|task rest IH]; intros pending; [reflexivity|].
  cbn [scanTasks]. destruct (interrupts task) as [[|v vs]|]; try apply IH.
  specialize (IH v). destruct (scanTasks cb rest v) as [final effects].
  cbn [fst snd] in *. rewrite !forallb_app, IH.
  destruct (onInterruptGiven cb); destruct v; reflexivity.
Qed.

Lemma enqueues_no_agent_call (texts : list string) :
  forallb (fun e => negb (callsAgent e)) (map Enqueue texts) = true.
Proof. induction texts; [reflexivity | assumption]. Qed.

Lemma quiet_effects_on_thread (thread : string) (effects : list Effect) :
  forallb (fun e => negb (callsAgent e)) effects = true ->
  forallb (onThread thread) effects = true.
Proof.
  induction effects as [|e rest IH]; [reflexivity|].
  cbn [forallb]. intros H. apply andb_prop in H. destruct H as [He Hrest].
  rewrite (IH Hrest). destruct e; try discriminate He; reflexivity.
Qed.

Lemma transform_thread (cb : Callbacks) (turn : Turn) (st : State)
  (text : string) :
  threadId (stateOf (transform cb turn st text)) = threadId st
  /\ forallb (onThread (threadId st)) (effectsOf (transform cb turn st text))
     = true.
Proof.
  unfold transform, stateOf, effectsOf.
  destruct (stopped st); [split; reflexivity|].
  destruct (streamed turn) as [events|].
  - rewrite consume_spec.
    pose proof (scanTasks_no_agent_call cb
                  (match tasks turn with Some ts => ts | None => [] end)
                  JUndefined) as Hscan.
    destruct (scanTasks cb _ JUndefined) as [pending interruptEffects].
    cbn [fst snd] in *. split; [reflexivity|].
    cbn [forallb onThread]. rewrite String.eqb_refl. cbn [andb].
    rewrite !forallb_app. cbn [forallb onThread].
    rewrite String.eqb_refl. cbn [andb].
    rewrite (quiet_effects_on_thread _ _ Hscan), andb_true_r.
    apply andb_true_intro. split.
    + apply quiet_effects_on_thread. apply enqueues_no_agent_call.
    + destruct (negb (isNull _) && onHangUpGiven cb); reflexivity.
  - cbn [fst snd forallb onThread]. rewrite String.eqb_refl. split; reflexivity.
Qed.

(** X27. A conversation stays on one thread and a stop is final: over any
    sequence of text segments and agent behaviours, every call of the agent
    ([agent.stream] and [agent.getState]) names the thread the voice agent
    was created with, which never changes; and once the agent is stopped,
    every later segment is dropped without any effect and the state no
    longer changes, whatever suspension is held. *)
Theorem conversation_keeps_thread_and_stop_is_final
  (cb : Callbacks) (turns : list (Turn * string)) (st : State) :
  threadId (fst (converse cb turns st)) = threadId st
  /\ forallb (onThread (threadId st)) (snd (converse cb turns st)) = true
  /\ (stopped st = true -> converse cb turns st = (st, [])).
Proof.
  revert st. induction turns as [|[turn text] rest IH]; intros st.
  - cbn [converse fst snd forallb]. auto.
  - cbn [converse].
    destruct (transform_thread cb turn st text) as [Hthread Heffects].
    assert (Hstop : stopped st = true ->
              transform cb turn st text = (st, [], true)).
    { intros Hs. unfold transform. rewrite Hs. reflexivity. }
    unfold stateOf, effectsOf in *.
    destruct (transform cb turn st text) as [[st1 effects] resolved].
    cbn [fst snd] in *.
    destruct resolved.
    + destruct (IH st1) as (H1 & H2 & H3).
      destruct (converse cb rest st1) as [st2 effects'] eqn:Hrest.
      cbn [fst snd] in *. rewrite Hthread in *.
      split; [exact H1|]. split.
      * rewrite forallb_app, Heffects, H2. reflexivity.
      * intros Hs. specialize (Hstop Hs). injection Hstop as -> ->.
        specialize (H3 Hs). injection H3 as -> ->. reflexivity.
    + cbn [fst snd]. split; [exact Hthread|]. split; [exact Heffects|].
      intros Hs. specialize (Hstop Hs). discriminate Hstop.
Qed.

End ConversationFacts.

(** ** Agent middleware *)

Section MiddlewarePassThrough.
Import Middleware.

Variables BufferTransform TextTransform World : Type.

Let middleware := AnyMiddleware BufferTransform TextTransform World.
Let isVoice := isVoiceMiddleware BufferTransform TextTransform World.

Lemma flat_map_voice {A : Type} (f : middleware -> list A)
  (ms : list middleware) :
  (forall m, isVoice m = false -> f m = []) ->
  flat_map f (filter isVoice ms) = flat_map f ms.
Proof.
  intros Hf. induction ms as [|m ms IH]; [reflexivity|].
  cbn [filter flat_map]. destruct (isVoice m) eqn:E.
  - cbn [flat_map]. rewrite IH. reflexivity.
  - rewrite (Hf m E), IH. reflexivity.
Qed.

(** X28. Every middleware is handed to the agent, voice middleware
    included, in the order given; and the standard agent middleware have
    no part in the voice pipeline: the four transform chains and the two
    event callbacks that [combineMiddleware] builds are those of the voice
    middleware alone. *)
Theorem agent_middleware_passes_through (ms : list middleware) :
  let combined := combineMiddleware ms in
  let voiceOnly := combineMiddleware (filter isVoice ms) in
  agentMiddleware combined = ms
  /\ combinedBeforeSTT combined = combinedBeforeSTT voiceOnly
  /\ combinedAfterSTT combined = combinedAfterSTT voiceOnly
  /\ combinedBeforeTTS combined = combinedBeforeTTS voiceOnly
  /\ combinedAfterTTS combined = combinedAfterTTS voiceOnly
  /\ combinedOnSpeechStart combined = combinedOnSpeechStart voiceOnly
  /\ combinedOnAudioComplete combined = combinedOnAudioComplete voiceOnly.
Proof.
  cbv zeta. unfold combineMiddleware. rewrite !collect_all.
  cbn [agentMiddleware combinedBeforeSTT combinedAfterSTT combinedBeforeTTS
       combinedAfterTTS combinedOnSpeechStart combinedOnAudioComplete
       c_beforeSTT c_afterSTT c_beforeTTS c_afterTTS c_agentMiddleware
       speechStartCallbacks audioCompleteCallbacks nothing app].
  rewrite !flat_map_voice;
    try (intros [n | n h] E; [reflexivity | discriminate E]).
  repeat split.
Qed.

End MiddlewarePassThrough.

(** ** The hang-up tool *)

Section HangUpToolFacts.
Import Agent.

Lemma no_hang_up_message_no_reason :
  forall (chunks : list Chunk) (reason : JsValue),
    forallb (fun chunk =>
               match hangUpEvent chunk with Some _ => false | None => true end)
      chunks = true ->
    fold_left
      (fun reason chunk =>
         match hangUpEvent chunk with Some r => r | None => reason end)
      chunks reason
    = reason.
Proof.
  induction chunks as [|chunk rest IH]; intros reason Hnone; [reflexivity|].
  cbn [forallb] in Hnone. apply andb_prop in Hnone.
  destruct Hnone as [Hone Hrest]. cbn [fold_left].
  destruct (hangUpEvent chunk); [discriminate Hone|]. apply IH. exact Hrest.
Qed.

(** X29. [onHangUp] is called only for a message named [hang_up]: a turn
    in whose stream no handled chunk carries exactly that name never calls
    [onHangUp], whatever tools ran and whatever they returned.  The result
    of a tool with any other name, such as the [end_conversation] tool of
    the career agent graph, is not a hang-up event. *)
Theorem hang_up_needs_a_hang_up_message
  (cb : Callbacks) (turn : Turn) (st : State) (text : string) :
  (forall events,
     streamed turn = Some events ->
     forallb (fun chunk =>
                match hangUpEvent chunk with Some _ => false | None => true end)
       (consumed events) = true) ->
  forallb (fun e => negb (isHangUp e)) (effectsOf (transform cb turn st text))
  = true
  /\ (forall tool reason,
        tool <> "hang_up"%string -> hangUpEvent (toolResult tool reason) = None).
Proof.
  intros Hnone. split.
  - unfold transform, effectsOf. destruct (stopped st); [reflexivity|].
    destruct (streamed turn) as [events|] eqn:Hs; [|reflexivity].
    rewrite consume_spec.
    rewrite (no_hang_up_message_no_reason _ _ (Hnone events eq_refl)).
    pose proof (scanTasks_no_hang_up cb
                  (match tasks turn with Some ts => ts | None => [] end)
                  JUndefined) as Hscan.
    destruct (scanTasks cb _ JUndefined) as [pending interruptEffects].
    cbn [fst snd isNull negb andb app forallb isHangUp] in *.
    rewrite forallb_app, enqueues_no_hang_up. cbn [forallb isHangUp negb andb].
    exact Hscan.
  - intros tool reason Hne. unfold hangUpEvent, toolResult. cbn [name].
    destruct (String.eqb_spec tool "hang_up"%string); [contradiction|].
    reflexivity.
Qed.

End HangUpToolFacts.

Section HangUpToolExamples.
Import Agent.
Local Open Scope string_scope.

Lemma end_conversation_is_no_hang_up :
  let turn :=
    {| streamed :=
         Some [(false, toolResult "end_conversation" "Conversation ended");
               (false, textChunk "Goodbye!")];
       tasks := Some [] |} in
  forallb (fun e => negb (isHangUp e))
    (effectsOf (transform allCallbacks turn ready "bye")) = true
  /\ hangUpEvent (toolResult "end_conversation" "Conversation ended") = None.
Proof.
  cbv zeta.
  destruct (hang_up_needs_a_hang_up_message allCallbacks
              {| streamed :=
                   Some [(false,
                          toolResult "end_conversation" "Conversation ended");
                         (false, textChunk "Goodbye!")];
                 tasks := Some [] |} ready "bye") as [H1 H2].
  - intros events E. injection E as <-. reflexivity.
  - split; [exact H1|]. apply H2. discriminate.
Defined.

End HangUpToolExamples.

